(** * Quantum-Walk GraphSAGE: a shallow embedding of the sampling and
      aggregation engine ([nn_modules.py], [models.py])

    Tensors of floats are modelled as nested lists over the real numbers
    (exact arithmetic stands for floating point), tensors of node ids as
    nested lists of natural numbers.  A tensor without rows is given width 0.
    Python exceptions are values of [exn]; a computation that may raise
    returns a [result].  The random number generators of torch and numpy are
    one abstract [RandomSource] whose state is threaded explicitly.  The
    mutable attributes of the model object ([quantum_neighbors], [all_amps],
    [all_graphs], [max_degrees], the coins of the walk layer) live in a state
    record that survives an exception, as attributes of a Python object do. *)

From Stdlib Require Import String Bool Arith ZArith List Lia Permutation.
From Stdlib Require Import Reals Lra.
Import ListNotations.

Set Implicit Arguments.
Unset Strict Implicit.

(** ** Python exceptions and fallible computations *)

Inductive exn : Type :=
| AssertionError (msg : string)
| IndexError
| RuntimeError
| TypeError
| ValueError
| ZeroDivisionError
| AttributeError.

Inductive result (A : Type) : Type :=
| Ok (a : A)
| Raise (e : exn).

Arguments Ok {A} a.
Arguments Raise {A} e.

Definition rbind {A B} (r : result A) (k : A -> result B) : result B :=
  match r with
  | Ok a => k a
  | Raise e => Raise e
  end.

Declare Scope result_scope.
Delimit Scope result_scope with res.
Notation "x <- r ;; k" := (rbind r (fun x => k))
  (at level 61, r at next level, right associativity) : result_scope.
Notation "'assert' b 'else' e ;; k" := (if b then k else Raise e)
  (at level 61, b at next level, e at next level, right associativity) : result_scope.

Local Open Scope result_scope.

Definition is_ok {A} (r : result A) : bool :=
  match r with Ok _ => true | Raise _ => false end.

(** [[f(x) for x in l]], stopping at the first exception. *)
Fixpoint mapM {A B} (f : A -> result B) (l : list A) : result (list B) :=
  match l with
  | [] => Ok []
  | a :: l' => b <- f a ;; bs <- mapM f l' ;; Ok (b :: bs)
  end.

(** A computation over mutable state [S]: the state survives an exception. *)
Definition M (S A : Type) : Type := S -> result A * S.

Definition ret {S A} (a : A) : M S A := fun s => (Ok a, s).
Definition throw {S A} (e : exn) : M S A := fun s => (Raise e, s).
Definition bind {S A B} (m : M S A) (k : A -> M S B) : M S B :=
  fun s => match m s with
           | (Ok a, s') => k a s'
           | (Raise e, s') => (Raise e, s')
           end.
Definition lift {S A} (r : result A) : M S A := fun s => (r, s).
Definition get_state {S} : M S S := fun s => (Ok s, s).
Definition modify {S} (f : S -> S) : M S unit := fun s => (Ok tt, f s).

Declare Scope monad_scope.
Delimit Scope monad_scope with monad.
Notation "x <- m ;; k" := (bind m (fun x => k))
  (at level 61, m at next level, right associativity) : monad_scope.
Notation "m ;;; k" := (bind m (fun _ => k))
  (at level 61, right associativity) : monad_scope.

(** ** Indexing and slicing *)

(** [l[i]] for a non-negative index. *)
Definition getitem {A} (l : list A) (i : nat) : result A :=
  match nth_error l i with
  | Some a => Ok a
  | None => Raise IndexError
  end.

(** [t[ids]]: the rows of [t] selected by an index tensor. *)
Definition index_select {A} (t : list A) (ids : list nat) : result (list A) :=
  mapM (getitem t) ids.

(** [t[:, perm]]: the columns of every row selected by [perm]. *)
Definition index_columns {A} (t : list (list A)) (perm : list nat) : result (list (list A)) :=
  mapM (fun row => index_select row perm) t.

(** [l[:n]] with Python's treatment of a negative or too large bound. *)
Definition slice_to {A} (n : Z) (l : list A) : list A :=
  if (n <? 0)%Z then firstn (length l - Z.to_nat (- n)) l
  else firstn (Z.to_nat n) l.

(** [t.size(0)] and [t.size(1)]. *)
Definition size0 {A} (t : list (list A)) : nat := length t.
Definition size1 {A} (t : list (list A)) : nat :=
  match t with
  | [] => 0
  | row :: _ => length row
  end.

(** [t] is a rectangular tensor of shape [(n, d)]. *)
Definition has_shape {A} (n d : nat) (t : list (list A)) : Prop :=
  length t = n /\ Forall (fun row => length row = d) t.

(** ** Random sources

    [randperm n] is [torch.randperm(n)]; [random_choice a n k] is
    [np.random.choice(a, (n, k))] for [a > 0]; [rand_tensor n d] is the
    random initial value of a learned parameter of shape [(n, d)]. *)

Class RandomSource (rng : Type) : Type := {
  randperm : nat -> rng -> list nat * rng;
  randperm_perm : forall n g, Permutation (fst (randperm n g)) (seq 0 n);
  random_choice : nat -> nat -> nat -> rng -> list (list nat) * rng;
  random_choice_shape : forall a n k g, has_shape n k (fst (random_choice a n k g));
  random_choice_range : forall a n k g, 0 < a ->
    Forall (Forall (fun c => c < a)) (fst (random_choice a n k g));
  rand_tensor : nat -> nat -> rng -> list (list R) * rng;
  rand_tensor_shape : forall n d g, has_shape n d (fst (rand_tensor n d g))
}.

(** ** Tensors of rank fixed only at run time

    [squeeze()] and the implicit dimension of [F.softmax] depend on the rank
    and the shape a tensor has at run time. *)

Inductive nd (A : Type) : Type :=
| T0 (x : A)
| T1 (v : list A)
| T2 (m : list (list A))
| T3 (t : list (list (list A))).

Arguments T0 {A} x.
Arguments T1 {A} v.
Arguments T2 {A} m.
Arguments T3 {A} t.

(** [t.contiguous().view(-1)] *)
Definition view_flat {A} (t : nd A) : list A :=
  match t with
  | T0 x => [x]
  | T1 v => v
  | T2 m => concat m
  | T3 t => concat (concat t)
  end.

Definition squeeze1 {A} (v : list A) : nd A :=
  match v with
  | [x] => T0 x
  | _ => T1 v
  end.

Definition squeeze2 {A} (m : list (list A)) : nd A :=
  if (length m =? 1) || (size1 m =? 1) then squeeze1 (concat m) else T2 m.

Definition squeeze3 {A} (t : list (list (list A))) : nd A :=
  let b := size1 t in
  let c := match t with [] => 0 | m :: _ => size1 m end in
  if (b =? 1) || (c =? 1) then squeeze2 (map (@concat A) t)
  else if length t =? 1 then squeeze2 (concat t)
  else T3 t.

(** [t.squeeze()]: every dimension of size 1 is removed. *)
Definition squeeze {A} (t : nd A) : nd A :=
  match t with
  | T0 x => T0 x
  | T1 v => squeeze1 v
  | T2 m => squeeze2 m
  | T3 t => squeeze3 t
  end.

(** [t.unsqueeze(-1)] raises above rank 3, the largest rank modelled. *)
Definition unsqueeze_last {A} (t : nd A) : result (nd A) :=
  match t with
  | T0 x => Ok (T1 [x])
  | T1 v => Ok (T2 (map (fun x => [x]) v))
  | T2 m => Ok (T3 (map (map (fun x => [x])) m))
  | T3 _ => Raise RuntimeError
  end.

(** ** Real-valued tensors *)

Abbreviation vec := (list R) (only parsing).
Abbreviation matrix := (list (list R)) (only parsing).
Abbreviation tensor3 := (list (list (list R))) (only parsing).
Abbreviation tensor4 := (list (list (list (list R)))) (only parsing).

Definition rsum (v : vec) : R := fold_right Rplus 0%R v.

Definition dot (u v : vec) : R :=
  rsum (map (fun p => (fst p * snd p)%R) (combine u v)).

(** [torch.zeros((n, d))] *)
Definition zeros (n d : nat) : matrix := repeat (repeat 0%R d) n.

Definition vadd (u v : vec) : vec := map (fun p => (fst p + snd p)%R) (combine u v).

(** The column sums of a list of rows of width [d]. *)
Definition colsum (d : nat) (m : matrix) : vec :=
  fold_right vadd (repeat 0%R d) m.

Definition transpose (d : nat) (m : matrix) : matrix :=
  map (fun j => map (fun row => nth j row 0%R) m) (seq 0 d).

(** [torch.matmul(a, b)] for two matrices. *)
Definition matmul (a b : matrix) : result matrix :=
  mapM (fun row =>
          assert (length row =? length b) else RuntimeError ;;
          Ok (map (dot row) (transpose (size1 b) b))) a.

(** [torch.cat(xs, dim=1)] *)
Fixpoint cat_dim1 (xs : list matrix) : result matrix :=
  match xs with
  | [] => Raise RuntimeError
  | [a] => Ok a
  | a :: rest =>
      r <- cat_dim1 rest ;;
      assert (length a =? length r) else RuntimeError ;;
      Ok (map (fun p => fst p ++ snd p) (combine a r))
  end.

(** The list cut into consecutive chunks of [k] elements; [n] chunks. *)
Fixpoint chunks {A} (k n : nat) (l : list A) : list (list A) :=
  match n with
  | 0 => []
  | S n' => firstn k l :: chunks k n' (skipn k l)
  end.

(** [t.view(b, -1, d)] *)
Definition view3 (b d : nat) (t : matrix) : result tensor3 :=
  let flat := concat t in
  assert negb (b * d =? 0) else RuntimeError ;;
  assert (length flat mod (b * d) =? 0) else RuntimeError ;;
  let k := length flat / (b * d) in
  Ok (chunks k b (chunks d (b * k) flat)).

(** [t.mean(dim=1)] and [t.max(dim=1)[0]] of a rank-3 tensor whose rows have
    width [d]. *)
Definition mean_dim1 (t : tensor3) : matrix :=
  map (fun m => map (fun s => (s / INR (length m))%R) (colsum (size1 m) m)) t.

Definition vmax (u v : vec) : vec := map (fun p => Rmax (fst p) (snd p)) (combine u v).

Definition max_dim1 (t : tensor3) : result matrix :=
  mapM (fun m => match m with
                 | [] => Raise RuntimeError
                 | row :: rest => Ok (fold_left vmax rest row)
                 end) t.

(** [torch.sum(t, dim=1)] *)
Definition sum_dim1 (t : tensor3) : matrix :=
  map (fun m => colsum (size1 m) m) t.

Definition relu (x : R) : R := Rmax 0 x.

(** *** [nn.Linear] *)

Record Linear : Type := {
  in_features : nat;
  out_features : nat;
  weight : matrix;
  bias : option vec
}.

Definition Linear_wf (l : Linear) : Prop :=
  has_shape (out_features l) (in_features l) (weight l) /\
  match bias l with
  | Some b => length b = out_features l
  | None => True
  end.

Definition Linear_row (l : Linear) (row : vec) : result vec :=
  assert (length row =? in_features l) else RuntimeError ;;
  let y := map (dot row) (weight l) in
  Ok (match bias l with Some b => vadd y b | None => y end).

Definition Linear_forward (l : Linear) (x : matrix) : result matrix :=
  mapM (Linear_row l) x.

(** A module applied to [None] fails on the first attribute access. *)
Definition expect {A} (x : option A) : result A :=
  match x with
  | Some a => Ok a
  | None => Raise AttributeError
  end.

(** [F.softmax] of a vector. *)
Definition softmax_vec (v : vec) : vec :=
  let total := rsum (map exp v) in
  map (fun x => (exp x / total)%R) v.

(** [F.softmax(t)] with no [dim]: torch picks dimension 0 for rank 0, 1 and
    3 and dimension 1 otherwise. *)
Definition softmax_dim0_3 (t : tensor3) : tensor3 :=
  let total (j c : nat) : R :=
    rsum (map (fun m => exp (nth c (nth j m []) 0%R)) t) in
  map (fun m =>
         map (fun jr => map (fun cx => (exp (snd cx) / total (fst jr) (fst cx))%R)
                            (combine (seq 0 (length (snd jr))) (snd jr)))
             (combine (seq 0 (length m)) m)) t.

Definition softmax_implicit (t : nd R) : nd R :=
  match t with
  | T0 x => T0 (exp x / exp x)%R
  | T1 v => T1 (softmax_vec v)
  | T2 m => T2 (map softmax_vec m)
  | T3 t => T3 (softmax_dim0_3 t)
  end.

(** [F.normalize(t, dim=1)]: every row divided by [max(norm, eps)] with
    torch's default [eps = 1e-12]. *)
Definition norm2 (v : vec) : R := sqrt (rsum (map (fun x => (x * x)%R) v)).

Definition normalize_eps : R := (/ 10 ^ 12)%R.

Definition normalize (t : matrix) : matrix :=
  map (fun row => map (fun x => (x / Rmax (norm2 row) normalize_eps)%R) row) t.

(** ** Adjacency tables

    The adjacency handed to a sampler is either a dense table
    ([torch.LongTensor]) or a [scipy.sparse.csr_matrix]; the rows of the
    sparse one are kept with their zeros, a zero being an entry that is not
    stored. *)

Inductive adjacency : Type :=
| DenseAdj (t : list (list nat))
| SparseAdj (m : list (list nat)).

Definition adj_rows (a : adjacency) : list (list nat) :=
  match a with
  | DenseAdj t => t
  | SparseAdj m => m
  end.

(** [sparse.issparse(adj)] *)
Definition issparse (a : adjacency) : bool :=
  match a with
  | DenseAdj _ => false
  | SparseAdj _ => true
  end.

(** [adj[i].data]: the row itself, or the stored entries of a sparse row. *)
Definition adj_row_data (a : adjacency) (i : nat) : result (list nat) :=
  row <- getitem (adj_rows a) i ;;
  Ok (match a with
      | DenseAdj _ => row
      | SparseAdj _ => filter (fun x => negb (x =? 0)) row
      end).

(** ** Samplers *)

(** *** [UniformNeighborSampler]: the dense neighbour table *)

Record UniformNeighborSampler : Type := {
  uns_adj : adjacency
}.

Definition UniformNeighborSampler_init (adj : adjacency) : UniformNeighborSampler :=
  {| uns_adj := adj |}.

(** *** [SparseUniformNeighborSampler] *)

Record SparseUniformNeighborSampler : Type := {
  suns_adj : list (list nat);
  suns_degrees : list nat
}.

Definition SparseUniformNeighborSampler_init (adj : adjacency)
  : result SparseUniformNeighborSampler :=
  match adj with
  | SparseAdj m =>
      Ok {| suns_adj := m;
            suns_degrees :=
              map (fun row => length (filter (fun x => negb (x =? 0)) row)) m |}
  | DenseAdj _ =>
      Raise (AssertionError "SparseUniformNeighborSampler: not sparse.issparse(adj)")
  end.

(** numpy's integer [%]: a zero divisor gives 0 (and a warning). *)
Definition np_mod (c d : nat) : nat := if d =? 0 then 0 else c mod d.

Inductive sampler : Type :=
| DenseSampler (s : UniformNeighborSampler)
| SparseSampler (s : SparseUniformNeighborSampler).

(** The keys of [sampler_lookup]. *)
Inductive sampler_class : Type :=
| uniform_neighbor_sampler
| sparse_uniform_neighbor_sampler.

(** [sampler_class(adj=adj)] *)
Definition sampler_new (c : sampler_class) (adj : adjacency) : result sampler :=
  match c with
  | uniform_neighbor_sampler => Ok (DenseSampler (UniformNeighborSampler_init adj))
  | sparse_uniform_neighbor_sampler =>
      s <- SparseUniformNeighborSampler_init adj ;; Ok (SparseSampler s)
  end.

Section Samplers.
Context {rng : Type} `{RandomSource rng}.
Local Open Scope monad_scope.

(** [torch.randperm(n)], [np.random.choice(a, (n, k))] and a fresh parameter
    as steps of a computation over the generator. *)
Definition draw_randperm (n : nat) : M rng (list nat) :=
  fun g => let (p, g') := randperm n g in (Ok p, g').

Definition draw_choice (a n k : nat) : M rng (list (list nat)) :=
  if a =? 0 then throw ValueError
  else fun g => let (s, g') := random_choice a n k g in (Ok s, g').

Definition draw_tensor (n d : nat) : M rng matrix :=
  fun g => let (t, g') := rand_tensor n d g in (Ok t, g').

(** [UniformNeighborSampler.__call__(self, ids, n_samples=-1)] *)
Definition UniformNeighborSampler_call (self : UniformNeighborSampler)
    (ids : list nat) (n_samples : option Z) : M rng (nd nat) :=
  let n_samples := match n_samples with Some n => n | None => (-1)%Z end in
  tmp <- lift (index_select (adj_rows (uns_adj self)) ids) ;;
  if issparse (uns_adj self) then throw TypeError else
  perm <- draw_randperm (size1 tmp) ;;
  tmp <- lift (index_columns tmp perm) ;;
  let tmp := map (slice_to n_samples) tmp in
  ret (T2 tmp).

(** [SparseUniformNeighborSampler.__call__(self, ids, n_samples=128)] *)
Definition SparseUniformNeighborSampler_call (self : SparseUniformNeighborSampler)
    (ids : list nat) (n_samples : option Z) : M rng (nd nat) :=
  let n_samples := match n_samples with Some n => n | None => 128%Z end in
  if negb (0 <? n_samples)%Z
  then throw (AssertionError "SparseUniformNeighborSampler: n_samples must be set explicitly")
  else
  tmp <- lift (index_select (suns_adj self) ids) ;;
  sel <- draw_choice (size1 (suns_adj self)) (length ids) (Z.to_nat n_samples) ;;
  degs <- lift (index_select (suns_degrees self) ids) ;;
  let sel := map (fun p => map (fun c => np_mod c (snd p)) (fst p)) (combine sel degs) in
  vals <- lift (mapM (fun p => index_select (fst p) (snd p)) (combine tmp sel)) ;;
  ret (squeeze (T2 [concat vals])).

Definition sampler_call (s : sampler) (ids : list nat) (n_samples : option Z)
  : M rng (nd nat) :=
  match s with
  | DenseSampler s => UniformNeighborSampler_call s ids n_samples
  | SparseSampler s => SparseUniformNeighborSampler_call s ids n_samples
  end.

(** [nn.Linear(in_features, out_features, bias=...)] with fresh weights. *)
Definition Linear_init (n_in n_out : nat) (with_bias : bool) : M rng Linear :=
  w <- draw_tensor n_out n_in ;;
  b <- (if with_bias then (b <- draw_tensor 1 n_out ;; ret (Some (concat b)))
        else ret None) ;;
  ret {| in_features := n_in; out_features := n_out; weight := w; bias := b |}.

End Samplers.

(** ** Feature preparers *)

Record IdentityPrep : Type := {
  ip_input_dim : nat
}.

Definition IdentityPrep_output_dim (self : IdentityPrep) : nat := ip_input_dim self.

Definition IdentityPrep_forward (self : IdentityPrep) (ids : list nat)
    (feats : option matrix) (layer_idx : nat) : result (option matrix) :=
  Ok feats.

(** [input_dim] 0 stands for both of Python's falsy values [None] and [0]. *)
Record NodeEmbeddingPrep : Type := {
  nep_n_nodes : nat;
  nep_input_dim : nat;
  nep_embedding_dim : nat;
  nep_embedding : matrix;
  nep_fc : Linear
}.

Definition NodeEmbeddingPrep_output_dim (self : NodeEmbeddingPrep) : nat :=
  if 0 <? nep_input_dim self
  then nep_input_dim self + nep_embedding_dim self
  else nep_embedding_dim self.

(** [nn.Embedding.forward] *)
Definition Embedding_forward (table : matrix) (ids : list nat) : result matrix :=
  index_select table ids.

(** The value of [embs] before the affine transform. *)
Definition NodeEmbeddingPrep_lookup (self : NodeEmbeddingPrep) (ids : list nat)
    (layer_idx : nat) : result matrix :=
  if 0 <? layer_idx then Embedding_forward (nep_embedding self) ids
  else Embedding_forward (nep_embedding self)
         (map (fun _ => 0 + nep_n_nodes self) ids).

Definition NodeEmbeddingPrep_forward (self : NodeEmbeddingPrep) (ids : list nat)
    (feats : option matrix) (layer_idx : nat) : result (option matrix) :=
  embs <- NodeEmbeddingPrep_lookup self ids layer_idx ;;
  embs <- Linear_forward (nep_fc self) embs ;;
  if 0 <? nep_input_dim self then
    match feats with
    | Some f => r <- cat_dim1 [f; embs] ;; Ok (Some r)
    | None => Raise TypeError
    end
  else Ok (Some embs).

Record LinearPrep : Type := {
  lp_fc : Linear;
  lp_output_dim : nat
}.

Definition LinearPrep_forward (self : LinearPrep) (ids : list nat)
    (feats : option matrix) (layer_idx : nat) : result (option matrix) :=
  f <- expect feats ;;
  r <- Linear_forward (lp_fc self) f ;;
  Ok (Some r).

Inductive prep : Type :=
| PrepIdentity (p : IdentityPrep)
| PrepNodeEmbedding (p : NodeEmbeddingPrep)
| PrepLinear (p : LinearPrep).

(** The keys of [prep_lookup]. *)
Inductive prep_class : Type :=
| identity
| node_embedding
| linear.

Definition prep_output_dim (p : prep) : nat :=
  match p with
  | PrepIdentity p => IdentityPrep_output_dim p
  | PrepNodeEmbedding p => NodeEmbeddingPrep_output_dim p
  | PrepLinear p => lp_output_dim p
  end.

Definition prep_forward (p : prep) (ids : list nat) (feats : option matrix)
    (layer_idx : nat) : result (option matrix) :=
  match p with
  | PrepIdentity p => IdentityPrep_forward p ids feats layer_idx
  | PrepNodeEmbedding p => NodeEmbeddingPrep_forward p ids feats layer_idx
  | PrepLinear p => LinearPrep_forward p ids feats layer_idx
  end.

Section PrepInit.
Context {rng : Type} `{RandomSource rng}.
Local Open Scope monad_scope.

Definition IdentityPrep_init (input_dim n_nodes : nat) : IdentityPrep :=
  {| ip_input_dim := input_dim |}.

(** [NodeEmbeddingPrep(input_dim, n_nodes, embedding_dim=64)] *)
Definition NodeEmbeddingPrep_init (input_dim n_nodes : nat) (embedding_dim : option nat)
  : M rng NodeEmbeddingPrep :=
  let embedding_dim := match embedding_dim with Some d => d | None => 64 end in
  emb <- draw_tensor (n_nodes + 1) embedding_dim ;;
  fc <- Linear_init embedding_dim embedding_dim true ;;
  ret {| nep_n_nodes := n_nodes; nep_input_dim := input_dim;
         nep_embedding_dim := embedding_dim; nep_embedding := emb; nep_fc := fc |}.

(** [LinearPrep(input_dim, n_nodes, output_dim=32)] *)
Definition LinearPrep_init (input_dim n_nodes : nat) (output_dim : option nat)
  : M rng LinearPrep :=
  let output_dim := match output_dim with Some d => d | None => 32 end in
  fc <- Linear_init input_dim output_dim false ;;
  ret {| lp_fc := fc; lp_output_dim := output_dim |}.

(** [prep_class(input_dim=input_dim, n_nodes=n_nodes)] *)
Definition prep_new (c : prep_class) (input_dim n_nodes : nat) : M rng prep :=
  match c with
  | identity => ret (PrepIdentity (IdentityPrep_init input_dim n_nodes))
  | node_embedding =>
      p <- NodeEmbeddingPrep_init input_dim n_nodes None ;; ret (PrepNodeEmbedding p)
  | linear => p <- LinearPrep_init input_dim n_nodes None ;; ret (PrepLinear p)
  end.

End PrepInit.

(** ** Aggregators *)

Definition combine_fn_t : Type := list matrix -> result matrix.

(** The default [combine_fn=lambda x: torch.cat(x, dim=1)]. *)
Definition default_combine_fn : combine_fn_t := cat_dim1.

(** An activation is an elementwise function or [None]. *)
Definition activation_t : Type := option (R -> R).

Definition apply_activation (act : activation_t) (out : matrix) : matrix :=
  match act with
  | Some f => map (map f) out
  | None => out
  end.

(** [AggregatorMixin.output_dim] *)
Definition AggregatorMixin_output_dim (output_dim_ : nat) (combine_fn : combine_fn_t)
  : result nat :=
  let tmp := zeros 1 output_dim_ in
  r <- combine_fn [tmp; tmp] ;;
  Ok (size1 r).

(** *** [MeanAggregator] *)

Record MeanAggregator : Type := {
  mean_fc_x : Linear;
  mean_fc_neib : Linear;
  mean_output_dim_ : nat;
  mean_activation : activation_t;
  mean_combine_fn : combine_fn_t
}.

Definition MeanAggregator_forward (self : MeanAggregator) (x neibs : option matrix)
  : result matrix :=
  neibs <- expect neibs ;;
  x <- expect x ;;
  agg_neib <- view3 (size0 x) (size1 neibs) neibs ;;
  let agg_neib := mean_dim1 agg_neib in
  a <- Linear_forward (mean_fc_x self) x ;;
  b <- Linear_forward (mean_fc_neib self) agg_neib ;;
  out <- mean_combine_fn self [a; b] ;;
  Ok (apply_activation (mean_activation self) out).

(** *** [PoolAggregator], [MaxPoolAggregator], [MeanPoolAggregator] *)

Record PoolAggregator : Type := {
  pool_mlp : Linear;
  pool_fc_x : Linear;
  pool_fc_neib : Linear;
  pool_output_dim_ : nat;
  pool_activation : activation_t;
  pool_pool_fn : tensor3 -> result matrix;
  pool_combine_fn : combine_fn_t
}.

(** [lambda x: x.max(dim=1)[0]] and [lambda x: x.mean(dim=1)] *)
Definition max_pool_fn (t : tensor3) : result matrix := max_dim1 t.
Definition mean_pool_fn (t : tensor3) : result matrix := Ok (mean_dim1 t).

Definition PoolAggregator_forward (self : PoolAggregator) (x neibs : option matrix)
  : result matrix :=
  neibs <- expect neibs ;;
  h_neibs <- Linear_forward (pool_mlp self) neibs ;;
  let h_neibs := map (map relu) h_neibs in
  x <- expect x ;;
  agg_neib <- view3 (size0 x) (size1 h_neibs) h_neibs ;;
  agg_neib <- pool_pool_fn self agg_neib ;;
  a <- Linear_forward (pool_fc_x self) x ;;
  b <- Linear_forward (pool_fc_neib self) agg_neib ;;
  out <- pool_combine_fn self [a; b] ;;
  Ok (apply_activation (pool_activation self) out).

(** *** [nn.LSTM], one layer, [batch_first=True] *)

Record LSTMDir : Type := {
  lstm_ih : Linear;
  lstm_hh : Linear
}.

Record LSTM : Type := {
  lstm_hidden_size : nat;
  lstm_forward_dir : LSTMDir;
  lstm_reverse_dir : option LSTMDir
}.

Definition sigmoid (x : R) : R := (1 / (1 + exp (- x)))%R.

Definition vmul (u v : vec) : vec := map (fun p => (fst p * snd p)%R) (combine u v).

(** One step of the cell: the gates are laid out as input, forget, cell,
    output. *)
Definition lstm_cell (hs : nat) (d : LSTMDir) (x : vec) (hc : vec * vec)
  : result (vec * vec) :=
  a <- Linear_row (lstm_ih d) x ;;
  b <- Linear_row (lstm_hh d) (fst hc) ;;
  let gates := vadd a b in
  let i := map sigmoid (firstn hs gates) in
  let f := map sigmoid (firstn hs (skipn hs gates)) in
  let g := map tanh (firstn hs (skipn (2 * hs) gates)) in
  let o := map sigmoid (firstn hs (skipn (3 * hs) gates)) in
  let c' := vadd (vmul f (snd hc)) (vmul i g) in
  Ok (vmul o (map tanh c'), c').

(** The hidden state after every step of a sequence. *)
Fixpoint lstm_scan (hs : nat) (d : LSTMDir) (xs : list vec) (hc : vec * vec)
  : result (list vec) :=
  match xs with
  | [] => Ok []
  | x :: xs' =>
      hc' <- lstm_cell hs d x hc ;;
      rest <- lstm_scan hs d xs' hc' ;;
      Ok (fst hc' :: rest)
  end.

(** The first component of [self.lstm(t)]: for every sequence and time step
    the hidden state, the two directions concatenated. *)
Definition LSTM_forward (l : LSTM) (t : tensor3) : result tensor3 :=
  let hs := lstm_hidden_size l in
  let h0 := (repeat 0%R hs, repeat 0%R hs) in
  mapM (fun xs =>
          fw <- lstm_scan hs (lstm_forward_dir l) xs h0 ;;
          match lstm_reverse_dir l with
          | None => Ok fw
          | Some d =>
              bw <- lstm_scan hs d (rev xs) h0 ;;
              Ok (map (fun p => fst p ++ snd p) (combine fw (rev bw)))
          end) t.

(** *** [LSTMAggregator] *)

Record LSTMAggregator : Type := {
  lstmagg_lstm : LSTM;
  lstmagg_fc_x : Linear;
  lstmagg_fc_neib : Linear;
  lstmagg_output_dim_ : nat;
  lstmagg_activation : activation_t;
  lstmagg_combine_fn : combine_fn_t
}.

(** [m[-1]] *)
Definition last_item {A} (l : list A) : result A :=
  match rev l with
  | [] => Raise IndexError
  | a :: _ => Ok a
  end.

Definition LSTMAggregator_forward (self : LSTMAggregator) (x neibs : option matrix)
  : result matrix :=
  x <- expect x ;;
  x_emb <- Linear_forward (lstmagg_fc_x self) x ;;
  neibs <- expect neibs ;;
  agg_neib <- view3 (size0 x) (size1 neibs) neibs ;;
  agg_neib <- LSTM_forward (lstmagg_lstm self) agg_neib ;;
  agg_neib <- mapM (@last_item vec) agg_neib ;;
  neib_emb <- Linear_forward (lstmagg_fc_neib self) agg_neib ;;
  out <- lstmagg_combine_fn self [x_emb; neib_emb] ;;
  Ok (apply_activation (lstmagg_activation self) out).

(** *** [AttentionAggregator] *)

Record AttentionAggregator : Type := {
  att_1 : Linear;
  att_2 : Linear;
  att_fc_x : Linear;
  att_fc_neib : Linear;
  att_output_dim_ : nat;
  att_activation : activation_t;
  att_combine_fn : combine_fn_t
}.

(** [self.att]: linear, tanh, linear. *)
Definition att_forward (self : AttentionAggregator) (x : matrix) : result matrix :=
  h <- Linear_forward (att_1 self) x ;;
  Linear_forward (att_2 self) (map (map tanh) h).

(** [torch.bmm] *)
Definition bmm (a b : tensor3) : result tensor3 :=
  assert (length a =? length b) else RuntimeError ;;
  mapM (fun p => matmul (fst p) (snd p)) (combine a b).

Definition shape3 (t : tensor3) : nat * nat * nat :=
  (length t, size1 t, match t with [] => 0 | m :: _ => size1 m end).

(** The size two broadcast dimensions agree on. *)
Definition bdim (a b : nat) : result nat :=
  if a =? b then Ok a
  else if a =? 1 then Ok b
  else if b =? 1 then Ok a
  else Raise RuntimeError.

(** The entry a broadcast tensor shows at an index. *)
Definition bget3 (t : tensor3) (i j c : nat) : R :=
  let '(a, b, d) := shape3 t in
  nth (if d =? 1 then 0 else c)
      (nth (if b =? 1 then 0 else j) (nth (if a =? 1 then 0 else i) t []) [])
      0%R.

Definition as_rank3 (w : nd R) : tensor3 :=
  match w with
  | T0 c => [[[c]]]
  | T1 v => [[v]]
  | T2 m => [m]
  | T3 t => t
  end.

(** [x * w] for a rank-3 [x] and a [w] of rank at most 3, with broadcasting. *)
Definition broadcast_mul3 (x : tensor3) (w : nd R) : result tensor3 :=
  let w := as_rank3 w in
  let '(a1, b1, c1) := shape3 x in
  let '(a2, b2, c2) := shape3 w in
  a <- bdim a1 a2 ;;
  b <- bdim b1 b2 ;;
  c <- bdim c1 c2 ;;
  Ok (map (fun i =>
             map (fun j =>
                    map (fun k => (bget3 x i j k * bget3 w i j k)%R) (seq 0 c))
                 (seq 0 b))
          (seq 0 a)).

(** The attention weights [ws] of [AttentionAggregator.forward]. *)
Definition AttentionAggregator_weights (self : AttentionAggregator) (x neibs : matrix)
  : result (nd R) :=
  neib_att <- att_forward self neibs ;;
  x_att <- att_forward self x ;;
  neib_att <- view3 (size0 x) (size1 neib_att) neib_att ;;
  let x_att : tensor3 := map (map (fun v => [v])) x_att in
  scores <- bmm neib_att x_att ;;
  Ok (softmax_implicit (squeeze (T3 scores))).

Definition AttentionAggregator_forward (self : AttentionAggregator) (x neibs : option matrix)
  : result matrix :=
  neibs <- expect neibs ;;
  x <- expect x ;;
  ws <- AttentionAggregator_weights self x neibs ;;
  agg_neib <- view3 (size0 x) (size1 neibs) neibs ;;
  ws <- unsqueeze_last ws ;;
  agg_neib <- broadcast_mul3 agg_neib ws ;;
  let agg_neib := sum_dim1 agg_neib in
  a <- Linear_forward (att_fc_x self) x ;;
  b <- Linear_forward (att_fc_neib self) agg_neib ;;
  out <- att_combine_fn self [a; b] ;;
  Ok (apply_activation (att_activation self) out).

(** *** The aggregator interface *)

Inductive aggregator : Type :=
| AggMean (a : MeanAggregator)
| AggPool (a : PoolAggregator)
| AggLSTM (a : LSTMAggregator)
| AggAttention (a : AttentionAggregator).

(** The keys of [aggregator_lookup]. *)
Inductive aggregator_class : Type :=
| mean
| max_pool
| mean_pool
| lstm
| attention.

Definition agg_output_dim_ (a : aggregator) : nat :=
  match a with
  | AggMean a => mean_output_dim_ a
  | AggPool a => pool_output_dim_ a
  | AggLSTM a => lstmagg_output_dim_ a
  | AggAttention a => att_output_dim_ a
  end.

Definition agg_combine_fn (a : aggregator) : combine_fn_t :=
  match a with
  | AggMean a => mean_combine_fn a
  | AggPool a => pool_combine_fn a
  | AggLSTM a => lstmagg_combine_fn a
  | AggAttention a => att_combine_fn a
  end.

(** The property [output_dim] every aggregator inherits from the mixin. *)
Definition agg_output_dim (a : aggregator) : result nat :=
  AggregatorMixin_output_dim (agg_output_dim_ a) (agg_combine_fn a).

Definition agg_forward (a : aggregator) (x neibs : option matrix) : result matrix :=
  match a with
  | AggMean a => MeanAggregator_forward a x neibs
  | AggPool a => PoolAggregator_forward a x neibs
  | AggLSTM a => LSTMAggregator_forward a x neibs
  | AggAttention a => AttentionAggregator_forward a x neibs
  end.

Section AggregatorInit.
Context {rng : Type} `{RandomSource rng}.
Local Open Scope monad_scope.

Definition MeanAggregator_init (input_dim output_dim : nat) (activation : activation_t)
    (combine_fn : option combine_fn_t) : M rng MeanAggregator :=
  let combine_fn := match combine_fn with Some c => c | None => default_combine_fn end in
  fc_x <- Linear_init input_dim output_dim false ;;
  fc_neib <- Linear_init input_dim output_dim false ;;
  ret {| mean_fc_x := fc_x; mean_fc_neib := fc_neib; mean_output_dim_ := output_dim;
         mean_activation := activation; mean_combine_fn := combine_fn |}.

(** [PoolAggregator(input_dim, output_dim, pool_fn, activation,
    hidden_dim=512, combine_fn=...)] *)
Definition PoolAggregator_init (input_dim output_dim : nat)
    (pool_fn : tensor3 -> result matrix) (activation : activation_t)
    (hidden_dim : option nat) (combine_fn : option combine_fn_t) : M rng PoolAggregator :=
  let hidden_dim := match hidden_dim with Some h => h | None => 512 end in
  let combine_fn := match combine_fn with Some c => c | None => default_combine_fn end in
  mlp <- Linear_init input_dim hidden_dim true ;;
  fc_x <- Linear_init input_dim output_dim false ;;
  fc_neib <- Linear_init hidden_dim output_dim false ;;
  ret {| pool_mlp := mlp; pool_fc_x := fc_x; pool_fc_neib := fc_neib;
         pool_output_dim_ := output_dim; pool_activation := activation;
         pool_pool_fn := pool_fn; pool_combine_fn := combine_fn |}.

Definition MaxPoolAggregator_init (input_dim output_dim : nat) (activation : activation_t)
    (hidden_dim : option nat) (combine_fn : option combine_fn_t) : M rng PoolAggregator :=
  let hidden_dim := match hidden_dim with Some h => h | None => 512 end in
  let combine_fn := match combine_fn with Some c => c | None => default_combine_fn end in
  PoolAggregator_init input_dim output_dim max_pool_fn activation
    (Some hidden_dim) (Some combine_fn).

Definition MeanPoolAggregator_init (input_dim output_dim : nat) (activation : activation_t)
    (hidden_dim : option nat) (combine_fn : option combine_fn_t) : M rng PoolAggregator :=
  let hidden_dim := match hidden_dim with Some h => h | None => 512 end in
  let combine_fn := match combine_fn with Some c => c | None => default_combine_fn end in
  PoolAggregator_init input_dim output_dim mean_pool_fn activation
    (Some hidden_dim) (Some combine_fn).

Definition LSTMDir_init (input_size hidden_size : nat) : M rng LSTMDir :=
  ih <- Linear_init input_size (4 * hidden_size) true ;;
  hh <- Linear_init hidden_size (4 * hidden_size) true ;;
  ret {| lstm_ih := ih; lstm_hh := hh |}.

(** [nn.LSTM(input_size, hidden_size, bidirectional=..., batch_first=True)] *)
Definition LSTM_init (input_size hidden_size : nat) (bidirectional : bool) : M rng LSTM :=
  fw <- LSTMDir_init input_size hidden_size ;;
  bw <- (if bidirectional then (d <- LSTMDir_init input_size hidden_size ;; ret (Some d))
         else ret None) ;;
  ret {| lstm_hidden_size := hidden_size; lstm_forward_dir := fw; lstm_reverse_dir := bw |}.

(** [LSTMAggregator(input_dim, output_dim, activation, hidden_dim=512,
    bidirectional=False, combine_fn=...)] *)
Definition LSTMAggregator_init (input_dim output_dim : nat) (activation : activation_t)
    (hidden_dim : option nat) (bidirectional : option bool)
    (combine_fn : option combine_fn_t) : M rng LSTMAggregator :=
  let hidden_dim := match hidden_dim with Some h => h | None => 512 end in
  let bidirectional := match bidirectional with Some b => b | None => false end in
  let combine_fn := match combine_fn with Some c => c | None => default_combine_fn end in
  if negb (hidden_dim mod 2 =? 0)
  then throw (AssertionError "LSTMAggregator: hiddem_dim % 2 != 0")
  else
  l <- LSTM_init input_dim (hidden_dim / (1 + Nat.b2n bidirectional)) bidirectional ;;
  fc_x <- Linear_init input_dim output_dim false ;;
  fc_neib <- Linear_init hidden_dim output_dim false ;;
  ret {| lstmagg_lstm := l; lstmagg_fc_x := fc_x; lstmagg_fc_neib := fc_neib;
         lstmagg_output_dim_ := output_dim; lstmagg_activation := activation;
         lstmagg_combine_fn := combine_fn |}.

(** [AttentionAggregator(input_dim, output_dim, activation, hidden_dim=32,
    combine_fn=...)] *)
Definition AttentionAggregator_init (input_dim output_dim : nat) (activation : activation_t)
    (hidden_dim : option nat) (combine_fn : option combine_fn_t)
  : M rng AttentionAggregator :=
  let hidden_dim := match hidden_dim with Some h => h | None => 32 end in
  let combine_fn := match combine_fn with Some c => c | None => default_combine_fn end in
  a1 <- Linear_init input_dim hidden_dim false ;;
  a2 <- Linear_init hidden_dim hidden_dim false ;;
  fc_x <- Linear_init input_dim output_dim false ;;
  fc_neib <- Linear_init input_dim output_dim false ;;
  ret {| att_1 := a1; att_2 := a2; att_fc_x := fc_x; att_fc_neib := fc_neib;
         att_output_dim_ := output_dim; att_activation := activation;
         att_combine_fn := combine_fn |}.

(** [aggregator_class(input_dim=..., output_dim=..., activation=...)] *)
Definition aggregator_new (c : aggregator_class) (input_dim output_dim : nat)
    (activation : activation_t) : M rng aggregator :=
  match c with
  | mean =>
      a <- MeanAggregator_init input_dim output_dim activation None ;; ret (AggMean a)
  | max_pool =>
      a <- MaxPoolAggregator_init input_dim output_dim activation None None ;;
      ret (AggPool a)
  | mean_pool =>
      a <- MeanPoolAggregator_init input_dim output_dim activation None None ;;
      ret (AggPool a)
  | lstm =>
      a <- LSTMAggregator_init input_dim output_dim activation None None None ;;
      ret (AggLSTM a)
  | attention =>
      a <- AttentionAggregator_init input_dim output_dim activation None None ;;
      ret (AggAttention a)
  end.

End AggregatorInit.

(** ** The quantum walk engine *)

(** A batch of local graphs: shape [(batch_size, graph_size, graph_size)],
    entries 0 and 1. *)
Abbreviation graph := (list (list nat)) (only parsing).

(** [np.isin(xs, row).astype(int)] *)
Definition isin (xs row : list nat) : list nat :=
  map (fun x => if existsb (Nat.eqb x) row then 1 else 0) xs.

(** [new_graph[i, :] = vals]: a single value is broadcast along the row. *)
Definition assign_row (gs : nat) (vals : list nat) : result (list nat) :=
  if length vals =? gs then Ok vals
  else if length vals =? 1 then Ok (repeat (hd 0 vals) gs)
  else Raise RuntimeError.

(** The body of the first loop: the local graph over one chunk of ids. *)
Definition local_graph (adj : adjacency) (gs : nat) (graph_ids : list nat) : result graph :=
  rows <- mapM (fun id => data <- adj_row_data adj id ;;
                          assign_row gs (isin graph_ids data)) graph_ids ;;
  Ok (rows ++ repeat (repeat 0 gs) (gs - length graph_ids)).

(** [l[i] = v] *)
Definition set_item {A} (l : list A) (i : nat) (v : A) : result (list A) :=
  if i <? length l then Ok (firstn i l ++ v :: skipn (S i) l)
  else Raise IndexError.

Fixpoint fill_graphs (adj : adjacency) (gs : nat) (cs : list (list nat)) (c : nat)
    (graphs : list graph) : result (list graph) :=
  match cs with
  | [] => Ok graphs
  | graph_ids :: cs' =>
      g <- local_graph adj gs graph_ids ;;
      graphs <- set_item graphs c g ;;
      fill_graphs adj gs cs' (S c) graphs
  end.

(** [np.int(np.max(np.sum(g.numpy(), 1)))] *)
Definition max_row_sum (g : graph) : nat :=
  fold_right Nat.max 0 (map (@list_sum) g).

Definition max_degree (graphs : list graph) : nat :=
  fold_left (fun degree g => let d := max_row_sum g in
                             if degree <? d then d else degree) graphs 0.

(** The amplitudes of node [j] of one graph, shape [(degree, graph_size)]:
    [amps[j, :jdegree, j] = 1. / np.sqrt(jdegree)] unless [jdegree == 0]. *)
Definition init_amps_node (gs degree j : nat) (row : list nat) : matrix :=
  let jdegree := list_sum row in
  if jdegree =? 0 then repeat (repeat 0%R gs) degree
  else map (fun s =>
              map (fun v => if (s <? jdegree) && (v =? j)
                            then (1 / sqrt (INR jdegree))%R else 0%R)
                  (seq 0 gs))
           (seq 0 degree).

Definition init_amps_graph (degree : nat) (g : graph) : tensor3 :=
  map (fun jr => init_amps_node (length g) degree (fst jr) (snd jr))
      (combine (seq 0 (length g)) g).

(** [GenerateQuantumWalkGraphs(adj, tmp, batch_size, graph_size)], read with
    Python 2's integer [/] in [graphs[edgelist/graph_size]]. *)
Definition GenerateQuantumWalkGraphs (adj : adjacency) (tmp : list nat)
    (batch_size graph_size : nat) : result (tensor4 * list graph * nat) :=
  let graphs := repeat (repeat (repeat 0 graph_size) graph_size) batch_size in
  assert negb (graph_size =? 0) else ValueError ;;
  let n_chunks := (length tmp + graph_size - 1) / graph_size in
  graphs <- fill_graphs adj graph_size (chunks graph_size n_chunks tmp) 0 graphs ;;
  let degree := max_degree graphs in
  let all_amps := map (init_amps_graph degree) graphs in
  Ok (all_amps, graphs, degree).

(** [groverDiffusion(n)]: [2./n] raises for [n = 0]. *)
Definition groverDiffusion (n : nat) : result matrix :=
  if n =? 0 then Raise ZeroDivisionError
  else Ok (map (fun i =>
                  map (fun j => if i =? j then (-1 + 2 / INR n)%R
                                else (1 * 2 / INR n)%R)
                      (seq 0 n))
               (seq 0 n)).

(** Loops over a list inside a stateful computation. *)
Fixpoint forM_ {S A} (l : list A) (body : A -> M S unit) : M S unit :=
  match l with
  | [] => ret tt
  | a :: l' => bind (body a) (fun _ => forM_ l' body)
  end.

Fixpoint mapMM {S A B} (f : A -> M S B) (l : list A) : M S (list B) :=
  match l with
  | [] => ret []
  | a :: l' => bind (f a) (fun b => bind (mapMM f l') (fun bs => ret (b :: bs)))
  end.

(** [np.argwhere(row == 1).flatten()] *)
Definition argwhere_one (row : list nat) : list nat :=
  map fst (filter (fun p => snd p =? 1) (combine (seq 0 (length row)) row)).

Definition incr_at (v : nat) (inds : list nat) : list nat :=
  map (fun p => if fst p =? v then S (snd p) else snd p)
      (combine (seq 0 (length inds)) inds).

(** The pairs [(swap_a[m], swap_b[m])] built for one graph. *)
Definition swap_indices (n_nodes degree : nat) (g : graph) : result (list (nat * nat)) :=
  r <- fold_left
         (fun acc j =>
            st <- acc ;;
            row <- getitem g j ;;
            let neighbors := argwhere_one row in
            Ok (fold_left
                  (fun (st : list (nat * nat) * list nat) n =>
                     match nth_error neighbors n with
                     | Some v => (fst st ++ [(v, nth v (snd st) 0)], incr_at v (snd st))
                     | None => (fst st ++ [(j, n)], snd st)
                     end)
                  (seq 0 degree) st))
         (seq 0 n_nodes) (Ok ([], repeat 0 n_nodes)) ;;
  Ok (fst r).

(** [torch.matmul(m.permute(1, 0), coin).permute(1, 0)] on the amplitudes of
    one node. *)
Definition coin_apply (coin m : matrix) : result matrix :=
  r <- matmul (transpose (size1 m) m) coin ;;
  Ok (transpose (size1 r) r).

(** [ai[swap_a, swap_b].view((1,) + init_amps.size()[1:])[0]] *)
Definition swap_apply (init_amps : tensor4) (ai : tensor3) (sw : list (nat * nat))
  : result tensor3 :=
  rows <- mapM (fun pq => m <- getitem ai (fst pq) ;; getitem m (snd pq)) sw ;;
  let '(n1, n2, n3) :=
    match init_amps with
    | [] => (0, 0, 0)
    | t :: _ => shape3 t
    end in
  let flat := concat rows in
  assert (length flat =? n1 * n2 * n3) else RuntimeError ;;
  Ok (chunks n2 n1 (chunks n3 (n1 * n2) flat)).

Section QuantumWalk.
Local Open Scope monad_scope.

(** The state of a [QuantumWalk] module: its [coins]. *)
Definition QuantumWalk_alloc (time_steps degree : nat) : M (list matrix) unit :=
  coins <- get_state ;;
  if (length coins =? 0) || (length coins =? time_steps) then
    forM_ (seq 0 time_steps)
          (fun _ => g <- lift (groverDiffusion degree) ;;
                    modify (fun cs => cs ++ [g]))
  else ret tt.

(** One time step: coin operator, then swap operator. *)
Definition QuantumWalk_step (init_amps : tensor4) (graphs : list graph)
    (time_steps degree : nat) (coins : list matrix) (amps : tensor4) (t : nat)
  : result tensor4 :=
  (c0 <- getitem coins 0 ;;
   coin <- (if length c0 =? degree then getitem coins t
            else getitem coins (t + time_steps)) ;;
   a <- mapM (mapM (coin_apply coin)) amps ;;
   app <- mapM (fun i =>
                  ai <- getitem a i ;;
                  g <- getitem graphs i ;;
                  sw <- swap_indices (size1 graphs) degree g ;;
                  swap_apply init_amps ai sw)
               (seq 0 (length amps)) ;;
   assert negb (length app =? 0) else RuntimeError ;;
   Ok app)%res.

(** [QuantumWalk.forward(x, neibs, init_amps, graphs, time_steps, degree)] *)
Definition QuantumWalk_forward (x neibs : option matrix) (init_amps : tensor4)
    (graphs : list graph) (time_steps degree : nat) : M (list matrix) matrix :=
  QuantumWalk_alloc time_steps degree ;;;
  coins <- get_state ;;
  amps <- lift (fold_left
                  (fun acc t => (amps <- acc ;;
                                 QuantumWalk_step init_amps graphs time_steps degree
                                                  coins amps t)%res)
                  (seq 0 time_steps) (Ok init_amps)) ;;
  let d : tensor3 :=
    map (fun node_amps =>
           map (fun m => colsum (size1 m) (map (fun row => vmul row row) m)) node_amps)
        amps in
  let dt := map (fun m => transpose (size1 m) m) d in
  neibs <- lift (expect neibs) ;;
  x <- lift (expect x) ;;
  neibs <- lift (view3 (length dt) (size1 x) neibs) ;;
  quant_neibs <- lift (bmm dt neibs) ;;
  ret (concat quant_neibs).

End QuantumWalk.

(** ** The model: [GSSupervised] *)

(** One record of [layer_specs]. *)
Record layer_spec : Type := {
  n_train_samples : Z;
  n_val_samples : Z;
  output_dim : nat;
  activation : activation_t
}.

(** The attributes [__init__] sets and [forward] only reads.  A sample
    function [partial(sampler, n_samples=s)] is kept as its bound [s].  The
    optimizer and the learning-rate schedule are outside the engine.
    [gs_adj] and [gs_train_adj] hold the constructor's arguments [adj] and
    [train_adj]; [forward] reads them on a quantum-walk model only.
    [__init__] sets [self.time_steps] inside [if self.quantum_walk:] only:
    [None] stands for the missing attribute. *)
Record GSSupervised : Type := {
  train_sampler : sampler;
  val_sampler : sampler;
  train_sample_fns : list Z;
  val_sample_fns : list Z;
  gs_prep : prep;
  quantum_walk : bool;
  gs_adj : adjacency;
  gs_train_adj : adjacency;
  time_steps : option nat;
  agg_layers : list aggregator;
  gs_fc : Linear
}.

(** The attributes [forward] writes, the coins of [walk_layer] and the
    random generator. *)
Record model_state (rng : Type) : Type := {
  st_rng : rng;
  quantum_neighbors : bool;
  all_amps : list tensor4;
  all_graphs : list (list graph);
  max_degrees : list nat;
  coins : list matrix
}.

Arguments st_rng {rng} m.
Arguments quantum_neighbors {rng} m.
Arguments all_amps {rng} m.
Arguments all_graphs {rng} m.
Arguments max_degrees {rng} m.
Arguments coins {rng} m.

(** [F.normalize] and the classifier head on the single surviving group. *)
Definition classify (self : GSSupervised) (all_feats : list (option matrix))
  : result matrix :=
  assert (length all_feats =? 1) else AssertionError "len(all_feats) != 1" ;;
  f <- getitem all_feats 0 ;;
  f <- expect f ;;
  let out := normalize f in
  Linear_forward (gs_fc self) out.

(** [feats[ids] if has_feats else None] *)
Definition select_feats (feats : option matrix) (ids : list nat) : result (option matrix) :=
  match feats with
  | Some f => r <- index_select f ids ;; Ok (Some r)
  | None => Ok None
  end.

(** [int(len(ids) / original_id_len)] under [from __future__ import division]. *)
Definition int_div (a b : nat) : result nat :=
  if b =? 0 then Raise ZeroDivisionError else Ok (a / b).

Section Model.
Context {rng : Type} `{RandomSource rng}.
Local Open Scope monad_scope.

Definition with_rng {A} (m : M rng A) : M (model_state rng) A :=
  fun st =>
    let (r, g) := m (st_rng st) in
    (r, {| st_rng := g; quantum_neighbors := quantum_neighbors st;
           all_amps := all_amps st; all_graphs := all_graphs st;
           max_degrees := max_degrees st; coins := coins st |}).

Definition with_coins {A} (m : M (list matrix) A) : M (model_state rng) A :=
  fun st =>
    let (r, cs) := m (coins st) in
    (r, {| st_rng := st_rng st; quantum_neighbors := quantum_neighbors st;
           all_amps := all_amps st; all_graphs := all_graphs st;
           max_degrees := max_degrees st; coins := cs |}).

(** [self.all_amps.append(amps); self.all_graphs.append(graphs);
    self.max_degrees.append(max_degree)] *)
Definition append_walk_records (amps : tensor4) (graphs : list graph) (degree : nat)
  : M (model_state rng) unit :=
  modify (fun st =>
            {| st_rng := st_rng st; quantum_neighbors := quantum_neighbors st;
               all_amps := all_amps st ++ [amps];
               all_graphs := all_graphs st ++ [graphs];
               max_degrees := max_degrees st ++ [degree];
               coins := coins st |}).

(** [self.quantum_neighbors = b] *)
Definition set_quantum_neighbors (b : bool) : M (model_state rng) unit :=
  modify (fun st =>
            {| st_rng := st_rng st; quantum_neighbors := b;
               all_amps := all_amps st; all_graphs := all_graphs st;
               max_degrees := max_degrees st; coins := coins st |}).

Fixpoint build_agg_layers (c : aggregator_class) (input_dim : nat)
    (layer_specs : list layer_spec) : M rng (list aggregator * nat) :=
  match layer_specs with
  | [] => ret ([], input_dim)
  | spec :: rest =>
      agg <- aggregator_new c input_dim (output_dim spec) (activation spec) ;;
      input_dim <- lift (agg_output_dim agg) ;;
      r <- build_agg_layers c input_dim rest ;;
      ret (agg :: fst r, snd r)
  end.

(** [GSSupervised.__init__], up to the optimizer. *)
Definition GSSupervised_init (input_dim n_nodes n_classes : nat)
    (layer_specs : list layer_spec) (aggregator_class : aggregator_class)
    (prep_class : prep_class) (sampler_class : sampler_class)
    (adj train_adj : adjacency) (quantum_walk : bool) : M rng GSSupervised :=
  train_sampler <- lift (sampler_new sampler_class train_adj) ;;
  val_sampler <- lift (sampler_new sampler_class adj) ;;
  let train_sample_fns := map n_train_samples layer_specs in
  let val_sample_fns := map n_val_samples layer_specs in
  prep <- prep_new prep_class input_dim n_nodes ;;
  let input_dim := prep_output_dim prep in
  r <- build_agg_layers aggregator_class input_dim layer_specs ;;
  fc <- Linear_init (snd r) n_classes true ;;
  ret {| train_sampler := train_sampler; val_sampler := val_sampler;
         train_sample_fns := train_sample_fns; val_sample_fns := val_sample_fns;
         gs_prep := prep; quantum_walk := quantum_walk;
         gs_adj := adj; gs_train_adj := train_adj;
         time_steps := if quantum_walk then Some 4 else None;
         agg_layers := fst r; gs_fc := fc |}.

(** The mutable attributes as [__init__] leaves them. *)
Definition initial_state (self : GSSupervised) (g : rng) : model_state rng :=
  {| st_rng := g; quantum_neighbors := quantum_walk self;
     all_amps := []; all_graphs := []; max_degrees := []; coins := [] |}.

(** The sampling loop of [forward], from layer [layer_idx] on. *)
Fixpoint sample_layers (self : GSSupervised) (smp : sampler) (adj : adjacency)
    (feats : option matrix) (original_id_len : nat) (layer_idx : nat)
    (sample_fns : list Z) (ids : list nat) (all_feats : list (option matrix))
  : M (model_state rng) (list (option matrix)) :=
  match sample_fns with
  | [] => ret all_feats
  | n_samples :: rest =>
      t <- with_rng (sampler_call smp ids (Some n_samples)) ;;
      let ids := view_flat t in
      st <- get_state ;;
      (if quantum_neighbors st then
         gsz <- lift (int_div (length ids) original_id_len) ;;
         r <- lift (GenerateQuantumWalkGraphs adj ids original_id_len gsz) ;;
         let '(amps, graphs, max_degree) := r in
         append_walk_records amps graphs max_degree
       else ret tt) ;;;
      tmp_feats <- lift (select_feats feats ids) ;;
      f <- lift (prep_forward (gs_prep self) ids tmp_feats (layer_idx + 1)) ;;
      sample_layers self smp adj feats original_id_len (S layer_idx) rest ids
                    (all_feats ++ [f])
  end.

(** One aggregation layer applied to every adjacent pair of groups. *)
Definition aggregate_layer (self : GSSupervised) (agg_layer : aggregator)
    (all_feats : list (option matrix)) : M (model_state rng) (list (option matrix)) :=
  mapMM (fun k =>
           xk <- lift (getitem all_feats k) ;;
           if quantum_walk self then
             xk1 <- lift (getitem all_feats (k + 1)) ;;
             st <- get_state ;;
             amps <- lift (getitem (all_amps st) k) ;;
             graphs <- lift (getitem (all_graphs st) k) ;;
             n_steps <- lift (expect (time_steps self)) ;;
             degree <- lift (getitem (max_degrees st) k) ;;
             q <- with_coins (QuantumWalk_forward xk xk1 amps graphs
                                                  n_steps degree) ;;
             r <- lift (agg_forward agg_layer xk (Some q)) ;;
             ret (Some r)
           else
             xk1 <- lift (getitem all_feats (k + 1)) ;;
             r <- lift (agg_forward agg_layer xk xk1) ;;
             ret (Some r))
        (seq 0 (length all_feats - 1)).

Fixpoint aggregate_layers (self : GSSupervised) (layers : list aggregator)
    (all_feats : list (option matrix)) : M (model_state rng) (list (option matrix)) :=
  match layers with
  | [] => ret all_feats
  | agg_layer :: rest =>
      all_feats <- aggregate_layer self agg_layer all_feats ;;
      aggregate_layers self rest all_feats
  end.

(** The feature groups of [forward] before aggregation. *)
Definition forward_groups (self : GSSupervised) (ids : list nat) (feats : option matrix)
    (train : bool) : M (model_state rng) (list (option matrix)) :=
  let sample_fns := if train then train_sample_fns self else val_sample_fns self in
  let smp := if train then train_sampler self else val_sampler self in
  let adj := if train then gs_train_adj self else gs_adj self in
  tmp_feats <- lift (select_feats feats ids) ;;
  f0 <- lift (prep_forward (gs_prep self) ids tmp_feats 0) ;;
  let original_id_len := length ids in
  all_feats <- sample_layers self smp adj feats original_id_len 0 sample_fns ids [f0] ;;
  (if quantum_walk self then set_quantum_neighbors false else ret tt) ;;;
  ret all_feats.

(** [GSSupervised.forward(ids, feats, train=True)] *)
Definition forward (self : GSSupervised) (ids : list nat) (feats : option matrix)
    (train : bool) : M (model_state rng) matrix :=
  all_feats <- forward_groups self ids feats train ;;
  all_feats <- aggregate_layers self (agg_layers self) all_feats ;;
  lift (classify self all_feats).

End Model.

(** ** Well-formed parameters

    The shapes the constructors give the learned parameters, as predicates
    on the modules. *)

Definition Linear_dims (l : Linear) (n_in n_out : nat) : Prop :=
  Linear_wf l /\ in_features l = n_in /\ out_features l = n_out.

Definition MeanAggregator_wf (d : nat) (a : MeanAggregator) : Prop :=
  Linear_dims (mean_fc_x a) d (mean_output_dim_ a) /\
  Linear_dims (mean_fc_neib a) d (mean_output_dim_ a) /\
  mean_combine_fn a = default_combine_fn.

Definition PoolAggregator_wf (d : nat) (a : PoolAggregator) : Prop :=
  exists h, 0 < h /\
    Linear_dims (pool_mlp a) d h /\
    Linear_dims (pool_fc_x a) d (pool_output_dim_ a) /\
    Linear_dims (pool_fc_neib a) h (pool_output_dim_ a) /\
    (pool_pool_fn a = max_pool_fn \/ pool_pool_fn a = mean_pool_fn) /\
    pool_combine_fn a = default_combine_fn.

Definition LSTMDir_wf (d hs : nat) (dir : LSTMDir) : Prop :=
  Linear_dims (lstm_ih dir) d (4 * hs) /\ Linear_dims (lstm_hh dir) hs (4 * hs).

(** The width of the hidden states [nn.LSTM] returns. *)
Definition LSTM_out_width (l : LSTM) : nat :=
  match lstm_reverse_dir l with
  | Some _ => lstm_hidden_size l + lstm_hidden_size l
  | None => lstm_hidden_size l
  end.

Definition LSTM_wf (d : nat) (l : LSTM) : Prop :=
  LSTMDir_wf d (lstm_hidden_size l) (lstm_forward_dir l) /\
  match lstm_reverse_dir l with
  | Some r => LSTMDir_wf d (lstm_hidden_size l) r
  | None => True
  end.

Definition LSTMAggregator_wf (d : nat) (a : LSTMAggregator) : Prop :=
  LSTM_wf d (lstmagg_lstm a) /\
  Linear_dims (lstmagg_fc_x a) d (lstmagg_output_dim_ a) /\
  Linear_dims (lstmagg_fc_neib a) (LSTM_out_width (lstmagg_lstm a)) (lstmagg_output_dim_ a) /\
  lstmagg_combine_fn a = default_combine_fn.

Definition AttentionAggregator_wf (d : nat) (a : AttentionAggregator) : Prop :=
  exists h, 0 < h /\
    Linear_dims (att_1 a) d h /\
    Linear_dims (att_2 a) h h /\
    Linear_dims (att_fc_x a) d (att_output_dim_ a) /\
    Linear_dims (att_fc_neib a) d (att_output_dim_ a) /\
    att_combine_fn a = default_combine_fn.

(** An aggregator built for inputs of width [d]. *)
Definition agg_wf (d : nat) (a : aggregator) : Prop :=
  match a with
  | AggMean a => MeanAggregator_wf d a
  | AggPool a => PoolAggregator_wf d a
  | AggLSTM a => LSTMAggregator_wf d a
  | AggAttention a => AttentionAggregator_wf d a
  end.

(** The input width an aggregator was constructed with: [fc_x.in_features]. *)
Definition agg_input_dim (a : aggregator) : nat :=
  match a with
  | AggMean a => in_features (mean_fc_x a)
  | AggPool a => in_features (pool_fc_x a)
  | AggLSTM a => in_features (lstmagg_fc_x a)
  | AggAttention a => in_features (att_fc_x a)
  end.

(** The widths of a stack of aggregators fit together: the first was built
    for width [d], each next one for the [output_dim] the one before it
    exposes, and [d_last] is the [output_dim] of the last. *)
Fixpoint layer_widths_chained (d : nat) (aggs : list aggregator) (d_last : nat) : Prop :=
  match aggs with
  | [] => d_last = d
  | a :: rest =>
      agg_input_dim a = d /\
      exists d', agg_output_dim a = Ok d' /\ layer_widths_chained d' rest d_last
  end.

(** A self tensor and its neighbour tensor as the aggregators expect them:
    [B] nodes, [k] neighbours each, rows of width [d]. *)
Definition agg_inputs (B k d : nat) (x neibs : list (list R)) : Prop :=
  0 < B /\ 0 < k /\ 0 < d /\ has_shape B d x /\ has_shape (B * k) d neibs.

(** The score of every neighbour against its own node: one row per node. *)
Definition score_rows (groups : tensor3) (x_att : matrix) : matrix :=
  map (fun p => map (fun row => dot row (snd p)) (fst p)) (combine groups x_att).

(** *** Well-formed models

    A neighbour table over [N] nodes of width [W] whose entries are node
    ids. *)
Definition table_closed (N W : nat) (t : list (list nat)) : Prop :=
  has_shape N W t /\ Forall (Forall (fun v => v < N)) t.

(** A sampler over [N] nodes that can serve every fan-out of [fanouts]: the
    dense table is at least as wide as each of them. *)
Definition sampler_wf (N : nat) (s : sampler) (fanouts : list Z) : Prop :=
  match s with
  | DenseSampler s =>
      exists t W, uns_adj s = DenseAdj t /\ table_closed N W t /\
                  Forall (fun k => (1 <= k <= Z.of_nat W)%Z) fanouts
  | SparseSampler s =>
      exists W, 0 < W /\ table_closed N W (suns_adj s) /\
                suns_degrees s
                = map (fun row => length (filter (fun x => negb (x =? 0)) row)) (suns_adj s) /\
                Forall (fun k => (1 <= k)%Z) fanouts
  end.

(** A preparer for [N] nodes and raw features of width [D]. *)
Definition prep_wf (N D : nat) (p : prep) : Prop :=
  match p with
  | PrepIdentity p => ip_input_dim p = D
  | PrepNodeEmbedding p =>
      N <= nep_n_nodes p + 1 /\
      has_shape (nep_n_nodes p + 1) (nep_embedding_dim p) (nep_embedding p) /\
      Linear_dims (nep_fc p) (nep_embedding_dim p) (nep_embedding_dim p) /\
      nep_input_dim p = D
  | PrepLinear p => Linear_dims (lp_fc p) D (lp_output_dim p)
  end.

(** A stack of aggregators for inputs of width [d], each built for the
    width the one before it returns. *)
Fixpoint layers_wf (d : nat) (aggs : list aggregator) : Prop :=
  match aggs with
  | [] => True
  | a :: rest =>
      agg_wf d a /\ 0 < agg_output_dim_ a /\ layers_wf (2 * agg_output_dim_ a) rest
  end.

(** The width the stack returns. *)
Fixpoint final_width (d : nat) (aggs : list aggregator) : nat :=
  match aggs with
  | [] => d
  | a :: rest => final_width (2 * agg_output_dim_ a) rest
  end.

(** A model as [__init__] builds it without the quantum walk, over [N]
    nodes with raw features of width [D]. *)
Definition model_wf (N D : nat) (self : GSSupervised) : Prop :=
  quantum_walk self = false /\
  sampler_wf N (train_sampler self) (train_sample_fns self) /\
  sampler_wf N (val_sampler self) (val_sample_fns self) /\
  length (train_sample_fns self) = length (agg_layers self) /\
  length (val_sample_fns self) = length (agg_layers self) /\
  prep_wf N D (gs_prep self) /\
  0 < prep_output_dim (gs_prep self) /\
  layers_wf (prep_output_dim (gs_prep self)) (agg_layers self) /\
  Linear_dims (gs_fc self)
              (final_width (prep_output_dim (gs_prep self)) (agg_layers self))
              (out_features (gs_fc self)).

(** [k1 * ... * ki] *)
Definition prod (ks : list nat) : nat := fold_right Nat.mul 1 ks.

(** The size of the feature group of depth [i]: [B * k1 * ... * ki]. *)
Definition group_size (B : nat) (ks : list nat) (i : nat) : nat :=
  B * prod (firstn i ks).

(** [n] feature groups of width [d], the group of depth [i] with
    [group_size B ks i] rows. *)
Definition groups_ok (d B : nat) (ks : list nat) (n : nat)
    (groups : list (option (list (list R)))) : Prop :=
  length groups = n /\
  forall i, i < n ->
    exists m, nth i groups None = Some m /\ has_shape (group_size B ks i) d m.

(** Two model states that differ in the random generator only. *)
Definition same_walk_state {rng : Type} (st st' : model_state rng) : Prop :=
  quantum_neighbors st' = quantum_neighbors st /\
  all_amps st' = all_amps st /\
  all_graphs st' = all_graphs st /\
  max_degrees st' = max_degrees st /\
  coins st' = coins st.

(** An adjacency the sampler class accepts, over [N] nodes, able to serve
    the fan-outs. *)
Definition adjacency_wf (N : nat) (c : sampler_class) (adj : adjacency)
    (fanouts : list Z) : Prop :=
  match c, adj with
  | uniform_neighbor_sampler, DenseAdj t =>
      exists W, table_closed N W t /\ Forall (fun k => (1 <= k <= Z.of_nat W)%Z) fanouts
  | sparse_uniform_neighbor_sampler, SparseAdj m =>
      exists W, 0 < W /\ table_closed N W m /\ Forall (fun k => (1 <= k)%Z) fanouts
  | _, _ => False
  end.

(** The preparer class fits [N] nodes and raw features of width
    [input_dim]. *)
Definition prep_class_wf (N input_dim n_nodes : nat) (c : prep_class) : Prop :=
  match c with
  | identity => 0 < input_dim
  | node_embedding => N <= n_nodes + 1
  | linear => True
  end.

(** *** What a stateful computation leaves alone

    [frames P R m]: started in a state satisfying [P], the computation [m]
    ends, whether it returns or raises, in a state related to the first by
    [R]. *)
Definition frames {S A : Type} (P : S -> Prop) (R : S -> S -> Prop) (m : M S A) : Prop :=
  forall st, P st -> R st (snd (m st)).

(** The coins of [st'] are those of [st] followed by new ones. *)
Definition coins_extended (cs cs' : list (list (list R))) : Prop :=
  exists extra, cs' = cs ++ extra.

(** The walk records of [st'] are those of [st], flag included, and its
    coins extend those of [st]. *)
Definition records_kept {rng : Type} (st st' : model_state rng) : Prop :=
  quantum_neighbors st' = quantum_neighbors st /\
  all_amps st' = all_amps st /\
  all_graphs st' = all_graphs st /\
  max_degrees st' = max_degrees st /\
  coins_extended (coins st) (coins st').

(** The three record lists of [st'] are those of [st] followed by [n] new
    records each; flag and coins as in [st]. *)
Definition records_extended {rng : Type} (n : nat) (st st' : model_state rng) : Prop :=
  quantum_neighbors st' = quantum_neighbors st /\
  coins st' = coins st /\
  exists a g d,
    all_amps st' = all_amps st ++ a /\
    all_graphs st' = all_graphs st ++ g /\
    max_degrees st' = max_degrees st ++ d /\
    length a = n /\ length g = n /\ length d = n.

(** ** Reference values

    Values the properties below compare the engine with. *)

(** The identity matrix of size [n]. *)
Definition eye (n : nat) : list (list R) :=
  map (fun i => map (fun j => if i =? j then 1%R else 0%R) (seq 0 n)) (seq 0 n).

(** Row [i] of the Grover coin of size [n]. *)
Definition grover_row (n i : nat) : list R :=
  map (fun j => if i =? j then (-1 + 2 / INR n)%R else (1 * 2 / INR n)%R) (seq 0 n).

(** The hidden and cell state an LSTM direction is left in by a whole
    sequence, started from [hc]. *)
Fixpoint lstm_final (hs : nat) (d : LSTMDir) (xs : list (list R))
    (hc : list R * list R) : result (list R * list R) :=
  match xs with
  | [] => Ok hc
  | x :: xs' => hc' <- lstm_cell hs d x hc ;; lstm_final hs d xs' hc'
  end.

(** What [GenerateQuantumWalkGraphs] records for [B] seeds and local graphs
    of [K] nodes: [B] graphs of shape [(K, K)], a degree of at most [K] and
    amplitudes of shape [(B, K, degree, K)]. *)
Definition walk_record_ok (B K : nat) (amps : list (list (list (list R))))
    (graphs : list (list (list nat))) (degree : nat) : Prop :=
  length graphs = B /\ Forall (has_shape K K) graphs /\ degree <= K /\
  length amps = B /\
  Forall (fun a => length a = K /\ Forall (has_shape degree K) a) amps.

(** The model [self] with other values of the attributes [adj] and
    [train_adj]; the samplers keep the adjacencies they were built on. *)
Definition with_adj_attributes (self : GSSupervised) (adj train_adj : adjacency)
  : GSSupervised :=
  {| train_sampler := train_sampler self; val_sampler := val_sampler self;
     train_sample_fns := train_sample_fns self; val_sample_fns := val_sample_fns self;
     gs_prep := gs_prep self; quantum_walk := quantum_walk self;
     gs_adj := adj; gs_train_adj := train_adj;
     time_steps := time_steps self;
     agg_layers := agg_layers self; gs_fc := gs_fc self |}.

Section WalkOnRecords.
Context {rng : Type}.
Local Open Scope monad_scope.

(** The aggregation layer of a quantum-walk model with the walk reading
    entry [k] of the three lists given here instead of the lists the model
    holds. *)
Definition aggregate_layer_on (amps : list tensor4) (graphs : list (list graph))
    (degrees : list nat) (self : GSSupervised) (agg_layer : aggregator)
    (all_feats : list (option matrix)) : M (model_state rng) (list (option matrix)) :=
  mapMM (fun k =>
           xk <- lift (getitem all_feats k) ;;
           xk1 <- lift (getitem all_feats (k + 1)) ;;
           a <- lift (getitem amps k) ;;
           g <- lift (getitem graphs k) ;;
           n_steps <- lift (expect (time_steps self)) ;;
           degree <- lift (getitem degrees k) ;;
           q <- with_coins (QuantumWalk_forward xk xk1 a g n_steps degree) ;;
           r <- lift (agg_forward agg_layer xk (Some q)) ;;
           ret (Some r))
        (seq 0 (length all_feats - 1)).

Fixpoint aggregate_layers_on (amps : list tensor4) (graphs : list (list graph))
    (degrees : list nat) (self : GSSupervised) (layers : list aggregator)
    (all_feats : list (option matrix)) : M (model_state rng) (list (option matrix)) :=
  match layers with
  | [] => ret all_feats
  | agg_layer :: rest =>
      all_feats <- aggregate_layer_on amps graphs degrees self agg_layer all_feats ;;
      aggregate_layers_on amps graphs degrees self rest all_feats
  end.

End WalkOnRecords.

(** ** A deterministic random source

    A generator whose state is a counter: permutations are rotations, choices
    and fresh parameters are read off the counter.  It shows the interface is
    inhabited and lets the model run on concrete inputs. *)

Definition rot_randperm (n g : nat) : list nat * nat :=
  let r := g mod (S n) in
  (skipn r (seq 0 n) ++ firstn r (seq 0 n), S g).

Definition rot_choice (a n k g : nat) : list (list nat) * nat :=
  (map (fun i => map (fun j => np_mod (g + i + j) a) (seq 0 k)) (seq 0 n), S g).

Definition rot_tensor (n d g : nat) : list (list R) * nat :=
  (map (fun i => map (fun j => INR (g + i + j)) (seq 0 d)) (seq 0 n), S g).

Lemma rot_randperm_perm (n g : nat) : Permutation (fst (rot_randperm n g)) (seq 0 n).
Proof.
  unfold rot_randperm; simpl.
  rewrite <- (firstn_skipn (g mod S n) (seq 0 n)) at 3.
  apply Permutation_app_comm.
Qed.

Lemma rot_choice_shape (a n k g : nat) : has_shape n k (fst (rot_choice a n k g)).
Proof.
  unfold rot_choice, has_shape; simpl. split.
  - now rewrite length_map, length_seq.
  - apply Forall_forall. intros row Hin. apply in_map_iff in Hin.
    destruct Hin as [i [<- _]]. now rewrite length_map, length_seq.
Qed.

Lemma rot_choice_range (a n k g : nat) :
  0 < a -> Forall (Forall (fun c => c < a)) (fst (rot_choice a n k g)).
Proof.
  intros Ha. unfold rot_choice; simpl.
  apply Forall_forall. intros row Hin. apply in_map_iff in Hin.
  destruct Hin as [i [<- _]].
  apply Forall_forall. intros c Hc. apply in_map_iff in Hc.
  destruct Hc as [j [<- _]]. unfold np_mod.
  destruct (a =? 0) eqn:E.
  - apply Nat.eqb_eq in E. lia.
  - apply Nat.mod_upper_bound. lia.
Qed.

Lemma rot_tensor_shape (n d g : nat) : has_shape n d (fst (rot_tensor n d g)).
Proof.
  unfold rot_tensor, has_shape; simpl. split.
  - now rewrite length_map, length_seq.
  - apply Forall_forall. intros row Hin. apply in_map_iff in Hin.
    destruct Hin as [i [<- _]]. now rewrite length_map, length_seq.
Qed.

#[export] Instance rot_source : RandomSource nat := {|
  randperm := rot_randperm;
  randperm_perm := rot_randperm_perm;
  random_choice := rot_choice;
  random_choice_shape := rot_choice_shape;
  random_choice_range := rot_choice_range;
  rand_tensor := rot_tensor;
  rand_tensor_shape := rot_tensor_shape
|}.

(** * Properties *)

(** ** Fallible computations *)

Lemma mapM_ok {A B} (f : A -> result B) (g : A -> B) (l : list A) :
  Forall (fun a => f a = Ok (g a)) l -> mapM f l = Ok (map g l).
Proof.
  induction 1 as [|a l Ha _ IH]; simpl; [reflexivity|].
  now rewrite Ha, IH.
Qed.

Lemma mapM_length {A B} (f : A -> result B) (l : list A) (r : list B) :
  mapM f l = Ok r -> length r = length l.
Proof.
  revert r. induction l as [|a l IH]; simpl; intros r Hr.
  - now inversion Hr.
  - destruct (f a); [|discriminate]. simpl in Hr.
    destruct (mapM f l); [|discriminate]. simpl in Hr.
    inversion Hr; subst; simpl. f_equal. now apply IH.
Qed.

Lemma getitem_ok {A} (l : list A) (i : nat) (d : A) :
  i < length l -> getitem l i = Ok (nth i l d).
Proof.
  intros Hi. unfold getitem.
  destruct (nth_error l i) eqn:E.
  - now rewrite (nth_error_nth _ _ d E).
  - apply nth_error_None in E. lia.
Qed.

Lemma getitem_raise {A} (l : list A) (i : nat) :
  length l <= i -> getitem l i = Raise IndexError.
Proof.
  intros Hi. unfold getitem.
  now rewrite (proj2 (nth_error_None l i) Hi).
Qed.

Lemma index_select_ok {A} (t : list A) (ids : list nat) (d : A) :
  Forall (fun i => i < length t) ids ->
  index_select t ids = Ok (map (fun i => nth i t d) ids).
Proof.
  intros Hids. unfold index_select. apply mapM_ok.
  eapply Forall_impl; [|exact Hids]. intros i Hi. now apply getitem_ok.
Qed.

Lemma has_shape_nth {A} (n d : nat) (t : list (list A)) (i : nat) :
  has_shape n d t -> i < n -> length (nth i t []) = d.
Proof.
  intros [Hn Hd] Hi. rewrite Forall_forall in Hd.
  apply Hd, nth_In. lia.
Qed.

Lemma has_shape_size1 {A} (n d : nat) (t : list (list A)) :
  has_shape n d t -> 0 < n -> size1 t = d.
Proof.
  intros [Hn Hd] Hpos. destruct t as [|row t]; simpl in *; [lia|].
  now inversion Hd.
Qed.

Lemma slice_to_firstn {A} (n : nat) (l : list A) :
  slice_to (Z.of_nat n) l = firstn n l.
Proof.
  unfold slice_to.
  destruct (Z.ltb_spec (Z.of_nat n) 0); [lia|].
  now rewrite Nat2Z.id.
Qed.

(** ** The dense sampler *)

Section DenseSamplerSpec.
Context {rng : Type} `{RandomSource rng}.

Lemma randperm_range (n : nat) (g : rng) :
  Forall (fun c => c < n) (fst (randperm n g)).
Proof.
  apply Forall_forall. intros c Hc.
  apply (Permutation_in _ (randperm_perm n g)) in Hc.
  apply in_seq in Hc. lia.
Qed.

Lemma UniformNeighborSampler_call_permuted_rows
    (t : list (list nat)) (N W : nat) (ids : list nat) (n_samples : option Z) (g : rng) :
  has_shape N W t ->
  Forall (fun i => i < N) ids ->
  let n := match n_samples with Some n => n | None => (-1)%Z end in
  let w := match ids with [] => 0 | _ => W end in
  let perm := fst (randperm w g) in
  UniformNeighborSampler_call (UniformNeighborSampler_init (DenseAdj t)) ids n_samples g =
    (Ok (T2 (map (fun i => slice_to n (map (fun c => nth c (nth i t []) 0) perm)) ids)),
     snd (randperm w g)).
Proof.
  intros Hshape Hids n w perm.
  assert (Hlen : length t = N) by apply Hshape.
  unfold UniformNeighborSampler_call, UniformNeighborSampler_init, bind, lift; simpl.
  rewrite (index_select_ok (t:=t) (ids:=ids) []) by now rewrite Hlen.
  assert (Hw : size1 (map (fun i => nth i t []) ids) = w).
  { subst w. destruct ids as [|i ids]; [reflexivity|]. simpl.
    inversion Hids; subst. now apply (has_shape_nth (n:=length t) (d:=W)). }
  rewrite Hw. unfold draw_randperm.
  fold n. subst perm.
  destruct (randperm w g) as [p g'] eqn:Ep. simpl.
  assert (Hp : Forall (fun c => c < w) p).
  { generalize (randperm_range w g). now rewrite Ep. }
  unfold index_columns.
  rewrite (mapM_ok (g:=fun row => map (fun c => nth c row 0) p)).
  - unfold ret. now rewrite !map_map.
  - apply Forall_forall. intros row Hrow.
    apply in_map_iff in Hrow. destruct Hrow as [i [<- Hi]].
    apply index_select_ok.
    rewrite Forall_forall in Hids. specialize (Hids i Hi).
    rewrite (has_shape_nth (n:=N) (d:=W)) by assumption.
    subst w. destruct ids; [contradiction|]. exact Hp.
Qed.

Lemma permuted_row_length (w : nat) (g : rng) (row : list nat) :
  length (map (fun c => nth c row 0) (fst (randperm w g))) = w.
Proof.
  rewrite length_map, (Permutation_length (randperm_perm w g)).
  apply length_seq.
Qed.

Lemma slice_to_prefix {A} (n : Z) (l : list A) :
  (0 <= n <= Z.of_nat (length l))%Z ->
  slice_to n l = firstn (Z.to_nat n) l /\ length (slice_to n l) = Z.to_nat n.
Proof.
  intros [Hn0 Hnl].
  rewrite <- (Z2Nat.id n) at 1 3 by exact Hn0.
  rewrite slice_to_firstn. split; [reflexivity|].
  rewrite length_firstn. lia.
Qed.

(** C9: one call of the dense sampler draws a single permutation of the
    column order from the generator (whose state advances by that one draw),
    permutes every looked-up row by that same permutation, and returns the
    slice [[:n_samples]] of each permuted row, which for
    [0 <= n_samples <= width] is its first [n_samples] columns. *)
Theorem UniformNeighborSampler_call_shared_permutation
    (t : list (list nat)) (N W : nat) (ids : list nat) (n_samples : option Z) (g : rng) :
  has_shape N W t ->
  Forall (fun i => i < N) ids ->
  let n := match n_samples with Some n => n | None => (-1)%Z end in
  let w := match ids with [] => 0 | _ => W end in
  let perm := fst (randperm w g) in
  let permuted := fun i => map (fun c => nth c (nth i t []) 0) perm in
  Permutation perm (seq 0 w) /\
  UniformNeighborSampler_call (UniformNeighborSampler_init (DenseAdj t)) ids n_samples g =
    (Ok (T2 (map (fun i => slice_to n (permuted i)) ids)), snd (randperm w g)) /\
  ((0 <= n <= Z.of_nat w)%Z ->
   forall i, In i ids ->
     slice_to n (permuted i) = firstn (Z.to_nat n) (permuted i) /\
     length (slice_to n (permuted i)) = Z.to_nat n).
Proof.
  intros Hshape Hids n w perm permuted.
  split; [apply randperm_perm|]. split.
  - exact (UniformNeighborSampler_call_permuted_rows n_samples g Hshape Hids).
  - intros Hn i _. apply slice_to_prefix.
    unfold permuted, perm. now rewrite permuted_row_length.
Qed.

End DenseSamplerSpec.

(** The dense sampler on a three-node table with the rotating generator. *)
Lemma UniformNeighborSampler_call_shared_permutation_witness :
  UniformNeighborSampler_call (UniformNeighborSampler_init
                                 (DenseAdj [[1; 2]; [0; 2]; [0; 1]]))
                              [0; 2] (Some 1%Z) 1
  = (Ok (T2 [[2]; [1]]), 2).
Proof.
  destruct (@UniformNeighborSampler_call_shared_permutation nat rot_source
              [[1; 2]; [0; 2]; [0; 1]] 3 2 [0; 2] (Some 1%Z) 1) as [_ [Hcall _]].
  - split; [reflexivity|]. repeat constructor.
  - repeat constructor.
  - exact Hcall.
Defined.

(** ** The sparse sampler *)

Section SparseSamplerSpec.
Context {rng : Type} `{RandomSource rng}.

(** A dense table is refused at construction. *)
Lemma SparseUniformNeighborSampler_init_dense (t : list (list nat)) :
  SparseUniformNeighborSampler_init (DenseAdj t)
  = Raise (AssertionError "SparseUniformNeighborSampler: not sparse.issparse(adj)").
Proof. reflexivity. Qed.

Lemma SparseUniformNeighborSampler_init_issparse (adj : adjacency) :
  is_ok (SparseUniformNeighborSampler_init adj) = issparse adj.
Proof. now destruct adj. Qed.

(** A sample count that is given and not positive is refused, before the
    generator is touched. *)
Lemma SparseUniformNeighborSampler_call_nonpositive
    (self : SparseUniformNeighborSampler) (ids : list nat) (n : Z) (g : rng) :
  (n <= 0)%Z ->
  SparseUniformNeighborSampler_call self ids (Some n) g
  = (Raise (AssertionError "SparseUniformNeighborSampler: n_samples must be set explicitly"),
     g).
Proof.
  intros Hn. unfold SparseUniformNeighborSampler_call.
  destruct (Z.ltb_spec 0 n); [lia|]. reflexivity.
Qed.

(** A call that leaves [n_samples] out is the call with 128 samples. *)
Lemma SparseUniformNeighborSampler_call_default
    (self : SparseUniformNeighborSampler) (ids : list nat) (g : rng) :
  SparseUniformNeighborSampler_call self ids None g
  = SparseUniformNeighborSampler_call self ids (Some 128%Z) g.
Proof. reflexivity. Qed.

End SparseSamplerSpec.

(** C4: the sparse sampler called without a sample count raises nothing: on
    the table [[0,0],[2,0],[1,0]] and the id 1 it returns 128 sampled ids,
    the default of [n_samples] standing in for the missing count. *)
Theorem SparseUniformNeighborSampler_call_missing_count_accepted :
  exists s v g',
    SparseUniformNeighborSampler_init (SparseAdj [[0; 0]; [2; 0]; [1; 0]]) = Ok s /\
    SparseUniformNeighborSampler_call s [1] None 0 = (Ok (T1 v), g') /\
    length v = 128 /\
    Forall (fun x => x = 2) v.
Proof.
  eexists. eexists. eexists.
  split; [reflexivity|].
  split; [vm_compute; reflexivity|].
  split; [reflexivity|].
  repeat constructor.
Qed.

(** ** Stateful computations *)

Lemma bind_ok {S A B} (m : M S A) (k : A -> M S B) (s s' : S) (a : A) :
  m s = (Ok a, s') -> bind m k s = k a s'.
Proof. intros Hm. unfold bind. now rewrite Hm. Qed.

Lemma bind_raise {S A B} (m : M S A) (k : A -> M S B) (s s' : S) (e : exn) :
  m s = (Raise e, s') -> bind m k s = (Raise e, s').
Proof. intros Hm. unfold bind. now rewrite Hm. Qed.

(** ** Constructors *)

Section InitSpec.
Context {rng : Type} `{RandomSource rng}.

Lemma draw_tensor_ok (n d : nat) (g : rng) :
  exists t g', draw_tensor n d g = (Ok t, g') /\ has_shape n d t.
Proof.
  unfold draw_tensor. generalize (rand_tensor_shape n d g).
  destruct (rand_tensor n d g) as [t g']. simpl. intros Ht.
  now exists t, g'.
Qed.

Lemma concat_shape_1 {A} (d : nat) (b : list (list A)) :
  has_shape 1 d b -> length (concat b) = d.
Proof.
  intros [Hn Hd]. destruct b as [|row [|]]; try discriminate.
  inversion Hd; subst. simpl. now rewrite app_nil_r.
Qed.

Lemma Linear_init_ok (n_in n_out : nat) (with_bias : bool) (g : rng) :
  exists l g', Linear_init n_in n_out with_bias g = (Ok l, g') /\
               Linear_dims l n_in n_out.
Proof.
  unfold Linear_init.
  destruct (draw_tensor_ok n_out n_in g) as [w [g1 [Hw Hws]]].
  rewrite (bind_ok _ Hw).
  destruct with_bias.
  - destruct (draw_tensor_ok 1 n_out g1) as [b [g2 [Hb Hbs]]].
    erewrite bind_ok; [|erewrite bind_ok; [reflexivity|exact Hb]].
    eexists. eexists. split; [reflexivity|].
    repeat split; simpl; try apply Hws. now apply concat_shape_1.
  - erewrite bind_ok; [|reflexivity].
    eexists. eexists. split; [reflexivity|].
    repeat split; simpl; apply Hws.
Qed.

End InitSpec.

Section AggregatorInitSpec.
Context {rng : Type} `{RandomSource rng}.

Ltac draw_linear i o b g l g' Hl Hd :=
  destruct (Linear_init_ok i o b g) as [l [g' [Hl Hd]]].

Lemma MeanAggregator_init_ok (d o : nat) (act : activation_t) (g : rng) :
  exists a g', MeanAggregator_init d o act None g = (Ok a, g') /\
               MeanAggregator_wf d a /\ mean_output_dim_ a = o.
Proof.
  draw_linear d o false g l1 g1 H1 D1.
  draw_linear d o false g1 l2 g2 H2 D2.
  eexists. eexists. split.
  - unfold MeanAggregator_init.
    rewrite (bind_ok _ H1), (bind_ok _ H2). reflexivity.
  - repeat split; simpl; first [apply D1 | apply D2 | reflexivity].
Qed.

Lemma PoolAggregator_init_ok (d o : nat) (pool_fn : tensor3 -> result matrix)
    (act : activation_t) (g : rng) :
  pool_fn = max_pool_fn \/ pool_fn = mean_pool_fn ->
  exists a g', PoolAggregator_init d o pool_fn act (Some 512) (Some default_combine_fn) g
               = (Ok a, g') /\
               PoolAggregator_wf d a /\ pool_output_dim_ a = o.
Proof.
  intros Hpool.
  draw_linear d 512 true g l1 g1 H1 D1.
  draw_linear d o false g1 l2 g2 H2 D2.
  draw_linear 512 o false g2 l3 g3 H3 D3.
  eexists. eexists. split.
  - unfold PoolAggregator_init.
    rewrite (bind_ok _ H1), (bind_ok _ H2), (bind_ok _ H3). reflexivity.
  - split; [|reflexivity]. exists 512. simpl.
    repeat split; first [lia | apply D1 | apply D2 | apply D3 | exact Hpool | reflexivity].
Qed.

Lemma LSTMDir_init_ok (d hs : nat) (g : rng) :
  exists dir g', LSTMDir_init d hs g = (Ok dir, g') /\ LSTMDir_wf d hs dir.
Proof.
  draw_linear d (4 * hs) true g l1 g1 H1 D1.
  draw_linear hs (4 * hs) true g1 l2 g2 H2 D2.
  eexists. eexists. split.
  - unfold LSTMDir_init. rewrite (bind_ok _ H1), (bind_ok _ H2). reflexivity.
  - split; simpl; assumption.
Qed.

Lemma LSTM_init_ok (d hs : nat) (bidirectional : bool) (g : rng) :
  exists l g', LSTM_init d hs bidirectional g = (Ok l, g') /\
               LSTM_wf d l /\ lstm_hidden_size l = hs /\
               LSTM_out_width l = hs * (1 + Nat.b2n bidirectional).
Proof.
  destruct (LSTMDir_init_ok d hs g) as [fw [g1 [H1 D1]]].
  destruct bidirectional.
  - destruct (LSTMDir_init_ok d hs g1) as [bw [g2 [H2 D2]]].
    eexists. eexists. split.
    + unfold LSTM_init. rewrite (bind_ok _ H1).
      erewrite bind_ok; [|erewrite bind_ok; [reflexivity|exact H2]]. reflexivity.
    + unfold LSTM_wf, LSTM_out_width. simpl.
      split; [split; assumption|]. split; [reflexivity|lia].
  - eexists. eexists. split.
    + unfold LSTM_init. rewrite (bind_ok _ H1).
      erewrite bind_ok; [|reflexivity]. reflexivity.
    + unfold LSTM_wf, LSTM_out_width. simpl.
      split; [split; [assumption|exact I]|]. split; [reflexivity|lia].
Qed.

Lemma LSTMAggregator_init_ok (d o : nat) (act : activation_t) (hidden_dim : option nat)
    (bidirectional : option bool) (combine_fn : option combine_fn_t) (g : rng) :
  let h := match hidden_dim with Some h => h | None => 512 end in
  let b := match bidirectional with Some b => b | None => false end in
  h mod 2 = 0 ->
  exists a g', LSTMAggregator_init d o act hidden_dim bidirectional combine_fn g
               = (Ok a, g') /\
               LSTM_wf d (lstmagg_lstm a) /\
               lstm_hidden_size (lstmagg_lstm a) = h / (1 + Nat.b2n b) /\
               Linear_dims (lstmagg_fc_x a) d o /\
               Linear_dims (lstmagg_fc_neib a) (LSTM_out_width (lstmagg_lstm a)) o /\
               lstmagg_output_dim_ a = o /\
               lstmagg_combine_fn a
               = match combine_fn with Some c => c | None => default_combine_fn end /\
               LSTM_out_width (lstmagg_lstm a) = h.
Proof.
  intros h b Heven.
  destruct (LSTM_init_ok d (h / (1 + Nat.b2n b)) b g) as [l [g1 [H1 [W1 [S1 O1]]]]].
  draw_linear d o false g1 l2 g2 H2 D2.
  draw_linear h o false g2 l3 g3 H3 D3.
  assert (Hw : LSTM_out_width l = h).
  { rewrite O1. destruct b.
    - change (1 + Nat.b2n true) with 2.
      pose proof (Nat.div_mod_eq h 2). lia.
    - change (1 + Nat.b2n false) with 1.
      rewrite Nat.div_1_r. lia. }
  eexists. eexists. split.
  - unfold LSTMAggregator_init. fold h. fold b.
    rewrite Heven. change (negb (0 =? 0)) with false. cbv iota.
    rewrite (bind_ok _ H1), (bind_ok _ H2), (bind_ok _ H3). reflexivity.
  - simpl. rewrite Hw. repeat split; first [apply W1 | apply D2 | apply D3 | assumption].
Qed.

Lemma LSTMAggregator_init_odd (d o : nat) (act : activation_t) (hidden_dim : option nat)
    (bidirectional : option bool) (combine_fn : option combine_fn_t) (g : rng) :
  let h := match hidden_dim with Some h => h | None => 512 end in
  h mod 2 <> 0 ->
  LSTMAggregator_init d o act hidden_dim bidirectional combine_fn g
  = (Raise (AssertionError "LSTMAggregator: hiddem_dim % 2 != 0"), g).
Proof.
  intros h Hodd. unfold LSTMAggregator_init. fold h.
  destruct (Nat.eqb_spec (h mod 2) 0); [contradiction|]. reflexivity.
Qed.

Lemma AttentionAggregator_init_ok (d o : nat) (act : activation_t) (g : rng) :
  exists a g', AttentionAggregator_init d o act None None g = (Ok a, g') /\
               AttentionAggregator_wf d a /\ att_output_dim_ a = o.
Proof.
  draw_linear d 32 false g l1 g1 H1 D1.
  draw_linear 32 32 false g1 l2 g2 H2 D2.
  draw_linear d o false g2 l3 g3 H3 D3.
  draw_linear d o false g3 l4 g4 H4 D4.
  eexists. eexists. split.
  - unfold AttentionAggregator_init.
    rewrite (bind_ok _ H1), (bind_ok _ H2), (bind_ok _ H3), (bind_ok _ H4). reflexivity.
  - split; [|reflexivity]. exists 32. simpl.
    repeat split; first [lia | apply D1 | apply D2 | apply D3 | apply D4 | reflexivity].
Qed.

(** Every key of [aggregator_lookup] builds an aggregator with the shapes
    asked for and the default combine function. *)
Lemma aggregator_new_ok (c : aggregator_class) (d o : nat) (act : activation_t) (g : rng) :
  exists a g', aggregator_new c d o act g = (Ok a, g') /\
               agg_wf d a /\ agg_output_dim_ a = o /\
               agg_combine_fn a = default_combine_fn /\ agg_input_dim a = d.
Proof.
  destruct c; unfold aggregator_new.
  - destruct (MeanAggregator_init_ok d o act g) as [a [g' [Ha [Wa Oa]]]].
    exists (AggMean a), g'. rewrite (bind_ok _ Ha).
    repeat split; simpl; try assumption; apply Wa.
  - destruct (@PoolAggregator_init_ok d o max_pool_fn act g (or_introl eq_refl))
      as [a [g' [Ha [Wa Oa]]]].
    exists (AggPool a), g'. unfold MaxPoolAggregator_init. rewrite (bind_ok _ Ha).
    destruct Wa as [h Wa]. repeat split; simpl; try assumption;
      [exists h; exact Wa | apply Wa | apply Wa].
  - destruct (@PoolAggregator_init_ok d o mean_pool_fn act g (or_intror eq_refl))
      as [a [g' [Ha [Wa Oa]]]].
    exists (AggPool a), g'. unfold MeanPoolAggregator_init. rewrite (bind_ok _ Ha).
    destruct Wa as [h Wa]. repeat split; simpl; try assumption;
      [exists h; exact Wa | apply Wa | apply Wa].
  - destruct (@LSTMAggregator_init_ok d o act None None None g eq_refl)
      as [a [g' [Ha [W1 [_ [W2 [W3 [Oa [Ca _]]]]]]]]].
    exists (AggLSTM a), g'. rewrite (bind_ok _ Ha).
    split; [reflexivity|]. split.
    { simpl. unfold LSTMAggregator_wf. rewrite Oa. auto. }
    split; [exact Oa|]. split; [exact Ca|apply W2].
  - destruct (AttentionAggregator_init_ok d o act g) as [a [g' [Ha [Wa Oa]]]].
    exists (AggAttention a), g'. rewrite (bind_ok _ Ha).
    destruct Wa as [h Wa]. repeat split; simpl; try assumption;
      [exists h; exact Wa | apply Wa | apply Wa].
Qed.

End AggregatorInitSpec.

(** ** The recurrent aggregator's guard *)

(** C8, as the code has it: the constructor of the recurrent aggregator
    fails with an assertion error whenever the hidden width is odd, with or
    without the bidirectional option, and before any parameter is drawn;
    for an even hidden width it succeeds with either setting, the recurrent
    unit's hidden size being [hidden_dim // (1 + bidirectional)]. *)
Theorem LSTMAggregator_init_even_guard {rng : Type} `{RandomSource rng}
    (d o : nat) (act : activation_t) (hidden_dim : option nat)
    (bidirectional : option bool) (combine_fn : option combine_fn_t) (g : rng) :
  let h := match hidden_dim with Some h => h | None => 512 end in
  let b := match bidirectional with Some b => b | None => false end in
  (h mod 2 <> 0 ->
   LSTMAggregator_init d o act hidden_dim bidirectional combine_fn g
   = (Raise (AssertionError "LSTMAggregator: hiddem_dim % 2 != 0"), g)) /\
  (h mod 2 = 0 ->
   exists a g',
     LSTMAggregator_init d o act hidden_dim bidirectional combine_fn g = (Ok a, g') /\
     lstm_hidden_size (lstmagg_lstm a) = h / (1 + Nat.b2n b) /\
     LSTM_wf d (lstmagg_lstm a) /\
     LSTM_out_width (lstmagg_lstm a) = h).
Proof.
  intros h b. split.
  - apply LSTMAggregator_init_odd.
  - intros Heven.
    destruct (@LSTMAggregator_init_ok _ _ d o act hidden_dim bidirectional combine_fn g Heven)
      as [a [g' [Ha [W1 [S1 [_ [_ [_ [_ Hw]]]]]]]]].
    exists a, g'. auto.
Qed.

(** The guard on the rotating generator: width 3 is refused with the
    bidirectional option set, width 4 is accepted with it. *)
Lemma LSTMAggregator_init_even_guard_witness :
  LSTMAggregator_init 4 2 None (Some 3) (Some true) None 0
  = (Raise (AssertionError "LSTMAggregator: hiddem_dim % 2 != 0"), 0) /\
  exists a g',
    LSTMAggregator_init 4 2 None (Some 4) (Some true) None 0 = (Ok a, g') /\
    lstm_hidden_size (lstmagg_lstm a) = 2 /\
    LSTM_wf 4 (lstmagg_lstm a) /\
    LSTM_out_width (lstmagg_lstm a) = 4.
Proof.
  split.
  - apply (proj1 (@LSTMAggregator_init_even_guard nat rot_source
                    4 2 None (Some 3) (Some true) None 0)).
    simpl. discriminate.
  - apply (proj2 (@LSTMAggregator_init_even_guard nat rot_source
                    4 2 None (Some 4) (Some true) None 0)).
    reflexivity.
Defined.

(** C8, as the claim has it, fails: without the bidirectional option an odd
    hidden width is still refused. *)
Lemma LSTMAggregator_init_odd_unidirectional_refused :
  ~ (exists a g',
       LSTMAggregator_init 4 2 None (Some 3) (Some false) None 0 = (Ok a, g')).
Proof.
  intros [a [g' Ha]]. discriminate Ha.
Qed.

(** ** The embedding-augmented preparer *)

Lemma map_const_repeat {A B} (b : B) (l : list A) :
  map (fun _ => b) l = repeat b (length l).
Proof. induction l; simpl; congruence. Qed.

Lemma NodeEmbeddingPrep_init_table {rng : Type} `{RandomSource rng}
    (input_dim n_nodes : nat) (embedding_dim : option nat) (g : rng) :
  exists p g', NodeEmbeddingPrep_init input_dim n_nodes embedding_dim g = (Ok p, g') /\
               nep_n_nodes p = n_nodes /\
               has_shape (n_nodes + 1) (nep_embedding_dim p) (nep_embedding p) /\
               Linear_dims (nep_fc p) (nep_embedding_dim p) (nep_embedding_dim p) /\
               nep_input_dim p = input_dim.
Proof.
  set (ed := match embedding_dim with Some d => d | None => 64 end).
  destruct (draw_tensor_ok (n_nodes + 1) ed g) as [emb [g1 [H1 S1]]].
  destruct (Linear_init_ok ed ed true g1) as [fc [g2 [H2 D2]]].
  eexists. eexists. split.
  - unfold NodeEmbeddingPrep_init. fold ed.
    rewrite (bind_ok _ H1), (bind_ok _ H2). reflexivity.
  - simpl. auto.
Qed.

Lemma vadd_length (u v : vec) (d : nat) :
  length u = d -> length v = d -> length (vadd u v) = d.
Proof.
  intros Hu Hv. unfold vadd. rewrite length_map, length_combine. lia.
Qed.

Lemma Linear_row_shape (l : Linear) (n_in n_out : nat) (row : vec) :
  Linear_dims l n_in n_out -> length row = n_in ->
  exists y, Linear_row l row = Ok y /\ length y = n_out.
Proof.
  intros [[[Hw _] Hb] [Hi Ho]] Hrow. unfold Linear_row.
  rewrite Hrow, Hi, Nat.eqb_refl.
  eexists. split; [reflexivity|].
  destruct (bias l) as [b|].
  - apply vadd_length; [rewrite length_map|]; etransitivity; eassumption.
  - rewrite length_map. etransitivity; eassumption.
Qed.

Lemma mapM_repeat {A B} (f : A -> result B) (a : A) (b : B) (n : nat) :
  f a = Ok b -> mapM f (repeat a n) = Ok (repeat b n).
Proof.
  intros Hf. induction n as [|n IH]; simpl; [reflexivity|]. now rewrite Hf, IH.
Qed.

Lemma cat_dim1_pair (a b : matrix) :
  length a = length b ->
  cat_dim1 [a; b] = Ok (map (fun p => fst p ++ snd p) (combine a b)).
Proof. intros Hl. cbn [cat_dim1 rbind]. now rewrite Hl, Nat.eqb_refl. Qed.

Lemma combine_repeat_app {A} (f : list (list A)) (y : list A) :
  map (fun p => fst p ++ snd p) (combine f (repeat y (length f)))
  = map (fun row => row ++ y) f.
Proof. induction f as [|row f IH]; simpl; [reflexivity|]. now rewrite IH. Qed.

(** C3: at depth 0 the embedding-augmented preparer looks up the reserved
    padding id [n_nodes] for every seed: the rows it embeds are copies of
    the padding row whatever the seed ids are, so [forward] returns, for
    every seed, the affine transform [y] of the padding row (appended to the
    seed's features when there are raw features), and two batches of the
    same size get the same output.  At every depth above 0 it looks up the
    ids it is given and returns for id [i] the affine transform of row [i]
    of the table. *)
Theorem NodeEmbeddingPrep_forward_depth0_padding
    (self : NodeEmbeddingPrep) (ids : list nat) (feats : option matrix) :
  length (nep_embedding self) = nep_n_nodes self + 1 ->
  let table := nep_embedding self in
  let pad := nth (nep_n_nodes self) table [] in
  NodeEmbeddingPrep_lookup self ids 0 = Ok (repeat pad (length ids)) /\
  Embedding_forward table [nep_n_nodes self] = Ok [pad] /\
  (forall e, has_shape (nep_n_nodes self + 1) e table -> Linear_dims (nep_fc self) e e ->
     exists y, Linear_row (nep_fc self) pad = Ok y /\ length y = e) /\
  (forall y, Linear_row (nep_fc self) pad = Ok y ->
     (nep_input_dim self = 0 ->
      NodeEmbeddingPrep_forward self ids feats 0 = Ok (Some (repeat y (length ids)))) /\
     (0 < nep_input_dim self -> forall f, length f = length ids ->
      NodeEmbeddingPrep_forward self ids (Some f) 0
      = Ok (Some (map (fun row => row ++ y) f)))) /\
  (forall ids', length ids' = length ids ->
     NodeEmbeddingPrep_lookup self ids' 0 = NodeEmbeddingPrep_lookup self ids 0 /\
     NodeEmbeddingPrep_forward self ids' feats 0 = NodeEmbeddingPrep_forward self ids feats 0) /\
  (forall layer_idx, 0 < layer_idx ->
     NodeEmbeddingPrep_lookup self ids layer_idx = Embedding_forward table ids /\
     forall emb : nat -> list R,
       Forall (fun i => i < length table /\
                        Linear_row (nep_fc self) (nth i table []) = Ok (emb i)) ids ->
       (nep_input_dim self = 0 ->
        NodeEmbeddingPrep_forward self ids feats layer_idx = Ok (Some (map emb ids))) /\
       (0 < nep_input_dim self -> forall f, length f = length ids ->
        NodeEmbeddingPrep_forward self ids (Some f) layer_idx
        = Ok (Some (map (fun p => fst p ++ emb (snd p)) (combine f ids))))).
Proof.
  intros Hlen table pad.
  assert (Hpad : forall l : list nat,
             NodeEmbeddingPrep_lookup self l 0 = Ok (repeat pad (length l))).
  { intros l. unfold NodeEmbeddingPrep_lookup, Embedding_forward. simpl.
    rewrite (index_select_ok (t:=nep_embedding self) []).
    - now rewrite map_map, map_const_repeat.
    - apply Forall_forall. intros i Hi. apply in_map_iff in Hi.
      destruct Hi as [_ [<- _]]. lia. }
  split; [apply Hpad|]. split; [|split; [|split; [|split]]].
  - unfold Embedding_forward, table.
    rewrite (index_select_ok (t:=nep_embedding self) []); [reflexivity|].
    constructor; [lia|constructor].
  - intros e Htable Hfc. apply (Linear_row_shape Hfc).
    apply (has_shape_nth Htable). lia.
  - intros y Hy.
    assert (Hfc : Linear_forward (nep_fc self) (repeat pad (length ids))
                  = Ok (repeat y (length ids))) by now apply mapM_repeat.
    split.
    + intros Hin. unfold NodeEmbeddingPrep_forward.
      rewrite Hpad. cbn [rbind]. rewrite Hfc. cbn [rbind]. now rewrite Hin.
    + intros Hin f Hf. unfold NodeEmbeddingPrep_forward.
      rewrite Hpad. cbn [rbind]. rewrite Hfc. cbn [rbind].
      destruct (Nat.ltb_spec 0 (nep_input_dim self)); [|lia].
      rewrite cat_dim1_pair by now rewrite repeat_length.
      cbn [rbind]. now rewrite <- Hf, combine_repeat_app.
  - intros ids' Hl.
    assert (Hlk : NodeEmbeddingPrep_lookup self ids' 0 = NodeEmbeddingPrep_lookup self ids 0)
      by now rewrite !Hpad, Hl.
    split; [exact Hlk|]. unfold NodeEmbeddingPrep_forward. now rewrite Hlk.
  - intros layer_idx Hpos.
    assert (Hlook : NodeEmbeddingPrep_lookup self ids layer_idx
                    = Embedding_forward table ids).
    { unfold NodeEmbeddingPrep_lookup.
      destruct (Nat.ltb_spec 0 layer_idx); [reflexivity|lia]. }
    split; [exact Hlook|]. intros emb Hemb.
    assert (Hrows : Embedding_forward table ids = Ok (map (fun i => nth i table []) ids)).
    { apply index_select_ok. eapply Forall_impl; [|exact Hemb]. now intros i [Hi _]. }
    assert (Hfc : Linear_forward (nep_fc self) (map (fun i => nth i table []) ids)
                  = Ok (map emb ids)).
    { unfold Linear_forward.
      rewrite (mapM_ok (g:=fun row => match Linear_row (nep_fc self) row with
                                      | Ok y => y | Raise _ => [] end)).
      - f_equal. rewrite map_map. apply map_ext_in. intros i Hi.
        rewrite Forall_forall in Hemb. destruct (Hemb i Hi) as [_ Hy]. now rewrite Hy.
      - apply Forall_forall. intros row Hrow. apply in_map_iff in Hrow.
        destruct Hrow as [i [<- Hi]].
        rewrite Forall_forall in Hemb. destruct (Hemb i Hi) as [_ Hy]. now rewrite Hy. }
    split.
    + intros Hin. unfold NodeEmbeddingPrep_forward.
      rewrite Hlook, Hrows. cbn [rbind]. rewrite Hfc. cbn [rbind]. now rewrite Hin.
    + intros Hin f Hf. unfold NodeEmbeddingPrep_forward.
      rewrite Hlook, Hrows. cbn [rbind]. rewrite Hfc. cbn [rbind].
      destruct (Nat.ltb_spec 0 (nep_input_dim self)); [|lia].
      rewrite cat_dim1_pair by now rewrite length_map.
      cbn [rbind]. do 2 f_equal.
      clear. revert f. induction ids as [|i ids IH]; intros [|row f]; simpl;
        try reflexivity. now rewrite IH.
Qed.

(** A two-node table with its padding row, seeds 0 and 1: at depth 0 both
    seeds get the transform of the padding row [[3]], at depth 1 the
    transforms of their own rows. *)
Lemma NodeEmbeddingPrep_forward_depth0_padding_witness :
  let fc := {| in_features := 1; out_features := 1; weight := [[1%R]]; bias := None |} in
  let self := {| nep_n_nodes := 2; nep_input_dim := 0; nep_embedding_dim := 1;
                 nep_embedding := [[1%R]; [2%R]; [3%R]]; nep_fc := fc |} in
  NodeEmbeddingPrep_lookup self [0; 1] 0 = Ok [[3%R]; [3%R]] /\
  NodeEmbeddingPrep_lookup self [0; 1] 1 = Ok [[1%R]; [2%R]] /\
  NodeEmbeddingPrep_forward self [0; 1] None 0
  = Ok (Some [[dot [3%R] [1%R]]; [dot [3%R] [1%R]]]) /\
  NodeEmbeddingPrep_forward self [0; 1] None 1
  = Ok (Some [[dot [1%R] [1%R]]; [dot [2%R] [1%R]]]).
Proof.
  intros fc self.
  destruct (@NodeEmbeddingPrep_forward_depth0_padding self [0; 1] None eq_refl)
    as [H0 [_ [_ [Hf0 [_ H1]]]]].
  split; [exact H0|]. split; [exact (proj1 (H1 1 (le_n 1)))|]. split.
  - exact (proj1 (Hf0 [dot [3%R] [1%R]] eq_refl) eq_refl).
  - refine (proj1 (proj2 (H1 1 (le_n 1))
                     (fun i => [dot (nth i [[1%R]; [2%R]; [3%R]] []) [1%R]]) _) eq_refl).
    constructor; [split; [simpl; lia|reflexivity]|].
    constructor; [split; [simpl; lia|reflexivity]|constructor].
Defined.

(** ** Output widths *)

Lemma AggregatorMixin_output_dim_cat (d : nat) :
  AggregatorMixin_output_dim d default_combine_fn = Ok (2 * d).
Proof.
  unfold AggregatorMixin_output_dim, default_combine_fn, zeros. simpl.
  rewrite length_app, repeat_length. f_equal. lia.
Qed.

Lemma last_cons_default {A} (l : list A) (x d : A) : last (x :: l) d = last l x.
Proof.
  revert x d. induction l as [|a l IH]; intros x d; [reflexivity|].
  change (last (x :: a :: l) d) with (last (a :: l) d).
  now rewrite (IH a d), (IH a x).
Qed.

Section WidthSpec.
Context {rng : Type} `{RandomSource rng}.

Lemma build_agg_layers_ok (c : aggregator_class) (specs : list layer_spec) :
  forall (d0 : nat) (g : rng),
  exists aggs d_last g',
    build_agg_layers c d0 specs g = (Ok (aggs, d_last), g') /\
    layer_widths_chained d0 aggs d_last /\
    Forall2 (fun a spec => agg_output_dim_ a = output_dim spec /\
                           agg_combine_fn a = default_combine_fn /\
                           agg_output_dim a = Ok (2 * output_dim spec)) aggs specs /\
    Forall (fun a => agg_combine_fn a = default_combine_fn) aggs /\
    d_last = last (map (fun spec => 2 * output_dim spec) specs) d0.
Proof.
  induction specs as [|spec rest IH]; intros d0 g.
  - exists [], d0, g. simpl. repeat split; constructor.
  - destruct (aggregator_new_ok c d0 (output_dim spec) (activation spec) g)
      as [a [g1 [Ha [Wa [Oa [Ca Ia]]]]]].
    assert (Hout : agg_output_dim a = Ok (2 * output_dim spec)).
    { unfold agg_output_dim. rewrite Ca, Oa. apply AggregatorMixin_output_dim_cat. }
    destruct (IH (2 * output_dim spec) g1)
      as [aggs [d_last [g2 [Hb [Hchain [Hspecs [Hcomb Hlast]]]]]]].
    exists (a :: aggs), d_last, g2. split; [|split; [|split; [|split]]].
    + cbn [build_agg_layers]. rewrite (bind_ok _ Ha).
      erewrite bind_ok; [|unfold lift; rewrite Hout; reflexivity].
      rewrite (bind_ok _ Hb). reflexivity.
    + simpl. split; [exact Ia|]. exists (2 * output_dim spec). now split.
    + constructor; [now repeat split|exact Hspecs].
    + constructor; assumption.
    + rewrite Hlast. cbn [map]. now rewrite last_cons_default.
Qed.

End WidthSpec.

(** ** Initial amplitudes of the quantum walk *)

Lemma nth_map_seq {A} (f : nat -> A) (n i : nat) (d : A) :
  i < n -> nth i (map f (seq 0 n)) d = f i.
Proof.
  intros Hi.
  rewrite (nth_indep _ d (f 0)) by now rewrite length_map, length_seq.
  now rewrite map_nth, seq_nth.
Qed.

Lemma nth_map_in {A B} (f : A -> B) (l : list A) (i : nat) (da : A) (db : B) :
  i < length l -> nth i (map f l) db = f (nth i l da).
Proof.
  intros Hi. rewrite (nth_indep _ db (f da)) by now rewrite length_map.
  apply map_nth.
Qed.

Lemma rsum_map_const {A} (c : R) (l : list A) :
  rsum (map (fun _ => c) l) = (INR (length l) * c)%R.
Proof.
  induction l as [|a l IH].
  - simpl. lra.
  - cbn [map rsum fold_right length]. fold (rsum (map (fun _ => c) l)).
    rewrite IH, S_INR. lra.
Qed.

Lemma max_row_sum_bound (g : graph) (row : list nat) :
  In row g -> list_sum row <= max_row_sum g.
Proof.
  unfold max_row_sum. induction g as [|r g IH]; simpl; [contradiction|].
  intros [<-|Hin]; [lia|]. specialize (IH Hin). lia.
Qed.

Lemma max_degree_bound (graphs : list graph) (g : graph) :
  In g graphs -> max_row_sum g <= max_degree graphs.
Proof.
  unfold max_degree.
  assert (Hmono : forall gs acc,
             acc <= fold_left (fun degree g0 => let d := max_row_sum g0 in
                                                if degree <? d then d else degree) gs acc).
  { induction gs as [|g0 gs IH]; intros acc; simpl; [lia|].
    etransitivity; [|apply IH]. destruct (Nat.ltb_spec acc (max_row_sum g0)); lia. }
  generalize 0. induction graphs as [|g0 graphs IH]; intros acc; simpl; [contradiction|].
  intros [->|Hin]; [|now apply IH].
  etransitivity; [|apply Hmono]. destruct (Nat.ltb_spec acc (max_row_sum g)); lia.
Qed.




Lemma GenerateQuantumWalkGraphs_amps (adj : adjacency) (tmp : list nat) (B gs : nat)
    (amps : tensor4) (graphs : list graph) (degree : nat) :
  GenerateQuantumWalkGraphs adj tmp B gs = Ok (amps, graphs, degree) ->
  degree = max_degree graphs /\ amps = map (init_amps_graph degree) graphs.
Proof.
  unfold GenerateQuantumWalkGraphs.
  destruct (negb (gs =? 0)); [|discriminate].
  destruct (fill_graphs _ _ _ _ _) as [gr|e]; [|discriminate].
  simpl. intros Heq. inversion Heq; subst. now split.
Qed.



(** ** Shapes *)

Lemma has_shape_cons {A} (n d : nat) (row : list A) (t : list (list A)) :
  has_shape (S n) d (row :: t) <-> length row = d /\ has_shape n d t.
Proof.
  unfold has_shape. simpl. split.
  - intros [Hn Hd]. inversion Hd; subst. repeat split; auto.
  - intros [Hr [Hn Hd]]. split; [lia|]. now constructor.
Qed.

Lemma has_shape_map {A B} (f : A -> B) (n d : nat) (t : list (list A)) :
  has_shape n d t -> has_shape n d (map (map f) t).
Proof.
  intros [Hn Hd]. split; [now rewrite length_map|].
  apply Forall_forall. intros row Hin. apply in_map_iff in Hin.
  destruct Hin as [r [<- Hr]]. rewrite length_map.
  rewrite Forall_forall in Hd. now apply Hd.
Qed.

Lemma mapM_shape {A B} (f : A -> result (list B)) (l : list A) (d : nat) :
  Forall (fun a => exists v, f a = Ok v /\ length v = d) l ->
  exists t, mapM f l = Ok t /\ has_shape (length l) d t.
Proof.
  induction 1 as [|a l [v [Hv Hl]] _ [t [Ht Hs]]].
  - exists []. split; [reflexivity|]. split; [reflexivity|constructor].
  - exists (v :: t). simpl. rewrite Hv, Ht. split; [reflexivity|].
    apply has_shape_cons. now split.
Qed.

Lemma vmul_length (u v : vec) (d : nat) :
  length u = d -> length v = d -> length (vmul u v) = d.
Proof.
  intros Hu Hv. unfold vmul. rewrite length_map, length_combine. lia.
Qed.

Lemma vmax_length (u v : vec) (d : nat) :
  length u = d -> length v = d -> length (vmax u v) = d.
Proof.
  intros Hu Hv. unfold vmax. rewrite length_map, length_combine. lia.
Qed.

Lemma Linear_forward_shape (l : Linear) (n_in n_out n : nat) (x : matrix) :
  Linear_dims l n_in n_out -> has_shape n n_in x ->
  exists y, Linear_forward l x = Ok y /\ has_shape n n_out y.
Proof.
  intros Hl [Hn Hd]. unfold Linear_forward. rewrite <- Hn.
  apply mapM_shape. eapply Forall_impl; [|exact Hd].
  intros row Hrow. now apply (Linear_row_shape Hl).
Qed.

Lemma cat_dim1_shape (a b : matrix) (n da db : nat) :
  has_shape n da a -> has_shape n db b ->
  exists c, cat_dim1 [a; b] = Ok c /\ has_shape n (da + db) c.
Proof.
  intros [Hna Hda] [Hnb Hdb]. simpl.
  rewrite Hna, Hnb, Nat.eqb_refl.
  eexists. split; [reflexivity|]. split.
  - rewrite length_map, length_combine. lia.
  - apply Forall_forall. intros row Hin. apply in_map_iff in Hin.
    destruct Hin as [[u v] [<- Huv]]. simpl. rewrite length_app.
    rewrite Forall_forall in Hda, Hdb.
    rewrite (Hda u), (Hdb v); [reflexivity| |].
    + eapply in_combine_r; eassumption.
    + eapply in_combine_l; eassumption.
Qed.

Lemma apply_activation_shape (act : activation_t) (n d : nat) (t : matrix) :
  has_shape n d t -> has_shape n d (apply_activation act t).
Proof.
  intros Ht. destruct act; simpl; [now apply has_shape_map|exact Ht].
Qed.

Lemma concat_length_shape {A} (n d : nat) (t : list (list A)) :
  has_shape n d t -> length (concat t) = n * d.
Proof.
  revert n. induction t as [|row t IH]; intros n [Hn Hd]; simpl in *.
  - subst. reflexivity.
  - subst n. inversion Hd; subst. rewrite length_app.
    rewrite (IH (length t)); [simpl; lia|]. now split.
Qed.

Lemma chunks_concat {A} (n d : nat) (t : list (list A)) :
  has_shape n d t -> chunks d n (concat t) = t.
Proof.
  revert n. induction t as [|row t IH]; intros n [Hn Hd]; simpl in *.
  - subst. reflexivity.
  - subst n. inversion Hd; subst. simpl.
    rewrite firstn_app, Nat.sub_diag, firstn_all, firstn_O, app_nil_r.
    rewrite skipn_app, Nat.sub_diag, skipn_all. simpl.
    f_equal. apply IH. now split.
Qed.

Lemma chunks_length {A} (k n : nat) (l : list A) : length (chunks k n l) = n.
Proof. revert l. induction n; intros l; simpl; [reflexivity|]. now rewrite IHn. Qed.

Lemma chunks_Forall {A} (P : list A -> Prop) (k n : nat) (l : list A) :
  (forall l', P (firstn k l')) ->
  Forall P (chunks k n l).
Proof.
  intros HP. revert l. induction n; intros l; simpl; constructor; auto.
Qed.

Lemma Forall_firstn_skipn {A} (P : A -> Prop) (n : nat) (l : list A) :
  Forall P l -> Forall P (firstn n l) /\ Forall P (skipn n l).
Proof.
  intros Hl. rewrite <- (firstn_skipn n l) in Hl. now apply Forall_app in Hl.
Qed.

(** Cutting [n * k] rows into [n] groups gives groups of [k] rows. *)
Lemma chunks_rows_shape {A} (n k d : nat) (t : list (list A)) :
  has_shape (n * k) d t ->
  length (chunks k n t) = n /\ Forall (has_shape k d) (chunks k n t).
Proof.
  split; [apply chunks_length|].
  destruct H as [Hn Hd]. revert t Hn Hd.
  induction n as [|n IH]; intros t Hn Hd; simpl; constructor.
  - split.
    + rewrite length_firstn. simpl in Hn. lia.
    + now apply Forall_firstn_skipn.
  - apply IH.
    + rewrite length_skipn. simpl in Hn. lia.
    + now apply Forall_firstn_skipn.
Qed.

Lemma view3_rows (b k d : nat) (t : matrix) :
  0 < b -> 0 < d -> has_shape (b * k) d t ->
  view3 b d t = Ok (chunks k b t).
Proof.
  intros Hb Hd Ht. unfold view3.
  rewrite (concat_length_shape Ht).
  destruct (Nat.eqb_spec (b * d) 0) as [E|_]; [nia|]. simpl.
  replace (b * k * d) with (k * (b * d)) by lia.
  rewrite Nat.Div0.mod_mul. simpl.
  rewrite Nat.div_mul by nia.
  now rewrite (chunks_concat Ht).
Qed.

Lemma colsum_length (d : nat) (m : matrix) :
  Forall (fun row => length row = d) m -> length (colsum d m) = d.
Proof.
  unfold colsum. induction 1 as [|row m Hrow _ IH]; simpl.
  - apply repeat_length.
  - now apply vadd_length.
Qed.

Lemma group_size1 (k d : nat) (m : matrix) : 0 < k -> has_shape k d m -> size1 m = d.
Proof. intros Hk Hm. now apply (has_shape_size1 Hm). Qed.

Lemma mean_dim1_shape (k d : nat) (t : tensor3) :
  0 < k -> Forall (has_shape k d) t -> has_shape (length t) d (mean_dim1 t).
Proof.
  intros Hk Ht. unfold mean_dim1. split; [now rewrite length_map|].
  apply Forall_forall. intros row Hin. apply in_map_iff in Hin.
  destruct Hin as [m [<- Hm]]. rewrite Forall_forall in Ht. specialize (Ht m Hm).
  rewrite length_map, (group_size1 Hk Ht). apply colsum_length, Ht.
Qed.

Lemma sum_dim1_shape (k d : nat) (t : tensor3) :
  0 < k -> Forall (has_shape k d) t -> has_shape (length t) d (sum_dim1 t).
Proof.
  intros Hk Ht. unfold sum_dim1. split; [now rewrite length_map|].
  apply Forall_forall. intros row Hin. apply in_map_iff in Hin.
  destruct Hin as [m [<- Hm]]. rewrite Forall_forall in Ht. specialize (Ht m Hm).
  rewrite (group_size1 Hk Ht). apply colsum_length, Ht.
Qed.

Lemma fold_vmax_length (d : nat) (rest : matrix) (row : vec) :
  length row = d -> Forall (fun r => length r = d) rest ->
  length (fold_left vmax rest row) = d.
Proof.
  intros Hrow Hrest. revert row Hrow.
  induction Hrest as [|r rest Hr _ IH]; intros row Hrow; simpl; [exact Hrow|].
  apply IH. now apply vmax_length.
Qed.

Lemma max_dim1_shape (k d : nat) (t : tensor3) :
  0 < k -> Forall (has_shape k d) t ->
  exists r, max_dim1 t = Ok r /\ has_shape (length t) d r.
Proof.
  intros Hk Ht. unfold max_dim1. apply mapM_shape.
  eapply Forall_impl; [|exact Ht]. intros m [Hn Hd].
  destruct m as [|row rest]; [simpl in Hn; lia|].
  inversion Hd; subst. eexists. split; [reflexivity|].
  now apply fold_vmax_length.
Qed.

Lemma view_groups (B k w : nat) (x t : matrix) :
  0 < B -> 0 < k -> 0 < w -> length x = B -> has_shape (B * k) w t ->
  view3 (size0 x) (size1 t) t = Ok (chunks k B t) /\
  length (chunks k B t) = B /\
  Forall (has_shape k w) (chunks k B t).
Proof.
  intros HB Hk Hw Hx Ht.
  unfold size0. rewrite Hx.
  rewrite (has_shape_size1 Ht) by nia.
  split; [now apply view3_rows|]. now apply chunks_rows_shape.
Qed.

Lemma MeanAggregator_forward_shape (a : MeanAggregator) (B k d : nat) (x neibs : matrix) :
  MeanAggregator_wf d a -> agg_inputs B k d x neibs ->
  exists out, MeanAggregator_forward a (Some x) (Some neibs) = Ok out /\
              has_shape B (2 * mean_output_dim_ a) out.
Proof.
  intros [Hfx [Hfn Hc]] [HB [Hk [Hd [Hx Hn]]]].
  destruct (view_groups HB Hk Hd (proj1 Hx) Hn) as [Hview [Hlen Hgroups]].
  pose proof (mean_dim1_shape Hk Hgroups) as Hmean. rewrite Hlen in Hmean.
  destruct (Linear_forward_shape Hfx Hx) as [ya [Hya Sa]].
  destruct (Linear_forward_shape Hfn Hmean) as [yb [Hyb Sb]].
  destruct (cat_dim1_shape Sa Sb) as [c [Hcat Sc]].
  exists (apply_activation (mean_activation a) c). split.
  - unfold MeanAggregator_forward. cbn [expect rbind].
    rewrite Hview. cbn [rbind]. rewrite Hya. cbn [rbind]. rewrite Hyb. cbn [rbind].
    rewrite Hc. unfold default_combine_fn. rewrite Hcat. reflexivity.
  - apply apply_activation_shape.
    replace (2 * mean_output_dim_ a) with (mean_output_dim_ a + mean_output_dim_ a) by lia.
    exact Sc.
Qed.

Lemma PoolAggregator_forward_shape (a : PoolAggregator) (B k d : nat) (x neibs : matrix) :
  PoolAggregator_wf d a -> agg_inputs B k d x neibs ->
  exists out, PoolAggregator_forward a (Some x) (Some neibs) = Ok out /\
              has_shape B (2 * pool_output_dim_ a) out.
Proof.
  intros [h [Hh [Hmlp [Hfx [Hfn [Hpool Hc]]]]]] [HB [Hk [Hd [Hx Hn]]]].
  destruct (Linear_forward_shape Hmlp Hn) as [hn [Hhn Shn]].
  pose proof (has_shape_map relu Shn) as Srelu.
  destruct (view_groups HB Hk Hh (proj1 Hx) Srelu) as [Hview [Hlen Hgroups]].
  assert (Hp : exists p, pool_pool_fn a (chunks k B (map (map relu) hn)) = Ok p /\
                         has_shape B h p).
  { destruct Hpool as [-> | ->].
    - unfold max_pool_fn.
      destruct (max_dim1_shape Hk Hgroups) as [r [Hr Sr]]. rewrite Hlen in Sr.
      now exists r.
    - unfold mean_pool_fn. eexists. split; [reflexivity|].
      pose proof (mean_dim1_shape Hk Hgroups) as Sr. now rewrite Hlen in Sr. }
  destruct Hp as [p [Hp Sp]].
  destruct (Linear_forward_shape Hfx Hx) as [ya [Hya Sa]].
  destruct (Linear_forward_shape Hfn Sp) as [yb [Hyb Sb]].
  destruct (cat_dim1_shape Sa Sb) as [c [Hcat Sc]].
  exists (apply_activation (pool_activation a) c). split.
  - unfold PoolAggregator_forward. cbn [expect rbind].
    rewrite Hhn. cbn [rbind]. rewrite Hview. cbn [rbind]. rewrite Hp. cbn [rbind].
    rewrite Hya. cbn [rbind]. rewrite Hyb. cbn [rbind].
    rewrite Hc. unfold default_combine_fn. rewrite Hcat. reflexivity.
  - apply apply_activation_shape.
    replace (2 * pool_output_dim_ a) with (pool_output_dim_ a + pool_output_dim_ a) by lia.
    exact Sc.
Qed.

Lemma lstm_cell_shape (hs d : nat) (dir : LSTMDir) (x : vec) (hc : vec * vec) :
  LSTMDir_wf d hs dir -> length x = d ->
  length (fst hc) = hs -> length (snd hc) = hs ->
  exists hc', lstm_cell hs dir x hc = Ok hc' /\
              length (fst hc') = hs /\ length (snd hc') = hs.
Proof.
  intros [Hih Hhh] Hx Hh Hc.
  destruct (Linear_row_shape Hih Hx) as [a [Ha La]].
  destruct (Linear_row_shape Hhh Hh) as [b [Hb Lb]].
  unfold lstm_cell. rewrite Ha. cbn [rbind]. rewrite Hb. cbn [rbind].
  eexists. split; [reflexivity|].
  pose proof (vadd_length La Lb) as Lg.
  assert (Lc : length (vadd (vmul (map sigmoid (firstn hs (skipn hs (vadd a b)))) (snd hc))
                            (vmul (map sigmoid (firstn hs (vadd a b)))
                                  (map tanh (firstn hs (skipn (2 * hs) (vadd a b)))))) = hs).
  { apply vadd_length; apply vmul_length;
      rewrite ?length_map, ?length_firstn, ?length_skipn, ?Lg; lia. }
  cbn [fst snd]. split; [|exact Lc].
  apply vmul_length.
  - rewrite length_map, length_firstn, length_skipn, Lg. lia.
  - rewrite length_map. exact Lc.
Qed.

Lemma lstm_scan_shape (hs d : nat) (dir : LSTMDir) (xs : list vec) :
  LSTMDir_wf d hs dir -> Forall (fun x => length x = d) xs ->
  forall hc, length (fst hc) = hs -> length (snd hc) = hs ->
  exists out, lstm_scan hs dir xs hc = Ok out /\ has_shape (length xs) hs out.
Proof.
  intros Hdir Hxs. induction Hxs as [|x xs Hx _ IH]; intros hc Hh Hc; simpl.
  - exists []. split; [reflexivity|]. split; [reflexivity|constructor].
  - destruct (lstm_cell_shape Hdir Hx Hh Hc) as [hc' [Hcell [Hh' Hc']]].
    rewrite Hcell. cbn [rbind].
    destruct (IH hc' Hh' Hc') as [out [Hout Sout]].
    rewrite Hout. cbn [rbind]. eexists. split; [reflexivity|].
    apply has_shape_cons. now split.
Qed.

Lemma LSTM_forward_shape (l : LSTM) (k d : nat) (t : tensor3) :
  LSTM_wf d l -> Forall (has_shape k d) t ->
  exists r, LSTM_forward l t = Ok r /\
            length r = length t /\ Forall (has_shape k (LSTM_out_width l)) r.
Proof.
  intros [Hfw Hbw] Ht. unfold LSTM_forward.
  induction Ht as [|m t [Hk Hm] _ [r [Hr [Lr Sr]]]]; simpl.
  - exists []. repeat split; constructor.
  - assert (Hz : length (repeat 0%R (lstm_hidden_size l)) = lstm_hidden_size l)
      by apply repeat_length.
    destruct (lstm_scan_shape Hfw Hm (hc:=(repeat 0%R (lstm_hidden_size l),
                                           repeat 0%R (lstm_hidden_size l))) Hz Hz)
      as [fw [Hscan Sfw]].
    rewrite Hscan. cbn [rbind]. rewrite Hk in Sfw.
    unfold LSTM_out_width in *.
    destruct (lstm_reverse_dir l) as [rd|].
    + assert (Hrev : Forall (fun x : list R => length x = d) (rev m)).
      { apply Forall_forall. intros x Hin. apply in_rev in Hin.
        rewrite Forall_forall in Hm. now apply Hm. }
      destruct (lstm_scan_shape Hbw Hrev (hc:=(repeat 0%R (lstm_hidden_size l),
                                               repeat 0%R (lstm_hidden_size l))) Hz Hz)
        as [bw [Hscanb Sbw]].
      rewrite Hscanb. cbn [rbind]. rewrite Hr. cbn [rbind].
      rewrite length_rev, Hk in Sbw.
      eexists. split; [reflexivity|]. split; [simpl; lia|].
      constructor; [|exact Sr]. split.
      * rewrite length_map, length_combine, length_rev.
        rewrite (proj1 Sfw), (proj1 Sbw). lia.
      * apply Forall_forall. intros row Hin. apply in_map_iff in Hin.
        destruct Hin as [[u v] [<- Huv]]. simpl. rewrite length_app.
        destruct Sfw as [_ Sfw]. destruct Sbw as [_ Sbw].
        rewrite Forall_forall in Sfw, Sbw.
        rewrite (Sfw u), (Sbw v); [reflexivity| |].
        -- apply in_rev. eapply in_combine_r; eassumption.
        -- eapply in_combine_l; eassumption.
    + rewrite Hr. cbn [rbind].
      eexists. split; [reflexivity|]. split; [simpl; lia|].
      constructor; assumption.
Qed.

Lemma last_item_shape (k w : nat) (m : matrix) :
  0 < k -> has_shape k w m -> exists row, last_item m = Ok row /\ length row = w.
Proof.
  intros Hk [Hn Hw]. unfold last_item.
  destruct (rev m) as [|row rest] eqn:E.
  - apply (f_equal (@length _)) in E. rewrite length_rev in E. simpl in E. lia.
  - exists row. split; [reflexivity|].
    rewrite Forall_forall in Hw. apply Hw, in_rev. rewrite E. now left.
Qed.

Lemma LSTMAggregator_forward_shape (a : LSTMAggregator) (B k d : nat) (x neibs : matrix) :
  LSTMAggregator_wf d a -> agg_inputs B k d x neibs ->
  exists out, LSTMAggregator_forward a (Some x) (Some neibs) = Ok out /\
              has_shape B (2 * lstmagg_output_dim_ a) out.
Proof.
  intros [Hl [Hfx [Hfn Hc]]] [HB [Hk [Hd [Hx Hn]]]].
  destruct (view_groups HB Hk Hd (proj1 Hx) Hn) as [Hview [Hlen Hgroups]].
  destruct (Linear_forward_shape Hfx Hx) as [ya [Hya Sa]].
  destruct (LSTM_forward_shape Hl Hgroups) as [r [Hr [Lr Sr]]].
  assert (Hlast : exists p, mapM (@last_item (list R)) r = Ok p /\
                            has_shape B (LSTM_out_width (lstmagg_lstm a)) p).
  { rewrite <- Hlen, <- Lr. apply mapM_shape.
    eapply Forall_impl; [|exact Sr]. intros m Hm. now apply (last_item_shape Hk). }
  destruct Hlast as [p [Hp Sp]].
  destruct (Linear_forward_shape Hfn Sp) as [yb [Hyb Sb]].
  destruct (cat_dim1_shape Sa Sb) as [c [Hcat Sc]].
  exists (apply_activation (lstmagg_activation a) c). split.
  - unfold LSTMAggregator_forward. cbn [expect rbind].
    rewrite Hya. cbn [rbind]. rewrite Hview. cbn [rbind]. rewrite Hr. cbn [rbind].
    rewrite Hp. cbn [rbind]. rewrite Hyb. cbn [rbind].
    rewrite Hc. unfold default_combine_fn. rewrite Hcat. reflexivity.
  - apply apply_activation_shape.
    replace (2 * lstmagg_output_dim_ a)
      with (lstmagg_output_dim_ a + lstmagg_output_dim_ a) by lia.
    exact Sc.
Qed.

(** ** Attention weights *)

Lemma att_forward_shape (a : AttentionAggregator) (n d h : nat) (x : matrix) :
  Linear_dims (att_1 a) d h -> Linear_dims (att_2 a) h h -> has_shape n d x ->
  exists y, att_forward a x = Ok y /\ has_shape n h y.
Proof.
  intros H1 H2 Hx. unfold att_forward.
  destruct (Linear_forward_shape H1 Hx) as [y1 [Hy1 S1]].
  rewrite Hy1. cbn [rbind].
  apply (Linear_forward_shape H2). now apply has_shape_map.
Qed.

Lemma matmul_column (h : nat) (m : matrix) (xr : vec) :
  0 < h -> Forall (fun row => length row = h) m -> length xr = h ->
  matmul m (map (fun v => [v]) xr) = Ok (map (fun row => [dot row xr]) m).
Proof.
  intros Hh Hm Hx. unfold matmul. apply mapM_ok.
  eapply Forall_impl; [|exact Hm]. intros row Hrow. cbv beta.
  rewrite length_map, Hrow, Hx, Nat.eqb_refl.
  destruct xr as [|v xr]; [simpl in Hx; lia|].
  cbn [map size1 length transpose seq]. do 3 f_equal.
  rewrite map_map. cbn [nth]. f_equal. now rewrite map_id.
Qed.

Lemma bmm_scores (h k : nat) (groups : tensor3) (x_att : matrix) :
  0 < h -> Forall (has_shape k h) groups -> has_shape (length groups) h x_att ->
  bmm groups (map (map (fun v => [v])) x_att)
  = Ok (map (map (fun s => [s])) (score_rows groups x_att)).
Proof.
  intros Hh Hg [Hn Hx]. unfold bmm.
  rewrite length_map, Hn, Nat.eqb_refl.
  revert x_att Hn Hx. induction Hg as [|m groups [_ Hm] _ IH]; intros x_att Hn Hx.
  - reflexivity.
  - destruct x_att as [|xr x_att]; [discriminate|].
    apply Forall_cons_iff in Hx. destruct Hx as [Hxr Hrest].
    cbn [map combine mapM fst snd].
    rewrite (matmul_column Hh Hm Hxr). cbn [rbind].
    rewrite (IH x_att) by (simpl in Hn; first [lia | assumption]). cbn [rbind].
    unfold score_rows. cbn [combine map fst snd]. now rewrite !map_map.
Qed.

Lemma concat_map_singleton {A B} (f : A -> B) (l : list A) :
  concat (map (fun a => [f a]) l) = map f l.
Proof. induction l; simpl; congruence. Qed.

Lemma squeeze3_scores (B k : nat) (S : matrix) :
  0 < B -> 0 < k -> has_shape B k S ->
  squeeze (T3 (map (map (fun s => [s])) S)) = squeeze2 S.
Proof.
  intros HB Hk [Hn Hd]. cbn [squeeze]. unfold squeeze3.
  destruct S as [|row S]; [simpl in Hn; lia|].
  inversion Hd; subst. destruct row as [|s row]; [simpl in Hk; lia|].
  cbn [map size1 length]. rewrite Bool.orb_true_r.
  f_equal. cbn [concat app]. f_equal.
  - f_equal. now rewrite (concat_map_singleton (fun s => s)), map_id.
  - rewrite map_map. rewrite <- (map_id S) at 2. apply map_ext. intros r.
    now rewrite (concat_map_singleton (fun s => s)), map_id.
Qed.

Lemma score_rows_shape (B k h : nat) (groups : tensor3) (x_att : matrix) :
  length groups = B -> Forall (has_shape k h) groups -> length x_att = B ->
  has_shape B k (score_rows groups x_att).
Proof.
  intros Hg Hs Hx. unfold score_rows. split.
  - rewrite length_map, length_combine. lia.
  - apply Forall_forall. intros row Hin. apply in_map_iff in Hin.
    destruct Hin as [[m xr] [<- Hp]]. simpl. rewrite length_map.
    rewrite Forall_forall in Hs. apply Hs. eapply in_combine_l; eassumption.
Qed.

(** The weights the attention aggregator computes: the implicit-dimension
    softmax of the squeezed score rows. *)
Lemma AttentionAggregator_weights_spec (a : AttentionAggregator) (B k d : nat)
    (x neibs : matrix) :
  AttentionAggregator_wf d a -> agg_inputs B k d x neibs ->
  exists S, has_shape B k S /\
            AttentionAggregator_weights a x neibs = Ok (softmax_implicit (squeeze2 S)).
Proof.
  intros [h [Hh [H1 [H2 _]]]] [HB [Hk [Hd [Hx Hn]]]].
  destruct (att_forward_shape H1 H2 Hn) as [na [Hna Sna]].
  destruct (att_forward_shape H1 H2 Hx) as [xa [Hxa Sxa]].
  destruct (view_groups HB Hk Hh (proj1 Hx) Sna) as [Hview [Hlen Hgroups]].
  pose proof (score_rows_shape Hlen Hgroups (proj1 Sxa)) as HS.
  exists (score_rows (chunks k B na) xa). split; [exact HS|].
  unfold AttentionAggregator_weights.
  rewrite Hna. cbn [rbind]. rewrite Hxa. cbn [rbind]. rewrite Hview. cbn [rbind].
  rewrite (bmm_scores Hh Hgroups) by now rewrite Hlen. cbn [rbind].
  now rewrite (squeeze3_scores HB Hk HS).
Qed.

Lemma rsum_softmax_vec (v : vec) : v <> [] -> rsum (softmax_vec v) = 1%R.
Proof.
  intros Hv. unfold softmax_vec.
  set (total := rsum (map exp v)).
  assert (Hpos : (0 < total)%R).
  { subst total. destruct v as [|x v]; [contradiction|]. clear Hv.
    simpl. assert (Hnn : (0 <= rsum (map exp v))%R).
    { induction v as [|y v IH]; simpl; [lra|]. pose proof (exp_pos y). lra. }
    pose proof (exp_pos x). lra. }
  assert (Hsum : forall l, rsum (map (fun x => (exp x / total)%R) l)
                           = (rsum (map exp l) / total)%R).
  { induction l as [|y l IH]; simpl.
    - unfold Rdiv. now rewrite Rmult_0_l.
    - fold (rsum (map (fun x => (exp x / total)%R) l)). rewrite IH.
      fold (rsum (map exp l)). field. lra. }
  rewrite Hsum. fold total. field. lra.
Qed.

(** With at least two neighbours per node and at least two nodes the
    softmax runs over each node's own row of [k] scores. *)
Lemma AttentionAggregator_weights_rows (a : AttentionAggregator) (B k d : nat)
    (x neibs : matrix) :
  AttentionAggregator_wf d a -> agg_inputs B k d x neibs -> 2 <= B -> 2 <= k ->
  exists W, AttentionAggregator_weights a x neibs = Ok (T2 W) /\
            has_shape B k W /\ Forall (fun w => rsum w = 1%R) W.
Proof.
  intros Hwf Hin HB Hk.
  destruct (AttentionAggregator_weights_spec Hwf Hin) as [S [HS Hws]].
  exists (map softmax_vec S). rewrite Hws. unfold squeeze2.
  rewrite (proj1 HS), (has_shape_size1 HS) by lia.
  destruct (Nat.eqb_spec B 1); [lia|]. destruct (Nat.eqb_spec k 1); [lia|].
  cbn [orb softmax_implicit]. split; [reflexivity|]. split.
  - destruct HS as [Hn Hd]. split; [now rewrite length_map|].
    apply Forall_forall. intros w Hw. apply in_map_iff in Hw.
    destruct Hw as [s [<- Hs]]. unfold softmax_vec. rewrite length_map.
    rewrite Forall_forall in Hd. now apply Hd.
  - apply Forall_forall. intros w Hw. apply in_map_iff in Hw.
    destruct Hw as [s [<- Hs]]. apply rsum_softmax_vec.
    destruct HS as [_ Hd]. rewrite Forall_forall in Hd. specialize (Hd s Hs).
    intros ->. simpl in Hd. lia.
Qed.

Lemma rsum_pos (l : vec) : Forall (fun w => (0 < w)%R) l -> l <> [] -> (0 < rsum l)%R.
Proof.
  intros Hl Hne. destruct Hl as [|a l Ha Hl]; [contradiction|]. clear Hne.
  simpl. fold (rsum l).
  assert (0 <= rsum l)%R; [|lra].
  induction Hl as [|b l Hb _ IH]; simpl; [lra|]. fold (rsum l). lra.
Qed.

Lemma rsum_ge_member (l : vec) (x : R) :
  Forall (fun w => (0 < w)%R) l -> In x l -> (x <= rsum l)%R.
Proof.
  induction 1 as [|a l Ha Hl IH]; intros Hin; [contradiction|].
  simpl. fold (rsum l). destruct Hin as [->|Hin].
  - destruct l as [|b l]; [simpl; lra|].
    pose proof (@rsum_pos (b :: l) Hl ltac:(discriminate)). lra.
  - specialize (IH Hin). lra.
Qed.

Lemma softmax_vec_pos (v : vec) : Forall (fun w => (0 < w)%R) (softmax_vec v).
Proof.
  unfold softmax_vec. apply Forall_forall. intros w Hw.
  apply in_map_iff in Hw. destruct Hw as [x [<- Hx]].
  apply Rdiv_lt_0_compat; [apply exp_pos|].
  apply rsum_pos.
  - apply Forall_forall. intros e He. apply in_map_iff in He.
    destruct He as [y [<- _]]. apply exp_pos.
  - destruct v; [contradiction|discriminate].
Qed.

Lemma softmax_vec_below_one (v : vec) :
  2 <= length v -> Forall (fun w => (0 < w < 1)%R) (softmax_vec v).
Proof.
  intros Hlen.
  assert (Hsum : rsum (softmax_vec v) = 1%R).
  { apply rsum_softmax_vec. intros ->. simpl in Hlen. lia. }
  pose proof (softmax_vec_pos v) as Hpos.
  assert (Hl : 2 <= length (softmax_vec v)) by (unfold softmax_vec; now rewrite length_map).
  revert Hsum Hpos Hl. generalize (softmax_vec v). intros l Hsum Hpos Hl.
  apply Forall_forall. intros w Hw. split.
  - rewrite Forall_forall in Hpos. now apply Hpos.
  - rewrite <- Hsum. clear Hsum.
    destruct Hpos as [|a l Ha Hrest]; [contradiction|].
    simpl. fold (rsum l). destruct Hw as [->|Hw].
    + assert (0 < rsum l)%R; [|lra].
      apply rsum_pos; [exact Hrest|]. intros ->. simpl in Hl. lia.
    + pose proof (rsum_ge_member Hrest Hw). lra.
Qed.

(** C7, at one neighbour per node: for every batch of at least two nodes
    [squeeze()] leaves a rank-1 tensor of the [B] scores, the softmax picks
    dimension 0 and normalizes across the batch: the [B] weights sum to 1
    together, and the single weight of every node is strictly below 1. *)
Theorem AttentionAggregator_weights_softmax_across_batch
    (a : AttentionAggregator) (B d : nat) (x neibs : matrix) :
  AttentionAggregator_wf d a -> agg_inputs B 1 d x neibs -> 2 <= B ->
  exists scores,
    length scores = B /\
    AttentionAggregator_weights a x neibs = Ok (T1 (softmax_vec scores)) /\
    rsum (softmax_vec scores) = 1%R /\
    Forall (fun w => (0 < w < 1)%R) (softmax_vec scores).
Proof.
  intros Hwf Hin HB.
  destruct (AttentionAggregator_weights_spec Hwf Hin) as [S [HS Hws]].
  assert (Hlen : length (concat S) = B).
  { rewrite (concat_length_shape HS). lia. }
  exists (concat S). split; [exact Hlen|]. split; [|split].
  - rewrite Hws. unfold squeeze2.
    rewrite (has_shape_size1 HS) by lia. cbn [Nat.eqb]. rewrite Bool.orb_true_r.
    destruct (concat S) as [|s0 [|s1 rest]]; simpl in Hlen; try lia. reflexivity.
  - apply rsum_softmax_vec. intros E. rewrite E in Hlen. simpl in Hlen. lia.
  - apply softmax_vec_below_one. lia.
Qed.

(** Two nodes with one neighbour each, all features 0, every weight 1. *)
Lemma AttentionAggregator_weights_softmax_across_batch_witness :
  let one := {| in_features := 1; out_features := 1; weight := [[1%R]]; bias := None |} in
  let a := {| att_1 := one; att_2 := one; att_fc_x := one; att_fc_neib := one;
              att_output_dim_ := 1; att_activation := None;
              att_combine_fn := default_combine_fn |} in
  exists scores,
    length scores = 2 /\
    AttentionAggregator_weights a [[0%R]; [0%R]] [[0%R]; [0%R]]
    = Ok (T1 (softmax_vec scores)) /\
    rsum (softmax_vec scores) = 1%R /\
    Forall (fun w => (0 < w < 1)%R) (softmax_vec scores).
Proof.
  intros one a.
  assert (Hone : Linear_dims one 1 1).
  { repeat split; repeat constructor. }
  apply (@AttentionAggregator_weights_softmax_across_batch a 2 1).
  - exists 1. repeat split; auto; repeat constructor.
  - unfold agg_inputs. repeat split; auto; repeat constructor.
  - apply le_n.
Defined.

(** ** Broadcasting the weights over the neighbours *)

Lemma bdim_refl (a : nat) : bdim a a = Ok a.
Proof. unfold bdim. now rewrite Nat.eqb_refl. Qed.

Lemma bdim_one_r (a : nat) : bdim a 1 = Ok a.
Proof.
  unfold bdim. destruct (Nat.eqb_spec a 1); [reflexivity|]. reflexivity.
Qed.

Lemma bdim_one_l (b : nat) : bdim 1 b = Ok b.
Proof.
  unfold bdim. destruct (Nat.eqb_spec 1 b) as [<-|_]; reflexivity.
Qed.

Lemma shape3_groups (B k d : nat) (t : tensor3) :
  0 < B -> 0 < k -> length t = B -> Forall (has_shape k d) t ->
  shape3 t = (B, k, d).
Proof.
  intros HB Hk Hn Ht. unfold shape3. rewrite Hn.
  destruct t as [|m t]; [simpl in Hn; lia|].
  inversion Ht as [|? ? Hm _]; subst. cbn [size1].
  now rewrite (proj1 Hm), (group_size1 Hk Hm).
Qed.

Lemma broadcast_mul3_shape (x : tensor3) (w : nd R) (a1 b1 c1 a2 b2 c2 a b c : nat) :
  shape3 x = (a1, b1, c1) -> shape3 (as_rank3 w) = (a2, b2, c2) ->
  bdim a1 a2 = Ok a -> bdim b1 b2 = Ok b -> bdim c1 c2 = Ok c ->
  exists r, broadcast_mul3 x w = Ok r /\ length r = a /\ Forall (has_shape b c) r.
Proof.
  intros Hx Hw Ha Hb Hc. unfold broadcast_mul3.
  rewrite Hx, Hw, Ha. cbn [rbind]. rewrite Hb. cbn [rbind]. rewrite Hc. cbn [rbind].
  eexists. split; [reflexivity|]. split; [now rewrite length_map, length_seq|].
  apply Forall_forall. intros m Hm. apply in_map_iff in Hm.
  destruct Hm as [i [<- _]]. split; [now rewrite length_map, length_seq|].
  apply Forall_forall. intros row Hrow. apply in_map_iff in Hrow.
  destruct Hrow as [j [<- _]]. now rewrite length_map, length_seq.
Qed.

(** The squeezed and softmaxed scores, unsqueezed again, broadcast against
    the [B] groups of [k] neighbours whatever rank the squeeze left. *)
Lemma attention_weights_broadcast (B k d : nat) (S : matrix) (groups : tensor3) :
  0 < B -> 0 < k -> has_shape B k S ->
  length groups = B -> Forall (has_shape k d) groups ->
  exists w r k',
    unsqueeze_last (softmax_implicit (squeeze2 S)) = Ok w /\
    broadcast_mul3 groups w = Ok r /\
    0 < k' /\ length r = B /\ Forall (has_shape k' d) r.
Proof.
  intros HB Hk HS Hn Hg.
  pose proof (shape3_groups HB Hk Hn Hg) as Hshape.
  unfold squeeze2. rewrite (proj1 HS), (has_shape_size1 HS HB).
  destruct ((B =? 1) || (k =? 1)) eqn:E.
  - assert (Hlen : length (concat S) = B * k) by apply (concat_length_shape HS).
    assert (Hbk : bdim k (B * k) = Ok (B * k)).
    { apply Bool.orb_true_iff in E. destruct E as [E|E]; apply Nat.eqb_eq in E; rewrite E.
      - rewrite Nat.mul_1_l. apply bdim_refl.
      - rewrite Nat.mul_1_r. apply bdim_one_l. }
    destruct (concat S) as [|s0 [|s1 rest]] eqn:Ec.
    + simpl in Hlen. nia.
    + cbn [squeeze1 softmax_implicit unsqueeze_last].
      destruct (@broadcast_mul3_shape groups (T1 [(exp s0 / exp s0)%R])
                  B k d 1 1 1 B k d Hshape eq_refl (bdim_one_r B) (bdim_one_r k)
                  (bdim_one_r d))
        as [r [Hr [Lr Sr]]].
      exists (T1 [(exp s0 / exp s0)%R]), r, k. repeat split; auto.
    + cbn [squeeze1 softmax_implicit unsqueeze_last].
      set (v := softmax_vec (s0 :: s1 :: rest)).
      assert (Hv : length v = B * k).
      { unfold v, softmax_vec. now rewrite length_map. }
      destruct (@broadcast_mul3_shape groups (T2 (map (fun x => [x]) v))
                  B k d 1 (B * k) 1 B (B * k) d Hshape) as [r [Hr [Lr Sr]]].
      * unfold shape3. cbn [as_rank3 length size1]. rewrite length_map, Hv.
        assert (Hs1 : size1 (map (fun x : R => [x]) v) = 1).
        { clearbody v. destruct v; [simpl in Hv; nia|reflexivity]. }
        now rewrite Hs1.
      * apply bdim_one_r.
      * exact Hbk.
      * apply bdim_one_r.
      * exists (T2 (map (fun x => [x]) v)), r, (B * k). repeat split; auto. nia.
  - cbn [softmax_implicit unsqueeze_last].
    set (W := map softmax_vec S).
    assert (HW : has_shape B k W).
    { destruct HS as [HSn HSd]. split; [unfold W; now rewrite length_map|].
      apply Forall_forall. intros row Hrow. apply in_map_iff in Hrow.
      destruct Hrow as [s [<- Hs]]. unfold softmax_vec. rewrite length_map.
      rewrite Forall_forall in HSd. now apply HSd. }
    destruct (@broadcast_mul3_shape groups (T3 (map (map (fun x => [x])) W))
                B k d B k 1 B k d Hshape) as [r [Hr [Lr Sr]]].
    + cbn [as_rank3]. apply shape3_groups; try assumption.
      * rewrite length_map. apply HW.
      * apply Forall_forall. intros m Hm. apply in_map_iff in Hm.
        destruct Hm as [row [<- Hrow]]. destruct HW as [_ HWd].
        rewrite Forall_forall in HWd. split; [rewrite length_map; now apply HWd|].
        apply Forall_forall. intros e He. apply in_map_iff in He.
        destruct He as [y [<- _]]. reflexivity.
    + apply bdim_refl.
    + apply bdim_refl.
    + apply bdim_one_r.
    + exists (T3 (map (map (fun x => [x])) W)), r, k. repeat split; auto.
Qed.

Lemma AttentionAggregator_forward_shape (a : AttentionAggregator) (B k d : nat)
    (x neibs : matrix) :
  AttentionAggregator_wf d a -> agg_inputs B k d x neibs ->
  exists out, AttentionAggregator_forward a (Some x) (Some neibs) = Ok out /\
              has_shape B (2 * att_output_dim_ a) out.
Proof.
  intros Hwf Hin.
  destruct (AttentionAggregator_weights_spec Hwf Hin) as [S [HS Hws]].
  destruct Hwf as [h [Hh [H1 [H2 [Hfx [Hfn Hc]]]]]].
  destruct Hin as [HB [Hk [Hd [Hx Hn]]]].
  destruct (view_groups HB Hk Hd (proj1 Hx) Hn) as [Hview [Hlen Hgroups]].
  destruct (attention_weights_broadcast HB Hk HS Hlen Hgroups)
    as [w [r [k' [Hw [Hr [Hk' [Lr Sr]]]]]]].
  pose proof (sum_dim1_shape Hk' Sr) as Hsum. rewrite Lr in Hsum.
  destruct (Linear_forward_shape Hfx Hx) as [ya [Hya Sa]].
  destruct (Linear_forward_shape Hfn Hsum) as [yb [Hyb Sb]].
  destruct (cat_dim1_shape Sa Sb) as [c [Hcat Sc]].
  exists (apply_activation (att_activation a) c). split.
  - unfold AttentionAggregator_forward. cbn [expect rbind].
    rewrite Hws. cbn [rbind]. rewrite Hview. cbn [rbind]. rewrite Hw. cbn [rbind].
    rewrite Hr. cbn [rbind]. rewrite Hya. cbn [rbind]. rewrite Hyb. cbn [rbind].
    rewrite Hc. unfold default_combine_fn. rewrite Hcat. reflexivity.
  - apply apply_activation_shape.
    replace (2 * att_output_dim_ a) with (att_output_dim_ a + att_output_dim_ a) by lia.
    exact Sc.
Qed.

(** Every aggregator maps [B] nodes with [k] neighbours each to [B] rows of
    twice its configured width. *)
Lemma agg_forward_shape (a : aggregator) (B k d : nat) (x neibs : matrix) :
  agg_wf d a -> agg_inputs B k d x neibs ->
  exists out, agg_forward a (Some x) (Some neibs) = Ok out /\
              has_shape B (2 * agg_output_dim_ a) out.
Proof.
  destruct a; simpl; intros Hwf Hin.
  - exact (MeanAggregator_forward_shape Hwf Hin).
  - exact (PoolAggregator_forward_shape Hwf Hin).
  - exact (LSTMAggregator_forward_shape Hwf Hin).
  - exact (AttentionAggregator_forward_shape Hwf Hin).
Qed.

(** ** Normalization before the classifier head *)

Lemma rsum_map_scale (c : R) (l : vec) :
  rsum (map (fun x => (x * c)%R) l) = (rsum l * c)%R.
Proof.
  induction l as [|a l IH]; simpl; [lra|].
  fold (rsum (map (fun x => (x * c)%R) l)). fold (rsum l). rewrite IH. lra.
Qed.

Lemma rsum_squares_nonneg (v : vec) : (0 <= rsum (map (fun x => (x * x)%R) v))%R.
Proof.
  induction v as [|a v IH]; simpl; [lra|].
  fold (rsum (map (fun x => (x * x)%R) v)). nra.
Qed.

Lemma norm2_nonneg (v : vec) : (0 <= norm2 v)%R.
Proof. unfold norm2. apply sqrt_pos. Qed.

Lemma norm2_div (c : R) (v : vec) :
  (0 < c)%R -> norm2 (map (fun x => (x / c)%R) v) = (norm2 v / c)%R.
Proof.
  intros Hc. unfold norm2. rewrite map_map.
  rewrite (map_ext _ (fun x => (x * x * (/ c * / c))%R)).
  2:{ intros x. field. lra. }
  rewrite <- (map_map (fun x => (x * x)%R) (fun y => (y * (/ c * / c))%R)).
  rewrite rsum_map_scale.
  assert (Hinv : (0 < / c)%R) by now apply Rinv_0_lt_compat.
  rewrite sqrt_mult; [|apply rsum_squares_nonneg|nra].
  rewrite sqrt_square by lra. reflexivity.
Qed.

Lemma normalize_eps_pos : (0 < normalize_eps)%R.
Proof. unfold normalize_eps. apply Rinv_0_lt_compat. apply pow_lt. lra. Qed.

Lemma nth_normalize (f : matrix) (i : nat) :
  i < length f ->
  nth i (normalize f) []
  = map (fun x => (x / Rmax (norm2 (nth i f [])) normalize_eps)%R) (nth i f []).
Proof.
  intros Hi. unfold normalize.
  now rewrite (@nth_map_in (list R) (list R) _ f i [] [] Hi).
Qed.

Lemma classify_inv (self : GSSupervised) (groups : list (option matrix)) (out : matrix) :
  classify self groups = Ok out ->
  exists f, groups = [Some f] /\ Linear_forward (gs_fc self) (normalize f) = Ok out.
Proof.
  unfold classify.
  destruct groups as [|[f|] [|g groups]]; try discriminate.
  intros Hout. now exists f.
Qed.

Section ClassifierSpec.
Context {rng : Type} `{RandomSource rng}.

(** C10, as the code has it: every forward pass that returns hands the
    head [F.normalize] of the single surviving group, never the group
    itself; a row whose Euclidean norm is at least [eps = 1e-12] leaves the
    normalization with norm 1, a row of smaller norm is divided by [eps]
    and leaves it with norm below 1. *)
Theorem classify_normalizes_rows (self : GSSupervised) (f : matrix) :
  classify self [Some f] = Linear_forward (gs_fc self) (normalize f) /\
  (forall ids feats train (st st' : model_state rng) out,
     forward self ids feats train st = (Ok out, st') ->
     exists groups s1 f',
       forward_groups self ids feats train st = (Ok groups, s1) /\
       aggregate_layers self (agg_layers self) groups s1 = (Ok [Some f'], st') /\
       Linear_forward (gs_fc self) (normalize f') = Ok out) /\
  length (normalize f) = length f /\
  forall i, i < length f ->
    let row := nth i f [] in
    let out := nth i (normalize f) [] in
    ((normalize_eps <= norm2 row)%R -> norm2 out = 1%R) /\
    ((norm2 row < normalize_eps)%R ->
     out = map (fun x => (x / normalize_eps)%R) row /\
     norm2 out = (norm2 row / normalize_eps)%R /\ (norm2 out < 1)%R).
Proof.
  split; [reflexivity|]. split.
  { intros ids feats train st st' out. unfold forward, bind at 1.
    destruct (forward_groups self ids feats train st) as [[groups|e] s1] eqn:Eg;
      [|discriminate].
    unfold bind at 1.
    destruct (aggregate_layers self (agg_layers self) groups s1) as [[last|e] s2] eqn:Ea;
      [|discriminate].
    unfold lift. intros Hout.
    destruct (classify self last) as [o|e] eqn:Ec; [|discriminate].
    inversion Hout; subst o s2.
    destruct (classify_inv Ec) as [f' [-> Hhead]].
    now exists groups, s1, f'. }
  split; [unfold normalize; now rewrite length_map|].
  intros i Hi row out. unfold out. rewrite (nth_normalize Hi). fold row.
  pose proof normalize_eps_pos as Heps. split.
  - intros Hge. rewrite Rmax_left by exact Hge.
    rewrite norm2_div by lra. field. lra.
  - intros Hlt. rewrite Rmax_right by lra. split; [reflexivity|].
    rewrite norm2_div by exact Heps. split; [reflexivity|].
    apply (Rmult_lt_reg_r normalize_eps); [exact Heps|].
    unfold Rdiv. rewrite Rmult_assoc, Rinv_l by lra. lra.
Qed.

End ClassifierSpec.

(** C10, as the claim has it, fails: the row [[1e-13]] is not zero and is
    handed to the head as [[0.1]]. *)
Lemma normalize_small_row_not_unit :
  ~ (forall (f : matrix) (row : vec),
       In row (normalize f) -> Exists (fun x => x <> 0%R) row -> norm2 row = 1%R).
Proof.
  intros Hclaim.
  set (e := (/ 10 ^ 13)%R).
  assert (He : (0 < e)%R) by (unfold e; apply Rinv_0_lt_compat, pow_lt; lra).
  assert (Hlt : (e < normalize_eps)%R).
  { unfold e, normalize_eps. apply Rinv_lt_contravar.
    - apply Rmult_lt_0_compat; apply pow_lt; lra.
    - apply Rlt_pow; [lra|lia]. }
  assert (Hnorm : norm2 [e] = e).
  { unfold norm2. simpl. rewrite Rplus_0_r. now apply sqrt_square, Rlt_le. }
  assert (Hrow : normalize [[e]] = [[(e / normalize_eps)%R]]).
  { unfold normalize. simpl map. rewrite Hnorm, Rmax_right by lra. reflexivity. }
  assert (Hval : (e / normalize_eps)%R = (/ 10)%R).
  { unfold e, normalize_eps. simpl. field. }
  specialize (Hclaim [[e]] [(/ 10)%R]).
  rewrite Hrow, Hval in Hclaim.
  assert (Hone : norm2 [(/ 10)%R] = 1%R).
  { apply Hclaim; [now left|]. constructor. lra. }
  unfold norm2 in Hone. simpl in Hone. rewrite Rplus_0_r in Hone.
  rewrite sqrt_square in Hone by lra. lra.
Qed.

(** ** The forward pass *)

Lemma mapM_Forall {A B} (f : A -> result B) (P : B -> Prop) (l : list A) :
  Forall (fun a => exists v, f a = Ok v /\ P v) l ->
  exists t, mapM f l = Ok t /\ length t = length l /\ Forall P t.
Proof.
  induction 1 as [|a l [v [Hv Pv]] _ [t [Ht [Lt Pt]]]].
  - exists []. repeat split; constructor.
  - exists (v :: t). simpl. rewrite Hv, Ht. repeat split; simpl; auto.
Qed.

Lemma Forall_concat {A} (P : A -> Prop) (t : list (list A)) :
  Forall (Forall P) t -> Forall P (concat t).
Proof.
  induction 1 as [|row t Hrow _ IH]; simpl; [constructor|].
  apply Forall_app. now split.
Qed.

Lemma view_flat_squeeze2 {A} (m : list (list A)) : view_flat (squeeze2 m) = concat m.
Proof.
  unfold squeeze2. destruct ((length m =? 1) || (size1 m =? 1)); [|reflexivity].
  unfold squeeze1. destruct (concat m) as [|x [|y l]]; reflexivity.
Qed.

Lemma table_closed_nth (N W : nat) (t : list (list nat)) (i c : nat) :
  table_closed N W t -> i < N -> c < W -> nth c (nth i t []) 0 < N.
Proof.
  intros [Hs Hc] Hi Hcw.
  rewrite Forall_forall in Hc.
  assert (Hin : In (nth i t []) t) by (apply nth_In; rewrite (proj1 Hs); exact Hi).
  specialize (Hc _ Hin). rewrite Forall_forall in Hc.
  apply Hc, nth_In. now rewrite (has_shape_nth Hs Hi).
Qed.

Lemma In_firstn {A} (n : nat) (l : list A) (x : A) : In x (firstn n l) -> In x l.
Proof.
  intros Hx. rewrite <- (firstn_skipn n l). apply in_or_app. now left.
Qed.

Section SamplerCalls.
Context {rng : Type} `{RandomSource rng}.

Lemma UniformNeighborSampler_call_ok (N W : nat) (t : list (list nat)) (k : Z)
    (ids : list nat) (g : rng) :
  table_closed N W t -> (1 <= k <= Z.of_nat W)%Z -> Forall (fun i => i < N) ids ->
  exists rows g',
    UniformNeighborSampler_call {| uns_adj := DenseAdj t |} ids (Some k) g
    = (Ok (T2 rows), g') /\
    has_shape (length ids) (Z.to_nat k) rows /\
    Forall (Forall (fun v => v < N)) rows.
Proof.
  intros Ht Hk Hids.
  pose proof (UniformNeighborSampler_call_permuted_rows (Some k) g (proj1 Ht) Hids)
    as Hcall.
  cbv zeta in Hcall. unfold UniformNeighborSampler_init in Hcall.
  assert (Hrows : (0 <= k <= Z.of_nat (match ids with [] => 0 | _ => W end))%Z ->
            forall i, In i ids ->
              let row := map (fun c => nth c (nth i t []) 0)
                             (fst (randperm (match ids with [] => 0 | _ => W end) g)) in
              slice_to k row = firstn (Z.to_nat k) row /\
              length (slice_to k row) = Z.to_nat k).
  { intros Hk' i _ row. apply slice_to_prefix. unfold row.
    now rewrite permuted_row_length. }
  cbv zeta in Hrows.
  eexists. eexists. split; [exact Hcall|].
  destruct ids as [|i0 ids']; [repeat split; constructor|].
  set (ids := i0 :: ids') in *.
  assert (Hrange : Forall (fun c => c < W) (fst (randperm W g))) by apply randperm_range.
  assert (Hk0 : (0 <= k <= Z.of_nat W)%Z) by lia.
  split; [split|].
  - now rewrite length_map.
  - apply Forall_forall. intros row Hrow. apply in_map_iff in Hrow.
    destruct Hrow as [i [<- Hi]]. now apply (Hrows Hk0).
  - apply Forall_forall. intros row Hrow. apply in_map_iff in Hrow.
    destruct Hrow as [i [<- Hi]].
    destruct (Hrows Hk0 i Hi) as [-> _].
    apply Forall_forall. intros v Hv. apply In_firstn in Hv.
    apply in_map_iff in Hv. destruct Hv as [c [<- Hc]].
    rewrite Forall_forall in Hids, Hrange.
    apply (table_closed_nth Ht); auto.
Qed.

Lemma nonzero_count_le (row : list nat) :
  length (filter (fun x => negb (x =? 0)) row) <= length row.
Proof. apply filter_length_le. Qed.

Lemma SparseUniformNeighborSampler_call_ok (N W : nat) (self : SparseUniformNeighborSampler)
    (k : Z) (ids : list nat) (g : rng) :
  0 < N -> 0 < W -> table_closed N W (suns_adj self) ->
  suns_degrees self
  = map (fun row => length (filter (fun x => negb (x =? 0)) row)) (suns_adj self) ->
  (1 <= k)%Z -> Forall (fun i => i < N) ids ->
  exists vals g',
    SparseUniformNeighborSampler_call self ids (Some k) g
    = (Ok (squeeze2 [concat vals]), g') /\
    has_shape (length ids) (Z.to_nat k) vals /\
    Forall (Forall (fun v => v < N)) vals.
Proof.
  intros HN HW Ht Hdeg Hk Hids.
  assert (Hlen : length (suns_adj self) = N) by apply Ht.
  unfold SparseUniformNeighborSampler_call.
  destruct (Z.ltb_spec 0 k) as [_|]; [|lia]. cbn [negb].
  unfold bind, lift.
  rewrite (index_select_ok (t:=suns_adj self) (ids:=ids) []) by now rewrite Hlen.
  rewrite (has_shape_size1 (proj1 Ht) HN).
  unfold draw_choice. destruct (Nat.eqb_spec W 0); [lia|].
  pose proof (random_choice_shape W (length ids) (Z.to_nat k) g) as Hsel.
  pose proof (random_choice_range (length ids) (Z.to_nat k) g HW) as Hsel_range.
  destruct (random_choice W (length ids) (Z.to_nat k) g) as [sel g'].
  cbn [fst] in Hsel, Hsel_range.
  rewrite (index_select_ok (t:=suns_degrees self) (ids:=ids) 0)
    by (rewrite Hdeg, length_map, Hlen; exact Hids).
  set (tmp := map (fun i => nth i (suns_adj self) []) ids).
  set (degs := map (fun i => nth i (suns_degrees self) 0) ids).
  set (sel' := map (fun p => map (fun c => np_mod c (snd p)) (fst p)) (combine sel degs)).
  assert (Hvals : exists vals,
             mapM (fun p => index_select (fst p) (snd p)) (combine tmp sel') = Ok vals /\
             length vals = length (combine tmp sel') /\
             Forall (fun v => length v = Z.to_nat k /\ Forall (fun x => x < N) v) vals).
  { pose proof (proj1 (Forall_forall _ _) Hids) as Hids'.
    apply mapM_Forall. apply Forall_forall. intros [row cols] Hp. cbn [fst snd].
    assert (Hrow : In row tmp) by (eapply in_combine_l; eassumption).
    assert (Hcols : In cols sel') by (eapply in_combine_r; eassumption).
    apply in_map_iff in Hrow. destruct Hrow as [i [<- Hi]].
    apply in_map_iff in Hcols. destruct Hcols as [[srow dg] [<- Hsd]]. cbn [fst snd].
    assert (Hsrow : In srow sel) by (eapply in_combine_l; eassumption).
    assert (Hdg : In dg degs) by (eapply in_combine_r; eassumption).
    assert (Hdgle : dg <= W).
    { apply in_map_iff in Hdg. destruct Hdg as [i' [<- Hi']].
      rewrite Hdeg.
      rewrite (@nth_map_in _ _ _ (suns_adj self) i' [] 0)
        by (rewrite Hlen; now apply Hids').
      rewrite <- (has_shape_nth (proj1 Ht) (Hids' i' Hi')).
      apply nonzero_count_le. }
    assert (Hidx : Forall (fun c => c < W) (map (fun c => np_mod c dg) srow)).
    { apply Forall_forall. intros c Hc. apply in_map_iff in Hc.
      destruct Hc as [c0 [<- _]]. unfold np_mod.
      destruct (Nat.eqb_spec dg 0); [lia|].
      pose proof (Nat.mod_upper_bound c0 dg). lia. }
    eexists. split.
    - apply (@index_select_ok nat (nth i (suns_adj self) []) _ 0).
      now rewrite (has_shape_nth (proj1 Ht) (Hids' i Hi)).
    - split.
      + rewrite !length_map. destruct Hsel as [_ Hsel].
        rewrite Forall_forall in Hsel. now apply Hsel.
      + apply Forall_forall. intros v Hv. apply in_map_iff in Hv.
        destruct Hv as [c [<- Hc]]. rewrite Forall_forall in Hidx.
        apply (table_closed_nth Ht); auto. }
  destruct Hvals as [vals [Hvals [Lvals Pvals]]].
  rewrite Hvals. unfold ret. cbn [squeeze].
  exists vals, g'. split; [reflexivity|].
  assert (Hn : length vals = length ids).
  { rewrite Lvals. unfold tmp, sel', degs.
    rewrite length_combine, !length_map, length_combine, length_map.
    rewrite (proj1 Hsel). lia. }
  split; [split; [exact Hn|]|].
  - eapply Forall_impl; [|exact Pvals]. now intros v [Hv _].
  - eapply Forall_impl; [|exact Pvals]. now intros v [_ Hv].
Qed.

(** A well-formed sampler serves a non-empty batch: [k] ids of the table per
    id. *)
Lemma sampler_call_ok (N : nat) (s : sampler) (fanouts : list Z) (k : Z)
    (ids : list nat) (g : rng) :
  sampler_wf N s fanouts -> In k fanouts -> ids <> [] -> Forall (fun i => i < N) ids ->
  exists t g',
    sampler_call s ids (Some k) g = (Ok t, g') /\
    length (view_flat t) = length ids * Z.to_nat k /\
    (1 <= Z.to_nat k) /\
    Forall (fun v => v < N) (view_flat t).
Proof.
  intros Hwf Hk Hne Hids.
  assert (HN : 0 < N).
  { destruct ids as [|i ids]; [contradiction|]. inversion Hids; lia. }
  destruct s as [s|s]; cbn [sampler_wf sampler_call] in *.
  - destruct Hwf as [t [W [Hadj [Ht Hks]]]].
    rewrite Forall_forall in Hks. specialize (Hks k Hk).
    destruct (UniformNeighborSampler_call_ok g Ht Hks Hids) as [rows [g' [Hcall [Hs Hc]]]].
    destruct s as [adj]. cbn [uns_adj] in Hadj. subst adj.
    exists (T2 rows), g'. split; [exact Hcall|]. cbn [view_flat].
    split; [apply (concat_length_shape Hs)|]. split; [lia|].
    now apply Forall_concat.
  - destruct Hwf as [W [HW [Ht [Hdeg Hks]]]].
    rewrite Forall_forall in Hks. specialize (Hks k Hk).
    destruct (SparseUniformNeighborSampler_call_ok g HN HW Ht Hdeg Hks Hids)
      as [vals [g' [Hcall [Hs Hc]]]].
    eexists. exists g'. split; [exact Hcall|].
    rewrite view_flat_squeeze2. cbn [concat]. rewrite app_nil_r.
    split; [apply (concat_length_shape Hs)|]. split; [lia|].
    now apply Forall_concat.
Qed.

End SamplerCalls.

Lemma index_select_shape {A} (N D : nat) (t : list (list A)) (ids : list nat) :
  has_shape N D t -> Forall (fun i => i < N) ids ->
  exists r, index_select t ids = Ok r /\ has_shape (length ids) D r.
Proof.
  intros Ht Hids. exists (map (fun i => nth i t []) ids). split.
  - apply index_select_ok. now rewrite (proj1 Ht).
  - split; [now rewrite length_map|].
    apply Forall_forall. intros row Hrow. apply in_map_iff in Hrow.
    destruct Hrow as [i [<- Hi]]. rewrite Forall_forall in Hids.
    apply (has_shape_nth Ht). now apply Hids.
Qed.

Lemma select_feats_ok (N D : nat) (f : matrix) (ids : list nat) :
  has_shape N D f -> Forall (fun i => i < N) ids ->
  exists r, select_feats (Some f) ids = Ok (Some r) /\ has_shape (length ids) D r.
Proof.
  intros Hf Hids. destruct (index_select_shape Hf Hids) as [r [Hr Sr]].
  exists r. unfold select_feats. now rewrite Hr.
Qed.

Lemma prep_forward_ok (N D : nat) (p : prep) (ids : list nat) (fr : matrix)
    (layer_idx : nat) :
  prep_wf N D p -> Forall (fun i => i < N) ids -> has_shape (length ids) D fr ->
  exists m, prep_forward p ids (Some fr) layer_idx = Ok (Some m) /\
            has_shape (length ids) (prep_output_dim p) m.
Proof.
  intros Hwf Hids Hfr. destruct p as [p|p|p]; cbn [prep_wf prep_forward prep_output_dim] in *.
  - exists fr. split; [reflexivity|]. unfold IdentityPrep_output_dim. now rewrite Hwf.
  - destruct Hwf as [HN [Hemb [Hfc Hin]]].
    assert (Hlook : exists e, NodeEmbeddingPrep_lookup p ids layer_idx = Ok e /\
                              has_shape (length ids) (nep_embedding_dim p) e).
    { unfold NodeEmbeddingPrep_lookup, Embedding_forward.
      destruct (0 <? layer_idx).
      - apply (index_select_shape Hemb).
        eapply Forall_impl; [|exact Hids]. intros i Hi. cbv beta in Hi. lia.
      - destruct (@index_select_shape _ _ _ (nep_embedding p)
                    (map (fun _ : nat => 0 + nep_n_nodes p) ids) Hemb) as [e [He Se]].
        + apply Forall_forall. intros i Hi. apply in_map_iff in Hi.
          destruct Hi as [_ [<- _]]. lia.
        + rewrite length_map in Se. now exists e. }
    destruct Hlook as [e [He Se]].
    destruct (Linear_forward_shape Hfc Se) as [y [Hy Sy]].
    unfold NodeEmbeddingPrep_forward, NodeEmbeddingPrep_output_dim.
    rewrite He. cbn [rbind]. rewrite Hy. cbn [rbind]. rewrite Hin.
    destruct (0 <? D).
    + destruct (cat_dim1_shape Hfr Sy) as [c [Hc Sc]].
      exists c. rewrite Hc. now split.
    + exists y. now split.
  - destruct (Linear_forward_shape Hwf Hfr) as [y [Hy Sy]].
    exists y. unfold LinearPrep_forward. cbn [expect rbind]. rewrite Hy. now split.
Qed.

Lemma bind_ret {S A B} (a : A) (k : A -> M S B) (s : S) : bind (ret a) k s = k a s.
Proof. reflexivity. Qed.

Lemma bind_get_state {S B} (k : S -> M S B) (s : S) : bind get_state k s = k s s.
Proof. reflexivity. Qed.

Lemma bind_lift_ok {S A B} (r : result A) (a : A) (k : A -> M S B) (s : S) :
  r = Ok a -> bind (lift r) k s = k a s.
Proof. intros ->. reflexivity. Qed.

Lemma same_walk_state_refl {rng : Type} (st : model_state rng) : same_walk_state st st.
Proof. repeat split. Qed.

Lemma same_walk_state_trans {rng : Type} (st1 st2 st3 : model_state rng) :
  same_walk_state st1 st2 -> same_walk_state st2 st3 -> same_walk_state st1 st3.
Proof.
  unfold same_walk_state. intros [A1 [A2 [A3 [A4 A5]]]] [B1 [B2 [B3 [B4 B5]]]].
  repeat split; congruence.
Qed.

Lemma prod_firstn_S (ks : list nat) (i : nat) :
  i < length ks -> prod (firstn (S i) ks) = prod (firstn i ks) * nth i ks 0.
Proof.
  revert i. induction ks as [|k ks IH]; intros i Hi; [simpl in Hi; lia|].
  destruct i as [|i].
  - simpl. lia.
  - change (firstn (S (S i)) (k :: ks)) with (k :: firstn (S i) ks).
    change (firstn (S i) (k :: ks)) with (k :: firstn i ks).
    cbn [prod fold_right nth]. fold (prod (firstn (S i) ks)). fold (prod (firstn i ks)).
    rewrite IH by (simpl in Hi; lia). lia.
Qed.

Section ForwardSpec.
Context {rng : Type} `{RandomSource rng}.

Lemma with_rng_ok {A} (m : M rng A) (st : model_state rng) (a : A) (g' : rng) :
  m (st_rng st) = (Ok a, g') ->
  exists st', with_rng m st = (Ok a, st') /\ same_walk_state st st'.
Proof.
  intros Hm. unfold with_rng. rewrite Hm.
  eexists. split; [reflexivity|]. repeat split.
Qed.

Lemma sample_layers_ok (self : GSSupervised) (smp : sampler) (adj : adjacency)
    (N D : nat) (f : matrix) (olen : nat) (all_fns : list Z) :
  prep_wf N D (gs_prep self) -> has_shape N D f -> sampler_wf N smp all_fns ->
  forall (fns : list Z) (layer_idx : nat) (ids : list nat)
         (all_feats : list (option matrix)) (st : model_state rng),
    Forall (fun k => In k all_fns) fns ->
    quantum_neighbors st = false -> ids <> [] -> Forall (fun i => i < N) ids ->
    exists new st',
      sample_layers self smp adj (Some f) olen layer_idx fns ids all_feats st
      = (Ok (all_feats ++ new), st') /\
      same_walk_state st st' /\
      length new = length fns /\
      Forall (fun k => 1 <= Z.to_nat k) fns /\
      forall j, j < length fns ->
        exists m, nth j new None = Some m /\
                  has_shape (length ids * prod (firstn (S j) (map Z.to_nat fns)))
                            (prep_output_dim (gs_prep self)) m.
Proof.
  intros Hprep Hf Hsmp fns.
  induction fns as [|k fns IH]; intros layer_idx ids all_feats st Hfns Hq Hne Hids.
  - exists [], st. cbn [sample_layers]. rewrite app_nil_r.
    split; [reflexivity|]. split; [apply same_walk_state_refl|].
    split; [reflexivity|]. split; [constructor|]. intros j Hj. simpl in Hj. lia.
  - apply Forall_cons_iff in Hfns. destruct Hfns as [Hk Hfns].
    destruct (sampler_call_ok (st_rng st) Hsmp Hk Hne Hids) as [t [g' [Hcall [Hlen [Hk1 Hrange]]]]].
    destruct (@with_rng_ok _ _ st _ _ Hcall) as [st1 [Hwith Hsame1]].
    destruct (select_feats_ok Hf Hrange) as [fr [Hfr Sfr]].
    destruct (prep_forward_ok (layer_idx + 1) Hprep Hrange Sfr) as [m0 [Hm0 Sm0]].
    assert (Hq1 : quantum_neighbors st1 = false).
    { destruct Hsame1 as [Hq1 _]. now rewrite Hq1. }
    assert (Hne' : view_flat t <> []).
    { intros E. rewrite E in Hlen. simpl in Hlen.
      destruct ids; [contradiction|]. simpl in Hlen. nia. }
    destruct (IH (S layer_idx) (view_flat t) (all_feats ++ [Some m0]) st1 Hfns Hq1 Hne' Hrange)
      as [new [st' [Hrec [Hsame [Lnew [Hks Hnew]]]]]].
    exists (Some m0 :: new), st'. split; [|split; [|split; [|split]]].
    + cbn [sample_layers]. rewrite (bind_ok _ Hwith).
      rewrite bind_get_state, Hq1, bind_ret.
      rewrite (bind_lift_ok _ _ Hfr), (bind_lift_ok _ _ Hm0).
      rewrite Hrec. now rewrite <- app_assoc.
    + eapply same_walk_state_trans; eassumption.
    + simpl. now rewrite Lnew.
    + constructor; assumption.
    + intros j Hj. destruct j as [|j].
      * exists m0. split; [reflexivity|].
        cbn [map firstn prod fold_right]. rewrite Nat.mul_1_r.
        now rewrite <- Hlen.
      * simpl in Hj. destruct (Hnew j ltac:(lia)) as [m [Hm Sm]].
        exists m. split; [exact Hm|].
        change (firstn (S (S j)) (map Z.to_nat (k :: fns)))
          with (Z.to_nat k :: firstn (S j) (map Z.to_nat fns)).
        cbn [prod fold_right]. fold (prod (firstn (S j) (map Z.to_nat fns))).
        rewrite Hlen in Sm.
        now rewrite Nat.mul_assoc.
Qed.

Lemma mapMM_length {S A B} (f : A -> M S B) (l : list A) (st st' : S) (bs : list B) :
  mapMM f l st = (Ok bs, st') -> length bs = length l.
Proof.
  revert st bs. induction l as [|a l IH]; intros st bs Hm; simpl in Hm.
  - inversion Hm. reflexivity.
  - unfold bind in Hm. destruct (f a st) as [[b|e] st1]; [|discriminate].
    destruct (mapMM f l st1) as [[bs'|e] st2] eqn:E; [|discriminate].
    inversion Hm; subst. simpl. f_equal. exact (IH _ _ E).
Qed.

Lemma mapMM_seq_ok {St B} (f : nat -> M St B) (P : nat -> B -> Prop) (d : B) (st : St)
    (n : nat) :
  forall s,
    (forall i, s <= i < s + n -> exists b, f i st = (Ok b, st) /\ P i b) ->
    exists bs, mapMM f (seq s n) st = (Ok bs, st) /\ length bs = n /\
               forall j, j < n -> P (s + j) (nth j bs d).
Proof.
  induction n as [|n IH]; intros s Hf.
  - exists []. repeat split. intros j Hj. lia.
  - destruct (Hf s ltac:(lia)) as [b [Hb Pb]].
    destruct (IH (S s)) as [bs [Hbs [Lbs Pbs]]].
    { intros i Hi. apply Hf. lia. }
    exists (b :: bs). cbn [seq mapMM]. rewrite (bind_ok _ Hb), (bind_ok _ Hbs).
    split; [reflexivity|]. split; [simpl; lia|].
    intros j Hj. destruct j as [|j].
    + now rewrite Nat.add_0_r.
    + replace (s + S j) with (S s + j) by lia. apply Pbs. lia.
Qed.

Lemma prod_firstn_pos (ks : list nat) (i : nat) :
  Forall (fun k => 1 <= k) ks -> 0 < prod (firstn i ks).
Proof.
  intros Hks. revert i. induction Hks as [|k ks Hk _ IH]; intros i.
  - rewrite firstn_nil. simpl. lia.
  - destruct i as [|i]; [simpl; lia|].
    cbn [firstn prod fold_right]. fold (prod (firstn i ks)). specialize (IH i). nia.
Qed.

(** Each aggregation layer takes [n] groups to [n - 1] groups. *)
Lemma aggregate_layer_length (self : GSSupervised) (a : aggregator)
    (groups out : list (option matrix)) (st st' : model_state rng) :
  aggregate_layer self a groups st = (Ok out, st') -> length out = length groups - 1.
Proof.
  intros Hagg. unfold aggregate_layer in Hagg.
  apply mapMM_length in Hagg. now rewrite length_seq in Hagg.
Qed.

Lemma aggregate_layer_ok (self : GSSupervised) (a : aggregator) (d B : nat) (ks : list nat)
    (n : nat) (groups : list (option matrix)) (st : model_state rng) :
  quantum_walk self = false -> agg_wf d a -> 0 < d -> 0 < B ->
  Forall (fun k => 1 <= k) ks -> groups_ok d B ks n groups ->
  n <= length ks + 1 ->
  exists out, aggregate_layer self a groups st = (Ok out, st) /\
              groups_ok (2 * agg_output_dim_ a) B ks (n - 1) out.
Proof.
  intros Hq Hwf Hd HB Hks [Hlen Hgroups] Hn.
  unfold aggregate_layer. rewrite Hlen, Hq.
  destruct (@mapMM_seq_ok _ _
              (fun k => bind (lift (getitem groups k))
                             (fun xk => bind (lift (getitem groups (k + 1)))
                                (fun xk1 => bind (lift (agg_forward a xk xk1))
                                   (fun r => ret (Some r)))))
              (fun i b => exists m, b = Some m /\
                                    has_shape (group_size B ks i) (2 * agg_output_dim_ a) m)
              None st (n - 1) 0) as [out [Hout [Lout Pout]]].
  - intros i Hi.
    destruct (Hgroups i ltac:(lia)) as [mi [Hmi Si]].
    destruct (Hgroups (S i) ltac:(lia)) as [mj [Hmj Sj]].
    assert (Hin : agg_inputs (group_size B ks i) (nth i ks 0) d mi mj).
    { unfold agg_inputs, group_size in *.
      pose proof (prod_firstn_pos i Hks).
      assert (Hki : 1 <= nth i ks 0).
      { rewrite Forall_forall in Hks. apply Hks, nth_In. lia. }
      rewrite prod_firstn_S, Nat.mul_assoc in Sj by lia.
      split; [nia|]. split; [lia|]. split; [exact Hd|]. split; assumption. }
    destruct (agg_forward_shape Hwf Hin) as [o [Ho So]].
    exists (Some o). split; [|now exists o].
    rewrite (bind_lift_ok _ _ (getitem_ok None (l:=groups) (i:=i) ltac:(lia))).
    rewrite Hmi.
    rewrite (bind_lift_ok _ _ (getitem_ok None (l:=groups) (i:=i + 1) ltac:(lia))).
    replace (i + 1) with (S i) by lia. rewrite Hmj.
    rewrite (bind_lift_ok _ _ Ho). reflexivity.
  - exists out. split; [exact Hout|]. split; [exact Lout|].
    intros i Hi. exact (Pout i Hi).
Qed.

Lemma aggregate_layers_ok (self : GSSupervised) (B : nat) (ks : list nat)
    (st : model_state rng) :
  quantum_walk self = false -> 0 < B -> Forall (fun k => 1 <= k) ks ->
  forall (aggs : list aggregator) (d n : nat) (groups : list (option matrix)),
    layers_wf d aggs -> 0 < d -> groups_ok d B ks n groups ->
    n <= length ks + 1 ->
    exists out, aggregate_layers self aggs groups st = (Ok out, st) /\
                groups_ok (final_width d aggs) B ks (n - length aggs) out.
Proof.
  intros Hq HB Hks aggs.
  induction aggs as [|a aggs IH]; intros d n groups Hwf Hd Hg Hn.
  - exists groups. split; [reflexivity|]. cbn [final_width length].
    now rewrite Nat.sub_0_r.
  - destruct Hwf as [Ha [Ho Hrest]].
    destruct (aggregate_layer_ok st Hq Ha Hd HB Hks Hg Hn) as [out1 [Hout1 Hg1]].
    destruct (IH (2 * agg_output_dim_ a) (n - 1) out1 Hrest ltac:(lia) Hg1 ltac:(lia))
      as [out [Hout Hgo]].
    exists out. cbn [aggregate_layers final_width length].
    rewrite (bind_ok _ Hout1). split; [exact Hout|].
    replace (n - S (length aggs)) with (n - 1 - length aggs) by lia. exact Hgo.
Qed.

Lemma normalize_shape (n d : nat) (f : matrix) :
  has_shape n d f -> has_shape n d (normalize f).
Proof.
  intros [Hn Hd]. unfold normalize. split; [now rewrite length_map|].
  apply Forall_forall. intros row Hrow. apply in_map_iff in Hrow.
  destruct Hrow as [r [<- Hr]]. rewrite length_map.
  rewrite Forall_forall in Hd. now apply Hd.
Qed.

Lemma classify_ok (self : GSSupervised) (d B : nat) (ks : list nat)
    (groups : list (option matrix)) :
  groups_ok d B ks 1 groups -> Linear_dims (gs_fc self) d (out_features (gs_fc self)) ->
  exists logits, classify self groups = Ok logits /\
                 has_shape B (out_features (gs_fc self)) logits.
Proof.
  intros [Hlen Hg] Hfc. destruct (Hg 0 ltac:(lia)) as [m [Hm Sm]].
  unfold group_size in Sm. cbn [firstn prod fold_right] in Sm.
  rewrite Nat.mul_1_r in Sm.
  unfold classify. rewrite Hlen. cbn [Nat.eqb].
  rewrite (getitem_ok None (l:=groups) (i:=0)) by lia. cbn [rbind].
  rewrite Hm. cbn [expect rbind].
  apply (Linear_forward_shape Hfc). now apply normalize_shape.
Qed.

Lemma classify_assert (self : GSSupervised) (all_feats : list (option matrix)) :
  length all_feats <> 1 ->
  classify self all_feats = Raise (AssertionError "len(all_feats) != 1").
Proof.
  intros Hlen. unfold classify.
  destruct (Nat.eqb_spec (length all_feats) 1); [contradiction|reflexivity].
Qed.

Lemma layers_wf_firstn (aggs : list aggregator) (d j : nat) :
  layers_wf d aggs -> layers_wf d (firstn j aggs).
Proof.
  revert d j. induction aggs as [|a aggs IH]; intros d j Hwf.
  - now rewrite firstn_nil.
  - destruct j as [|j]; [exact I|]. destruct Hwf as [Ha [Ho Hrest]].
    cbn [firstn layers_wf]. auto.
Qed.

Lemma forward_groups_ok (self : GSSupervised) (N D : nat) (ids : list nat) (f : matrix)
    (train : bool) (st : model_state rng) :
  model_wf N D self -> has_shape N D f -> ids <> [] -> Forall (fun i => i < N) ids ->
  quantum_neighbors st = false ->
  let ks := map Z.to_nat (if train then train_sample_fns self else val_sample_fns self) in
  exists groups st1,
    forward_groups self ids (Some f) train st = (Ok groups, st1) /\
    same_walk_state st st1 /\
    Forall (fun k => 1 <= k) ks /\
    length ks = length (agg_layers self) /\
    groups_ok (prep_output_dim (gs_prep self)) (length ids) ks (length ks + 1) groups.
Proof.
  intros [Hq [Htr [Hval [Ltr [Lval [Hprep [Hd0 [Hlayers Hfc]]]]]]]] Hf Hne Hids Hqn ks.
  destruct (select_feats_ok Hf Hids) as [fr [Hfr Sfr]].
  destruct (prep_forward_ok 0 Hprep Hids Sfr) as [m0 [Hm0 Sm0]].
  set (fns := if train then train_sample_fns self else val_sample_fns self) in *.
  set (smp := if train then train_sampler self else val_sampler self).
  set (adj := if train then gs_train_adj self else gs_adj self).
  assert (Hsmp : sampler_wf N smp fns) by (unfold smp, fns; destruct train; assumption).
  assert (Hall : Forall (fun k => In k fns) fns) by (apply Forall_forall; auto).
  destruct (sample_layers_ok adj (length ids) Hprep Hf Hsmp 0 [Some m0] Hall Hqn Hne Hids)
    as [new [st1 [Hsample [Hsame [Lnew [Hks Hnew]]]]]].
  exists (Some m0 :: new), st1. split; [|split; [|split; [|split]]].
  - unfold forward_groups. fold fns. fold smp. fold adj.
    rewrite (bind_lift_ok _ _ Hfr), (bind_lift_ok _ _ Hm0).
    rewrite (bind_ok _ Hsample). rewrite Hq. reflexivity.
  - exact Hsame.
  - unfold ks. apply Forall_forall. intros k Hk. apply in_map_iff in Hk.
    destruct Hk as [z [<- Hz]]. rewrite Forall_forall in Hks. now apply Hks.
  - unfold ks, fns. rewrite length_map. destruct train; assumption.
  - unfold ks. rewrite length_map. split; [simpl; lia|].
    intros i Hi. destruct i as [|j].
    + exists m0. split; [reflexivity|]. unfold group_size.
      cbn [firstn prod fold_right]. now rewrite Nat.mul_1_r.
    + destruct (Hnew j ltac:(lia)) as [m [Hm Sm]].
      exists m. split; [exact Hm|exact Sm].
Qed.

End ForwardSpec.

(** ** Models built by the constructor are well formed *)

Section InitModelSpec.
Context {rng : Type} `{RandomSource rng}.

Lemma build_agg_layers_wf (c : aggregator_class) (specs : list layer_spec) :
  Forall (fun spec => 0 < output_dim spec) specs ->
  forall (d0 : nat) (g : rng),
  exists aggs g',
    build_agg_layers c d0 specs g = (Ok (aggs, final_width d0 aggs), g') /\
    layers_wf d0 aggs /\ length aggs = length specs.
Proof.
  induction 1 as [|spec rest Hspec _ IH]; intros d0 g.
  - exists [], g. repeat split.
  - destruct (aggregator_new_ok c d0 (output_dim spec) (activation spec) g)
      as [a [g1 [Ha [Wa [Oa [Ca Ia]]]]]].
    assert (Hout : agg_output_dim a = Ok (2 * agg_output_dim_ a)).
    { unfold agg_output_dim. rewrite Ca. apply AggregatorMixin_output_dim_cat. }
    destruct (IH (2 * agg_output_dim_ a) g1) as [aggs [g2 [Hb [Hwf Hlen]]]].
    exists (a :: aggs), g2. split; [|split].
    + cbn [build_agg_layers final_width]. rewrite (bind_ok _ Ha).
      rewrite (bind_lift_ok _ _ Hout), (bind_ok _ Hb). reflexivity.
    + cbn [layers_wf]. rewrite Oa. rewrite Oa in Hwf. auto.
    + simpl. now rewrite Hlen.
Qed.

Lemma sampler_new_wf (N : nat) (c : sampler_class) (adj : adjacency) (fanouts : list Z) :
  adjacency_wf N c adj fanouts ->
  exists s, sampler_new c adj = Ok s /\ sampler_wf N s fanouts.
Proof.
  destruct c, adj as [t|m]; cbn [adjacency_wf]; try contradiction.
  - intros [W [Ht Hk]]. eexists. split; [reflexivity|].
    cbn [sampler_wf]. exists t, W. auto.
  - intros [W [HW [Ht Hk]]]. eexists. split; [reflexivity|].
    cbn [sampler_wf suns_adj suns_degrees]. exists W. auto.
Qed.

Lemma prep_new_wf (N input_dim n_nodes : nat) (c : prep_class) (g : rng) :
  prep_class_wf N input_dim n_nodes c ->
  exists p g', prep_new c input_dim n_nodes g = (Ok p, g') /\
               prep_wf N input_dim p /\ 0 < prep_output_dim p.
Proof.
  destruct c; cbn [prep_class_wf prep_new]; intros Hc.
  - eexists. eexists. split; [reflexivity|]. split; [reflexivity|exact Hc].
  - destruct (NodeEmbeddingPrep_init_table input_dim n_nodes None g)
      as [p [g' [Hp [Hn [Hemb [Hfc Hin]]]]]].
    assert (Hed : nep_embedding_dim p = 64).
    { unfold NodeEmbeddingPrep_init in Hp.
      destruct (draw_tensor_ok (n_nodes + 1) 64 g) as [e [g1 [He _]]].
      rewrite (bind_ok _ He) in Hp.
      destruct (Linear_init_ok 64 64 true g1) as [l [g2 [Hl _]]].
      rewrite (bind_ok _ Hl) in Hp. inversion Hp. reflexivity. }
    exists (PrepNodeEmbedding p), g'. rewrite (bind_ok _ Hp).
    split; [reflexivity|]. split.
    + cbn [prep_wf]. rewrite Hn. auto.
    + cbn [prep_output_dim]. unfold NodeEmbeddingPrep_output_dim. rewrite Hed.
      destruct (0 <? nep_input_dim p); lia.
  - unfold LinearPrep_init.
    destruct (Linear_init_ok input_dim 32 false g) as [l [g1 [Hl Dl]]].
    eexists. eexists. split.
    + rewrite (bind_ok _ (bind_ok _ Hl)). reflexivity.
    + split; [exact Dl|]. cbn [prep_output_dim lp_output_dim]. lia.
Qed.

(** The constructor, given adjacencies and a preparer class that fit, and
    layer specs of positive widths, builds a well-formed model. *)
Lemma GSSupervised_init_wf (N input_dim n_nodes n_classes : nat)
    (specs : list layer_spec) (c : aggregator_class) (pc : prep_class)
    (sc : sampler_class) (adj train_adj : adjacency) (g : rng) :
  adjacency_wf N sc train_adj (map n_train_samples specs) ->
  adjacency_wf N sc adj (map n_val_samples specs) ->
  prep_class_wf N input_dim n_nodes pc ->
  Forall (fun spec => 0 < output_dim spec) specs ->
  exists self g',
    GSSupervised_init input_dim n_nodes n_classes specs c pc sc adj train_adj false g
    = (Ok self, g') /\
    model_wf N input_dim self /\
    train_sample_fns self = map n_train_samples specs /\
    val_sample_fns self = map n_val_samples specs /\
    out_features (gs_fc self) = n_classes.
Proof.
  intros Htr Hval Hprep Hspecs.
  destruct (sampler_new_wf Htr) as [ts [Hts Wts]].
  destruct (sampler_new_wf Hval) as [vs [Hvs Wvs]].
  destruct (prep_new_wf g Hprep) as [p [g1 [Hp [Wp Hd0]]]].
  destruct (build_agg_layers_wf c Hspecs (prep_output_dim p) g1)
    as [aggs [g2 [Hb [Wl Ll]]]].
  destruct (Linear_init_ok (final_width (prep_output_dim p) aggs) n_classes true g2)
    as [fc [g3 [Hfc Dfc]]].
  eexists. exists g3. split.
  - unfold GSSupervised_init.
    rewrite (bind_lift_ok _ _ Hts), (bind_lift_ok _ _ Hvs).
    rewrite (bind_ok _ Hp), (bind_ok _ Hb). cbn [fst snd].
    rewrite (bind_ok _ Hfc). reflexivity.
  - destruct Dfc as [Dw [Din Dout]].
    cbn. split; [|repeat split; exact Dout].
    unfold model_wf. cbn.
    rewrite !length_map, Ll.
    repeat split; auto; try apply Dw.
Qed.

Lemma prep_new_total (c : prep_class) (input_dim n_nodes : nat) (g : rng) :
  exists p g', prep_new c input_dim n_nodes g = (Ok p, g').
Proof.
  destruct c.
  - eexists. eexists. reflexivity.
  - destruct (@prep_new_wf 0 input_dim n_nodes node_embedding g) as [p [g' [Hp _]]];
      [cbn; lia|]. now exists p, g'.
  - destruct (@prep_new_wf 0 input_dim n_nodes linear g) as [p [g' [Hp _]]];
      [exact I|]. now exists p, g'.
Qed.

Lemma Forall2_length_eq {A B} (P : A -> B -> Prop) (l : list A) (l' : list B) :
  Forall2 P l l' -> length l = length l'.
Proof. induction 1; simpl; congruence. Qed.

Lemma layer_widths_chained_nth (aggs : list aggregator) :
  forall d d_last, layer_widths_chained d aggs d_last ->
  (forall a, nth_error aggs 0 = Some a -> agg_input_dim a = d) /\
  (forall i a b, nth_error aggs i = Some a -> nth_error aggs (S i) = Some b ->
     agg_output_dim a = Ok (agg_input_dim b)).
Proof.
  induction aggs as [|a0 rest IH]; intros d d_last Hc.
  - split; [intros a Ha; discriminate|intros i a b Ha; destruct i; discriminate].
  - destruct Hc as [Hin [d' [Hout Hrest]]]. destruct (IH _ _ Hrest) as [H0 HS]. split.
    + intros a Ha. cbn [nth_error] in Ha. now inversion Ha; subst.
    + intros [|i] a b Ha Hb; cbn [nth_error] in Ha, Hb.
      * inversion Ha; subst a. rewrite Hout. f_equal. symmetry. now apply H0.
      * now apply (HS i).
Qed.

(** C6: the [output_dim] of an aggregator is [w] exactly when its combine
    function, applied to two zero rows of the configured width, returns a
    tensor of width [w]; for the default concatenation that is twice the
    configured width.  The constructor of the model, given adjacencies its
    sampler class accepts, builds one aggregator per layer spec, in order,
    each with the configured width of its spec and the default
    concatenation, so with [output_dim] twice the configured width; the
    first layer is built for the preparer's output width and each later
    layer for the [output_dim] of the layer before it (twice that layer's
    configured width, not the configured width), and the classifier head
    reads the [output_dim] of the last layer. *)
Theorem agg_output_dim_follows_combine_fn
    (input_dim n_nodes n_classes : nat) (specs : list layer_spec)
    (c : aggregator_class) (pc : prep_class) (sc : sampler_class)
    (adj train_adj : adjacency) (qw : bool) (g : rng) (ts vs : sampler) :
  sampler_new sc train_adj = Ok ts -> sampler_new sc adj = Ok vs ->
  (forall a : aggregator,
     agg_output_dim a
     = (r <- agg_combine_fn a [zeros 1 (agg_output_dim_ a); zeros 1 (agg_output_dim_ a)] ;;
        Ok (size1 r))) /\
  (forall (a : aggregator) (w : nat),
     agg_output_dim a = Ok w <->
     exists r, agg_combine_fn a [zeros 1 (agg_output_dim_ a); zeros 1 (agg_output_dim_ a)]
               = Ok r /\ size1 r = w) /\
  (forall a : aggregator,
     agg_combine_fn a = default_combine_fn ->
     agg_output_dim a = Ok (2 * agg_output_dim_ a)) /\
  (forall (c' : aggregator_class) (d0 : nat) (specs' : list layer_spec) (g0 : rng),
     exists aggs d_last g',
       build_agg_layers c' d0 specs' g0 = (Ok (aggs, d_last), g') /\
       layer_widths_chained d0 aggs d_last /\
       Forall2 (fun a spec => agg_output_dim_ a = output_dim spec /\
                              agg_output_dim a = Ok (2 * output_dim spec)) aggs specs') /\
  (exists self g',
     GSSupervised_init input_dim n_nodes n_classes specs c pc sc adj train_adj qw g
     = (Ok self, g') /\
     (exists g1, prep_new pc input_dim n_nodes g = (Ok (gs_prep self), g1)) /\
     length (agg_layers self) = length specs /\
     Forall2 (fun a spec => agg_output_dim_ a = output_dim spec /\
                            agg_combine_fn a = default_combine_fn /\
                            agg_output_dim a = Ok (2 * output_dim spec))
             (agg_layers self) specs /\
     (forall a, nth_error (agg_layers self) 0 = Some a ->
        agg_input_dim a = prep_output_dim (gs_prep self)) /\
     (forall i a b,
        nth_error (agg_layers self) i = Some a ->
        nth_error (agg_layers self) (S i) = Some b ->
        agg_output_dim a = Ok (agg_input_dim b) /\
        agg_input_dim b = 2 * agg_output_dim_ a) /\
     layer_widths_chained (prep_output_dim (gs_prep self)) (agg_layers self)
                          (in_features (gs_fc self)) /\
     in_features (gs_fc self)
     = last (map (fun spec => 2 * output_dim spec) specs) (prep_output_dim (gs_prep self))).
Proof.
  intros Hts Hvs.
  assert (Hcat : forall a : aggregator,
             agg_combine_fn a = default_combine_fn ->
             agg_output_dim a = Ok (2 * agg_output_dim_ a)).
  { intros a Ha. unfold agg_output_dim. rewrite Ha.
    apply AggregatorMixin_output_dim_cat. }
  split; [reflexivity|]. split; [|split; [exact Hcat|split]].
  - intros a w. unfold agg_output_dim, AggregatorMixin_output_dim. split.
    + destruct (agg_combine_fn a _) as [r|e]; cbn [rbind]; [|discriminate].
      intros Hw. inversion Hw. now exists r.
    + intros [r [Hr Hw]]. rewrite Hr. cbn [rbind]. now rewrite Hw.
  - intros c' d0 specs' g0.
    destruct (build_agg_layers_ok c' specs' d0 g0)
      as [aggs [d_last [g' [Hb [Hchain [Hspecs _]]]]]].
    exists aggs, d_last, g'. split; [exact Hb|]. split; [exact Hchain|].
    eapply Forall2_impl; [|exact Hspecs]. now intros a spec [Ho [_ Hd]].
  - destruct (prep_new_total pc input_dim n_nodes g) as [p [g1 Hp]].
    destruct (build_agg_layers_ok c specs (prep_output_dim p) g1)
      as [aggs [d_last [g2 [Haggs [Hchain [Hout [_ Hlast]]]]]]].
    destruct (Linear_init_ok d_last n_classes true g2) as [fc [g3 [Hfc [_ [Hin _]]]]].
    eexists. eexists. split.
    + unfold GSSupervised_init.
      rewrite (bind_lift_ok _ _ Hts), (bind_lift_ok _ _ Hvs).
      rewrite (bind_ok _ Hp), (bind_ok _ Haggs). cbn [fst snd].
      rewrite (bind_ok _ Hfc). reflexivity.
    + cbn [agg_layers gs_fc gs_prep fst snd]. rewrite Hin.
      destruct (layer_widths_chained_nth Hchain) as [H0 HS].
      split; [now exists g1|].
      split; [exact (Forall2_length_eq Hout)|]. split; [exact Hout|].
      split; [exact H0|]. split; [|split; [exact Hchain|exact Hlast]].
      intros i a b Ha Hb. pose proof (HS i a b Ha Hb) as Hab.
      split; [exact Hab|].
      assert (Hc : agg_combine_fn a = default_combine_fn).
      { clear - Hout Ha. revert i Ha.
        induction Hout as [|a0 s0 l l' [_ [Hc _]] _ IH]; intros [|i] Ha;
          cbn [nth_error] in Ha; try discriminate.
        - now inversion Ha; subst.
        - now apply (IH i). }
      rewrite (Hcat a Hc) in Hab. now inversion Hab.
Qed.

End InitModelSpec.

(** Two layers of configured widths 3 and 2 over a pass-through preparer of
    width 2: the second layer is built for width 6 and the head for width
    4. *)
Lemma agg_output_dim_follows_combine_fn_witness :
  let adj := DenseAdj [[1; 2]; [0; 2]; [0; 1]] in
  let specs := [ {| n_train_samples := 2; n_val_samples := 1; output_dim := 3;
                    activation := Some relu |};
                 {| n_train_samples := 2; n_val_samples := 1; output_dim := 2;
                    activation := None |} ] in
  exists self g' a b,
    GSSupervised_init 2 3 2 specs mean identity uniform_neighbor_sampler adj adj false 0
    = (Ok self, g') /\
    agg_layers self = [a; b] /\
    agg_input_dim a = 2 /\ agg_output_dim a = Ok 6 /\
    agg_input_dim b = 6 /\ agg_output_dim b = Ok 4 /\
    in_features (gs_fc self) = 4.
Proof.
  intros adj specs.
  destruct (@agg_output_dim_follows_combine_fn nat rot_source 2 3 2 specs mean identity
              uniform_neighbor_sampler adj adj false 0 _ _ eq_refl eq_refl)
    as [_ [_ [_ [_ [self [g' [Hinit [[g1 Hprep] [Hlen [Hspecs [H0 [HS [_ Hlast]]]]]]]]]]]]].
  cbn in Hprep. inversion Hprep as [[Hp Hg]]. rewrite <- Hp in H0, Hlast.
  destruct (agg_layers self) as [|a [|b [|x l]]] eqn:El; try discriminate Hlen.
  exists self, g', a, b.
  inversion Hspecs as [|a' s1 l1 l2 [_ [_ Ha]] Hrest]; subst.
  inversion Hrest as [|b' s2 l3 l4 [_ [_ Hb]] _]; subst.
  destruct (HS 0 a b eq_refl eq_refl) as [_ Hab].
  inversion Hspecs as [|a' s1 l1 l2 [Hoa _] _]; subst.
  split; [exact Hinit|]. split; [exact El|].
  split; [exact (H0 a eq_refl)|]. split; [exact Ha|].
  split; [rewrite Hab, Hoa; reflexivity|]. split; [exact Hb|exact Hlast].
Defined.

(** ** Walk records across forward passes *)

Lemma frames_bind {S A B} (P : S -> Prop) (R : S -> S -> Prop) (m : M S A) (k : A -> M S B) :
  (forall s1 s2 s3, R s1 s2 -> R s2 s3 -> R s1 s3) ->
  (forall s1 s2, P s1 -> R s1 s2 -> P s2) ->
  frames P R m -> (forall a, frames P R (k a)) -> frames P R (bind m k).
Proof.
  intros Htrans Hstable Hm Hk st HP. unfold bind.
  specialize (Hm st HP). destruct (m st) as [[a|e] s1]; cbn [snd] in *.
  - eapply Htrans; [exact Hm|]. apply Hk. eapply Hstable; eassumption.
  - exact Hm.
Qed.

Lemma frames_pure {S A} (P : S -> Prop) (R : S -> S -> Prop) (r : result A) :
  (forall s, R s s) -> frames P R (lift r).
Proof. intros Hrefl st _. apply Hrefl. Qed.

Lemma frames_bind_get_state {S B} (P : S -> Prop) (R : S -> S -> Prop) (k : S -> M S B) :
  (forall st, P st -> R st (snd (k st st))) -> frames P R (bind get_state k).
Proof. intros Hk st HP. now apply Hk. Qed.

Lemma frames_mapMM {S A B} (P : S -> Prop) (R : S -> S -> Prop) (f : A -> M S B)
    (l : list A) :
  (forall s, R s s) ->
  (forall s1 s2 s3, R s1 s2 -> R s2 s3 -> R s1 s3) ->
  (forall s1 s2, P s1 -> R s1 s2 -> P s2) ->
  (forall a, frames P R (f a)) -> frames P R (mapMM f l).
Proof.
  intros Hrefl Htrans Hstable Hf. induction l as [|a l IH]; cbn [mapMM].
  - intros st _. apply Hrefl.
  - apply frames_bind; auto. intros b. apply frames_bind; auto.
    intros bs st _. apply Hrefl.
Qed.

Lemma frames_forM_ {S A} (P : S -> Prop) (R : S -> S -> Prop) (body : A -> M S unit)
    (l : list A) :
  (forall s, R s s) ->
  (forall s1 s2 s3, R s1 s2 -> R s2 s3 -> R s1 s3) ->
  (forall s1 s2, P s1 -> R s1 s2 -> P s2) ->
  (forall a, frames P R (body a)) -> frames P R (forM_ l body).
Proof.
  intros Hrefl Htrans Hstable Hf. induction l as [|a l IH]; cbn [forM_].
  - intros st _. apply Hrefl.
  - apply frames_bind; auto.
Qed.

Lemma coins_extended_refl (cs : tensor3) : coins_extended cs cs.
Proof. exists []. now rewrite app_nil_r. Qed.

Lemma coins_extended_trans (c1 c2 c3 : tensor3) :
  coins_extended c1 c2 -> coins_extended c2 c3 -> coins_extended c1 c3.
Proof.
  intros [e1 ->] [e2 ->]. exists (e1 ++ e2). now rewrite app_assoc.
Qed.

Lemma frames_bind_get_state_any {S B} (P : S -> Prop) (R : S -> S -> Prop)
    (k : S -> M S B) :
  (forall s, frames P R (k s)) -> frames P R (bind get_state k).
Proof. intros Hk st HP. now apply Hk. Qed.

Lemma QuantumWalk_forward_coins (x neibs : option matrix) (init_amps : tensor4)
    (graphs : list graph) (n_steps degree : nat) :
  frames (fun _ => True) coins_extended
         (QuantumWalk_forward x neibs init_amps graphs n_steps degree).
Proof.
  pose proof coins_extended_refl as Hrefl.
  pose proof coins_extended_trans as Htrans.
  assert (Hstable : forall s1 s2 : tensor3, True -> coins_extended s1 s2 -> True) by auto.
  unfold QuantumWalk_forward.
  apply frames_bind; auto.
  - unfold QuantumWalk_alloc. apply frames_bind_get_state_any. intros cs.
    destruct ((length cs =? 0) || (length cs =? n_steps)); [|intros st _; apply Hrefl].
    apply frames_forM_; auto.
    intros _. apply frames_bind; auto.
    + now apply frames_pure.
    + intros g st _. cbn. now exists [g].
  - intros _. apply frames_bind_get_state_any. intros cs.
    repeat (apply frames_bind; auto; [now apply frames_pure|intros ?]).
    intros st _. apply Hrefl.
Qed.

Section WalkRecords.
Context {rng : Type} `{RandomSource rng}.

Lemma records_kept_refl (st : model_state rng) : records_kept st st.
Proof. repeat split. apply coins_extended_refl. Qed.

Lemma records_kept_trans (s1 s2 s3 : model_state rng) :
  records_kept s1 s2 -> records_kept s2 s3 -> records_kept s1 s3.
Proof.
  intros [A1 [A2 [A3 [A4 A5]]]] [B1 [B2 [B3 [B4 B5]]]].
  repeat split; try congruence. eapply coins_extended_trans; eassumption.
Qed.

Lemma flag_stable (b : bool) (s1 s2 : model_state rng) :
  quantum_neighbors s1 = b -> records_kept s1 s2 -> quantum_neighbors s2 = b.
Proof. intros Hb [Hq _]. congruence. Qed.

Lemma frames_with_rng {A} (P : model_state rng -> Prop) (m : M rng A) :
  frames P records_kept (with_rng m).
Proof.
  intros st _. unfold with_rng. destruct (m (st_rng st)) as [r g]. cbn.
  repeat split. apply coins_extended_refl.
Qed.

Lemma frames_with_coins {A} (P : model_state rng -> Prop) (m : M (list matrix) A) :
  frames (fun _ => True) coins_extended m -> frames P records_kept (with_coins m).
Proof.
  intros Hm st _. unfold with_coins. specialize (Hm (coins st) I).
  destruct (m (coins st)) as [r cs]. cbn in *. repeat split. exact Hm.
Qed.

(** An aggregation layer never touches the walk records. *)
Lemma aggregate_layer_frames (self : GSSupervised) (P : model_state rng -> Prop)
    (a : aggregator) (groups : list (option matrix)) :
  (forall s1 s2, P s1 -> records_kept s1 s2 -> P s2) ->
  frames P records_kept (aggregate_layer self a groups).
Proof.
  intros Hstable.
  pose proof records_kept_refl as Hrefl. pose proof records_kept_trans as Htrans.
  unfold aggregate_layer. apply frames_mapMM; auto. intros k.
  apply frames_bind; auto; [now apply frames_pure|]. intros xk.
  destruct (quantum_walk self).
  - apply frames_bind; auto; [now apply frames_pure|]. intros xk1.
    apply frames_bind_get_state_any. intros s.
    do 4 (apply frames_bind; auto; [now apply frames_pure|intros ?]).
    apply frames_bind; auto.
    + apply frames_with_coins. apply QuantumWalk_forward_coins.
    + intros q. apply frames_bind; auto; [now apply frames_pure|].
      intros r st _. apply Hrefl.
  - apply frames_bind; auto; [now apply frames_pure|]. intros xk1.
    apply frames_bind; auto; [now apply frames_pure|].
    intros r st _. apply Hrefl.
Qed.

Lemma aggregate_layers_frames (self : GSSupervised) (P : model_state rng -> Prop)
    (layers : list aggregator) :
  (forall s1 s2, P s1 -> records_kept s1 s2 -> P s2) ->
  forall groups, frames P records_kept (aggregate_layers self layers groups).
Proof.
  intros Hstable. induction layers as [|a layers IH]; intros groups; cbn [aggregate_layers].
  - intros st _. apply records_kept_refl.
  - apply frames_bind; auto.
    + apply records_kept_trans.
    + now apply aggregate_layer_frames.
Qed.

(** With the flag off the sampling loop generates nothing. *)
Lemma sample_layers_frames (self : GSSupervised) (smp : sampler) (adj : adjacency)
    (feats : option matrix) (olen : nat) (fns : list Z) :
  forall layer_idx ids all_feats,
    frames (fun st => quantum_neighbors st = false) records_kept
           (sample_layers self smp adj feats olen layer_idx fns ids all_feats).
Proof.
  pose proof records_kept_refl as Hrefl. pose proof records_kept_trans as Htrans.
  pose proof (flag_stable (b:=false)) as Hstable.
  induction fns as [|k fns IH]; intros layer_idx ids all_feats; cbn [sample_layers].
  - intros st _. apply Hrefl.
  - apply frames_bind; auto; [apply frames_with_rng|]. intros t.
    apply frames_bind_get_state. intros st Hq. rewrite Hq.
    revert st Hq.
    change (frames (fun st => quantum_neighbors st = false) records_kept
              (bind (ret tt)
                    (fun _ => bind (lift (select_feats feats (view_flat t)))
                                (fun tmp_feats =>
                                   bind (lift (prep_forward (gs_prep self) (view_flat t)
                                                            tmp_feats (layer_idx + 1)))
                                     (fun f => sample_layers self smp adj feats olen
                                                 (S layer_idx) fns (view_flat t)
                                                 (all_feats ++ [f])))))).
    apply frames_bind; auto; [intros st _; apply Hrefl|]. intros _.
    apply frames_bind; auto; [now apply frames_pure|]. intros tmp.
    apply frames_bind; auto. now apply frames_pure.
Qed.

Lemma forward_groups_frames (self : GSSupervised) (ids : list nat) (feats : option matrix)
    (train : bool) :
  frames (fun st => quantum_neighbors st = false) records_kept
         (forward_groups self ids feats train).
Proof.
  pose proof records_kept_refl as Hrefl. pose proof records_kept_trans as Htrans.
  pose proof (flag_stable (b:=false)) as Hstable.
  unfold forward_groups.
  apply frames_bind; auto; [now apply frames_pure|]. intros tmp.
  apply frames_bind; auto; [now apply frames_pure|]. intros f0.
  apply frames_bind; auto; [apply sample_layers_frames|]. intros all_feats.
  apply frames_bind; auto.
  - destruct (quantum_walk self); [|intros st _; apply Hrefl].
    intros st Hq. cbn. repeat split; [now rewrite Hq|apply coins_extended_refl].
  - intros _ st _. apply Hrefl.
Qed.

(** A forward pass started with the flag off leaves the walk records as it
    found them. *)
Lemma forward_frames (self : GSSupervised) (ids : list nat) (feats : option matrix)
    (train : bool) :
  frames (fun st => quantum_neighbors st = false) records_kept
         (forward self ids feats train).
Proof.
  pose proof records_kept_refl as Hrefl. pose proof records_kept_trans as Htrans.
  pose proof (flag_stable (b:=false)) as Hstable.
  unfold forward.
  apply frames_bind; auto; [apply forward_groups_frames|]. intros all_feats.
  apply frames_bind; auto; [now apply aggregate_layers_frames|]. intros out.
  now apply frames_pure.
Qed.

Lemma bind_inv_ok {S A B} (m : M S A) (k : A -> M S B) (st st' : S) (b : B) :
  bind m k st = (Ok b, st') ->
  exists a s1, m st = (Ok a, s1) /\ k a s1 = (Ok b, st').
Proof.
  unfold bind. destruct (m st) as [[a|e] s1]; [|discriminate].
  intros Hk. now exists a, s1.
Qed.

Lemma lift_inv_ok {S A} (r : result A) (st st' : S) (a : A) :
  lift r st = (Ok a, st') -> r = Ok a /\ st' = st.
Proof. unfold lift. intros Hr. inversion Hr. auto. Qed.

Lemma records_extended_0 (st st' : model_state rng) :
  quantum_neighbors st' = quantum_neighbors st -> coins st' = coins st ->
  all_amps st' = all_amps st -> all_graphs st' = all_graphs st ->
  max_degrees st' = max_degrees st -> records_extended 0 st st'.
Proof.
  intros Hq Hc Ha Hg Hd. split; [exact Hq|]. split; [exact Hc|].
  exists [], [], []. rewrite !app_nil_r. repeat split; assumption.
Qed.

Lemma records_extended_trans (n m : nat) (s1 s2 s3 : model_state rng) :
  records_extended n s1 s2 -> records_extended m s2 s3 -> records_extended (n + m) s1 s3.
Proof.
  intros [Q1 [C1 [a1 [g1 [d1 [A1 [G1 [D1 [La1 [Lg1 Ld1]]]]]]]]]]
         [Q2 [C2 [a2 [g2 [d2 [A2 [G2 [D2 [La2 [Lg2 Ld2]]]]]]]]]].
  split; [congruence|]. split; [congruence|].
  exists (a1 ++ a2), (g1 ++ g2), (d1 ++ d2).
  rewrite A2, G2, D2, A1, G1, D1, !app_assoc, !length_app. repeat split; lia.
Qed.

(** With the flag on, a sampling loop that completes has appended one
    record per layer to each of the three lists. *)
Lemma sample_layers_extends (self : GSSupervised) (smp : sampler) (adj : adjacency)
    (feats : option matrix) (olen : nat) (fns : list Z) :
  forall layer_idx ids all_feats (st st' : model_state rng) out,
    quantum_neighbors st = true ->
    sample_layers self smp adj feats olen layer_idx fns ids all_feats st = (Ok out, st') ->
    records_extended (length fns) st st'.
Proof.
  induction fns as [|k fns IH]; intros layer_idx ids all_feats st st' out Hq Hrun;
    cbn [sample_layers] in Hrun.
  - inversion Hrun; subst. now apply records_extended_0.
  - apply bind_inv_ok in Hrun. destruct Hrun as [t [s1 [Hsmp Hrun]]].
    assert (Hs1 : records_extended 0 st s1).
    { unfold with_rng in Hsmp.
      destruct (sampler_call smp ids (Some k) (st_rng st)) as [r g].
      inversion Hsmp; subst. now apply records_extended_0. }
    rewrite bind_get_state in Hrun.
    assert (Hq1 : quantum_neighbors s1 = true) by (destruct Hs1 as [Hq1 _]; congruence).
    rewrite Hq1 in Hrun.
    apply bind_inv_ok in Hrun. destruct Hrun as [[] [s2 [Hgen Hrun]]].
    assert (Hs2 : records_extended 1 s1 s2).
    { apply bind_inv_ok in Hgen. destruct Hgen as [gsz [sa [Hdiv Hgen]]].
      apply lift_inv_ok in Hdiv. destruct Hdiv as [_ ->].
      apply bind_inv_ok in Hgen. destruct Hgen as [[[amps graphs] degree] [sb [Hg Happ]]].
      apply lift_inv_ok in Hg. destruct Hg as [_ ->].
      unfold append_walk_records, modify in Happ. inversion Happ; subst. cbn.
      split; [reflexivity|]. split; [reflexivity|].
      exists [amps], [graphs], [degree]. repeat split. }
    apply bind_inv_ok in Hrun. destruct Hrun as [tmp [s3 [Htmp Hrun]]].
    apply lift_inv_ok in Htmp. destruct Htmp as [_ ->].
    apply bind_inv_ok in Hrun. destruct Hrun as [f [s4 [Hf Hrun]]].
    apply lift_inv_ok in Hf. destruct Hf as [_ ->].
    assert (Hq2 : quantum_neighbors s2 = true) by (destruct Hs2 as [Hq2 _]; congruence).
    pose proof (IH _ _ _ _ _ _ Hq2 Hrun) as Hrest.
    change (length (k :: fns)) with (0 + (1 + length fns)).
    eapply records_extended_trans; [exact Hs1|].
    eapply records_extended_trans; eassumption.
Qed.

Lemma bind_inv {S A B} (m : M S A) (k : A -> M S B) (st st' : S) (r : result B) :
  bind m k st = (r, st') ->
  (exists a s1, m st = (Ok a, s1) /\ k a s1 = (r, st')) \/
  (exists e, m st = (Raise e, st') /\ r = Raise e).
Proof.
  unfold bind. destruct (m st) as [[a|e] s1]; intros Hk.
  - left. now exists a, s1.
  - right. inversion Hk; subst. now exists e.
Qed.

Lemma bind_ext {S A B} (m : M S A) (k k' : A -> M S B) (st : S) :
  (forall a s1, m st = (Ok a, s1) -> k a s1 = k' a s1) -> bind m k st = bind m k' st.
Proof.
  intros Hk. unfold bind. destruct (m st) as [[a|e] s1]; [now apply Hk|reflexivity].
Qed.

Lemma bind_eq_m {S A B} (m m' : M S A) (k : A -> M S B) (st : S) :
  m st = m' st -> bind m k st = bind m' k st.
Proof. unfold bind. now intros ->. Qed.

Lemma lift_inv {S A} (r r' : result A) (st st' : S) :
  lift r st = (r', st') -> r' = r /\ st' = st.
Proof. unfold lift. intros Hr. inversion Hr. auto. Qed.

Lemma with_rng_extended {A} (m : M rng A) (st st' : model_state rng) (r : result A) :
  with_rng m st = (r, st') -> records_extended 0 st st'.
Proof.
  unfold with_rng. destruct (m (st_rng st)) as [r' g].
  intros Hr. inversion Hr; subst. now apply records_extended_0.
Qed.

(** With the flag on, a sampling loop that raises has appended a record for
    each layer it reached, and left flag and coins alone. *)
Lemma sample_layers_raise_extends (self : GSSupervised) (smp : sampler) (adj : adjacency)
    (feats : option matrix) (olen : nat) (fns : list Z) :
  forall layer_idx ids all_feats (st st' : model_state rng) e,
    quantum_neighbors st = true ->
    sample_layers self smp adj feats olen layer_idx fns ids all_feats st = (Raise e, st') ->
    exists n, n <= length fns /\ records_extended n st st'.
Proof.
  induction fns as [|k fns IH]; intros layer_idx ids all_feats st st' e Hq Hrun;
    cbn [sample_layers] in Hrun.
  - discriminate.
  - apply bind_inv in Hrun. destruct Hrun as [[t [s1 [Hsmp Hrun]]]|[e1 [Hsmp _]]].
    2:{ exists 0. split; [lia|]. exact (with_rng_extended Hsmp). }
    pose proof (with_rng_extended Hsmp) as Hs1.
    rewrite bind_get_state in Hrun.
    assert (Hq1 : quantum_neighbors s1 = true) by (destruct Hs1 as [Hq1 _]; congruence).
    rewrite Hq1 in Hrun.
    apply bind_inv in Hrun. destruct Hrun as [[[] [s2 [Hgen Hrun]]]|[e2 [Hgen _]]].
    2:{ exists 0. split; [lia|].
        apply bind_inv in Hgen. destruct Hgen as [[gsz [sa [Hdiv Hgen]]]|[e3 [Hdiv _]]].
        2:{ apply lift_inv in Hdiv. destruct Hdiv as [_ ->]. exact Hs1. }
        apply lift_inv in Hdiv. destruct Hdiv as [_ ->].
        apply bind_inv in Hgen. destruct Hgen as [[r [sb [Hg Happ]]]|[e3 [Hg _]]].
        2:{ apply lift_inv in Hg. destruct Hg as [_ ->]. exact Hs1. }
        destruct r as [[amps graphs] degree]. discriminate Happ. }
    assert (Hs2 : records_extended 1 s1 s2).
    { apply bind_inv_ok in Hgen. destruct Hgen as [gsz [sa [Hdiv Hgen]]].
      apply lift_inv_ok in Hdiv. destruct Hdiv as [_ ->].
      apply bind_inv_ok in Hgen. destruct Hgen as [[[amps graphs] degree] [sb [Hg Happ]]].
      apply lift_inv_ok in Hg. destruct Hg as [_ ->].
      unfold append_walk_records, modify in Happ. inversion Happ; subst. cbn.
      split; [reflexivity|]. split; [reflexivity|].
      exists [amps], [graphs], [degree]. repeat split. }
    pose proof (records_extended_trans Hs1 Hs2) as Hs12.
    apply bind_inv in Hrun. destruct Hrun as [[tmp [s3 [Htmp Hrun]]]|[e3 [Htmp _]]].
    2:{ apply lift_inv in Htmp. destruct Htmp as [_ ->].
        exists 1. split; [simpl; lia|exact Hs12]. }
    apply lift_inv_ok in Htmp. destruct Htmp as [_ ->].
    apply bind_inv in Hrun. destruct Hrun as [[f [s4 [Hf Hrun]]]|[e4 [Hf _]]].
    2:{ apply lift_inv in Hf. destruct Hf as [_ ->].
        exists 1. split; [simpl; lia|exact Hs12]. }
    apply lift_inv_ok in Hf. destruct Hf as [_ ->].
    assert (Hq2 : quantum_neighbors s2 = true) by (destruct Hs2 as [Hq2 _]; congruence).
    destruct (IH _ _ _ _ _ _ Hq2 Hrun) as [n [Hn Hrest]].
    exists (0 + 1 + n). split; [simpl; lia|].
    eapply records_extended_trans; eassumption.
Qed.

Lemma forward_groups_raise_extends (self : GSSupervised) (ids : list nat)
    (feats : option matrix) (train : bool) (st st1 : model_state rng) (e : exn) :
  quantum_neighbors st = true ->
  forward_groups self ids feats train st = (Raise e, st1) ->
  exists n, n <= length (if train then train_sample_fns self else val_sample_fns self) /\
            records_extended n st st1.
Proof.
  intros Hq Hrun. unfold forward_groups in Hrun.
  assert (H0 : records_extended 0 st st) by now apply records_extended_0.
  apply bind_inv in Hrun. destruct Hrun as [[tmp [sa [Htmp Hrun]]]|[e1 [Htmp _]]].
  2:{ apply lift_inv in Htmp. destruct Htmp as [_ ->]. exists 0. split; [lia|exact H0]. }
  apply lift_inv_ok in Htmp. destruct Htmp as [_ ->].
  apply bind_inv in Hrun. destruct Hrun as [[f0 [sb [Hf0 Hrun]]]|[e1 [Hf0 _]]].
  2:{ apply lift_inv in Hf0. destruct Hf0 as [_ ->]. exists 0. split; [lia|exact H0]. }
  apply lift_inv_ok in Hf0. destruct Hf0 as [_ ->].
  apply bind_inv in Hrun. destruct Hrun as [[af [sc [Hsample Hrun]]]|[e1 [Hsample _]]].
  2:{ exact (sample_layers_raise_extends Hq Hsample). }
  destruct (quantum_walk self); discriminate Hrun.
Qed.

(** With the flag off the sampling loop reads neither adjacency attribute:
    it runs the same on a model that holds others. *)
Lemma sample_layers_adj_unread (self self' : GSSupervised) (smp : sampler)
    (adj adj' : adjacency) (feats : option matrix) (olen : nat) (fns : list Z) :
  gs_prep self' = gs_prep self ->
  forall layer_idx ids all_feats (st : model_state rng),
    quantum_neighbors st = false ->
    sample_layers self' smp adj' feats olen layer_idx fns ids all_feats st
    = sample_layers self smp adj feats olen layer_idx fns ids all_feats st.
Proof.
  intros Hprep. induction fns as [|k fns IH]; intros layer_idx ids all_feats st Hq;
    cbn [sample_layers]; [reflexivity|].
  apply bind_ext. intros t s1 Hsmp.
  assert (Hq1 : quantum_neighbors s1 = false).
  { destruct (with_rng_extended Hsmp) as [Hq1 _]. congruence. }
  rewrite !bind_get_state, Hq1, !bind_ret, Hprep.
  apply bind_ext. intros tmp s2 Htmp.
  apply lift_inv_ok in Htmp. destruct Htmp as [_ ->].
  apply bind_ext. intros f s3 Hf.
  apply lift_inv_ok in Hf. destruct Hf as [_ ->].
  now apply IH.
Qed.

Lemma aggregate_layers_adj_unread (self : GSSupervised) (adj train_adj : adjacency)
    (layers : list aggregator) :
  forall groups (st : model_state rng),
    aggregate_layers (with_adj_attributes self adj train_adj) layers groups st
    = aggregate_layers self layers groups st.
Proof.
  induction layers as [|a layers IH]; intros groups st; cbn [aggregate_layers];
    [reflexivity|].
  refine (@bind_ext _ _ _ (aggregate_layer self a groups) _ _ st _).
  intros out s1 _. apply IH.
Qed.

Lemma forward_adj_unread (self : GSSupervised) (adj train_adj : adjacency)
    (ids : list nat) (feats : option matrix) (train : bool) (st : model_state rng) :
  quantum_neighbors st = false ->
  forward (with_adj_attributes self adj train_adj) ids feats train st
  = forward self ids feats train st.
Proof.
  intros Hq. unfold forward.
  assert (Hgroups : forward_groups (with_adj_attributes self adj train_adj) ids feats train st
                    = forward_groups self ids feats train st).
  { unfold forward_groups.
    cbn [with_adj_attributes train_sample_fns val_sample_fns train_sampler val_sampler
         gs_train_adj gs_adj gs_prep quantum_walk].
    apply bind_ext. intros tmp s1 Htmp.
    apply lift_inv_ok in Htmp. destruct Htmp as [_ ->].
    apply bind_ext. intros f0 s2 Hf.
    apply lift_inv_ok in Hf. destruct Hf as [_ ->].
    apply bind_eq_m.
    exact (@sample_layers_adj_unread self (with_adj_attributes self adj train_adj)
             (if train then train_sampler self else val_sampler self)
             (if train then gs_train_adj self else gs_adj self)
             (if train then train_adj else adj) feats (length ids)
             (if train then train_sample_fns self else val_sample_fns self)
             eq_refl 0 ids [f0] st Hq). }
  rewrite (bind_eq_m _ Hgroups).
  apply bind_ext. intros groups s1 _.
  exact (bind_eq_m _ (aggregate_layers_adj_unread self adj train_adj (agg_layers self)
                        groups s1)).
Qed.

Lemma mapMM_ext_inv {S A B} (I : S -> Prop) (f f' : A -> M S B) (l : list A) :
  (forall a st, I st -> f a st = f' a st) ->
  (forall a st, I st -> I (snd (f a st))) ->
  forall st, I st -> mapMM f l st = mapMM f' l st.
Proof.
  intros Hext Hinv. induction l as [|a l IH]; intros st HI; [reflexivity|].
  cbn [mapMM]. unfold bind.
  rewrite <- (Hext a st HI). pose proof (Hinv a st HI) as HI'.
  destruct (f a st) as [[b|e] s1]; [|reflexivity]. cbn [snd] in HI'.
  now rewrite (IH s1 HI').
Qed.

(** The walk of an aggregation layer reads the three lists the state holds
    when the layer starts. *)
Lemma aggregate_layer_on_records (self : GSSupervised) (a : aggregator)
    (groups : list (option matrix)) (st : model_state rng) :
  quantum_walk self = true ->
  aggregate_layer self a groups st
  = aggregate_layer_on (all_amps st) (all_graphs st) (max_degrees st) self a groups st.
Proof.
  intros Hqw. unfold aggregate_layer, aggregate_layer_on. rewrite Hqw.
  apply (mapMM_ext_inv
           (I:=fun s => all_amps s = all_amps st /\ all_graphs s = all_graphs st /\
                        max_degrees s = max_degrees st)).
  - intros k s [Ha [Hg Hd]].
    apply bind_ext. intros xk s1 Hxk.
    apply lift_inv_ok in Hxk. destruct Hxk as [_ ->].
    apply bind_ext. intros xk1 s1 Hxk1.
    apply lift_inv_ok in Hxk1. destruct Hxk1 as [_ ->].
    rewrite bind_get_state, Ha, Hg, Hd. reflexivity.
  - intros k s HI.
    unfold bind, lift, get_state, with_coins, ret.
    repeat (cbn [fst snd all_amps all_graphs max_degrees];
            match goal with
            | |- context [match ?x with _ => _ end] =>
                lazymatch x with
                | context [match _ with _ => _ end] => fail
                | _ => destruct x
                end
            end).
    all: cbn [fst snd all_amps all_graphs max_degrees]; exact HI.
  - auto.
Qed.

Lemma aggregate_layers_on_records (self : GSSupervised) (layers : list aggregator) :
  quantum_walk self = true ->
  forall (groups : list (option matrix)) (st : model_state rng),
    aggregate_layers self layers groups st
    = aggregate_layers_on (all_amps st) (all_graphs st) (max_degrees st) self layers
                          groups st.
Proof.
  intros Hqw. induction layers as [|a layers IH]; intros groups st;
    cbn [aggregate_layers aggregate_layers_on]; [reflexivity|].
  unfold bind. rewrite <- (aggregate_layer_on_records a groups st Hqw).
  pose proof (@aggregate_layer_frames self (fun _ => True) a groups
                (fun _ _ _ _ => I) st I) as [_ [Ha [Hg [Hd _]]]].
  destruct (aggregate_layer self a groups st) as [[out|e] s1]; [|reflexivity].
  cbn [snd] in Ha, Hg, Hd. rewrite <- Ha, <- Hg, <- Hd. apply IH.
Qed.

(** C2, as the code has it.  The records are generated while the flag
    [quantum_neighbors] is on, and the flag is turned off only when a pass
    of a quantum-walk model completes its sampling phase.
    - A pass started with the flag off generates nothing and leaves the
      amplitude, subgraph and maximum-degree lists exactly as it found
      them, whether it returns or raises; it reads neither adjacency
      attribute; on a quantum-walk model the walk of its layer [k] reads
      entry [k] of the lists the pass started with.
    - A pass of a quantum-walk model started with the flag on whose
      sampling phase completes appends one record per layer to each of the
      three lists and turns the flag off.
    - A pass started with the flag on whose sampling phase raises (at
      [feats[ids]] after the appends, say) raises the same exception, keeps
      the flag on and keeps the records it has appended, at most one per
      layer: the next pass generates again.
    - The walk of any quantum-walk pass reads the lists as its sampling
      phase left them, and the coins a pass ends with extend the coins it
      started with. *)
Theorem forward_walk_records_persist (self : GSSupervised) (ids : list nat)
    (feats : option matrix) (train : bool) (st : model_state rng) :
  let st' := snd (forward self ids feats train st) in
  let L := length (if train then train_sample_fns self else val_sample_fns self) in
  (quantum_neighbors st = false ->
   quantum_neighbors st' = false /\
   all_amps st' = all_amps st /\ all_graphs st' = all_graphs st /\
   max_degrees st' = max_degrees st /\ coins_extended (coins st) (coins st')) /\
  (quantum_neighbors st = false ->
   forall adj train_adj,
     forward (with_adj_attributes self adj train_adj) ids feats train st
     = forward self ids feats train st) /\
  (quantum_walk self = true -> quantum_neighbors st = false ->
   forall groups st1,
     forward_groups self ids feats train st = (Ok groups, st1) ->
     all_amps st1 = all_amps st /\ all_graphs st1 = all_graphs st /\
     max_degrees st1 = max_degrees st /\
     forward self ids feats train st
     = bind (aggregate_layers_on (all_amps st) (all_graphs st) (max_degrees st) self
                                 (agg_layers self) groups)
            (fun out => lift (classify self out)) st1) /\
  (quantum_walk self = true -> quantum_neighbors st = true ->
   forall groups st1,
     forward_groups self ids feats train st = (Ok groups, st1) ->
     quantum_neighbors st' = false /\
     coins_extended (coins st) (coins st') /\
     exists a g d,
       all_amps st' = all_amps st ++ a /\
       all_graphs st' = all_graphs st ++ g /\
       max_degrees st' = max_degrees st ++ d /\
       length a = L /\ length g = L /\ length d = L) /\
  (quantum_neighbors st = true ->
   forall e st1,
     forward_groups self ids feats train st = (Raise e, st1) ->
     forward self ids feats train st = (Raise e, st1) /\
     quantum_neighbors st1 = true /\ coins st1 = coins st /\
     exists n a g d,
       n <= L /\
       all_amps st1 = all_amps st ++ a /\
       all_graphs st1 = all_graphs st ++ g /\
       max_degrees st1 = max_degrees st ++ d /\
       length a = n /\ length g = n /\ length d = n) /\
  (quantum_walk self = true ->
   forall groups st1,
     forward_groups self ids feats train st = (Ok groups, st1) ->
     forward self ids feats train st
     = bind (aggregate_layers_on (all_amps st1) (all_graphs st1) (max_degrees st1) self
                                 (agg_layers self) groups)
            (fun out => lift (classify self out)) st1).
Proof.
  intros st' L.
  assert (Hwalk : quantum_walk self = true ->
            forall groups st1,
              forward_groups self ids feats train st = (Ok groups, st1) ->
              forward self ids feats train st
              = bind (aggregate_layers_on (all_amps st1) (all_graphs st1) (max_degrees st1)
                                          self (agg_layers self) groups)
                     (fun out => lift (classify self out)) st1).
  { intros Hqw groups st1 Hgroups. unfold forward. rewrite (bind_ok _ Hgroups).
    unfold bind. now rewrite (aggregate_layers_on_records (agg_layers self) Hqw groups st1). }
  split; [|split; [|split; [|split; [|split]]]].
  - intros Hq. destruct (forward_frames self ids feats train Hq) as [Hq' [Ha [Hg [Hd Hc]]]].
    fold st' in Hq', Ha, Hg, Hd, Hc. rewrite Hq in Hq'. auto.
  - intros Hq adj train_adj. now apply forward_adj_unread.
  - intros Hqw Hq groups st1 Hgroups.
    pose proof (forward_groups_frames self ids feats train Hq) as [_ [Ha [Hg [Hd _]]]].
    rewrite Hgroups in Ha, Hg, Hd. cbn [snd] in Ha, Hg, Hd.
    split; [exact Ha|]. split; [exact Hg|]. split; [exact Hd|].
    rewrite <- Ha, <- Hg, <- Hd. now apply Hwalk.
  - intros Hqw Hq groups st1 Hgroups.
    assert (Hst1 : quantum_neighbors st1 = false /\ coins st1 = coins st /\
                   exists a g d,
                     all_amps st1 = all_amps st ++ a /\
                     all_graphs st1 = all_graphs st ++ g /\
                     max_degrees st1 = max_degrees st ++ d /\
                     length a = L /\ length g = L /\ length d = L).
    { unfold forward_groups in Hgroups.
      apply bind_inv_ok in Hgroups. destruct Hgroups as [tmp [sa [Htmp Hgroups]]].
      apply lift_inv_ok in Htmp. destruct Htmp as [_ ->].
      apply bind_inv_ok in Hgroups. destruct Hgroups as [f0 [sb [Hf0 Hgroups]]].
      apply lift_inv_ok in Hf0. destruct Hf0 as [_ ->].
      apply bind_inv_ok in Hgroups. destruct Hgroups as [af [sc [Hsample Hgroups]]].
      apply (sample_layers_extends Hq) in Hsample.
      rewrite Hqw in Hgroups. cbn in Hgroups. inversion Hgroups; subst. cbn.
      destruct Hsample as [_ [Hc Hrec]]. fold L in Hrec. auto. }
    destruct Hst1 as [Hq1 [Hc1 [a [g [d [Ha [Hg [Hd Hlen]]]]]]]].
    assert (Hkept : records_kept st1 st').
    { unfold st', forward. rewrite (bind_ok _ Hgroups).
      apply (frames_bind (P:=fun _ => True) (R:=records_kept)); auto.
      - apply records_kept_trans.
      - now apply aggregate_layers_frames.
      - intros out. apply frames_pure. apply records_kept_refl. }
    destruct Hkept as [Kq [Ka [Kg [Kd Kc]]]].
    split; [congruence|]. split; [now rewrite <- Hc1|].
    exists a, g, d. rewrite Ka, Kg, Kd. auto.
  - intros Hq e st1 Hgroups.
    split; [unfold forward; now rewrite (bind_raise _ Hgroups)|].
    destruct (forward_groups_raise_extends Hq Hgroups)
      as [n [Hn [Hq1 [Hc1 [a [g [d Hrec]]]]]]].
    split; [congruence|]. split; [exact Hc1|].
    exists n, a, g, d. split; [exact Hn|exact Hrec].
  - exact Hwalk.
Qed.

End WalkRecords.

(** C2, as the claim has it, fails: a quantum-walk model over the table
    [[1,2],[0,2],[0,1],[3,3]] is run on the batch [0] and then on the batch
    [3].  Both passes return.  The first stores the subgraph [[0,1],[1,0]]
    and the degree 1; after the second the three lists are still those of
    the first batch, although the ids sampled for the second batch are
    [3,3], whose subgraph is [[1,1],[1,1]] with degree 2. *)
Lemma forward_second_batch_reuses_first_records :
  let adj := DenseAdj [[1; 2]; [0; 2]; [0; 1]; [3; 3]] in
  let one := {| in_features := 1; out_features := 1; weight := [[1%R]]; bias := None |} in
  let self :=
    {| train_sampler := DenseSampler {| uns_adj := adj |};
       val_sampler := DenseSampler {| uns_adj := adj |};
       train_sample_fns := [2%Z]; val_sample_fns := [2%Z];
       gs_prep := PrepIdentity {| ip_input_dim := 1 |};
       quantum_walk := true; gs_adj := adj; gs_train_adj := adj;
       time_steps := Some 4;
       agg_layers := [AggMean {| mean_fc_x := one; mean_fc_neib := one;
                                 mean_output_dim_ := 1; mean_activation := None;
                                 mean_combine_fn := default_combine_fn |}];
       gs_fc := {| in_features := 2; out_features := 1; weight := [[1%R; 1%R]];
                   bias := Some [0%R] |} |} in
  let feats := Some [[1%R]; [1%R]; [1%R]; [1%R]] in
  let st0 := initial_state self 0 in
  let st1 := snd (forward self [0] feats true st0) in
  let st2 := snd (forward self [3] feats true st1) in
  is_ok (fst (forward self [0] feats true st0)) = true /\
  is_ok (fst (forward self [3] feats true st1)) = true /\
  all_graphs st1 = [[[[0; 1]; [1; 0]]]] /\ max_degrees st1 = [1] /\
  all_graphs st2 = all_graphs st1 /\ max_degrees st2 = max_degrees st1 /\
  all_amps st2 = all_amps st1 /\
  fst (sampler_call (train_sampler self) [3] (Some 2%Z) (st_rng st1)) = Ok (T2 [[3; 3]]) /\
  exists amps, GenerateQuantumWalkGraphs adj [3; 3] 1 2 = Ok (amps, [[[1; 1]; [1; 1]]], 2).
Proof.
  intros adj one self feats st0 st1 st2.
  split; [lazy; reflexivity|]. split; [lazy; reflexivity|].
  split; [lazy; reflexivity|]. split; [lazy; reflexivity|].
  split; [lazy; reflexivity|]. split; [lazy; reflexivity|].
  split.
  - assert (Hq : quantum_neighbors st1 = false) by (lazy; reflexivity).
    apply (forward_frames self [3] feats true Hq).
  - split; [lazy; reflexivity|]. eexists. lazy. reflexivity.
Qed.

(** A pass that raises while sampling keeps the flag on: the same model
    over features of one row.  The seed 0 has a row, the ids sampled for it
    have none, so [feats[ids]] raises after the record of the layer is
    appended; the next pass appends a record again. *)
Lemma forward_raising_pass_generates_again :
  let adj := DenseAdj [[1; 2]; [0; 2]; [0; 1]; [3; 3]] in
  let one := {| in_features := 1; out_features := 1; weight := [[1%R]]; bias := None |} in
  let self :=
    {| train_sampler := DenseSampler {| uns_adj := adj |};
       val_sampler := DenseSampler {| uns_adj := adj |};
       train_sample_fns := [2%Z]; val_sample_fns := [2%Z];
       gs_prep := PrepIdentity {| ip_input_dim := 1 |};
       quantum_walk := true; gs_adj := adj; gs_train_adj := adj;
       time_steps := Some 4;
       agg_layers := [AggMean {| mean_fc_x := one; mean_fc_neib := one;
                                 mean_output_dim_ := 1; mean_activation := None;
                                 mean_combine_fn := default_combine_fn |}];
       gs_fc := {| in_features := 2; out_features := 1; weight := [[1%R; 1%R]];
                   bias := Some [0%R] |} |} in
  let feats := Some [[1%R]] in
  let st0 := initial_state self 0 in
  let st1 := snd (forward self [0] feats true st0) in
  let st2 := snd (forward self [0] feats true st1) in
  fst (forward self [0] feats true st0) = Raise IndexError /\
  quantum_neighbors st1 = true /\ length (all_graphs st1) = 1 /\
  fst (forward self [0] feats true st1) = Raise IndexError /\
  quantum_neighbors st2 = true /\ length (all_graphs st2) = 2.
Proof.
  intros adj one self feats st0 st1 st2.
  split; [lazy; reflexivity|]. split; [lazy; reflexivity|].
  split; [lazy; reflexivity|]. split; [lazy; reflexivity|].
  split; lazy; reflexivity.
Qed.

(** * Further properties of the engine *)

Lemma rsum_map_plus {A} (F G : A -> R) (l : list A) :
  rsum (map (fun k => (F k + G k)%R) l) = (rsum (map F l) + rsum (map G l))%R.
Proof. induction l as [|x l IH]; simpl; [lra|]. rewrite IH. lra. Qed.

Lemma rsum_map_mult_l {A} (c : R) (F : A -> R) (l : list A) :
  rsum (map (fun k => (c * F k)%R) l) = (c * rsum (map F l))%R.
Proof. induction l as [|x l IH]; simpl; [lra|]. rewrite IH. lra. Qed.

Lemma rsum_delta (i s n : nat) :
  rsum (map (fun k => if i =? k then 1%R else 0%R) (seq s n))
  = if (s <=? i) && (i <? s + n) then 1%R else 0%R.
Proof.
  revert s. induction n as [|n IH]; intros s; simpl.
  - destruct (s <=? i) eqn:E1; simpl; [|reflexivity].
    destruct (i <? s + 0) eqn:E2; [|reflexivity].
    apply Nat.leb_le in E1. apply Nat.ltb_lt in E2. lia.
  - rewrite IH.
    destruct (Nat.eqb_spec i s) as [Heq|Hne];
      destruct (Nat.leb_spec s i), (Nat.leb_spec (S s) i);
      destruct (Nat.ltb_spec i (s + S n)), (Nat.ltb_spec i (S s + n));
      cbn [andb]; try lia; lra.
Qed.

Lemma combine_map_same {A B C} (f : A -> B) (g : A -> C) (l : list A) :
  combine (map f l) (map g l) = map (fun x => (f x, g x)) l.
Proof. induction l as [|x l IH]; simpl; [reflexivity|]. now rewrite IH. Qed.

Lemma groverDiffusion_rows (n : nat) :
  0 < n -> groverDiffusion n = Ok (map (grover_row n) (seq 0 n)).
Proof.
  intros Hn. unfold groverDiffusion.
  destruct (Nat.eqb_spec n 0); [lia|reflexivity].
Qed.

Lemma grover_row_dot (n i j : nat) :
  0 < n -> i < n -> j < n ->
  dot (grover_row n i) (grover_row n j) = if i =? j then 1%R else 0%R.
Proof.
  intros Hn Hi Hj. unfold dot, grover_row.
  rewrite combine_map_same, map_map. cbn [fst snd].
  set (a := (2 / INR n)%R).
  set (d := fun (i k : nat) => if i =? k then 1%R else 0%R).
  rewrite (map_ext _ (fun k => (a * a + ((- a) * d i k + ((- a) * d j k
                                 + (if i =? j then d i k else 0)))))%R).
  2:{ intros k. unfold d, a.
      destruct (Nat.eqb_spec i k), (Nat.eqb_spec j k), (Nat.eqb_spec i j);
        try lia; lra. }
  rewrite (rsum_map_plus (fun _ => (a * a)%R)).
  rewrite (rsum_map_plus (fun k => (- a * d i k)%R)).
  rewrite (rsum_map_plus (fun k => (- a * d j k)%R)).
  rewrite !rsum_map_mult_l, rsum_map_const, length_seq.
  assert (Hd : forall i, i < n -> rsum (map (d i) (seq 0 n)) = 1%R).
  { intros i' Hi'. unfold d. rewrite rsum_delta.
    destruct (Nat.leb_spec 0 i'), (Nat.ltb_spec i' (0 + n)); try lia. reflexivity. }
  rewrite (Hd i Hi), (Hd j Hj).
  assert (Hna : (INR n * (a * a) = 2 * a)%R).
  { unfold a. field. apply not_0_INR. lia. }
  assert (Hlast : rsum (map (fun k => if i =? j then d i k else 0%R) (seq 0 n))
                  = if i =? j then 1%R else 0%R).
  { destruct (i =? j); [exact (Hd i Hi)|]. rewrite rsum_map_const. lra. }
  rewrite Hlast. destruct (i =? j); lra.
Qed.

(** X1: for [n >= 1] the coin [groverDiffusion(n)] is the [n] by [n]
    matrix with [-1 + 2/n] on the diagonal and [2/n] everywhere else; it is
    symmetric, its rows each sum to 1 and it is its own inverse: multiplied
    by itself it gives the identity, so one application of the coin
    operator is undone by the next. *)
Theorem groverDiffusion_reflection (n : nat) :
  0 < n ->
  exists g, groverDiffusion n = Ok g /\ has_shape n n g /\
    (forall i j, i < n -> j < n ->
       nth j (nth i g []) 0%R = if i =? j then (-1 + 2 / INR n)%R else (2 / INR n)%R) /\
    (forall i j, i < n -> j < n -> nth j (nth i g []) 0%R = nth i (nth j g []) 0%R) /\
    (forall i, i < n -> rsum (nth i g []) = 1%R) /\
    matmul g g = Ok (eye n).
Proof.
  intros Hn. exists (map (grover_row n) (seq 0 n)).
  split; [now apply groverDiffusion_rows|].
  assert (Hshape : has_shape n n (map (grover_row n) (seq 0 n))).
  { split; [now rewrite length_map, length_seq|].
    apply Forall_forall. intros row Hrow. apply in_map_iff in Hrow.
    destruct Hrow as [i [<- _]]. unfold grover_row. now rewrite length_map, length_seq. }
  assert (Hentry : forall i j, i < n -> j < n ->
            nth j (nth i (map (grover_row n) (seq 0 n)) []) 0%R
            = if i =? j then (-1 + 2 / INR n)%R else (1 * 2 / INR n)%R).
  { intros i j Hi Hj. rewrite (nth_map_seq (grover_row n) [] Hi).
    unfold grover_row.
    now rewrite (nth_map_seq (fun j => if i =? j then _ else _) 0%R Hj). }
  split; [exact Hshape|]. split; [|split; [|split]].
  - intros i j Hi Hj. rewrite Hentry by assumption.
    destruct (i =? j); [reflexivity|]. unfold Rdiv. now rewrite Rmult_1_l.
  - intros i j Hi Hj. rewrite !Hentry by assumption.
    now rewrite (Nat.eqb_sym j i).
  - intros i Hi. rewrite (nth_map_seq (grover_row n) [] Hi). unfold grover_row.
    set (d := fun (i k : nat) => if i =? k then 1%R else 0%R).
    rewrite (map_ext _ (fun k => (2 / INR n + (-1) * d i k)%R)).
    2:{ intros k. unfold d. destruct (i =? k); lra. }
    rewrite (rsum_map_plus (fun _ => (2 / INR n)%R)), rsum_map_mult_l, rsum_map_const.
    rewrite length_seq. unfold d. rewrite rsum_delta.
    destruct (Nat.leb_spec 0 i), (Nat.ltb_spec i (0 + n)); try lia. simpl.
    field. apply not_0_INR. lia.
  - unfold matmul.
    rewrite (mapM_ok (g:=fun row => map (dot row)
                                        (transpose (size1 (map (grover_row n) (seq 0 n)))
                                                   (map (grover_row n) (seq 0 n))))).
    2:{ apply Forall_forall. intros row Hrow.
        destruct Hshape as [Hlen Hrows]. rewrite Forall_forall in Hrows.
        rewrite (Hrows row Hrow), Hlen, Nat.eqb_refl. reflexivity. }
    f_equal. rewrite (has_shape_size1 Hshape Hn).
    rewrite map_map. unfold eye. apply map_ext_in. intros i Hi.
    apply in_seq in Hi. unfold transpose. rewrite map_map.
    apply map_ext_in. intros j Hj. apply in_seq in Hj.
    rewrite map_map.
    rewrite (map_ext_in _ (fun k => if j =? k then (-1 + 2 / INR n)%R
                                    else (1 * 2 / INR n)%R)).
    2:{ intros k Hk. apply in_seq in Hk.
        unfold grover_row.
        rewrite (nth_map_seq (fun j => if k =? j then _ else _) 0%R (proj2 Hj)).
        now rewrite (Nat.eqb_sym k j). }
    fold (grover_row n j). apply grover_row_dot; lia.
Qed.

(** The coin of size 2: 0 on the diagonal, 1 off it, and it squares to the
    identity. *)
Lemma groverDiffusion_reflection_witness :
  exists g, groverDiffusion 2 = Ok g /\ has_shape 2 2 g /\
    nth 0 (nth 0 g []) 0%R = (-1 + 2 / INR 2)%R /\
    nth 1 (nth 0 g []) 0%R = (2 / INR 2)%R /\
    matmul g g = Ok (eye 2).
Proof.
  destruct (@groverDiffusion_reflection 2) as [g [Hg [Hs [He [_ [_ Hm]]]]]]; [lia|].
  exists g. split; [exact Hg|]. split; [exact Hs|].
  split; [exact (He 0 0 ltac:(lia) ltac:(lia))|].
  split; [exact (He 0 1 ltac:(lia) ltac:(lia))|exact Hm].
Defined.

Lemma forM_append_coin {A} (g : list (list R)) (l : list A) (cs : list (list (list R))) :
  forM_ l (fun _ => bind (lift (Ok g)) (fun g => modify (fun cs => cs ++ [g]))) cs
  = (Ok tt, cs ++ repeat g (length l)).
Proof.
  revert cs. induction l as [|a l IH]; intros cs; simpl.
  - unfold ret. now rewrite app_nil_r.
  - unfold bind at 1. unfold bind at 1. unfold lift, modify.
    rewrite IH. now rewrite <- app_assoc.
Qed.

Lemma QuantumWalk_alloc_ok (T degree : nat) (g : list (list R)) (cs : list (list (list R))) :
  groverDiffusion degree = Ok g ->
  QuantumWalk_alloc T degree cs
  = (Ok tt, if (length cs =? 0) || (length cs =? T) then cs ++ repeat g T else cs).
Proof.
  intros Hg. unfold QuantumWalk_alloc, bind at 1, get_state.
  destruct ((length cs =? 0) || (length cs =? T)); [|reflexivity].
  rewrite Hg, forM_append_coin. now rewrite length_seq.
Qed.

Lemma QuantumWalk_alloc_degree_zero (T : nat) (cs : list (list (list R))) :
  0 < T -> length cs = 0 \/ length cs = T ->
  QuantumWalk_alloc T 0 cs = (Raise ZeroDivisionError, cs).
Proof.
  intros HT Hlen. unfold QuantumWalk_alloc, bind at 1, get_state.
  replace ((length cs =? 0) || (length cs =? T)) with true.
  2:{ symmetry. apply orb_true_iff. destruct Hlen as [->| ->];
        [left|right]; apply Nat.eqb_refl. }
  destruct T as [|T']; [lia|]. reflexivity.
Qed.

(** X2: the walk layer creates coins at most twice.  The first call creates
    [time_steps] coins for its degree, the second call appends [time_steps]
    more for its own degree, and from then on (more generally whenever the
    number of coins is neither 0 nor [time_steps]) no coin is created, whatever
    the degree asked for.  With degree 0 the allocation raises the division
    by zero of [groverDiffusion] and leaves the coins as they were. *)
Theorem QuantumWalk_alloc_at_most_twice (T d1 d2 d3 : nat) :
  0 < T -> 0 < d1 -> 0 < d2 -> 0 < d3 ->
  exists g1 g2,
    groverDiffusion d1 = Ok g1 /\ groverDiffusion d2 = Ok g2 /\
    QuantumWalk_alloc T d1 [] = (Ok tt, repeat g1 T) /\
    QuantumWalk_alloc T d2 (repeat g1 T) = (Ok tt, repeat g1 T ++ repeat g2 T) /\
    QuantumWalk_alloc T d3 (repeat g1 T ++ repeat g2 T)
    = (Ok tt, repeat g1 T ++ repeat g2 T) /\
    (forall cs, length cs <> 0 -> length cs <> T ->
       QuantumWalk_alloc T d3 cs = (Ok tt, cs)) /\
    (forall cs, length cs = 0 \/ length cs = T ->
       QuantumWalk_alloc T 0 cs = (Raise ZeroDivisionError, cs)).
Proof.
  intros HT H1 H2 H3.
  pose proof (groverDiffusion_rows H1) as Hg1.
  pose proof (groverDiffusion_rows H2) as Hg2.
  pose proof (groverDiffusion_rows H3) as Hg3.
  set (g1 := map (grover_row d1) (seq 0 d1)) in *.
  set (g2 := map (grover_row d2) (seq 0 d2)) in *.
  exists g1, g2. split; [exact Hg1|]. split; [exact Hg2|].
  split; [|split; [|split; [|split]]].
  - now rewrite (QuantumWalk_alloc_ok T [] Hg1).
  - rewrite (QuantumWalk_alloc_ok T (repeat g1 T) Hg2).
    now rewrite repeat_length, Nat.eqb_refl, orb_true_r.
  - rewrite (QuantumWalk_alloc_ok T (repeat g1 T ++ repeat g2 T) Hg3).
    rewrite length_app, !repeat_length.
    destruct (Nat.eqb_spec (T + T) 0); [lia|].
    destruct (Nat.eqb_spec (T + T) T); [lia|]. reflexivity.
  - intros cs Hc0 HcT. rewrite (QuantumWalk_alloc_ok T cs Hg3).
    destruct (Nat.eqb_spec (length cs) 0); [contradiction|].
    destruct (Nat.eqb_spec (length cs) T); [contradiction|]. reflexivity.
  - intros cs Hlen. now apply QuantumWalk_alloc_degree_zero.
Qed.

(** Four time steps and the degrees 1, 2 and 3. *)
Lemma QuantumWalk_alloc_at_most_twice_witness :
  exists g1 g2,
    QuantumWalk_alloc 4 1 [] = (Ok tt, repeat g1 4) /\
    QuantumWalk_alloc 4 2 (repeat g1 4) = (Ok tt, repeat g1 4 ++ repeat g2 4) /\
    QuantumWalk_alloc 4 3 (repeat g1 4 ++ repeat g2 4)
    = (Ok tt, repeat g1 4 ++ repeat g2 4).
Proof.
  destruct (@QuantumWalk_alloc_at_most_twice 4 1 2 3) as [g1 [g2 Hall]]; try lia.
  exists g1, g2. destruct Hall as [_ [_ [H1 [H2 [H3 _]]]]].
  split; [exact H1|]. split; [exact H2|exact H3].
Defined.

Lemma chunks_nth {A} (k n c : nat) (l : list A) :
  c < n -> nth c (chunks k n l) [] = firstn k (skipn (c * k) l).
Proof.
  revert c l. induction n as [|n IH]; intros c l Hc; [lia|].
  destruct c as [|c]; simpl; [reflexivity|].
  rewrite IH by lia. now rewrite skipn_skipn, Nat.add_comm.
Qed.

Lemma chunks_full_length {A} (k n : nat) (l : list A) :
  length l = n * k -> Forall (fun c => length c = k) (chunks k n l).
Proof.
  revert l. induction n as [|n IH]; intros l Hl; simpl; constructor.
  - rewrite length_firstn. simpl in Hl. lia.
  - apply IH. rewrite length_skipn. simpl in Hl. lia.
Qed.

Lemma chunks_In {A} (k n : nat) (l c : list A) (x : A) :
  In c (chunks k n l) -> In x c -> In x l.
Proof.
  revert l. induction n as [|n IH]; intros l Hc Hx; simpl in Hc; [contradiction|].
  destruct Hc as [<-|Hc].
  - now apply In_firstn in Hx.
  - specialize (IH _ Hc Hx). clear -IH. revert l IH.
    induction k as [|k IHk]; intros l Hin; [exact Hin|].
    destruct l as [|a l]; [exact Hin|]. right. now apply IHk.
Qed.

Lemma isin_length (xs row : list nat) : length (isin xs row) = length xs.
Proof. unfold isin. now rewrite length_map. Qed.

Lemma isin_binary (xs row : list nat) : Forall (fun v => v <= 1) (isin xs row).
Proof.
  unfold isin. apply Forall_forall. intros v Hv. apply in_map_iff in Hv.
  destruct Hv as [x [<- _]]. destruct (existsb _ _); lia.
Qed.

(** The rows of the adjacency as [adj[i].data] reads them. *)
Lemma adj_row_data_ok (adj : adjacency) (i : nat) :
  i < length (adj_rows adj) ->
  exists data, adj_row_data adj i = Ok data.
Proof.
  intros Hi. unfold adj_row_data. rewrite (getitem_ok [] Hi). simpl. eauto.
Qed.

Lemma local_graph_ok (adj : adjacency) (gs : nat) (ids : list nat) :
  length ids = gs -> Forall (fun i => i < length (adj_rows adj)) ids ->
  exists g, local_graph adj gs ids = Ok g /\
    has_shape gs gs g /\
    Forall (Forall (fun v => v <= 1)) g /\
    forall i j, i < gs -> j < gs ->
      exists data, adj_row_data adj (nth i ids 0) = Ok data /\
        nth j (nth i g []) 0
        = if existsb (Nat.eqb (nth j ids 0)) data then 1 else 0.
Proof.
  intros Hlen Hids. unfold local_graph.
  assert (Hrow : forall id, id < length (adj_rows adj) ->
            exists data, adj_row_data adj id = Ok data /\
              (data <- adj_row_data adj id ;; assign_row gs (isin ids data))
              = Ok (isin ids data)).
  { intros id Hid. destruct (adj_row_data_ok Hid) as [data Hd].
    exists data. split; [exact Hd|]. rewrite Hd. simpl.
    unfold assign_row. now rewrite isin_length, Hlen, Nat.eqb_refl. }
  set (datum := fun id => match adj_row_data adj id with Ok d => d | Raise _ => [] end).
  rewrite (mapM_ok (g:=fun id => isin ids (datum id))).
  2:{ eapply Forall_impl; [|exact Hids]. intros id Hid. cbv beta.
      destruct (Hrow id Hid) as [data [Hd Heq]]. rewrite Heq.
      unfold datum. now rewrite Hd. }
  cbn [rbind]. rewrite Hlen, Nat.sub_diag. cbn [repeat]. rewrite app_nil_r.
  eexists. split; [reflexivity|]. split; [|split].
  - split; [now rewrite length_map|].
    apply Forall_forall. intros row Hrow'. apply in_map_iff in Hrow'.
    destruct Hrow' as [id [<- _]]. now rewrite isin_length.
  - apply Forall_forall. intros row Hrow'. apply in_map_iff in Hrow'.
    destruct Hrow' as [id [<- _]]. apply isin_binary.
  - intros i j Hi Hj.
    assert (Hin : nth i ids 0 < length (adj_rows adj)).
    { rewrite Forall_forall in Hids. apply Hids, nth_In. lia. }
    destruct (Hrow _ Hin) as [data [Hd _]]. exists data. split; [exact Hd|].
    rewrite (@nth_map_in nat (list nat) (fun id => isin ids (datum id)) ids i 0 [])
      by lia.
    unfold datum. rewrite Hd. unfold isin.
    rewrite (@nth_map_in nat nat _ ids j 0 0) by lia. reflexivity.
Qed.

Lemma set_item_middle {A} (pre post : list A) (old v : A) :
  set_item (pre ++ old :: post) (length pre) v = Ok (pre ++ v :: post).
Proof.
  unfold set_item.
  assert (Hlt : length pre < length (pre ++ old :: post))
    by (rewrite length_app; simpl; lia).
  apply Nat.ltb_lt in Hlt. rewrite Hlt.
  rewrite firstn_app, firstn_all, Nat.sub_diag, firstn_0, app_nil_r.
  replace (S (length pre)) with (1 + length pre) by lia.
  rewrite <- skipn_skipn, skipn_app, skipn_all, Nat.sub_diag. reflexivity.
Qed.

Lemma fill_graphs_ok (adj : adjacency) (gs : nat) (cs : list (list nat)) :
  forall (locals pre mid post : list (list (list nat))),
    mapM (local_graph adj gs) cs = Ok locals -> length mid = length cs ->
    fill_graphs adj gs cs (length pre) (pre ++ mid ++ post) = Ok (pre ++ locals ++ post).
Proof.
  induction cs as [|x cs IH]; intros locals pre mid post Hloc Hmid; simpl in *.
  - inversion Hloc; subst. destruct mid; [reflexivity|discriminate].
  - destruct (local_graph adj gs x) as [g|e]; [|discriminate]. simpl in *.
    destruct (mapM (local_graph adj gs) cs) as [ls|e] eqn:Els; [|discriminate].
    simpl in Hloc. inversion Hloc; subst locals.
    destruct mid as [|m mid]; [discriminate|]. simpl.
    rewrite set_item_middle. simpl.
    specialize (IH ls (pre ++ [g]) mid post eq_refl).
    rewrite length_app in IH. simpl in IH.
    replace (length pre + 1) with (S (length pre)) in IH by lia.
    rewrite <- !app_assoc in IH. simpl in IH. apply IH. simpl in Hmid. lia.
Qed.

Lemma list_sum_binary (row : list nat) :
  Forall (fun v => v <= 1) row -> list_sum row <= length row.
Proof. induction 1 as [|v row Hv _ IH]; simpl; lia. Qed.

Lemma max_row_sum_upper (g : list (list nat)) (b : nat) :
  Forall (fun row => list_sum row <= b) g -> max_row_sum g <= b.
Proof.
  unfold max_row_sum. induction 1 as [|row g Hrow _ IH]; simpl; lia.
Qed.

Lemma max_degree_upper (graphs : list (list (list nat))) (b : nat) :
  Forall (fun g => max_row_sum g <= b) graphs -> max_degree graphs <= b.
Proof.
  unfold max_degree. intros Hall.
  assert (Hgen : forall d0, d0 <= b ->
            fold_left (fun degree g => let d := max_row_sum g in
                                       if degree <? d then d else degree) graphs d0 <= b).
  { induction Hall as [|g graphs Hg _ IH]; intros d0 Hd0; simpl; [exact Hd0|].
    apply IH. destruct (d0 <? max_row_sum g); assumption. }
  apply Hgen. lia.
Qed.

Lemma init_amps_node_shape (gs degree j : nat) (row : list nat) :
  has_shape degree gs (init_amps_node gs degree j row).
Proof.
  unfold init_amps_node. destruct (list_sum row =? 0).
  - split; [apply repeat_length|]. apply Forall_forall. intros r Hr.
    apply repeat_spec in Hr. subst. apply repeat_length.
  - split; [now rewrite length_map, length_seq|].
    apply Forall_forall. intros r Hr. apply in_map_iff in Hr.
    destruct Hr as [s [<- _]]. now rewrite length_map, length_seq.
Qed.

Lemma init_amps_graph_shape (degree : nat) (g : list (list nat)) :
  length (init_amps_graph degree g) = length g /\
  Forall (has_shape degree (length g)) (init_amps_graph degree g).
Proof.
  unfold init_amps_graph. split.
  - rewrite length_map, length_combine, length_seq. lia.
  - apply Forall_forall. intros a Ha. apply in_map_iff in Ha.
    destruct Ha as [jr [<- _]]. apply init_amps_node_shape.
Qed.

Lemma div_round_up_exact (B gs : nat) : 0 < gs -> (B * gs + gs - 1) / gs = B.
Proof.
  intros Hgs. replace (B * gs + gs - 1) with (B * gs + (gs - 1)) by lia.
  rewrite Nat.div_add_l by lia. rewrite Nat.div_small by lia. lia.
Qed.

Lemma GenerateQuantumWalkGraphs_run (adj : adjacency) (tmp : list nat) (B gs : nat) :
  0 < gs -> length tmp = B * gs ->
  Forall (fun i => i < length (adj_rows adj)) tmp ->
  exists graphs,
    GenerateQuantumWalkGraphs adj tmp B gs
    = Ok (map (init_amps_graph (max_degree graphs)) graphs, graphs, max_degree graphs) /\
    length graphs = B /\
    forall c, c < B ->
      has_shape gs gs (nth c graphs []) /\
      Forall (Forall (fun v => v <= 1)) (nth c graphs []) /\
      forall i j, i < gs -> j < gs ->
        exists data, adj_row_data adj (nth (c * gs + i) tmp 0) = Ok data /\
          nth j (nth i (nth c graphs []) []) 0
          = if existsb (Nat.eqb (nth (c * gs + j) tmp 0)) data then 1 else 0.
Proof.
  intros Hgs Hlen Hids. unfold GenerateQuantumWalkGraphs.
  destruct (Nat.eqb_spec gs 0); [lia|]. cbn [negb].
  rewrite Hlen, (div_round_up_exact B Hgs).
  set (cs := chunks gs B tmp).
  assert (Hcs_len : length cs = B) by apply chunks_length.
  assert (Hcs_full : Forall (fun c => length c = gs) cs)
    by now apply chunks_full_length.
  assert (Hlocal : Forall (fun c => exists g, local_graph adj gs c = Ok g /\
              has_shape gs gs g /\ Forall (Forall (fun v => v <= 1)) g /\
              forall i j, i < gs -> j < gs ->
                exists data, adj_row_data adj (nth i c 0) = Ok data /\
                  nth j (nth i g []) 0
                  = if existsb (Nat.eqb (nth j c 0)) data then 1 else 0) cs).
  { apply Forall_forall. intros c Hc. apply local_graph_ok.
    - rewrite Forall_forall in Hcs_full. now apply Hcs_full.
    - apply Forall_forall. intros x Hx. rewrite Forall_forall in Hids.
      apply Hids. exact (chunks_In Hc Hx). }
  set (loc := fun c => match local_graph adj gs c with Ok g => g | Raise _ => [] end).
  assert (HmapM : mapM (local_graph adj gs) cs = Ok (map loc cs)).
  { apply mapM_ok. eapply Forall_impl; [|exact Hlocal].
    intros c [g [Hg _]]. unfold loc. now rewrite Hg. }
  pose proof (@fill_graphs_ok adj gs cs (map loc cs) []
                (repeat (repeat (repeat 0 gs) gs) B) [] HmapM) as Hfill.
  simpl in Hfill. rewrite !app_nil_r in Hfill.
  rewrite Hfill by (now rewrite repeat_length). cbn [rbind].
  exists (map loc cs). split; [reflexivity|]. split; [now rewrite length_map|].
  intros c Hc.
  rewrite (@nth_map_in (list nat) (list (list nat)) loc cs c [] []) by lia.
  assert (Hin : In (nth c cs []) cs) by (apply nth_In; lia).
  rewrite Forall_forall in Hlocal. destruct (Hlocal _ Hin) as [g [Hg [Hsh [Hbin Hent]]]].
  unfold loc. rewrite Hg. split; [exact Hsh|]. split; [exact Hbin|].
  intros i j Hi Hj. destruct (Hent i j Hi Hj) as [data [Hd He]].
  exists data. unfold cs in Hd, He. rewrite (chunks_nth gs tmp Hc) in Hd, He.
  assert (Hnth : forall x, x < gs ->
            nth x (firstn gs (skipn (c * gs) tmp)) 0 = nth (c * gs + x) tmp 0).
  { intros x Hx. rewrite nth_firstn.
    destruct (Nat.ltb_spec x gs); [|lia]. now rewrite nth_skipn. }
  rewrite (Hnth i Hi) in Hd. rewrite (Hnth j Hj) in He. now split.
Qed.

Lemma binary_rows_sum (B gs : nat) (graphs : list (list (list nat))) :
  length graphs = B ->
  (forall c, c < B -> has_shape gs gs (nth c graphs []) /\
                      Forall (Forall (fun v => v <= 1)) (nth c graphs [])) ->
  forall c i, c < B -> i < gs ->
    list_sum (nth i (nth c graphs []) []) <= gs /\
    list_sum (nth i (nth c graphs []) []) <= max_degree graphs.
Proof.
  intros Hlen Heach c i Hc Hi. destruct (Heach c Hc) as [[Hl Hw] Hbin].
  assert (Hin : In (nth i (nth c graphs []) []) (nth c graphs []))
    by (apply nth_In; lia).
  split.
  - rewrite Forall_forall in Hbin, Hw.
    rewrite <- (Hw _ Hin). apply list_sum_binary. now apply Hbin.
  - etransitivity; [apply max_row_sum_bound|apply max_degree_bound];
      [exact Hin|apply nth_In; lia].
Qed.

Lemma binary_graphs_record (B gs : nat) (graphs : list (list (list nat))) :
  length graphs = B ->
  (forall c, c < B -> has_shape gs gs (nth c graphs []) /\
                      Forall (Forall (fun v => v <= 1)) (nth c graphs [])) ->
  walk_record_ok B gs (map (init_amps_graph (max_degree graphs)) graphs) graphs
                 (max_degree graphs).
Proof.
  intros Hlen Heach.
  assert (Hall_shape : Forall (has_shape gs gs) graphs).
  { apply Forall_forall. intros g Hg. destruct (In_nth _ _ [] Hg) as [c [Hc <-]].
    apply Heach. lia. }
  split; [exact Hlen|]. split; [exact Hall_shape|]. split; [|split].
  - apply max_degree_upper. apply Forall_forall. intros g Hg.
    destruct (In_nth _ _ [] Hg) as [c [Hc <-]]. rewrite Hlen in Hc.
    apply max_row_sum_upper. apply Forall_forall. intros row Hrow.
    destruct (In_nth _ _ [] Hrow) as [i [Hi <-]].
    destruct (Heach c Hc) as [[Hl _] _]. rewrite Hl in Hi.
    now apply (binary_rows_sum Hlen Heach).
  - now rewrite length_map.
  - apply Forall_forall. intros a Ha. apply in_map_iff in Ha.
    destruct Ha as [g [<- Hg]].
    rewrite Forall_forall in Hall_shape. destruct (Hall_shape g Hg) as [Hl _].
    destruct (init_amps_graph_shape (max_degree graphs) g) as [Hal Has].
    rewrite Hl in Hal, Has. now split.
Qed.

(** X3: on [batch_size * graph_size] sampled ids that are rows of the
    adjacency, [GenerateQuantumWalkGraphs] returns [batch_size] local graphs
    of shape [(graph_size, graph_size)]: entry [(i, j)] of graph [c] is 1 if
    the [j]-th id of chunk [c] is listed in the adjacency row of its [i]-th
    id and 0 otherwise.  The returned degree is at most [graph_size] and
    bounds the degree of every node, and the amplitudes have shape
    [(batch_size, graph_size, degree, graph_size)]. *)
Theorem GenerateQuantumWalkGraphs_local_graphs
    (adj : adjacency) (tmp : list nat) (B gs : nat) :
  0 < gs -> length tmp = B * gs ->
  Forall (fun i => i < length (adj_rows adj)) tmp ->
  exists amps graphs degree,
    GenerateQuantumWalkGraphs adj tmp B gs = Ok (amps, graphs, degree) /\
    length graphs = B /\ Forall (has_shape gs gs) graphs /\
    (forall c i j, c < B -> i < gs -> j < gs ->
       exists data, adj_row_data adj (nth (c * gs + i) tmp 0) = Ok data /\
         nth j (nth i (nth c graphs []) []) 0
         = if existsb (Nat.eqb (nth (c * gs + j) tmp 0)) data then 1 else 0) /\
    degree <= gs /\
    (forall c i, c < B -> i < gs -> list_sum (nth i (nth c graphs []) []) <= degree) /\
    length amps = B /\
    Forall (fun a => length a = gs /\ Forall (has_shape degree gs) a) amps.
Proof.
  intros Hgs Hlen Hids.
  destruct (GenerateQuantumWalkGraphs_run Hgs Hlen Hids) as [graphs [Hrun [Hl Heach]]].
  assert (Heach' : forall c, c < B ->
            has_shape gs gs (nth c graphs []) /\
            Forall (Forall (fun v => v <= 1)) (nth c graphs [])).
  { intros c Hc. destruct (Heach c Hc) as [Hs [Hb _]]. now split. }
  destruct (binary_graphs_record Hl Heach') as [_ [Hshape [Hdeg [Hal Has]]]].
  exists (map (init_amps_graph (max_degree graphs)) graphs), graphs, (max_degree graphs).
  split; [exact Hrun|]. split; [exact Hl|]. split; [exact Hshape|].
  split; [intros c i j Hc Hi Hj; now apply Heach|].
  split; [exact Hdeg|]. split; [|split; assumption].
  intros c i Hc Hi. now apply (binary_rows_sum Hl Heach').
Qed.

(** Two sampled ids of a triangle: one local graph with a single edge. *)
Lemma GenerateQuantumWalkGraphs_local_graphs_witness :
  exists amps graphs degree,
    GenerateQuantumWalkGraphs (DenseAdj [[1; 2]; [0; 2]; [0; 1]]) [1; 2] 1 2
    = Ok (amps, graphs, degree) /\
    length graphs = 1 /\ Forall (has_shape 2 2) graphs /\ degree <= 2.
Proof.
  destruct (@GenerateQuantumWalkGraphs_local_graphs
              (DenseAdj [[1; 2]; [0; 2]; [0; 1]]) [1; 2] 1 2)
    as [amps [graphs [degree [Hg [Hl [Hs [_ [Hd _]]]]]]]].
  - lia.
  - reflexivity.
  - repeat constructor.
  - exists amps, graphs, degree.
    split; [exact Hg|]. split; [exact Hl|]. split; [exact Hs|exact Hd].
Defined.

Section DenseSamplerMore.
Context {rng : Type} `{RandomSource rng}.

Lemma slice_to_length {A} (n : Z) (l : list A) :
  length (slice_to n l)
  = if (n <? 0)%Z then length l - Z.to_nat (- n) else Nat.min (Z.to_nat n) (length l).
Proof.
  unfold slice_to. destruct (n <? 0)%Z; rewrite length_firstn; lia.
Qed.

Lemma map_nth_seq_id {A} (row : list A) (d : A) :
  map (fun c => nth c row d) (seq 0 (length row)) = row.
Proof.
  apply (nth_ext _ _ d d).
  - now rewrite length_map, length_seq.
  - intros n Hn. rewrite length_map, length_seq in Hn.
    now rewrite (nth_map_seq (fun c => nth c row d) d Hn).
Qed.

Lemma permuted_row_perm (row : list nat) (p : list nat) :
  Permutation p (seq 0 (length row)) ->
  Permutation (map (fun c => nth c row 0) p) row.
Proof.
  intros Hp.
  apply (Permutation_trans (Permutation_map (fun c => nth c row 0) Hp)).
  now rewrite map_nth_seq_id.
Qed.

(** X4: the width of what the dense sampler returns.  The rows are cut
    with Python's [[:n_samples]]: a count of at least the table width returns
    full rows without an error, a negative count drops that many columns
    from the end, and the default [n_samples=-1] returns all but one column
    of the permuted rows. *)
Theorem UniformNeighborSampler_call_width
    (t : list (list nat)) (N W : nat) (ids : list nat) (n_samples : option Z) (g : rng) :
  has_shape N W t -> Forall (fun i => i < N) ids -> ids <> [] ->
  let n := match n_samples with Some n => n | None => (-1)%Z end in
  exists rows g',
    UniformNeighborSampler_call (UniformNeighborSampler_init (DenseAdj t)) ids n_samples g
    = (Ok (T2 rows), g') /\
    has_shape (length ids)
              (if (n <? 0)%Z then W - Z.to_nat (- n) else Nat.min (Z.to_nat n) W) rows /\
    (n_samples = None -> has_shape (length ids) (W - 1) rows).
Proof.
  intros Hshape Hids Hne n.
  pose proof (UniformNeighborSampler_call_permuted_rows n_samples g Hshape Hids) as Hcall.
  cbv zeta in Hcall. destruct ids as [|i0 ids']; [contradiction|].
  set (ids := i0 :: ids') in *. fold n in Hcall.
  eexists. eexists. split; [exact Hcall|].
  assert (Hw : has_shape (length ids)
                 (if (n <? 0)%Z then W - Z.to_nat (- n) else Nat.min (Z.to_nat n) W)
                 (map (fun i => slice_to n (map (fun c => nth c (nth i t []) 0)
                                                (fst (randperm W g)))) ids)).
  { split; [now rewrite length_map|].
    apply Forall_forall. intros row Hrow. apply in_map_iff in Hrow.
    destruct Hrow as [i [<- _]].
    now rewrite slice_to_length, permuted_row_length. }
  split; [exact Hw|].
  intros ->. unfold n in Hw. exact Hw.
Qed.

(** X5: the dense sampler samples the columns of a row without
    replacement: for [k <= width] every returned row is the first [k]
    entries of a rearrangement of that node's row of the table, and for
    [k = width] it is a rearrangement of the whole row. *)
Theorem UniformNeighborSampler_call_without_replacement
    (t : list (list nat)) (N W : nat) (ids : list nat) (k : nat) (g : rng) :
  has_shape N W t -> Forall (fun i => i < N) ids -> ids <> [] -> k <= W ->
  exists rows g',
    UniformNeighborSampler_call (UniformNeighborSampler_init (DenseAdj t)) ids
                                (Some (Z.of_nat k)) g
    = (Ok (T2 rows), g') /\
    length rows = length ids /\
    forall i, i < length ids ->
      exists shuffled,
        Permutation shuffled (nth (nth i ids 0) t []) /\
        nth i rows [] = firstn k shuffled /\
        length (nth i rows []) = k /\
        (k = W -> Permutation (nth i rows []) (nth (nth i ids 0) t [])).
Proof.
  intros Hshape Hids Hne Hk.
  pose proof (UniformNeighborSampler_call_permuted_rows (Some (Z.of_nat k)) g Hshape Hids)
    as Hcall.
  cbv zeta in Hcall. destruct ids as [|i0 ids']; [contradiction|].
  set (ids := i0 :: ids') in *.
  eexists. eexists. split; [exact Hcall|]. split; [now rewrite length_map|].
  intros i Hi.
  set (f := fun i => slice_to (Z.of_nat k)
                       (map (fun c => nth c (nth i t []) 0) (fst (randperm W g)))).
  rewrite (@nth_map_in nat (list nat) f ids i 0 []) by exact Hi. unfold f.
  assert (Hin : nth i ids 0 < N).
  { rewrite Forall_forall in Hids. apply Hids, nth_In. exact Hi. }
  pose proof (has_shape_nth Hshape Hin) as Hrowlen.
  assert (Hperm : Permutation (map (fun c => nth c (nth (nth i ids 0) t []) 0)
                                   (fst (randperm W g)))
                              (nth (nth i ids 0) t [])).
  { apply permuted_row_perm. rewrite Hrowlen. apply randperm_perm. }
  eexists. split; [exact Hperm|]. rewrite slice_to_firstn.
  split; [reflexivity|]. split.
  - rewrite length_firstn, permuted_row_length. lia.
  - intros ->. rewrite firstn_all2; [exact Hperm|].
    rewrite permuted_row_length. lia.
Qed.

Lemma mapM_raise {A B} (f : A -> result B) (e : exn) (l : list A) :
  Forall (fun a => is_ok (f a) = true \/ f a = Raise e) l ->
  Exists (fun a => f a = Raise e) l ->
  mapM f l = Raise e.
Proof.
  induction 1 as [|a l Ha Hl IH]; intros Hex; [inversion Hex|].
  simpl. destruct Ha as [Ha|Ha].
  - destruct (f a) as [b|e'] eqn:Ef; [|discriminate]. simpl.
    inversion Hex as [? ? Hhd|? ? Htl]; subst; [congruence|].
    now rewrite (IH Htl).
  - now rewrite Ha.
Qed.

Lemma index_select_raise {A} (t : list A) (ids : list nat) :
  Exists (fun i => length t <= i) ids -> index_select t ids = Raise IndexError.
Proof.
  intros Hex. unfold index_select. apply mapM_raise.
  - apply Forall_forall. intros i _. unfold getitem.
    destruct (nth_error t i); [now left|now right].
  - eapply Exists_impl; [|exact Hex]. intros i Hi. now apply getitem_raise.
Qed.

(** X6: an id that is not a row of the table makes the dense sampler raise
    at the lookup [self.adj[ids]], before a permutation is drawn: the
    generator is left as it was. *)
Theorem UniformNeighborSampler_call_index_error
    (t : list (list nat)) (ids : list nat) (n_samples : option Z) (g : rng) :
  Exists (fun i => length t <= i) ids ->
  UniformNeighborSampler_call (UniformNeighborSampler_init (DenseAdj t)) ids n_samples g
  = (Raise IndexError, g).
Proof.
  intros Hex. unfold UniformNeighborSampler_call, UniformNeighborSampler_init.
  cbn [uns_adj adj_rows]. unfold bind at 1. unfold lift.
  now rewrite (index_select_raise Hex).
Qed.

End DenseSamplerMore.

(** The dense sampler on a three-node table, sample count left out. *)
Lemma UniformNeighborSampler_call_width_witness :
  exists rows g',
    UniformNeighborSampler_call (UniformNeighborSampler_init
                                   (DenseAdj [[1; 2]; [0; 2]; [0; 1]])) [0; 2] None 1
    = (Ok (T2 rows), g') /\
    has_shape 2 1 rows.
Proof.
  destruct (@UniformNeighborSampler_call_width nat rot_source
              [[1; 2]; [0; 2]; [0; 1]] 3 2 [0; 2] None 1)
    as [rows [g' [Hcall [_ Hdef]]]].
  - split; [reflexivity|]. repeat constructor.
  - repeat constructor.
  - discriminate.
  - exists rows, g'. split; [exact Hcall|]. now apply Hdef.
Defined.

(** The same table sampled at full width. *)
Lemma UniformNeighborSampler_call_without_replacement_witness :
  exists rows g',
    UniformNeighborSampler_call (UniformNeighborSampler_init
                                   (DenseAdj [[1; 2]; [0; 2]; [0; 1]]))
                                [0; 2] (Some 2%Z) 1
    = (Ok (T2 rows), g') /\
    Permutation (nth 0 rows []) [1; 2] /\ Permutation (nth 1 rows []) [0; 1].
Proof.
  destruct (@UniformNeighborSampler_call_without_replacement nat rot_source
              [[1; 2]; [0; 2]; [0; 1]] 3 2 [0; 2] 2 1)
    as [rows [g' [Hcall [_ Hrows]]]].
  - split; [reflexivity|]. repeat constructor.
  - repeat constructor.
  - discriminate.
  - lia.
  - exists rows, g'. split; [exact Hcall|]. split.
    + destruct (Hrows 0) as [s [_ [_ [_ Hp]]]]; [simpl; lia|]. now apply Hp.
    + destruct (Hrows 1) as [s [_ [_ [_ Hp]]]]; [simpl; lia|]. now apply Hp.
Defined.

(** Node 3 is not in a table of three nodes. *)
Lemma UniformNeighborSampler_call_index_error_witness :
  UniformNeighborSampler_call (UniformNeighborSampler_init
                                 (DenseAdj [[1; 2]; [0; 2]; [0; 1]])) [0; 3] (Some 1%Z) 5
  = (Raise IndexError, 5).
Proof.
  apply (@UniformNeighborSampler_call_index_error nat rot_source).
  apply Exists_cons_tl, Exists_cons_hd. simpl. lia.
Defined.

Section SparseSamplerMore.
Context {rng : Type} `{RandomSource rng}.

Lemma filter_nonzero_packed (nz : list nat) (z : nat) :
  Forall (fun v => v <> 0) nz ->
  filter (fun x => negb (x =? 0)) (nz ++ repeat 0 z) = nz.
Proof.
  intros Hnz. rewrite filter_app.
  assert (Hz : filter (fun x => negb (x =? 0)) (repeat 0 z) = []).
  { induction z as [|z IH]; simpl; [reflexivity|exact IH]. }
  rewrite Hz, app_nil_r.
  induction Hnz as [|v nz Hv _ IH]; simpl; [reflexivity|].
  destruct (Nat.eqb_spec v 0); [contradiction|]. simpl. now rewrite IH.
Qed.

Lemma filter_nonzero_nil (row : list nat) :
  filter (fun x => negb (x =? 0)) row = [] -> Forall (fun v => v = 0) row.
Proof.
  induction row as [|v row IH]; simpl; intros Hf; [constructor|].
  destruct (Nat.eqb_spec v 0) as [->|Hv]; simpl in Hf; [|discriminate].
  constructor; [reflexivity|now apply IH].
Qed.

Lemma nth_combine {A B} (l : list A) (l' : list B) (i : nat) (a : A) (b : B) :
  i < length l -> i < length l' -> nth i (combine l l') (a, b) = (nth i l a, nth i l' b).
Proof.
  revert l' i. induction l as [|x l IH]; intros [|y l'] [|i] Hl Hl'; simpl in *;
    try lia; [reflexivity|]. apply IH; lia.
Qed.

(** X7: the sparse sampler returns [n_samples] values per id, read from
    the id's own row at a random column reduced modulo the row's degree.  A
    node without stored neighbours gets the dummy id 0 only (the modulus by
    a degree of zero gives column 0, no exception); for a row that keeps its
    neighbours in its first columns every value is one of those
    neighbours. *)
Theorem SparseUniformNeighborSampler_call_neighbours
    (N W : nat) (m : list (list nat)) (k : Z) (ids : list nat) (g : rng) :
  0 < N -> 0 < W -> has_shape N W m -> (1 <= k)%Z -> Forall (fun i => i < N) ids ->
  exists s vals g',
    SparseUniformNeighborSampler_init (SparseAdj m) = Ok s /\
    SparseUniformNeighborSampler_call s ids (Some k) g
    = (Ok (squeeze2 [concat vals]), g') /\
    has_shape (length ids) (Z.to_nat k) vals /\
    forall i, i < length ids ->
      let row := nth (nth i ids 0) m [] in
      (filter (fun x => negb (x =? 0)) row = [] ->
       Forall (fun v => v = 0) (nth i vals [])) /\
      (forall nz, nz <> [] -> Forall (fun v => v <> 0) nz ->
         row = nz ++ repeat 0 (W - length nz) ->
         Forall (fun v => In v nz) (nth i vals [])).
Proof.
  intros HN HW Hshape Hk Hids.
  assert (Hlen : length m = N) by apply Hshape.
  pose proof (proj1 (Forall_forall _ _) Hids) as Hids'.
  set (degrees := map (fun row => length (filter (fun x => negb (x =? 0)) row)) m).
  assert (Hdegs : index_select degrees ids = Ok (map (fun i => nth i degrees 0) ids)).
  { apply index_select_ok. unfold degrees. now rewrite length_map, Hlen. }
  pose proof (random_choice_shape W (length ids) (Z.to_nat k) g) as Hsel.
  destruct (random_choice W (length ids) (Z.to_nat k) g) as [sel g'] eqn:Esel.
  cbn [fst] in Hsel.
  set (tmp := map (fun i => nth i m []) ids).
  set (degs := map (fun i => nth i degrees 0) ids).
  set (sel' := map (fun p => map (fun c => np_mod c (snd p)) (fst p)) (combine sel degs)).
  set (pick := fun p : list nat * list nat => map (fun c => nth c (fst p) 0) (snd p)).
  assert (Hdeg_le : forall i, In i ids -> nth i degrees 0 <= W).
  { intros i Hi. unfold degrees.
    rewrite (@nth_map_in _ _ _ m i [] 0) by (rewrite Hlen; now apply Hids').
    rewrite <- (has_shape_nth Hshape (Hids' i Hi)). apply nonzero_count_le. }
  assert (Hvals : mapM (fun p => index_select (fst p) (snd p)) (combine tmp sel')
                  = Ok (map pick (combine tmp sel'))).
  { apply mapM_ok. apply Forall_forall. intros [row cols] Hp. cbn [fst snd].
    assert (Hrow : In row tmp) by (eapply in_combine_l; eassumption).
    assert (Hcols : In cols sel') by (eapply in_combine_r; eassumption).
    apply in_map_iff in Hrow. destruct Hrow as [i [<- Hi]].
    apply in_map_iff in Hcols. destruct Hcols as [[srow dg] [<- Hsd]]. cbn [fst snd].
    assert (Hdg : In dg degs) by (eapply in_combine_r; eassumption).
    apply in_map_iff in Hdg. destruct Hdg as [i' [<- Hi']].
    apply (@index_select_ok nat (nth i m []) _ 0).
    rewrite (has_shape_nth Hshape (Hids' i Hi)).
    apply Forall_forall. intros c Hc. apply in_map_iff in Hc.
    destruct Hc as [c0 [<- _]]. unfold np_mod.
    destruct (Nat.eqb_spec (nth i' degrees 0) 0); [lia|].
    pose proof (Nat.mod_upper_bound c0 (nth i' degrees 0)).
    pose proof (Hdeg_le i' Hi'). lia. }
  exists {| suns_adj := m; suns_degrees := degrees |}, (map pick (combine tmp sel')), g'.
  split; [reflexivity|].
  unfold SparseUniformNeighborSampler_call. cbn [suns_adj suns_degrees].
  destruct (Z.ltb_spec 0 k) as [_|]; [|lia]. cbn [negb].
  unfold bind, lift.
  rewrite (index_select_ok (t:=m) (ids:=ids) []) by now rewrite Hlen.
  rewrite (has_shape_size1 Hshape HN).
  unfold draw_choice. destruct (Nat.eqb_spec W 0); [lia|].
  rewrite Esel, Hdegs. fold tmp degs sel'.
  rewrite Hvals. unfold ret. cbn [squeeze]. split; [reflexivity|].
  assert (Lsel' : length sel' = length ids).
  { unfold sel', degs. rewrite length_map, length_combine, length_map, (proj1 Hsel). lia. }
  assert (Ltmp : length tmp = length ids) by (unfold tmp; now rewrite length_map).
  assert (Lcomb : length (combine tmp sel') = length ids)
    by (rewrite length_combine; lia).
  assert (Hnth : forall i, i < length ids ->
            nth i (map pick (combine tmp sel')) []
            = map (fun c => nth (np_mod c (nth (nth i ids 0) degrees 0))
                                (nth (nth i ids 0) m []) 0)
                  (nth i sel [])).
  { intros i Hi.
    rewrite (@nth_map_in _ _ pick (combine tmp sel') i ([], []) []) by lia.
    rewrite nth_combine by lia. unfold pick. cbn [fst snd].
    unfold tmp. rewrite (@nth_map_in _ _ _ ids i 0 []) by lia.
    unfold sel'.
    rewrite (@nth_map_in _ _ _ (combine sel degs) i ([], 0) [])
      by (rewrite length_combine; unfold degs; rewrite length_map, (proj1 Hsel); lia).
    rewrite nth_combine
      by (unfold degs; rewrite ?length_map, ?(proj1 Hsel); lia).
    cbn [fst snd]. unfold degs. rewrite (@nth_map_in _ _ _ ids i 0 0) by lia.
    now rewrite map_map. }
  split.
  - split; [now rewrite length_map|].
    apply Forall_forall. intros v Hv.
    destruct (In_nth _ _ [] Hv) as [i [Hi <-]].
    rewrite length_map, Lcomb in Hi. rewrite (Hnth i Hi), length_map.
    destruct Hsel as [Hs1 Hs2]. rewrite Forall_forall in Hs2.
    apply Hs2, nth_In. lia.
  - intros i Hi. set (row := nth (nth i ids 0) m []).
    assert (Hin : In (nth i ids 0) ids) by (now apply nth_In).
    assert (Hdeg : nth (nth i ids 0) degrees 0
                   = length (filter (fun x => negb (x =? 0)) row)).
    { unfold degrees.
      now rewrite (@nth_map_in _ _ _ m (nth i ids 0) [] 0)
        by (rewrite Hlen; now apply Hids'). }
    rewrite (Hnth i Hi), Hdeg. fold row. split.
    + intros Hnil. rewrite Hnil. cbn [length]. unfold np_mod. cbn [Nat.eqb].
      apply filter_nonzero_nil in Hnil.
      apply Forall_forall. intros v Hv. apply in_map_iff in Hv.
      destruct Hv as [c [<- _]].
      assert (Hrl : 0 < length row).
      { unfold row. rewrite (has_shape_nth Hshape (Hids' _ Hin)). exact HW. }
      rewrite Forall_forall in Hnil. apply Hnil, nth_In. exact Hrl.
    + intros nz Hne Hnz Hrow. rewrite Hrow, (filter_nonzero_packed _ Hnz).
      apply Forall_forall. intros v Hv. apply in_map_iff in Hv.
      destruct Hv as [c [<- _]]. unfold np_mod.
      destruct (Nat.eqb_spec (length nz) 0) as [E|E].
      { destruct nz; [contradiction|discriminate]. }
      pose proof (Nat.mod_upper_bound c (length nz) E) as Hlt.
      rewrite app_nth1 by exact Hlt. now apply nth_In.
Qed.

End SparseSamplerMore.

(** Node 1 has the single neighbour 2, node 0 has none. *)
Lemma SparseUniformNeighborSampler_call_neighbours_witness :
  exists s vals g',
    SparseUniformNeighborSampler_init (SparseAdj [[0; 0]; [2; 0]; [1; 0]]) = Ok s /\
    SparseUniformNeighborSampler_call s [1; 0] (Some 3%Z) 0
    = (Ok (squeeze2 [concat vals]), g') /\
    Forall (fun v => In v [2]) (nth 0 vals []) /\
    Forall (fun v => v = 0) (nth 1 vals []).
Proof.
  destruct (@SparseUniformNeighborSampler_call_neighbours nat rot_source
              3 2 [[0; 0]; [2; 0]; [1; 0]] 3%Z [1; 0] 0)
    as [s [vals [g' [Hs [Hcall [_ Hvals]]]]]].
  - lia.
  - lia.
  - split; [reflexivity|]. repeat constructor.
  - lia.
  - repeat constructor.
  - exists s, vals, g'. split; [exact Hs|]. split; [exact Hcall|]. split.
    + destruct (Hvals 0) as [_ Hpacked]; [simpl; lia|].
      apply (Hpacked [2]); [discriminate|repeat constructor; lia|reflexivity].
    + destruct (Hvals 1) as [Hnone _]; [simpl; lia|]. now apply Hnone.
Defined.

Section ModuleWidths.
Context {rng : Type} `{RandomSource rng}.

(** X8: the [output_dim] a freshly built preparer announces is the width
    [forward] returns: the raw width for the identity preparer, the raw
    width plus the default embedding width 64 (64 alone without raw
    features) for the embedding preparer, the default 32 for the linear
    one. *)
Theorem prep_new_forward_width (c : prep_class) (input_dim n_nodes : nat)
    (ids : list nat) (fr : matrix) (layer_idx : nat) (g : rng) :
  Forall (fun i => i <= n_nodes) ids -> has_shape (length ids) input_dim fr ->
  exists p g' m,
    prep_new c input_dim n_nodes g = (Ok p, g') /\
    prep_output_dim p = match c with
                        | identity => input_dim
                        | node_embedding => if 0 <? input_dim then input_dim + 64 else 64
                        | linear => 32
                        end /\
    prep_forward p ids (Some fr) layer_idx = Ok (Some m) /\
    has_shape (length ids) (prep_output_dim p) m.
Proof.
  intros Hids Hfr.
  assert (Hids' : Forall (fun i => i < n_nodes + 1) ids).
  { eapply Forall_impl; [|exact Hids]. intros i Hi. cbv beta in Hi. lia. }
  destruct c; cbn [prep_new].
  - exists (PrepIdentity (IdentityPrep_init input_dim n_nodes)), g, fr.
    split; [reflexivity|]. split; [reflexivity|]. split; [reflexivity|exact Hfr].
  - destruct (NodeEmbeddingPrep_init_table input_dim n_nodes None g)
      as [p [g' [Hp [Hn [Hemb [Hfc Hin]]]]]].
    assert (Hed : nep_embedding_dim p = 64).
    { unfold NodeEmbeddingPrep_init in Hp.
      destruct (draw_tensor_ok (n_nodes + 1) 64 g) as [e [g1 [He _]]].
      rewrite (bind_ok _ He) in Hp.
      destruct (Linear_init_ok 64 64 true g1) as [l [g2 [Hl _]]].
      rewrite (bind_ok _ Hl) in Hp. inversion Hp. reflexivity. }
    destruct (@prep_forward_ok (n_nodes + 1) input_dim (PrepNodeEmbedding p) ids fr layer_idx)
      as [m [Hm Sm]]; [|exact Hids'|exact Hfr|].
    { cbn [prep_wf]. rewrite Hn. repeat split; try assumption; try apply Hemb; try apply Hfc.
      lia. }
    exists (PrepNodeEmbedding p), g', m. rewrite (bind_ok _ Hp).
    split; [reflexivity|]. split; [|split; assumption].
    cbn [prep_output_dim]. unfold NodeEmbeddingPrep_output_dim. now rewrite Hed, Hin.
  - unfold LinearPrep_init.
    destruct (Linear_init_ok input_dim 32 false g) as [l [g1 [Hl Dl]]].
    destruct (@prep_forward_ok (n_nodes + 1) input_dim
                (PrepLinear {| lp_fc := l; lp_output_dim := 32 |}) ids fr layer_idx)
      as [m [Hm Sm]]; [exact Dl|exact Hids'|exact Hfr|].
    exists (PrepLinear {| lp_fc := l; lp_output_dim := 32 |}), g1, m.
    split; [rewrite (bind_ok _ (bind_ok _ Hl)); reflexivity|].
    split; [reflexivity|]. split; assumption.
Qed.

(** X9: for each of the five aggregator classes, the [output_dim] a freshly
    built aggregator announces, twice the configured width, is the width
    [forward] returns on [B] nodes with [k] neighbours each. *)
Theorem aggregator_new_forward_width (c : aggregator_class) (d o B k : nat)
    (act : activation_t) (x neibs : matrix) (g : rng) :
  agg_inputs B k d x neibs ->
  exists a g' out,
    aggregator_new c d o act g = (Ok a, g') /\
    agg_output_dim a = Ok (2 * o) /\
    agg_forward a (Some x) (Some neibs) = Ok out /\
    has_shape B (2 * o) out.
Proof.
  intros Hin.
  destruct (aggregator_new_ok c d o act g) as [a [g' [Ha [Hwf [Ho [Hcomb _]]]]]].
  destruct (agg_forward_shape Hwf Hin) as [out [Hout Sout]].
  exists a, g', out. split; [exact Ha|]. rewrite Ho in Sout.
  split; [|split; assumption].
  unfold agg_output_dim. rewrite Hcomb, Ho. apply AggregatorMixin_output_dim_cat.
Qed.

End ModuleWidths.

(** The embedding preparer over raw features of width 1. *)
Lemma prep_new_forward_width_witness :
  exists p g' m,
    prep_new node_embedding 1 2 0 = (Ok p, g') /\
    prep_output_dim p = 65 /\
    prep_forward p [0; 2] (Some [[1%R]; [2%R]]) 1 = Ok (Some m) /\
    has_shape 2 65 m.
Proof.
  destruct (@prep_new_forward_width nat rot_source node_embedding 1 2 [0; 2]
              [[1%R]; [2%R]] 1 0) as [p [g' [m [Hp [Hd [Hm Sm]]]]]].
  - repeat constructor.
  - split; [reflexivity|]. repeat constructor.
  - exists p, g', m. split; [exact Hp|]. split; [exact Hd|]. split; [exact Hm|].
    now rewrite Hd in Sm.
Defined.

(** The max-pooling aggregator on two nodes with two neighbours each. *)
Lemma aggregator_new_forward_width_witness :
  exists a g' out,
    aggregator_new max_pool 1 3 None 0 = (Ok a, g') /\
    agg_output_dim a = Ok 6 /\
    agg_forward a (Some [[1%R]; [2%R]]) (Some [[1%R]; [2%R]; [3%R]; [4%R]]) = Ok out /\
    has_shape 2 6 out.
Proof.
  destruct (@aggregator_new_forward_width nat rot_source max_pool 1 3 2 2 None
              [[1%R]; [2%R]] [[1%R]; [2%R]; [3%R]; [4%R]] 0)
    as [a [g' [out [Ha [Hd [Hout Sout]]]]]].
  - split; [lia|]. split; [lia|]. split; [lia|].
    split; (split; [reflexivity|repeat constructor]).
  - exists a, g', out. split; [exact Ha|]. split; [exact Hd|]. split; assumption.
Defined.

(** ** The order of the neighbours *)

Lemma vadd_swap (x y z : list R) : vadd x (vadd y z) = vadd y (vadd x z).
Proof.
  revert y z. induction x as [|a x IH]; intros [|b y] [|c z]; try reflexivity.
  - unfold vadd in *. simpl. f_equal; [lra|]. apply IH.
Qed.

Lemma colsum_perm (d : nat) (m m' : list (list R)) :
  Permutation m m' -> colsum d m = colsum d m'.
Proof.
  unfold colsum. induction 1 as [|x l l' _ IH|x y l|l1 l2 l3 _ IH1 _ IH2]; simpl.
  - reflexivity.
  - now rewrite IH.
  - apply vadd_swap.
  - now rewrite IH1.
Qed.

Lemma size1_perm (k d : nat) (m m' : list (list R)) :
  0 < k -> has_shape k d m -> Permutation m m' -> size1 m' = size1 m.
Proof.
  intros Hk Hm Hp.
  assert (Hm' : has_shape k d m').
  { destruct Hm as [Hl Hr]. split.
    - now rewrite <- (Permutation_length Hp).
    - eapply Permutation_Forall; eassumption. }
  now rewrite (has_shape_size1 Hm Hk), (has_shape_size1 Hm' Hk).
Qed.

Lemma mean_dim1_perm (k d : nat) (blocks blocks' : list (list (list R))) :
  0 < k -> Forall (has_shape k d) blocks ->
  Forall2 (@Permutation (list R)) blocks blocks' ->
  mean_dim1 blocks = mean_dim1 blocks'.
Proof.
  intros Hk Hsh Hp. unfold mean_dim1.
  induction Hp as [|m m' t t' Hm _ IH]; [reflexivity|].
  inversion Hsh as [|? ? Hm_sh Ht_sh]; subst. simpl.
  rewrite (IH Ht_sh), (size1_perm Hk Hm_sh Hm), (colsum_perm _ Hm).
  now rewrite (Permutation_length Hm).
Qed.

Lemma blocks_concat_shape {A} (B k d : nat) (blocks : list (list (list A))) :
  length blocks = B -> Forall (has_shape k d) blocks ->
  has_shape (B * k) d (concat blocks) /\ has_shape B k blocks.
Proof.
  intros Hl Hsh.
  assert (Hbk : has_shape B k blocks).
  { split; [exact Hl|]. eapply Forall_impl; [|exact Hsh]. now intros m [Hm _]. }
  split; [|exact Hbk]. split.
  - apply (concat_length_shape Hbk).
  - apply Forall_concat. eapply Forall_impl; [|exact Hsh]. now intros m [_ Hm].
Qed.

Lemma blocks_perm_shape (k d : nat) (blocks blocks' : list (list (list R))) :
  Forall (has_shape k d) blocks ->
  Forall2 (@Permutation (list R)) blocks blocks' ->
  length blocks' = length blocks /\ Forall (has_shape k d) blocks'.
Proof.
  intros Hsh Hp. induction Hp as [|m m' t t' Hm _ IH]; [now split|].
  inversion Hsh as [|? ? [Hl Hr] Ht_sh]; subst.
  destruct (IH Ht_sh) as [IHl IHs]. split; [simpl; now rewrite IHl|].
  constructor; [|exact IHs]. split.
  - now rewrite <- (Permutation_length Hm).
  - eapply Permutation_Forall; eassumption.
Qed.

Lemma view_blocks (B k d : nat) (x : matrix) (blocks : list (list (list R))) :
  0 < B -> 0 < k -> 0 < d -> length x = B -> length blocks = B ->
  Forall (has_shape k d) blocks ->
  view3 (size0 x) (size1 (concat blocks)) (concat blocks) = Ok blocks.
Proof.
  intros HB Hk Hd Hx Hl Hsh.
  destruct (blocks_concat_shape Hl Hsh) as [Hc Hbk].
  destruct (view_groups HB Hk Hd Hx Hc) as [Hv _].
  now rewrite Hv, (chunks_concat Hbk).
Qed.

(** X10: the mean aggregator does not depend on the order of a node's
    neighbours: rearranging the [k] neighbour rows inside each node's block
    leaves its result, value or exception, unchanged. *)
Theorem MeanAggregator_forward_neighbour_order (a : MeanAggregator) (B k d : nat)
    (x : matrix) (blocks blocks' : list (list (list R))) :
  0 < B -> 0 < k -> 0 < d -> length x = B -> length blocks = B ->
  Forall (has_shape k d) blocks ->
  Forall2 (@Permutation (list R)) blocks blocks' ->
  MeanAggregator_forward a (Some x) (Some (concat blocks))
  = MeanAggregator_forward a (Some x) (Some (concat blocks')).
Proof.
  intros HB Hk Hd Hx Hl Hsh Hp.
  destruct (blocks_perm_shape Hsh Hp) as [Hl' Hsh'].
  unfold MeanAggregator_forward. cbn [expect rbind].
  rewrite (view_blocks HB Hk Hd Hx Hl Hsh).
  rewrite (view_blocks HB Hk Hd Hx (eq_trans Hl' Hl) Hsh').
  cbn [rbind]. now rewrite (mean_dim1_perm Hk Hsh Hp).
Qed.

(** Two nodes, the two neighbours of each swapped. *)
Lemma MeanAggregator_forward_neighbour_order_witness :
  let one := {| in_features := 1; out_features := 1; weight := [[1%R]]; bias := None |} in
  let a := {| mean_fc_x := one; mean_fc_neib := one; mean_output_dim_ := 1;
              mean_activation := None; mean_combine_fn := default_combine_fn |} in
  MeanAggregator_forward a (Some [[1%R]; [2%R]]) (Some [[3%R]; [4%R]; [5%R]; [6%R]])
  = MeanAggregator_forward a (Some [[1%R]; [2%R]]) (Some [[4%R]; [3%R]; [6%R]; [5%R]]).
Proof.
  intros one a.
  apply (@MeanAggregator_forward_neighbour_order a 2 2 1 [[1%R]; [2%R]]
           [[[3%R]; [4%R]]; [[5%R]; [6%R]]] [[[4%R]; [3%R]]; [[6%R]; [5%R]]]);
    try lia; try reflexivity.
  - repeat constructor.
  - repeat constructor.
Defined.

Lemma nth_vmax (u v : list R) (j : nat) :
  j < length u -> j < length v ->
  nth j (vmax u v) 0%R = Rmax (nth j u 0%R) (nth j v 0%R).
Proof.
  revert v j. induction u as [|a u IH]; intros [|b v] [|j] Hu Hv; simpl in *; try lia.
  - reflexivity.
  - apply IH; lia.
Qed.

Lemma fold_vmax_spec (h : nat) (rest : list (list R)) :
  forall row, length row = h -> Forall (fun r => length r = h) rest ->
    forall j, j < h ->
      (forall r, In r (row :: rest) ->
         (nth j r 0 <= nth j (fold_left vmax rest row) 0)%R) /\
      (exists r, In r (row :: rest) /\
         nth j (fold_left vmax rest row) 0%R = nth j r 0%R).
Proof.
  induction rest as [|r1 rest IH]; intros row Hrow Hrest j Hj.
  - simpl. split.
    + intros r [<-|[]]. lra.
    + exists row. split; [now left|reflexivity].
  - inversion Hrest as [|? ? Hr1 Hrest']; subst.
    assert (Hv : length (vmax row r1) = length row) by now apply vmax_length.
    destruct (IH (vmax row r1) Hv Hrest' j Hj) as [Hub [r [Hr Heq]]].
    pose proof (Hub (vmax row r1) (or_introl eq_refl)) as Hhead.
    rewrite nth_vmax in Hhead by lia.
    cbn [fold_left]. split.
    + intros r' [<-|[<-|Hin]].
      * pose proof (Rmax_l (nth j row 0%R) (nth j r1 0%R)). lra.
      * pose proof (Rmax_r (nth j row 0%R) (nth j r1 0%R)). lra.
      * apply Hub. now right.
    + destruct Hr as [<-|Hin].
      * rewrite nth_vmax in Heq by lia.
        destruct (Rle_dec (nth j row 0%R) (nth j r1 0%R)) as [E|E].
        -- rewrite Rmax_right in Heq by exact E.
           exists r1. split; [right; now left|exact Heq].
        -- rewrite Rmax_left in Heq by lra.
           exists row. split; [now left|exact Heq].
      * exists r. split; [right; now right|exact Heq].
Qed.

Lemma fold_vmax_perm (h : nat) (row row' : list R) (rest rest' : list (list R)) :
  Forall (fun r => length r = h) (row :: rest) ->
  Permutation (row :: rest) (row' :: rest') ->
  fold_left vmax rest row = fold_left vmax rest' row'.
Proof.
  intros Hall Hp.
  assert (Hall' : Forall (fun r => length r = h) (row' :: rest'))
    by (eapply Permutation_Forall; eassumption).
  pose proof (Forall_inv Hall) as Hrow. pose proof (Forall_inv_tail Hall) as Hrest.
  pose proof (Forall_inv Hall') as Hrow'. pose proof (Forall_inv_tail Hall') as Hrest'.
  cbv beta in Hrow, Hrow'.
  apply (nth_ext _ _ 0%R 0%R).
  - now rewrite (fold_vmax_length Hrow Hrest), (fold_vmax_length Hrow' Hrest').
  - intros j Hj. rewrite (fold_vmax_length Hrow Hrest) in Hj.
    destruct (fold_vmax_spec Hrow Hrest Hj) as [Hub [r [Hr Heq]]].
    destruct (fold_vmax_spec Hrow' Hrest' Hj) as [Hub' [r' [Hr' Heq']]].
    apply Rle_antisym.
    + rewrite Heq. apply Hub'. exact (Permutation_in _ Hp Hr).
    + rewrite Heq'. apply Hub. exact (Permutation_in _ (Permutation_sym Hp) Hr').
Qed.

Lemma max_dim1_perm (k h : nat) (blocks blocks' : list (list (list R))) :
  Forall (has_shape k h) blocks ->
  Forall2 (@Permutation (list R)) blocks blocks' ->
  max_dim1 blocks = max_dim1 blocks'.
Proof.
  intros Hsh Hp. unfold max_dim1.
  induction Hp as [|m m' t t' Hm _ IH]; [reflexivity|].
  inversion Hsh as [|? ? [Hl Hr] Ht_sh]; subst. simpl.
  rewrite (IH Ht_sh).
  destruct m as [|row rest], m' as [|row' rest'].
  - reflexivity.
  - apply Permutation_nil in Hm. discriminate.
  - apply Permutation_sym, Permutation_nil in Hm. discriminate.
  - now rewrite (fold_vmax_perm Hr Hm).
Qed.

(** X11: the pooling aggregators (max and mean pooling) do not depend on
    the order of a node's neighbours either: the hidden layer is applied to
    every neighbour row on its own and the pooling function is symmetric. *)
Theorem PoolAggregator_forward_neighbour_order (a : PoolAggregator) (B k d : nat)
    (x : matrix) (blocks blocks' : list (list (list R))) :
  PoolAggregator_wf d a ->
  0 < B -> 0 < k -> 0 < d -> length x = B -> length blocks = B ->
  Forall (has_shape k d) blocks ->
  Forall2 (@Permutation (list R)) blocks blocks' ->
  PoolAggregator_forward a (Some x) (Some (concat blocks))
  = PoolAggregator_forward a (Some x) (Some (concat blocks')).
Proof.
  intros [h [Hh [Hmlp [_ [_ [Hpool _]]]]]] HB Hk Hd Hx Hl Hsh Hp.
  destruct (blocks_perm_shape Hsh Hp) as [Hl' Hsh'].
  set (f := fun row => match Linear_row (pool_mlp a) row with
                       | Ok y => map relu y
                       | Raise _ => []
                       end).
  assert (Hf : forall row, length row = d ->
            Linear_row (pool_mlp a) row
            = Ok (match Linear_row (pool_mlp a) row with Ok y => y | Raise _ => [] end) /\
            length (f row) = h).
  { intros row Hrow. destruct (Linear_row_shape Hmlp Hrow) as [y [Hy Ly]].
    unfold f. rewrite Hy. split; [reflexivity|]. now rewrite length_map. }
  assert (Hhidden : forall bs, Forall (has_shape k d) bs ->
            (h_neibs <- Linear_forward (pool_mlp a) (concat bs) ;;
             Ok (map (map relu) h_neibs))
            = Ok (concat (map (map f) bs)) /\
            Forall (has_shape k h) (map (map f) bs)).
  { intros bs Hbs. split.
    - unfold Linear_forward.
      rewrite (mapM_ok (g:=fun row => match Linear_row (pool_mlp a) row with
                                      | Ok y => y | Raise _ => [] end)).
      + cbn [rbind]. f_equal. rewrite map_map, concat_map.
        f_equal. apply map_ext. intros m. apply map_ext. intros row.
        unfold f. destruct (Linear_row (pool_mlp a) row); reflexivity.
      + apply Forall_concat. eapply Forall_impl; [|exact Hbs].
        intros m [_ Hm]. eapply Forall_impl; [|exact Hm].
        intros row Hrow. now apply Hf.
    - apply Forall_forall. intros m Hm. apply in_map_iff in Hm.
      destruct Hm as [m0 [<- Hm0]]. rewrite Forall_forall in Hbs.
      destruct (Hbs _ Hm0) as [Hl0 Hr0]. split; [now rewrite length_map|].
      apply Forall_forall. intros r Hr. apply in_map_iff in Hr.
      destruct Hr as [r0 [<- Hr0']]. rewrite Forall_forall in Hr0.
      now apply Hf, Hr0. }
  assert (Hp_h : Forall2 (@Permutation (list R)) (map (map f) blocks) (map (map f) blocks')).
  { clear -Hp. induction Hp as [|m m' t t' Hm _ IH]; simpl; constructor;
      [now apply Permutation_map|exact IH]. }
  destruct (Hhidden blocks Hsh) as [E1 S1].
  destruct (Hhidden blocks' Hsh') as [E2 S2].
  assert (Hfwd : forall bs hb,
            (h_neibs <- Linear_forward (pool_mlp a) (concat bs) ;;
             Ok (map (map relu) h_neibs)) = Ok (concat hb) ->
            length hb = B -> Forall (has_shape k h) hb ->
            PoolAggregator_forward a (Some x) (Some (concat bs))
            = (agg_neib <- pool_pool_fn a hb ;;
               a1 <- Linear_forward (pool_fc_x a) x ;;
               b1 <- Linear_forward (pool_fc_neib a) agg_neib ;;
               out <- pool_combine_fn a [a1; b1] ;;
               Ok (apply_activation (pool_activation a) out))).
  { intros bs hb E Lhb Shb. unfold PoolAggregator_forward. cbn [expect rbind].
    destruct (Linear_forward (pool_mlp a) (concat bs)) as [hn|e]; [|discriminate].
    cbn [rbind] in *. inversion E as [E']. rewrite E'.
    now rewrite (view_blocks HB Hk Hh Hx Lhb Shb). }
  rewrite (Hfwd blocks _ E1) by (rewrite ?length_map; assumption).
  rewrite (Hfwd blocks' _ E2) by (rewrite ?length_map; try assumption; lia).
  assert (Hpool_eq : pool_pool_fn a (map (map f) blocks)
                     = pool_pool_fn a (map (map f) blocks')).
  { destruct Hpool as [-> | ->].
    - apply (max_dim1_perm S1 Hp_h).
    - unfold mean_pool_fn. f_equal. apply (mean_dim1_perm Hk S1 Hp_h). }
  now rewrite Hpool_eq.
Qed.

(** Max pooling over two nodes, the two neighbours of each swapped. *)
Lemma PoolAggregator_forward_neighbour_order_witness :
  let one := {| in_features := 1; out_features := 1; weight := [[1%R]]; bias := None |} in
  let a := {| pool_mlp := one; pool_fc_x := one; pool_fc_neib := one;
              pool_output_dim_ := 1; pool_activation := None;
              pool_pool_fn := max_pool_fn; pool_combine_fn := default_combine_fn |} in
  PoolAggregator_forward a (Some [[1%R]; [2%R]]) (Some [[3%R]; [4%R]; [5%R]; [6%R]])
  = PoolAggregator_forward a (Some [[1%R]; [2%R]]) (Some [[4%R]; [3%R]; [6%R]; [5%R]]).
Proof.
  intros one a.
  assert (Hone : Linear_dims one 1 1).
  { split; [|split; reflexivity]. split; [|exact I].
    split; [reflexivity|repeat constructor]. }
  apply (@PoolAggregator_forward_neighbour_order a 2 2 1 [[1%R]; [2%R]]
           [[[3%R]; [4%R]]; [[5%R]; [6%R]]] [[[4%R]; [3%R]]; [[6%R]; [5%R]]]);
    try lia; try reflexivity.
  - exists 1. split; [lia|]. split; [exact Hone|]. split; [exact Hone|].
    split; [exact Hone|]. split; [now left|reflexivity].
  - repeat constructor.
  - repeat constructor.
Defined.

(** ** Neighbour rows that do not divide among the nodes *)

Lemma view3_ragged (B n w : nat) (x t : matrix) :
  0 < B -> 0 < w -> 0 < n -> length x = B -> has_shape n w t -> n mod B <> 0 ->
  view3 (size0 x) (size1 t) t = Raise RuntimeError.
Proof.
  intros HB Hw Hn Hx Ht Hmod. unfold view3, size0.
  rewrite Hx, (has_shape_size1 Ht Hn), (concat_length_shape Ht).
  destruct (Nat.eqb_spec (B * w) 0) as [E|_]; [nia|]. cbn [negb].
  rewrite Nat.Div0.mul_mod_distr_r.
  destruct (Nat.eqb_spec (n mod B * w) 0) as [E|_]; [nia|reflexivity].
Qed.

(** X12: when the number of neighbour rows is not a multiple of the number
    of node rows, every aggregator raises at its [view(x.size(0), -1, ...)]:
    neighbour rows are never dropped or padded to make the blocks fit. *)
Theorem agg_forward_ragged_neighbours (a : aggregator) (B n d : nat) (x neibs : matrix) :
  agg_wf d a -> 0 < B -> 0 < d -> 0 < n ->
  has_shape B d x -> has_shape n d neibs -> n mod B <> 0 ->
  agg_forward a (Some x) (Some neibs) = Raise RuntimeError.
Proof.
  intros Hwf HB Hd Hn Hx Hneibs Hmod.
  assert (Lx : length x = B) by apply Hx.
  destruct a as [a|a|a|a]; cbn [agg_wf agg_forward] in *.
  - unfold MeanAggregator_forward. cbn [expect rbind].
    now rewrite (view3_ragged HB Hd Hn Lx Hneibs Hmod).
  - destruct Hwf as [h [Hh [Hmlp _]]].
    destruct (Linear_forward_shape Hmlp Hneibs) as [hn [Ehn Shn]].
    unfold PoolAggregator_forward. cbn [expect rbind]. rewrite Ehn. cbn [rbind].
    now rewrite (view3_ragged HB Hh Hn Lx (has_shape_map relu Shn) Hmod).
  - destruct Hwf as [_ [Hfcx _]].
    destruct (Linear_forward_shape Hfcx Hx) as [xe [Exe _]].
    unfold LSTMAggregator_forward. cbn [expect rbind]. rewrite Exe. cbn [rbind].
    now rewrite (view3_ragged HB Hd Hn Lx Hneibs Hmod).
  - destruct Hwf as [h [Hh [H1 [H2 _]]]].
    destruct (att_forward_shape H1 H2 Hneibs) as [na [Ena Sna]].
    destruct (att_forward_shape H1 H2 Hx) as [xa [Exa _]].
    unfold AttentionAggregator_forward, AttentionAggregator_weights.
    cbn [expect rbind]. rewrite Ena. cbn [rbind]. rewrite Exa. cbn [rbind].
    now rewrite (view3_ragged HB Hh Hn Lx Sna Hmod).
Qed.

(** Three neighbour rows for two nodes. *)
Lemma agg_forward_ragged_neighbours_witness :
  let one := {| in_features := 1; out_features := 1; weight := [[1%R]]; bias := None |} in
  let a := AggMean {| mean_fc_x := one; mean_fc_neib := one; mean_output_dim_ := 1;
                      mean_activation := None; mean_combine_fn := default_combine_fn |} in
  agg_forward a (Some [[1%R]; [2%R]]) (Some [[3%R]; [4%R]; [5%R]]) = Raise RuntimeError.
Proof.
  intros one a.
  assert (Hone : Linear_dims one 1 1).
  { split; [|split; reflexivity]. split; [|exact I].
    split; [reflexivity|repeat constructor]. }
  apply (@agg_forward_ragged_neighbours a 2 3 1); try lia.
  - split; [exact Hone|]. split; [exact Hone|reflexivity].
  - split; [reflexivity|repeat constructor].
  - split; [reflexivity|repeat constructor].
  - simpl. lia.
Defined.

Section ConstructionSpec.
Context {rng : Type} `{RandomSource rng}.

Lemma sampler_new_is_ok (sc : sampler_class) (adj : adjacency) :
  is_ok (sampler_new sc adj)
  = match sc with
    | uniform_neighbor_sampler => true
    | sparse_uniform_neighbor_sampler => issparse adj
    end.
Proof. destruct sc, adj; reflexivity. Qed.

Lemma sampler_new_raise (adj : adjacency) :
  issparse adj = false ->
  sampler_new sparse_uniform_neighbor_sampler adj
  = Raise (AssertionError "SparseUniformNeighborSampler: not sparse.issparse(adj)").
Proof. destruct adj; [reflexivity|discriminate]. Qed.

Lemma GSSupervised_init_ok (input_dim n_nodes n_classes : nat)
    (specs : list layer_spec) (c : aggregator_class) (pc : prep_class)
    (sc : sampler_class) (adj train_adj : adjacency) (qw : bool) (g : rng)
    (ts vs : sampler) :
  sampler_new sc train_adj = Ok ts -> sampler_new sc adj = Ok vs ->
  exists self g',
    GSSupervised_init input_dim n_nodes n_classes specs c pc sc adj train_adj qw g
    = (Ok self, g') /\
    train_sampler self = ts /\ val_sampler self = vs /\
    length (agg_layers self) = length specs /\
    train_sample_fns self = map n_train_samples specs /\
    val_sample_fns self = map n_val_samples specs /\
    Forall2 (fun a spec => agg_output_dim a = Ok (2 * output_dim spec))
            (agg_layers self) specs /\
    in_features (gs_fc self)
    = last (map (fun spec => 2 * output_dim spec) specs) (prep_output_dim (gs_prep self)) /\
    out_features (gs_fc self) = n_classes /\
    time_steps self = (if qw then Some 4 else None) /\ quantum_walk self = qw.
Proof.
  intros Hts Hvs.
  destruct (prep_new_total pc input_dim n_nodes g) as [p [g1 Hp]].
  destruct (build_agg_layers_ok c specs (prep_output_dim p) g1)
    as [aggs [d_last [g2 [Haggs [_ [Hout [_ Hlast]]]]]]].
  destruct (Linear_init_ok d_last n_classes true g2) as [fc [g3 [Hfc [_ [Hin Hcls]]]]].
  eexists. eexists. split.
  - unfold GSSupervised_init.
    rewrite (bind_lift_ok _ _ Hts), (bind_lift_ok _ _ Hvs).
    rewrite (bind_ok _ Hp), (bind_ok _ Haggs). cbn [fst snd].
    rewrite (bind_ok _ Hfc). reflexivity.
  - cbn [train_sampler val_sampler agg_layers train_sample_fns val_sample_fns gs_fc
         gs_prep time_steps quantum_walk fst snd].
    split; [reflexivity|]. split; [reflexivity|].
    split; [exact (Forall2_length_eq Hout)|].
    split; [reflexivity|]. split; [reflexivity|].
    split; [|split; [congruence|split; [exact Hcls|split; reflexivity]]].
    eapply Forall2_impl; [|exact Hout]. now intros a spec [_ [_ Ha]].
Qed.

(** X13: construction of the model fails only on the sampler: with the
    dense sampler class it succeeds for every configuration, with the
    sparse class exactly when both adjacencies are sparse, and a refused
    adjacency raises the sampler's assertion before any parameter is drawn.
    A model that is built has one aggregator and one train and one
    validation sample count per layer spec, a head that reads the
    [output_dim] of the last aggregator (of the preparer without layers)
    and returns [n_classes] scores; the attribute [time_steps] is 4 on a
    quantum-walk model and is not set on any other. *)
Theorem GSSupervised_init_total (input_dim n_nodes n_classes : nat)
    (specs : list layer_spec) (c : aggregator_class) (pc : prep_class)
    (sc : sampler_class) (adj train_adj : adjacency) (qw : bool) (g : rng) :
  let built := GSSupervised_init input_dim n_nodes n_classes specs c pc sc adj train_adj
                                 qw g in
  is_ok (fst built)
  = match sc with
    | uniform_neighbor_sampler => true
    | sparse_uniform_neighbor_sampler => issparse train_adj && issparse adj
    end /\
  (is_ok (fst built) = false ->
   built = (Raise (AssertionError "SparseUniformNeighborSampler: not sparse.issparse(adj)"),
            g)) /\
  (forall self g', built = (Ok self, g') ->
     length (agg_layers self) = length specs /\
     train_sample_fns self = map n_train_samples specs /\
     val_sample_fns self = map n_val_samples specs /\
     Forall2 (fun a spec => agg_output_dim a = Ok (2 * output_dim spec))
             (agg_layers self) specs /\
     in_features (gs_fc self)
     = last (map (fun spec => 2 * output_dim spec) specs)
            (prep_output_dim (gs_prep self)) /\
     out_features (gs_fc self) = n_classes /\
     time_steps self = (if qw then Some 4 else None) /\ quantum_walk self = qw).
Proof.
  intros built.
  destruct (sampler_new sc train_adj) as [ts|e1] eqn:Ets.
  - destruct (sampler_new sc adj) as [vs|e2] eqn:Evs.
    + destruct (@GSSupervised_init_ok input_dim n_nodes n_classes specs c pc sc adj
                  train_adj qw g ts vs Ets Evs) as [self [g' [Hinit Hrest]]].
      fold built in Hinit. rewrite Hinit. cbn [fst is_ok].
      split; [|split].
      * pose proof (sampler_new_is_ok sc train_adj) as H1.
        pose proof (sampler_new_is_ok sc adj) as H2.
        rewrite Ets in H1. rewrite Evs in H2. cbn [is_ok] in H1, H2.
        destruct sc; [reflexivity|]. now rewrite <- H1, <- H2.
      * discriminate.
      * intros self' g'' Heq. inversion Heq; subst self' g''.
        destruct Hrest as [_ [_ Hrest]]. exact Hrest.
    + assert (Hraise : built
                = (Raise (AssertionError
                            "SparseUniformNeighborSampler: not sparse.issparse(adj)"), g)).
      { unfold built, GSSupervised_init. rewrite (bind_lift_ok _ _ Ets).
        destruct sc; [discriminate|].
        assert (Hadj : issparse adj = false).
        { pose proof (sampler_new_is_ok sparse_uniform_neighbor_sampler adj) as H2.
          rewrite Evs in H2. now symmetry. }
        rewrite (sampler_new_raise Hadj). reflexivity. }
      rewrite Hraise. cbn [fst is_ok]. split; [|split].
      * pose proof (sampler_new_is_ok sc adj) as H2. rewrite Evs in H2. cbn [is_ok] in H2.
        destruct sc; [discriminate|]. rewrite <- H2. now rewrite andb_false_r.
      * reflexivity.
      * discriminate.
  - assert (Hraise : built
              = (Raise (AssertionError
                          "SparseUniformNeighborSampler: not sparse.issparse(adj)"), g)).
    { unfold built, GSSupervised_init.
      destruct sc; [discriminate|].
      assert (Hadj : issparse train_adj = false).
      { pose proof (sampler_new_is_ok sparse_uniform_neighbor_sampler train_adj) as H2.
        rewrite Ets in H2. now symmetry. }
      rewrite (sampler_new_raise Hadj). reflexivity. }
    rewrite Hraise. cbn [fst is_ok]. split; [|split].
    + pose proof (sampler_new_is_ok sc train_adj) as H2. rewrite Ets in H2.
      cbn [is_ok] in H2. destruct sc; [discriminate|]. now rewrite <- H2.
    + reflexivity.
    + discriminate.
Qed.

End ConstructionSpec.

(** ** The classifier head *)

Lemma norm2_scale (c : R) (v : list R) :
  (0 < c)%R -> norm2 (map (fun x => (c * x)%R) v) = (c * norm2 v)%R.
Proof.
  intros Hc.
  rewrite (map_ext _ (fun x => (x / / c)%R)).
  2:{ intros x. field. lra. }
  rewrite norm2_div by (now apply Rinv_0_lt_compat).
  field. lra.
Qed.

Lemma normalize_scale_row (c : R) (row : list R) :
  (0 < c)%R -> (normalize_eps <= norm2 row)%R -> (normalize_eps <= c * norm2 row)%R ->
  map (fun x => (x / Rmax (norm2 (map (fun x => (c * x)%R) row)) normalize_eps)%R)
      (map (fun x => (c * x)%R) row)
  = map (fun x => (x / Rmax (norm2 row) normalize_eps)%R) row.
Proof.
  intros Hc Hn Hcn. pose proof normalize_eps_pos as Heps.
  rewrite (norm2_scale _ Hc), !Rmax_left by assumption.
  rewrite map_map. apply map_ext. intros x. field. split; lra.
Qed.

(** X14: the head sees the direction of an embedding row only: rescaling
    the rows of the surviving group by a positive factor leaves the result
    of the head unchanged, as long as the norms stay at or above the
    [eps = 1e-12] of [F.normalize]. *)
Theorem classify_scale_invariant (f : matrix) (c : R) :
  (0 < c)%R ->
  Forall (fun row => (normalize_eps <= norm2 row)%R /\
                     (normalize_eps <= c * norm2 row)%R) f ->
  normalize (map (map (fun x => (c * x)%R)) f) = normalize f /\
  forall self : GSSupervised,
    classify self [Some (map (map (fun x => (c * x)%R)) f)] = classify self [Some f].
Proof.
  intros Hc Hrows.
  assert (Hnorm : normalize (map (map (fun x => (c * x)%R)) f) = normalize f).
  { unfold normalize. rewrite map_map. apply map_ext_in. intros row Hrow.
    rewrite Forall_forall in Hrows. destruct (Hrows row Hrow) as [Hn Hcn].
    now apply normalize_scale_row. }
  split; [exact Hnorm|]. intros self.
  unfold classify. cbn [length Nat.eqb getitem nth_error expect rbind].
  now rewrite Hnorm.
Qed.

(** The row [(3, 4)] of norm 5, doubled. *)
Lemma classify_scale_invariant_witness :
  normalize [[(2 * 3)%R; (2 * 4)%R]] = normalize [[3%R; 4%R]].
Proof.
  assert (H5 : norm2 [3%R; 4%R] = 5%R).
  { unfold norm2. simpl. replace (3 * 3 + (4 * 4 + 0))%R with (5 * 5)%R by lra.
    apply sqrt_square. lra. }
  assert (Heps : (normalize_eps <= 1)%R).
  { unfold normalize_eps. apply Rle_trans with (/ 1)%R; [|rewrite Rinv_1; lra].
    apply Rinv_le_contravar; [lra|]. apply pow_R1_Rle. lra. }
  destruct (@classify_scale_invariant [[3%R; 4%R]] 2%R) as [Hn _].
  - lra.
  - constructor; [|constructor]. rewrite H5. split; lra.
  - exact Hn.
Defined.

(** ** Attention over at least two neighbours *)

(** X15: with at least two neighbours per node the attention weights are
    what the aggregator means them to be: the score of a neighbour is the
    inner product of its attention vector with that of its own node, and
    the weights of a node are the softmax of its own [k] scores; they lie
    strictly between 0 and 1 and sum to 1.  (For a single node [squeeze()]
    also drops the batch dimension and the weights are a vector.) *)
Theorem AttentionAggregator_weights_per_node (a : AttentionAggregator) (B k d : nat)
    (x neibs : matrix) :
  AttentionAggregator_wf d a -> agg_inputs B k d x neibs -> 2 <= k ->
  exists na xa,
    att_forward a neibs = Ok na /\ att_forward a x = Ok xa /\
    let S := score_rows (chunks k B na) xa in
    has_shape B k S /\
    AttentionAggregator_weights a x neibs
    = Ok (if B =? 1 then T1 (softmax_vec (concat S)) else T2 (map softmax_vec S)) /\
    (B = 1 -> concat S = nth 0 S []) /\
    Forall (fun scores => rsum (softmax_vec scores) = 1%R /\
                          Forall (fun w => (0 < w < 1)%R) (softmax_vec scores)) S.
Proof.
  intros [h [Hh [H1 [H2 _]]]] [HB [Hk [Hd [Hx Hn]]]] Hk2.
  destruct (att_forward_shape H1 H2 Hn) as [na [Hna Sna]].
  destruct (att_forward_shape H1 H2 Hx) as [xa [Hxa Sxa]].
  destruct (view_groups HB Hk Hh (proj1 Hx) Sna) as [Hview [Hlen Hgroups]].
  pose proof (score_rows_shape Hlen Hgroups (proj1 Sxa)) as HS.
  exists na, xa. split; [exact Hna|]. split; [exact Hxa|].
  set (S := score_rows (chunks k B na) xa) in *. cbv zeta.
  split; [exact HS|]. split; [|split].
  - unfold AttentionAggregator_weights.
    rewrite Hna. cbn [rbind]. rewrite Hxa. cbn [rbind]. rewrite Hview. cbn [rbind].
    rewrite (bmm_scores Hh Hgroups) by now rewrite Hlen. cbn [rbind].
    fold S. rewrite (squeeze3_scores HB Hk HS). unfold squeeze2.
    rewrite (proj1 HS), (has_shape_size1 HS HB).
    destruct (Nat.eqb_spec k 1); [lia|]. rewrite orb_false_r.
    destruct (Nat.eqb_spec B 1) as [E|E]; [|reflexivity].
    assert (Hc : length (concat S) = B * k) by apply (concat_length_shape HS).
    unfold squeeze1. destruct (concat S) as [|s0 [|s1 rest]]; simpl in Hc; try nia.
    reflexivity.
  - intros E. destruct HS as [HSl _]. rewrite E in HSl.
    destruct S as [|s [|s' S']]; simpl in HSl; try lia. simpl. apply app_nil_r.
  - destruct HS as [_ HSr]. eapply Forall_impl; [|exact HSr].
    intros scores Hlen_s. cbv beta in Hlen_s. split.
    + apply rsum_softmax_vec. intros ->. simpl in Hlen_s. lia.
    + apply softmax_vec_below_one. lia.
Qed.

(** Two nodes with two neighbours each. *)
Lemma AttentionAggregator_weights_per_node_witness :
  let one := {| in_features := 1; out_features := 1; weight := [[1%R]]; bias := None |} in
  let a := {| att_1 := one; att_2 := one; att_fc_x := one; att_fc_neib := one;
              att_output_dim_ := 1; att_activation := None;
              att_combine_fn := default_combine_fn |} in
  exists W,
    AttentionAggregator_weights a [[0%R]; [0%R]] [[0%R]; [0%R]; [0%R]; [0%R]]
    = Ok (T2 W) /\ length W = 2.
Proof.
  intros one a.
  assert (Hone : Linear_dims one 1 1).
  { split; [|split; reflexivity]. split; [|exact I].
    split; [reflexivity|repeat constructor]. }
  destruct (@AttentionAggregator_weights_per_node a 2 2 1 [[0%R]; [0%R]]
              [[0%R]; [0%R]; [0%R]; [0%R]]) as [na [xa [_ [_ [HS [Hw _]]]]]].
  - exists 1. split; [lia|]. split; [exact Hone|]. split; [exact Hone|].
    split; [exact Hone|]. split; [exact Hone|reflexivity].
  - split; [lia|]. split; [lia|]. split; [lia|].
    split; (split; [reflexivity|repeat constructor]).
  - lia.
  - eexists. split; [exact Hw|]. rewrite length_map. apply HS.
Defined.

Section ForwardEdges.
Context {rng : Type} `{RandomSource rng}.

(** X16: a seed id that is not a row of the feature matrix makes the
    forward pass raise at [feats[ids]], its first step: nothing is sampled
    and the state of the model, generator included, is left as it was. *)
Theorem forward_seed_out_of_range (self : GSSupervised) (ids : list nat) (f : matrix)
    (train : bool) (st : model_state rng) :
  Exists (fun i => length f <= i) ids ->
  forward self ids (Some f) train st = (Raise IndexError, st).
Proof.
  intros Hex. unfold forward, forward_groups.
  unfold bind at 1. unfold bind at 1. unfold lift, select_feats.
  now rewrite (index_select_raise Hex).
Qed.

(** X17: a model without layers samples nothing: its forward pass is the
    head applied to the normalized prepared features of the seeds, and it
    leaves the state of the model, generator included, as it was. *)
Theorem forward_without_layers (self : GSSupervised) (ids : list nat)
    (feats : option matrix) (train : bool) (st : model_state rng) :
  train_sample_fns self = [] -> val_sample_fns self = [] -> agg_layers self = [] ->
  quantum_walk self = false ->
  forward self ids feats train st
  = ((tmp_feats <- select_feats feats ids ;;
      f0 <- prep_forward (gs_prep self) ids tmp_feats 0 ;;
      f <- expect f0 ;;
      Linear_forward (gs_fc self) (normalize f))%res, st).
Proof.
  intros Ht Hv Ha Hq. unfold forward, forward_groups.
  rewrite Ht, Hv, Ha, Hq.
  unfold bind, lift, ret.
  destruct (select_feats feats ids) as [tmp|e]; [|reflexivity]. cbn [rbind].
  destruct (prep_forward (gs_prep self) ids tmp 0) as [f0|e]; [|reflexivity].
  cbn [rbind]. destruct train; cbn [sample_layers aggregate_layers]; unfold ret;
    unfold classify; cbn [length Nat.eqb getitem nth_error rbind]; reflexivity.
Qed.

End ForwardEdges.

(** Seed 3 against features of three nodes. *)
Lemma forward_seed_out_of_range_witness :
  let adj := DenseAdj [[1; 2]; [0; 2]; [0; 1]] in
  let one := {| in_features := 1; out_features := 1; weight := [[1%R]]; bias := None |} in
  let self :=
    {| train_sampler := DenseSampler {| uns_adj := adj |};
       val_sampler := DenseSampler {| uns_adj := adj |};
       train_sample_fns := []; val_sample_fns := [];
       gs_prep := PrepIdentity {| ip_input_dim := 1 |};
       quantum_walk := false; gs_adj := adj; gs_train_adj := adj;
       time_steps := None;
       agg_layers := []; gs_fc := one |} in
  forward self [0; 3] (Some [[1%R]; [1%R]; [1%R]]) true (initial_state self 0)
  = (Raise IndexError, initial_state self 0).
Proof.
  intros adj one self.
  apply (@forward_seed_out_of_range nat rot_source).
  apply Exists_cons_tl, Exists_cons_hd. simpl. lia.
Defined.

(** The head alone on the features of seed 1. *)
Lemma forward_without_layers_witness :
  let adj := DenseAdj [[1; 2]; [0; 2]; [0; 1]] in
  let one := {| in_features := 1; out_features := 1; weight := [[1%R]]; bias := None |} in
  let self :=
    {| train_sampler := DenseSampler {| uns_adj := adj |};
       val_sampler := DenseSampler {| uns_adj := adj |};
       train_sample_fns := []; val_sample_fns := [];
       gs_prep := PrepIdentity {| ip_input_dim := 1 |};
       quantum_walk := false; gs_adj := adj; gs_train_adj := adj;
       time_steps := None;
       agg_layers := []; gs_fc := one |} in
  forward self [1] (Some [[1%R]; [2%R]; [3%R]]) true (initial_state self 0)
  = (Linear_forward one (normalize [[2%R]]), initial_state self 0).
Proof.
  intros adj one self.
  rewrite (@forward_without_layers nat rot_source self [1] (Some [[1%R]; [2%R]; [3%R]])
             true (initial_state self 0) eq_refl eq_refl eq_refl eq_refl).
  reflexivity.
Defined.

(** ** The swap operator of the walk *)

Lemma argwhere_one_range (row : list nat) :
  Forall (fun v => v < length row) (argwhere_one row).
Proof.
  unfold argwhere_one. apply Forall_forall. intros v Hv.
  apply in_map_iff in Hv. destruct Hv as [[i x] [<- Hin]].
  apply filter_In in Hin. destruct Hin as [Hin _].
  apply in_combine_l in Hin. apply in_seq in Hin. simpl. lia.
Qed.

Lemma swap_slots (n j : nat) (neighbors : list nat) (slots : list nat) :
  j < n -> Forall (fun v => v < n) neighbors ->
  forall (st : list (nat * nat) * list nat),
    Forall (fun p => fst p < n) (fst st) ->
    let st' := fold_left
                 (fun (st : list (nat * nat) * list nat) s =>
                    match nth_error neighbors s with
                    | Some v => (fst st ++ [(v, nth v (snd st) 0)], incr_at v (snd st))
                    | None => (fst st ++ [(j, s)], snd st)
                    end) slots st in
    length (fst st') = length (fst st) + length slots /\
    Forall (fun p => fst p < n) (fst st').
Proof.
  intros Hj Hnb. induction slots as [|s slots IH]; intros st Hst; cbn [fold_left].
  - cbv zeta. split; [simpl; lia|exact Hst].
  - cbv zeta. destruct (nth_error neighbors s) as [v|] eqn:Ev.
    + destruct (IH (fst st ++ [(v, nth v (snd st) 0)], incr_at v (snd st))) as [Hl Hf].
      * cbn [fst]. apply Forall_app. split; [exact Hst|].
        constructor; [|constructor]. cbn [fst].
        rewrite Forall_forall in Hnb. apply Hnb. eapply nth_error_In; eassumption.
      * cbn [fst] in Hl. rewrite length_app in Hl. simpl in Hl.
        split; [simpl; lia|exact Hf].
    + destruct (IH (fst st ++ [(j, s)], snd st)) as [Hl Hf].
      * cbn [fst]. apply Forall_app. split; [exact Hst|].
        constructor; [exact Hj|constructor].
      * cbn [fst] in Hl. rewrite length_app in Hl. simpl in Hl.
        split; [simpl; lia|exact Hf].
Qed.

Lemma swap_rows (n degree : nat) (g : list (list nat)) (rows : list nat) :
  has_shape n n g -> Forall (fun j => j < n) rows ->
  forall (st : list (nat * nat) * list nat),
    Forall (fun p => fst p < n) (fst st) ->
    exists st',
      fold_left
        (fun acc j =>
           st <- acc ;;
           row <- getitem g j ;;
           let neighbors := argwhere_one row in
           Ok (fold_left
                 (fun (st : list (nat * nat) * list nat) s =>
                    match nth_error neighbors s with
                    | Some v => (fst st ++ [(v, nth v (snd st) 0)], incr_at v (snd st))
                    | None => (fst st ++ [(j, s)], snd st)
                    end)
                 (seq 0 degree) st))
        rows (Ok st) = Ok st' /\
      length (fst st') = length (fst st) + length rows * degree /\
      Forall (fun p => fst p < n) (fst st').
Proof.
  intros Hg. induction rows as [|j rows IH]; intros Hrows st Hst; cbn [fold_left].
  - exists st. split; [reflexivity|]. split; [simpl; lia|exact Hst].
  - inversion Hrows as [|? ? Hj Hrows']; subst.
    cbn [rbind]. rewrite (getitem_ok [] (l:=g)) by (rewrite (proj1 Hg); exact Hj).
    cbn [rbind].
    assert (Hnb : Forall (fun v => v < n) (argwhere_one (nth j g []))).
    { pose proof (argwhere_one_range (nth j g [])) as Hr.
      now rewrite (has_shape_nth Hg Hj) in Hr. }
    destruct (@swap_slots n j (argwhere_one (nth j g [])) (seq 0 degree) Hj Hnb st Hst)
      as [Hl Hf].
    cbv zeta in Hl, Hf.
    destruct (IH Hrows' _ Hf) as [st' [Hst' [Hl' Hf']]].
    exists st'. split; [exact Hst'|]. split; [|exact Hf'].
    rewrite Hl', Hl, length_seq. simpl. lia.
Qed.

(** X18: for a local graph over [n] nodes the swap operator is built from
    exactly one index pair per node and slot, [n * degree] pairs whatever
    the edges are (a slot without a neighbour is filled with the node
    itself), and the node index of every pair is a node of the graph. *)
Theorem swap_indices_count (n degree : nat) (g : list (list nat)) :
  has_shape n n g ->
  exists sw, swap_indices n degree g = Ok sw /\
    length sw = n * degree /\ Forall (fun p => fst p < n) sw.
Proof.
  intros Hg. unfold swap_indices.
  destruct (@swap_rows n degree g (seq 0 n) Hg) with (st := (@nil (nat * nat), repeat 0 n))
    as [st' [Hst' [Hl Hf]]].
  - apply Forall_forall. intros j Hj. apply in_seq in Hj. lia.
  - constructor.
  - cbv zeta in Hst' |- *. rewrite Hst'. cbn [rbind]. exists (fst st'). split; [reflexivity|].
    split; [|exact Hf]. rewrite Hl, length_seq. simpl. lia.
Qed.

(** The graph of a single edge, degree 1. *)
Lemma swap_indices_count_witness :
  exists sw, swap_indices 2 1 [[0; 1]; [1; 0]] = Ok sw /\ length sw = 2.
Proof.
  destruct (@swap_indices_count 2 1 [[0; 1]; [1; 0]]) as [sw [Hsw [Hl _]]].
  - split; [reflexivity|repeat constructor].
  - exists sw. split; [exact Hsw|exact Hl].
Defined.

(** ** Local graphs without edges *)

Lemma list_sum_zeros (row : list nat) : Forall (fun v => v = 0) row -> list_sum row = 0.
Proof. induction 1 as [|v row -> _ IH]; simpl; [reflexivity|exact IH]. Qed.

(** X19: when no local graph of a batch has an edge (no sampled id is
    listed in the adjacency row of another id of its chunk), the degree
    [GenerateQuantumWalkGraphs] returns is 0, and a walk layer that has to
    create coins for it raises the division by zero of [groverDiffusion] as
    its first step, leaving its coins as they were. *)
Theorem QuantumWalk_forward_edgeless (adj : adjacency) (tmp : list nat) (B gs : nat)
    (amps : list (list (list (list R)))) (graphs : list (list (list nat))) (degree : nat) :
  GenerateQuantumWalkGraphs adj tmp B gs = Ok (amps, graphs, degree) ->
  Forall (Forall (Forall (fun v => v = 0))) graphs ->
  degree = 0 /\
  forall (x neibs : option (list (list R))) (T : nat) (cs : list (list (list R))),
    0 < T -> length cs = 0 \/ length cs = T ->
    QuantumWalk_forward x neibs amps graphs T degree cs = (Raise ZeroDivisionError, cs).
Proof.
  intros Hgen Hzero.
  destruct (GenerateQuantumWalkGraphs_amps Hgen) as [Hdeg _].
  assert (Hd0 : degree = 0).
  { rewrite Hdeg. apply Nat.le_0_r. apply max_degree_upper.
    eapply Forall_impl; [|exact Hzero]. intros g Hg. cbv beta.
    apply max_row_sum_upper. eapply Forall_impl; [|exact Hg].
    intros row Hrow. cbv beta. now rewrite (list_sum_zeros Hrow). }
  split; [exact Hd0|]. intros x neibs T cs HT Hlen.
  unfold QuantumWalk_forward. unfold bind at 1.
  now rewrite Hd0, (QuantumWalk_alloc_degree_zero HT Hlen).
Qed.

(** The two leaves of a star are not adjacent to each other. *)
Lemma QuantumWalk_forward_edgeless_witness :
  exists amps graphs,
    GenerateQuantumWalkGraphs (DenseAdj [[1; 2]; [0; 0]; [0; 0]]) [1; 2] 1 2
    = Ok (amps, graphs, 0) /\
    QuantumWalk_forward (Some [[1%R]]) (Some [[1%R]; [1%R]]) amps graphs 4 0 []
    = (Raise ZeroDivisionError, []).
Proof.
  eexists. eexists. split; [lazy; reflexivity|].
  refine (proj2 (@QuantumWalk_forward_edgeless (DenseAdj [[1; 2]; [0; 0]; [0; 0]])
                   [1; 2] 1 2 _ _ 0 _ _) _ _ 4 [] _ _).
  - lazy. reflexivity.
  - repeat constructor.
  - lia.
  - now left.
Defined.

(** ** The last time step of a bidirectional LSTM *)

Lemma combine_app_same {A B} (l1 l2 : list A) (l1' l2' : list B) :
  length l1 = length l1' ->
  combine (l1 ++ l2) (l1' ++ l2') = combine l1 l1' ++ combine l2 l2'.
Proof.
  revert l1'. induction l1 as [|a l1 IH]; intros [|b l1'] Hl; simpl in *; try lia.
  - reflexivity.
  - f_equal. apply IH. lia.
Qed.

Lemma last_item_snoc {A} (l : list A) (a : A) : last_item (l ++ [a]) = Ok a.
Proof. unfold last_item. now rewrite rev_app_distr. Qed.

Lemma split_last {A} (l : list A) (d : A) :
  l <> [] -> l = removelast l ++ [last l d].
Proof. intros Hl. now apply app_removelast_last. Qed.

Lemma lstm_scan_final (hs : nat) (d : LSTMDir) (xs : list (list R)) :
  forall (hc : list R * list R) (out : list (list R)),
    xs <> [] -> lstm_scan hs d xs hc = Ok out ->
    exists hcf, lstm_final hs d xs hc = Ok hcf /\ last out [] = fst hcf.
Proof.
  induction xs as [|x xs IH]; intros hc out Hne Hscan; [contradiction|].
  cbn [lstm_scan lstm_final] in *.
  destruct (lstm_cell hs d x hc) as [hc'|e]; [|discriminate]. cbn [rbind] in *.
  destruct (lstm_scan hs d xs hc') as [rest|e] eqn:Erest; [|discriminate].
  cbn [rbind] in Hscan. inversion Hscan; subst out.
  destruct xs as [|x' xs'].
  - cbn [lstm_scan] in Erest. inversion Erest; subst rest.
    exists hc'. split; reflexivity.
  - destruct (IH hc' rest ltac:(discriminate) Erest) as [hcf [Hf Hl]].
    exists hcf. split; [exact Hf|]. rewrite <- Hl.
    destruct rest as [|r rest'].
    + cbn [lstm_scan] in Erest.
      destruct (lstm_cell hs d x' hc') as [hc''|e]; [|discriminate].
      cbn [rbind] in Erest.
      destruct (lstm_scan hs d xs' hc''); discriminate.
    + reflexivity.
Qed.

Lemma LSTM_forward_one_bidirectional (l : LSTM) (dr : LSTMDir) (d k : nat)
    (xs : list (list R)) :
  LSTM_wf d l -> lstm_reverse_dir l = Some dr -> has_shape k d xs -> 0 < k ->
  let hs := lstm_hidden_size l in
  exists out hf cf hb c,
    (fw <- lstm_scan hs (lstm_forward_dir l) xs (repeat 0%R hs, repeat 0%R hs) ;;
     bw <- lstm_scan hs dr (rev xs) (repeat 0%R hs, repeat 0%R hs) ;;
     Ok (map (fun p => fst p ++ snd p) (combine fw (rev bw)))) = Ok out /\
    last_item out = Ok (hf ++ hb) /\ length hf = hs /\
    lstm_final hs (lstm_forward_dir l) xs (repeat 0%R hs, repeat 0%R hs) = Ok (hf, cf) /\
    lstm_cell hs dr (last xs []) (repeat 0%R hs, repeat 0%R hs) = Ok (hb, c).
Proof.
  intros [Hfw Hrev] Hdr [Hlen Hrows] Hk hs. rewrite Hdr in Hrev.
  unfold hs. clear hs.
  set (h0 := (repeat 0%R (lstm_hidden_size l), repeat 0%R (lstm_hidden_size l))).
  assert (Hh0 : length (fst h0) = lstm_hidden_size l /\
                length (snd h0) = lstm_hidden_size l)
    by (split; apply repeat_length).
  destruct (lstm_scan_shape Hfw Hrows (hc:=h0) (proj1 Hh0) (proj2 Hh0))
    as [fw [Efw [Lfw Sfw]]].
  assert (Hne : xs <> []) by (intros ->; simpl in Hlen; lia).
  pose proof (split_last [] Hne) as Hxs.
  assert (Hrows' : Forall (fun x => length x = d) (removelast xs) /\
                   length (last xs []) = d).
  { rewrite Hxs in Hrows. apply Forall_app in Hrows. destruct Hrows as [Hi Hl].
    split; [exact Hi|]. now inversion Hl. }
  destruct Hrows' as [Hinit Hlast].
  destruct (lstm_cell_shape (hc:=h0) Hrev Hlast (proj1 Hh0) (proj2 Hh0))
    as [[hb c] [Ecell [Lhb Lc]]]. cbn [fst snd] in Lhb, Lc.
  assert (Hrev_init : Forall (fun x => length x = d) (rev (removelast xs))).
  { apply Forall_rev. exact Hinit. }
  destruct (lstm_scan_shape Hrev Hrev_init (hc:=(hb, c)) Lhb Lc) as [rest [Erest [Lrest _]]].
  assert (Ebw : lstm_scan (lstm_hidden_size l) dr (rev xs) h0 = Ok (hb :: rest)).
  { rewrite Hxs at 1. rewrite rev_app_distr. cbn [rev app lstm_scan].
    rewrite Ecell. cbn [rbind fst]. rewrite Erest. reflexivity. }
  assert (Hfw_ne : fw <> []) by (intros ->; simpl in Lfw; lia).
  pose proof (split_last [] Hfw_ne) as Hfw_split.
  set (hf := last fw []) in *.
  assert (Lhf : length hf = lstm_hidden_size l).
  { rewrite Forall_forall in Sfw. apply Sfw. rewrite Hfw_split.
    apply in_or_app. right. now left. }
  destruct (lstm_scan_final Hne Efw) as [[hf' cf] [Efinal Hlast_fw]].
  cbn [fst] in Hlast_fw. fold hf in Hlast_fw. subst hf'.
  exists (map (fun p => fst p ++ snd p) (combine (removelast fw) (rev rest)) ++ [hf ++ hb]),
         hf, cf, hb, c.
  split; [|split; [apply last_item_snoc|split; [exact Lhf|split; [exact Efinal|exact Ecell]]]].
  rewrite Efw. cbn [rbind]. rewrite Ebw. cbn [rbind]. f_equal.
  cbn [rev]. rewrite Hfw_split at 1.
  rewrite combine_app_same, map_app; [reflexivity|].
  rewrite length_rev, Lrest, length_rev.
  assert (Hl1 : length fw = length (removelast fw) + 1)
    by (rewrite Hfw_split at 1; rewrite length_app; reflexivity).
  assert (Hl2 : length xs = length (removelast xs) + 1)
    by (rewrite Hxs at 1; rewrite length_app; reflexivity).
  lia.
Qed.

(** X20: with [bidirectional=True] the neighbour representation
    [agg_neib[:, -1, :]] the LSTM aggregator keeps is, for every node, the
    hidden state the forward direction is left in by all [k] neighbours,
    started from zero, followed by the backward hidden state at the last
    position, which is one cell step from zero on the last neighbour alone:
    the backward half does not depend on the other neighbours. *)
Theorem LSTM_forward_last_step_backward (l : LSTM) (dr : LSTMDir) (d k : nat)
    (t : list (list (list R))) :
  LSTM_wf d l -> lstm_reverse_dir l = Some dr -> Forall (has_shape k d) t -> 0 < k ->
  let hs := lstm_hidden_size l in
  exists outs reps,
    LSTM_forward l t = Ok outs /\
    mapM (@last_item (list R)) outs = Ok reps /\
    Forall2 (fun xs rep =>
               exists hf cf hb c,
                 rep = hf ++ hb /\ length hf = hs /\
                 lstm_final hs (lstm_forward_dir l) xs (repeat 0%R hs, repeat 0%R hs)
                 = Ok (hf, cf) /\
                 lstm_cell hs dr (last xs []) (repeat 0%R hs, repeat 0%R hs) = Ok (hb, c))
            t reps.
Proof.
  intros Hwf Hdr Ht Hk hs. unfold hs. clear hs. unfold LSTM_forward. rewrite Hdr.
  induction Ht as [|xs t Hxs _ IH].
  - exists [], []. split; [reflexivity|]. split; [reflexivity|constructor].
  - destruct IH as [outs [reps [Eouts [Ereps Hall]]]].
    destruct (LSTM_forward_one_bidirectional Hwf Hdr Hxs Hk)
      as [out [hf [cf [hb [c [Eout [Elast [Lhf [Efinal Ecell]]]]]]]]].
    cbv zeta in Eout.
    exists (out :: outs), ((hf ++ hb) :: reps).
    split; [|split].
    + cbn [mapM]. rewrite Eout. cbn [rbind]. rewrite Eouts. reflexivity.
    + cbn [mapM]. rewrite Elast. cbn [rbind]. rewrite Ereps. reflexivity.
    + constructor; [|exact Hall]. now exists hf, cf, hb, c.
Qed.

(** A bidirectional LSTM of hidden size 1 on one sequence of two
    neighbours. *)
Lemma LSTM_forward_last_step_backward_witness :
  let gate := {| in_features := 1; out_features := 4;
                 weight := [[1%R]; [1%R]; [1%R]; [1%R]]; bias := None |} in
  let dir := {| lstm_ih := gate; lstm_hh := gate |} in
  let l := {| lstm_hidden_size := 1; lstm_forward_dir := dir;
              lstm_reverse_dir := Some dir |} in
  exists outs reps,
    LSTM_forward l [[[1%R]; [2%R]]] = Ok outs /\
    mapM (@last_item (list R)) outs = Ok reps /\
    Forall2 (fun xs rep =>
               exists hf cf hb c,
                 rep = hf ++ hb /\ length hf = 1 /\
                 lstm_final 1 dir xs ([0%R], [0%R]) = Ok (hf, cf) /\
                 lstm_cell 1 dir (last xs []) ([0%R], [0%R]) = Ok (hb, c))
            [[[1%R]; [2%R]]] reps.
Proof.
  intros gate dir l.
  assert (Hgate : Linear_dims gate 1 4).
  { split; [|split; reflexivity]. split; [|exact I].
    split; [reflexivity|repeat constructor]. }
  apply (@LSTM_forward_last_step_backward l dir 1 2 [[[1%R]; [2%R]]]).
  - split; split; exact Hgate.
  - reflexivity.
  - constructor; [|constructor]. split; [reflexivity|repeat constructor].
  - lia.
Defined.

Section WalkSampling.
Context {rng : Type} `{RandomSource rng}.
Local Open Scope monad_scope.

Lemma int_div_exact (B K : nat) : 0 < B -> int_div (B * K) B = Ok K.
Proof.
  intros HB. unfold int_div. destruct (Nat.eqb_spec B 0); [lia|].
  now rewrite Nat.mul_comm, Nat.div_mul by lia.
Qed.

(** The sampling loop of the first pass of a quantum-walk model. *)
Lemma sample_layers_walk_ok (self : GSSupervised) (smp : sampler) (adj : adjacency)
    (N D B0 : nat) (f : matrix) (all_fns : list Z) :
  prep_wf N D (gs_prep self) -> has_shape N D f -> sampler_wf N smp all_fns ->
  length (adj_rows adj) = N -> 0 < B0 ->
  forall (fns : list Z) (layer_idx K0 : nat) (ids : list nat)
         (all_feats : list (option matrix)) (st : model_state rng),
    Forall (fun k => In k all_fns) fns ->
    quantum_neighbors st = true -> 0 < K0 -> length ids = B0 * K0 ->
    Forall (fun i => i < N) ids ->
    exists new st' amps graphs degrees,
      sample_layers self smp adj (Some f) B0 layer_idx fns ids all_feats st
      = (Ok (all_feats ++ new), st') /\
      length new = length fns /\
      quantum_neighbors st' = true /\ coins st' = coins st /\
      all_amps st' = all_amps st ++ amps /\
      all_graphs st' = all_graphs st ++ graphs /\
      max_degrees st' = max_degrees st ++ degrees /\
      length amps = length fns /\ length graphs = length fns /\
      length degrees = length fns /\
      (forall m, m < length fns ->
         walk_record_ok B0 (K0 * prod (firstn (S m) (map Z.to_nat fns)))
                        (nth m amps []) (nth m graphs []) (nth m degrees 0)) /\
      (forall j, j < length fns ->
         exists m, nth j new None = Some m /\
                   has_shape (B0 * (K0 * prod (firstn (S j) (map Z.to_nat fns))))
                             (prep_output_dim (gs_prep self)) m).
Proof.
  intros Hprep Hf Hsmp Hadj HB0 fns.
  induction fns as [|k fns IH];
    intros layer_idx K0 ids all_feats st Hfns Hq HK0 Hlen Hids.
  - exists [], st, [], [], []. cbn [sample_layers]. rewrite !app_nil_r.
    split; [reflexivity|]. split; [reflexivity|]. split; [exact Hq|].
    split; [reflexivity|]. split; [reflexivity|]. split; [reflexivity|].
    split; [reflexivity|]. split; [reflexivity|]. split; [reflexivity|].
    split; [reflexivity|]. split; intros m Hm; simpl in Hm; lia.
  - apply Forall_cons_iff in Hfns. destruct Hfns as [Hk Hfns].
    assert (Hne : ids <> []).
    { intros E. rewrite E in Hlen. simpl in Hlen. nia. }
    destruct (sampler_call_ok (st_rng st) Hsmp Hk Hne Hids)
      as [t [g' [Hcall [Lt [Hk1 Hrange]]]]].
    destruct (@with_rng_ok _ _ _ st _ _ Hcall) as [st1 [Hwith Hsame1]].
    destruct Hsame1 as [Hq1 [Ha1 [Hg1 [Hd1 Hc1]]]].
    set (K1 := K0 * Z.to_nat k).
    assert (HK1 : 0 < K1) by (unfold K1; nia).
    assert (Lt' : length (view_flat t) = B0 * K1) by (unfold K1; rewrite Lt, Hlen; lia).
    assert (Hrange' : Forall (fun i => i < length (adj_rows adj)) (view_flat t))
      by now rewrite Hadj.
    destruct (GenerateQuantumWalkGraphs_run HK1 Lt' Hrange') as [gr [Hgen [Lgr Hgr]]].
    assert (Hrec : walk_record_ok B0 K1 (map (init_amps_graph (max_degree gr)) gr) gr
                                  (max_degree gr)).
    { apply binary_graphs_record; [exact Lgr|].
      intros c Hc. destruct (Hgr c Hc) as [Hs [Hb _]]. now split. }
    set (amps1 := map (init_amps_graph (max_degree gr)) gr) in *.
    set (st2 := {| st_rng := st_rng st1; quantum_neighbors := quantum_neighbors st1;
                   all_amps := all_amps st1 ++ [amps1];
                   all_graphs := all_graphs st1 ++ [gr];
                   max_degrees := max_degrees st1 ++ [max_degree gr];
                   coins := coins st1 |}).
    destruct (select_feats_ok Hf Hrange) as [fr [Hfr Sfr]].
    destruct (prep_forward_ok (layer_idx + 1) Hprep Hrange Sfr) as [m0 [Hm0 Sm0]].
    assert (Hq2 : quantum_neighbors st2 = true) by (cbn; congruence).
    destruct (IH (S layer_idx) K1 (view_flat t) (all_feats ++ [Some m0]) st2
                 Hfns Hq2 HK1 Lt' Hrange)
      as [new [st' [amps [graphs [degrees
            [Hrun [Lnew [Hq' [Hc' [Ha' [Hg' [Hd' [La [Lg [Ld [Hrecs Hshapes]]]]]]]]]]]]]]]].
    exists (Some m0 :: new), st', (amps1 :: amps), (gr :: graphs),
           (max_degree gr :: degrees).
    split; [|split; [|split; [|split; [|split; [|split; [|split]]]]]].
    + cbn [sample_layers]. rewrite (bind_ok _ Hwith).
      rewrite bind_get_state, Hq1, Hq.
      assert (Hblock :
                (gsz <- lift (int_div (length (view_flat t)) B0) ;;
                 r <- lift (GenerateQuantumWalkGraphs adj (view_flat t) B0 gsz) ;;
                 (let '(amps, graphs, max_degree) := r in
                  append_walk_records amps graphs max_degree)) st1
                = (Ok tt, st2)).
      { rewrite Lt', (bind_lift_ok _ _ (int_div_exact K1 HB0)).
        rewrite (bind_lift_ok _ _ Hgen). reflexivity. }
      rewrite (bind_ok _ Hblock).
      rewrite (bind_lift_ok _ _ Hfr), (bind_lift_ok _ _ Hm0).
      rewrite Hrun. now rewrite <- app_assoc.
    + simpl. now rewrite Lnew.
    + exact Hq'.
    + rewrite Hc'. cbn. exact Hc1.
    + rewrite Ha'. cbn [all_amps st2]. rewrite Ha1. now rewrite <- app_assoc.
    + rewrite Hg'. cbn [all_graphs st2]. rewrite Hg1. now rewrite <- app_assoc.
    + rewrite Hd'. cbn [max_degrees st2]. rewrite Hd1. now rewrite <- app_assoc.
    + split; [simpl; now rewrite La|]. split; [simpl; now rewrite Lg|].
      split; [simpl; now rewrite Ld|]. split.
      * intros m Hm. destruct m as [|m].
        -- cbn [nth map firstn prod fold_right]. rewrite Nat.mul_1_r. exact Hrec.
        -- simpl in Hm. cbn [nth].
           change (firstn (S (S m)) (map Z.to_nat (k :: fns)))
             with (Z.to_nat k :: firstn (S m) (map Z.to_nat fns)).
           cbn [prod fold_right]. fold (prod (firstn (S m) (map Z.to_nat fns))).
           rewrite Nat.mul_assoc. apply Hrecs. lia.
      * intros j Hj. destruct j as [|j].
        -- exists m0. split; [reflexivity|].
           cbn [map firstn prod fold_right]. rewrite Nat.mul_1_r.
           fold K1. now rewrite <- Lt'.
        -- simpl in Hj. destruct (Hshapes j ltac:(lia)) as [m [Hm Sm]].
           exists m. split; [exact Hm|].
           change (firstn (S (S j)) (map Z.to_nat (k :: fns)))
             with (Z.to_nat k :: firstn (S j) (map Z.to_nat fns)).
           cbn [prod fold_right]. fold (prod (firstn (S j) (map Z.to_nat fns))).
           unfold K1 in Sm. now rewrite <- Nat.mul_assoc in Sm.
Qed.

(** X21: the first pass of a quantum-walk model (flag [quantum_neighbors]
    still on) over features and an adjacency of [N] nodes: the sampling
    phase succeeds, builds one feature group per depth, turns the flag off
    and appends one walk record per layer; the record of layer [m] holds,
    for each of the [B] seeds, one local graph over all
    [k1 * ... * km] ids sampled for that seed at that depth. *)
Theorem forward_groups_walk_records (self : GSSupervised) (N D : nat) (ids : list nat)
    (f : matrix) (train : bool) (st : model_state rng) :
  quantum_walk self = true -> quantum_neighbors st = true ->
  let fns := if train then train_sample_fns self else val_sample_fns self in
  let smp := if train then train_sampler self else val_sampler self in
  let adj := if train then gs_train_adj self else gs_adj self in
  sampler_wf N smp fns -> length (adj_rows adj) = N ->
  prep_wf N D (gs_prep self) -> has_shape N D f ->
  ids <> [] -> Forall (fun i => i < N) ids ->
  exists groups st' amps graphs degrees,
    forward_groups self ids (Some f) train st = (Ok groups, st') /\
    length groups = length fns + 1 /\
    quantum_neighbors st' = false /\ coins st' = coins st /\
    all_amps st' = all_amps st ++ amps /\
    all_graphs st' = all_graphs st ++ graphs /\
    max_degrees st' = max_degrees st ++ degrees /\
    length amps = length fns /\ length graphs = length fns /\
    length degrees = length fns /\
    forall m, m < length fns ->
      walk_record_ok (length ids) (prod (firstn (S m) (map Z.to_nat fns)))
                     (nth m amps []) (nth m graphs []) (nth m degrees 0).
Proof.
  intros Hqw Hq fns smp adj Hsmp Hadj Hprep Hf Hne Hids.
  assert (HB : 0 < length ids) by (destruct ids; [contradiction|simpl; lia]).
  destruct (select_feats_ok Hf Hids) as [fr [Hfr Sfr]].
  destruct (prep_forward_ok 0 Hprep Hids Sfr) as [m0 [Hm0 Sm0]].
  assert (Hall : Forall (fun k => In k fns) fns) by (apply Forall_forall; auto).
  destruct (@sample_layers_walk_ok self smp adj N D (length ids) f fns Hprep Hf Hsmp Hadj HB
              fns 0 1 ids [Some m0] st Hall Hq ltac:(lia) ltac:(lia) Hids)
    as [new [st1 [amps [graphs [degrees
          [Hrun [Lnew [Hq1 [Hc1 [Ha1 [Hg1 [Hd1 [La [Lg [Ld [Hrecs _]]]]]]]]]]]]]]]].
  set (st' := {| st_rng := st_rng st1; quantum_neighbors := false;
                 all_amps := all_amps st1; all_graphs := all_graphs st1;
                 max_degrees := max_degrees st1; coins := coins st1 |}).
  exists ([Some m0] ++ new), st', amps, graphs, degrees.
  split; [|split; [|split; [|split; [|split; [|split; [|split]]]]]].
  - unfold forward_groups. fold fns smp adj.
    rewrite (bind_lift_ok _ _ Hfr), (bind_lift_ok _ _ Hm0).
    rewrite (bind_ok _ Hrun), Hqw. reflexivity.
  - rewrite length_app, Lnew. simpl. lia.
  - reflexivity.
  - exact Hc1.
  - exact Ha1.
  - exact Hg1.
  - exact Hd1.
  - split; [exact La|]. split; [exact Lg|]. split; [exact Ld|].
    intros m Hm. specialize (Hrecs m Hm). now rewrite Nat.mul_1_l in Hrecs.
Qed.

End WalkSampling.

(** The first pass of a one-layer quantum-walk model on seed 0. *)
Lemma forward_groups_walk_records_witness :
  let adj := DenseAdj [[1; 2]; [0; 2]; [0; 1]; [3; 3]] in
  let one := {| in_features := 1; out_features := 1; weight := [[1%R]]; bias := None |} in
  let self :=
    {| train_sampler := DenseSampler {| uns_adj := adj |};
       val_sampler := DenseSampler {| uns_adj := adj |};
       train_sample_fns := [2%Z]; val_sample_fns := [2%Z];
       gs_prep := PrepIdentity {| ip_input_dim := 1 |};
       quantum_walk := true; gs_adj := adj; gs_train_adj := adj;
       time_steps := Some 4;
       agg_layers := [AggMean {| mean_fc_x := one; mean_fc_neib := one;
                                 mean_output_dim_ := 1; mean_activation := None;
                                 mean_combine_fn := default_combine_fn |}];
       gs_fc := {| in_features := 2; out_features := 1; weight := [[1%R; 1%R]];
                   bias := Some [0%R] |} |} in
  exists groups st' graphs,
    forward_groups self [0] (Some [[1%R]; [1%R]; [1%R]; [1%R]]) true (initial_state self 0)
    = (Ok groups, st') /\
    length groups = 2 /\ quantum_neighbors st' = false /\
    all_graphs st' = graphs /\ length graphs = 1 /\
    Forall (has_shape 2 2) (nth 0 graphs []).
Proof.
  intros adj one self.
  destruct (@forward_groups_walk_records nat rot_source self 4 1 [0]
              [[1%R]; [1%R]; [1%R]; [1%R]] true (initial_state self 0))
    as [groups [st' [amps [graphs [degrees
          [Hrun [Lg [Hq [_ [_ [Hgr [_ [_ [Lgr [_ Hrec]]]]]]]]]]]]]]].
  - reflexivity.
  - reflexivity.
  - exists [[1; 2]; [0; 2]; [0; 1]; [3; 3]], 2. split; [reflexivity|]. split.
    + split; [split; [reflexivity|repeat constructor]|]. repeat constructor.
    + constructor; [lia|constructor].
  - reflexivity.
  - reflexivity.
  - split; [reflexivity|repeat constructor].
  - discriminate.
  - repeat constructor.
  - exists groups, st', graphs. split; [exact Hrun|]. split; [exact Lg|].
    split; [exact Hq|]. split; [exact Hgr|]. split; [exact Lgr|].
    destruct (Hrec 0) as [_ [Hs _]]; [simpl; lia|]. exact Hs.
Defined.

(** * The feature groups of a forward pass *)

Section FeatureGroups.
Context {rng : Type} `{RandomSource rng}.

Lemma aggregate_layers_length (self : GSSupervised) (layers : list aggregator) :
  forall (gs out : list (option matrix)) (sa sb : model_state rng),
    aggregate_layers self layers gs sa = (Ok out, sb) ->
    length out = length gs - length layers.
Proof.
  induction layers as [|a layers IH]; intros gs out sa sb Hrun;
    cbn [aggregate_layers] in Hrun.
  - inversion Hrun; subst. simpl. lia.
  - apply bind_inv_ok in Hrun. destruct Hrun as [g1 [s1 [Ha Hrest]]].
    apply aggregate_layer_length in Ha. apply IH in Hrest. simpl. lia.
Qed.

Lemma with_coins_raise {A} (m : M (list matrix) A) (st : model_state rng) (e : exn) :
  m (coins st) = (Raise e, coins st) -> with_coins m st = (Raise e, st).
Proof. unfold with_coins. intros ->. now destruct st. Qed.

Lemma QuantumWalk_forward_degree_zero (x neibs : option matrix) (amps : tensor4)
    (graphs : list graph) (T : nat) (cs : list matrix) :
  0 < T -> length cs = 0 \/ length cs = T ->
  QuantumWalk_forward x neibs amps graphs T 0 cs = (Raise ZeroDivisionError, cs).
Proof.
  intros HT Hlen. unfold QuantumWalk_forward. unfold bind at 1.
  now rewrite (QuantumWalk_alloc_degree_zero HT Hlen).
Qed.

(** The sampling phase of any pass, whether it generates walk records or
    not, builds one group per depth. *)
Lemma forward_groups_built (self : GSSupervised) (N D : nat) (ids : list nat)
    (f : matrix) (train : bool) (st : model_state rng) :
  let fns := if train then train_sample_fns self else val_sample_fns self in
  let smp := if train then train_sampler self else val_sampler self in
  let adj := if train then gs_train_adj self else gs_adj self in
  sampler_wf N smp fns -> prep_wf N D (gs_prep self) -> has_shape N D f ->
  ids <> [] -> Forall (fun i => i < N) ids ->
  (quantum_neighbors st = true -> length (adj_rows adj) = N) ->
  exists groups st1,
    forward_groups self ids (Some f) train st = (Ok groups, st1) /\
    groups_ok (prep_output_dim (gs_prep self)) (length ids) (map Z.to_nat fns)
              (length fns + 1) groups.
Proof.
  intros fns smp adj Hsmp Hprep Hf Hne Hids Hadj.
  assert (HB : 0 < length ids) by (destruct ids; [contradiction|simpl; lia]).
  destruct (select_feats_ok Hf Hids) as [fr [Hfr Sfr]].
  destruct (prep_forward_ok 0 Hprep Hids Sfr) as [m0 [Hm0 Sm0]].
  assert (Hall : Forall (fun k => In k fns) fns) by (apply Forall_forall; auto).
  assert (Hnew : exists new st1,
             sample_layers self smp adj (Some f) (length ids) 0 fns ids [Some m0] st
             = (Ok ([Some m0] ++ new), st1) /\
             length new = length fns /\
             forall j, j < length fns ->
               exists m, nth j new None = Some m /\
                         has_shape (length ids * prod (firstn (S j) (map Z.to_nat fns)))
                                   (prep_output_dim (gs_prep self)) m).
  { destruct (quantum_neighbors st) eqn:Hq.
    - destruct (@sample_layers_walk_ok _ _ self smp adj N D (length ids) f fns Hprep Hf Hsmp
                  (Hadj eq_refl) HB fns 0 1 ids [Some m0] st Hall Hq ltac:(lia) ltac:(lia)
                  Hids)
        as [new [st1 [amps [graphs [degrees
              [Hrun [Lnew [_ [_ [_ [_ [_ [_ [_ [_ [_ Hshapes]]]]]]]]]]]]]]]].
      exists new, st1. split; [exact Hrun|]. split; [exact Lnew|].
      intros j Hj. destruct (Hshapes j Hj) as [m [Hm Sm]].
      exists m. split; [exact Hm|]. now rewrite Nat.mul_1_l in Sm.
    - destruct (sample_layers_ok adj (length ids) Hprep Hf Hsmp 0 [Some m0] Hall Hq Hne Hids)
        as [new [st1 [Hrun [_ [Lnew [_ Hshapes]]]]]].
      exists new, st1. split; [exact Hrun|]. split; [exact Lnew|exact Hshapes]. }
  destruct Hnew as [new [st1 [Hrun [Lnew Hshapes]]]].
  assert (Hfin : exists st2,
             forward_groups self ids (Some f) train st = (Ok ([Some m0] ++ new), st2)).
  { unfold forward_groups. fold fns smp adj.
    rewrite (bind_lift_ok _ _ Hfr), (bind_lift_ok _ _ Hm0), (bind_ok _ Hrun).
    destruct (quantum_walk self); eexists; reflexivity. }
  destruct Hfin as [st2 Hfin].
  exists ([Some m0] ++ new), st2. split; [exact Hfin|]. split.
  - rewrite length_app, Lnew. simpl. lia.
  - intros i Hi. destruct i as [|j].
    + exists m0. split; [reflexivity|]. unfold group_size.
      cbn [firstn prod fold_right]. now rewrite Nat.mul_1_r.
    + destruct (Hshapes j ltac:(lia)) as [m [Hm Sm]].
      exists m. split; [exact Hm|exact Sm].
Qed.

(** C1, on the code.  For a non-empty batch of [B] seed ids the sampling
    phase of every pass, with or without the quantum walk, builds [L + 1]
    feature groups, the group of depth [i] with [B * k1 * ... * ki] rows.
    Every aggregation layer that returns takes [n] groups to [n - 1], a
    stack of [j] layers to [n - j], and a pass that returns has [L] layers
    and reduced the groups to exactly one.  On a well-formed model without
    the quantum walk every pass returns: the first [j] layers leave
    [L + 1 - j] groups, all [L] of them one group of [B] rows, and the pass
    returns [B] rows of logits.  On a quantum-walk model the reduction does
    not always happen: when the record of the first layer has maximum
    degree 0 and the walk layer still creates coins, the first aggregation
    layer raises [ZeroDivisionError] and so does the pass.  A list of
    groups whose length is not 1 makes the final step raise the assertion
    error. *)
Theorem forward_feature_groups (self : GSSupervised) (N D : nat) (ids : list nat)
    (f : matrix) (train : bool) (st : model_state rng) :
  let fns := if train then train_sample_fns self else val_sample_fns self in
  let smp := if train then train_sampler self else val_sampler self in
  let adj := if train then gs_train_adj self else gs_adj self in
  let ks := map Z.to_nat fns in
  let L := length ks in
  let B := length ids in
  sampler_wf N smp fns -> prep_wf N D (gs_prep self) -> has_shape N D f ->
  ids <> [] -> Forall (fun i => i < N) ids ->
  (quantum_neighbors st = true -> length (adj_rows adj) = N) ->
  exists groups st1,
    forward_groups self ids (Some f) train st = (Ok groups, st1) /\
    length groups = L + 1 /\
    (forall i, i <= L ->
       exists m, nth i groups None = Some m /\ length m = B * prod (firstn i ks)) /\
    (forall a gs out (sa sb : model_state rng),
       aggregate_layer self a gs sa = (Ok out, sb) -> length out = length gs - 1) /\
    (forall layers gs out (sa sb : model_state rng),
       aggregate_layers self layers gs sa = (Ok out, sb) ->
       length out = length gs - length layers) /\
    (forall logits st2,
       forward self ids (Some f) train st = (Ok logits, st2) ->
       length (agg_layers self) = L /\
       exists out, aggregate_layers self (agg_layers self) groups st1
                   = (Ok [Some out], st2)) /\
    (model_wf N D self -> quantum_neighbors st = false ->
       (forall j, j <= L ->
          exists gj, aggregate_layers self (firstn j (agg_layers self)) groups st1
                     = (Ok gj, st1) /\
                     length gj = L + 1 - j) /\
       exists out logits,
         aggregate_layers self (agg_layers self) groups st1 = (Ok [Some out], st1) /\
         length out = B /\
         forward self ids (Some f) train st = (Ok logits, st1) /\
         has_shape B (out_features (gs_fc self)) logits) /\
    (quantum_walk self = true ->
     forall a rest T ds,
       agg_layers self = a :: rest -> 0 < L ->
       time_steps self = Some T -> 0 < T ->
       length (coins st1) = 0 \/ length (coins st1) = T ->
       all_amps st1 <> [] -> all_graphs st1 <> [] -> max_degrees st1 = 0 :: ds ->
       aggregate_layer self a groups st1 = (Raise ZeroDivisionError, st1) /\
       forward self ids (Some f) train st = (Raise ZeroDivisionError, st1)) /\
    (forall all_feats,
       length all_feats <> 1 ->
       classify self all_feats = Raise (AssertionError "len(all_feats) != 1")).
Proof.
  intros fns smp adj ks L B Hsmp Hprep Hf Hne Hids Hadj.
  destruct (@forward_groups_built self N D ids f train st Hsmp Hprep Hf Hne Hids Hadj)
    as [groups [st1 [Hgroups Hok]]].
  fold fns in Hok. fold ks in Hok.
  assert (HL : length fns = L) by (unfold L, ks; now rewrite length_map).
  rewrite HL in Hok. fold B in Hok.
  assert (Hlen : length groups = L + 1) by apply Hok.
  assert (Hsizes : forall i, i <= L ->
            exists m, nth i groups None = Some m /\ length m = B * prod (firstn i ks)).
  { intros i Hi. destruct Hok as [_ Hok]. destruct (Hok i ltac:(lia)) as [m [Hm Sm]].
    exists m. split; [exact Hm|apply Sm]. }
  assert (HB : 0 < B).
  { unfold B. destruct ids; [contradiction|simpl; lia]. }
  exists groups, st1. split; [exact Hgroups|]. split; [exact Hlen|].
  split; [exact Hsizes|].
  split; [intros a gs out sa sb; apply aggregate_layer_length|].
  split; [intros layers; apply aggregate_layers_length|].
  split; [|split; [|split]].
  - intros logits st2 Hfwd. unfold forward in Hfwd.
    rewrite (bind_ok _ Hgroups) in Hfwd.
    apply bind_inv_ok in Hfwd. destruct Hfwd as [out [s2 [Hagg Hcls]]].
    apply lift_inv_ok in Hcls. destruct Hcls as [Hcls ->].
    destruct (classify_inv Hcls) as [o [-> _]].
    pose proof (aggregate_layers_length Hagg) as Hcount.
    rewrite Hlen in Hcount. cbn [length] in Hcount.
    split; [lia|]. now exists o.
  - intros Hwf Hq0.
    destruct (forward_groups_ok train Hwf Hf Hne Hids Hq0)
      as [groups' [st1' [Hgroups' [_ [Hks [HL' Hok']]]]]].
    rewrite Hgroups in Hgroups'. inversion Hgroups'; subst groups' st1'.
    fold fns in Hks, HL', Hok'. fold ks in Hks, HL', Hok'. fold L in HL', Hok'.
    fold B in Hok'.
    destruct Hwf as [Hq [_ [_ [_ [_ [_ [Hd0 [Hlayers Hfc]]]]]]]].
    split.
    + intros j Hj.
      destruct (@aggregate_layers_ok _ self B ks st1 Hq HB Hks (firstn j (agg_layers self))
                  _ (L + 1) groups (layers_wf_firstn j Hlayers) Hd0 Hok' (Nat.le_refl _))
        as [gj [Hgj Sgj]].
      exists gj. split; [exact Hgj|].
      rewrite length_firstn, <- HL' in Sgj.
      destruct Sgj as [Lgj _]. rewrite Lgj. lia.
    + destruct (@aggregate_layers_ok _ self B ks st1 Hq HB Hks (agg_layers self)
                  _ (L + 1) groups Hlayers Hd0 Hok' (Nat.le_refl _))
        as [out [Hout Sout]].
      rewrite <- HL' in Sout.
      replace (L + 1 - L) with 1 in Sout by lia.
      destruct (classify_ok Sout Hfc) as [logits [Hlogits Slogits]].
      destruct Sout as [Lout Pout]. destruct (Pout 0 ltac:(lia)) as [m [Hm Sm]].
      assert (Eout : out = [Some m]).
      { destruct out as [|o [|o' out]]; simpl in Lout; try lia.
        simpl in Hm. now subst o. }
      exists m, logits. split; [now rewrite <- Eout|]. split.
      * unfold group_size in Sm. cbn [firstn prod fold_right] in Sm.
        rewrite Nat.mul_1_r in Sm. apply Sm.
      * split; [|exact Slogits].
        unfold forward. rewrite (bind_ok _ Hgroups), (bind_ok _ Hout).
        unfold lift. now rewrite Hlogits.
  - intros Hqw a rest T ds Haggs HLpos HT HTpos Hcoins Hamps Hgraphs Hdeg.
    assert (Hlayer : aggregate_layer self a groups st1 = (Raise ZeroDivisionError, st1)).
    { destruct (Hsizes 0 ltac:(lia)) as [m0 [Hm0 _]].
      destruct (Hsizes 1 ltac:(lia)) as [m1 [Hm1 _]].
      assert (Hg0 : getitem groups 0 = Ok (Some m0)).
      { rewrite (getitem_ok None) by lia. now rewrite Hm0. }
      assert (Hg1 : getitem groups (0 + 1) = Ok (Some m1)).
      { change (0 + 1) with 1. rewrite (getitem_ok None) by lia. now rewrite Hm1. }
      destruct (all_amps st1) as [|am ams] eqn:Eam; [contradiction|].
      destruct (all_graphs st1) as [|gr grs] eqn:Egr; [contradiction|].
      unfold aggregate_layer.
      replace (length groups - 1) with (S (L - 1)) by lia.
      cbn [seq mapMM]. apply bind_raise.
      rewrite (bind_lift_ok _ _ Hg0), Hqw, (bind_lift_ok _ _ Hg1).
      rewrite bind_get_state, Eam, Egr, Hdeg, HT.
      cbn [getitem nth_error expect].
      rewrite !(bind_lift_ok _ _ eq_refl).
      apply bind_raise. apply with_coins_raise.
      now apply QuantumWalk_forward_degree_zero. }
    split; [exact Hlayer|].
    unfold forward. rewrite (bind_ok _ Hgroups), Haggs. cbn [aggregate_layers].
    apply bind_raise. apply bind_raise. exact Hlayer.
  - apply classify_assert.
Qed.

End FeatureGroups.

(** The ring of six nodes, raw features of width 4, one layer of fan-out 2,
    the mean aggregator and the pass-through preparer, on the seed 0.
    Without the quantum walk the pass builds two groups and returns one row
    of logits.  With the quantum walk the two sampled neighbours of the
    seed are not adjacent to each other, the record of the layer has
    degree 0, and the pass raises [ZeroDivisionError]. *)
Lemma forward_feature_groups_witness :
  let ring := DenseAdj [[1; 5]; [0; 2]; [1; 3]; [2; 4]; [3; 5]; [4; 0]] in
  let fc := {| in_features := 4; out_features := 2;
               weight := [[1%R; 0%R; 0%R; 0%R]; [0%R; 1%R; 0%R; 0%R]]; bias := None |} in
  let model := fun qw : bool =>
    {| train_sampler := DenseSampler {| uns_adj := ring |};
       val_sampler := DenseSampler {| uns_adj := ring |};
       train_sample_fns := [2%Z]; val_sample_fns := [2%Z];
       gs_prep := PrepIdentity {| ip_input_dim := 4 |};
       quantum_walk := qw; gs_adj := ring; gs_train_adj := ring;
       time_steps := if qw then Some 4 else None;
       agg_layers := [AggMean {| mean_fc_x := fc; mean_fc_neib := fc;
                                 mean_output_dim_ := 2; mean_activation := None;
                                 mean_combine_fn := default_combine_fn |}];
       gs_fc := {| in_features := 4; out_features := 2;
                   weight := [[1%R; 0%R; 0%R; 0%R]; [0%R; 0%R; 1%R; 0%R]];
                   bias := Some [0%R; 0%R] |} |} in
  let row := [1%R; 0%R; 0%R; 1%R] in
  let feats := [row; row; row; row; row; row] in
  (exists groups st1 logits,
     forward_groups (model false) [0] (Some feats) true (initial_state (model false) 0)
     = (Ok groups, st1) /\
     length groups = 2 /\
     forward (model false) [0] (Some feats) true (initial_state (model false) 0)
     = (Ok logits, st1) /\
     has_shape 1 2 logits) /\
  (exists groups st1,
     forward_groups (model true) [0] (Some feats) true (initial_state (model true) 0)
     = (Ok groups, st1) /\
     length groups = 2 /\
     max_degrees st1 = [0] /\
     forward (model true) [0] (Some feats) true (initial_state (model true) 0)
     = (Raise ZeroDivisionError, st1)).
Proof.
  intros ring fc model row feats.
  assert (Hsmp : sampler_wf 6 (DenseSampler {| uns_adj := ring |}) [2%Z]).
  { exists [[1; 5]; [0; 2]; [1; 3]; [2; 4]; [3; 5]; [4; 0]], 2.
    split; [reflexivity|]. split.
    - split; [split; [reflexivity|repeat constructor]|]. repeat constructor.
    - constructor; [lia|constructor]. }
  assert (Hfeats : has_shape 6 4 feats) by (split; [reflexivity|repeat constructor]).
  assert (Hids : Forall (fun i => i < 6) [0]) by repeat constructor.
  assert (Hfc : forall w b, has_shape 2 4 w ->
                  match b with Some v => length v = 2 | None => True end ->
                  Linear_dims {| in_features := 4; out_features := 2; weight := w;
                                 bias := b |} 4 2).
  { intros w b Hw Hb. split; [split; assumption|split; reflexivity]. }
  split.
  - destruct (@forward_feature_groups nat rot_source (model false) 6 4 [0] feats true
                (initial_state (model false) 0) Hsmp eq_refl Hfeats ltac:(discriminate) Hids
                ltac:(discriminate))
      as [groups [st1 [Hgroups [Hlen [_ [_ [_ [_ [Hplain _]]]]]]]]].
    destruct Hplain as [_ [out [logits [_ [_ [Hfwd Hshape]]]]]].
    + split; [reflexivity|]. split; [exact Hsmp|]. split; [exact Hsmp|].
      split; [reflexivity|]. split; [reflexivity|]. split; [reflexivity|].
      split; [exact (le_S _ _ (le_S _ _ (le_S _ _ (le_n 1))))|]. split.
      * split; [|split; [exact (le_S _ _ (le_n 1))|exact I]].
        split; [|split; [|reflexivity]];
          (apply Hfc; [split; [reflexivity|repeat constructor]|exact I]).
      * apply Hfc; [split; [reflexivity|repeat constructor]|reflexivity].
    + reflexivity.
    + exists groups, st1, logits.
      split; [exact Hgroups|]. split; [exact Hlen|]. split; [exact Hfwd|exact Hshape].
  - destruct (@forward_feature_groups nat rot_source (model true) 6 4 [0] feats true
                (initial_state (model true) 0) Hsmp eq_refl Hfeats ltac:(discriminate) Hids
                (fun _ => eq_refl))
      as [groups [st1 [Hgroups [Hlen [_ [_ [_ [_ [_ [Hwalk _]]]]]]]]]].
    assert (Hst : snd (forward_groups (model true) [0] (Some feats) true
                                      (initial_state (model true) 0)) = st1)
      by now rewrite Hgroups.
    assert (Hdeg : max_degrees st1 = [0]) by (rewrite <- Hst; lazy; reflexivity).
    assert (Hcoins : length (coins st1) = 0) by (rewrite <- Hst; lazy; reflexivity).
    assert (Hamps : length (all_amps st1) = 1) by (rewrite <- Hst; lazy; reflexivity).
    assert (Hgraphs : length (all_graphs st1) = 1) by (rewrite <- Hst; lazy; reflexivity).
    exists groups, st1.
    split; [exact Hgroups|]. split; [exact Hlen|]. split; [exact Hdeg|].
    refine (proj2 (Hwalk eq_refl _ [] 4 [] eq_refl (le_n 1) eq_refl
                     (le_S _ _ (le_S _ _ (le_S _ _ (le_n 1)))) (or_introl Hcoins) _ _ Hdeg)).
    + intros E. rewrite E in Hamps. discriminate Hamps.
    + intros E. rewrite E in Hgraphs. discriminate Hgraphs.
Defined.
